(** * treemap-go: a B+ tree map with linked leaves

  A shallow embedding of [treemap/map.go], [treemap/node.go] and
  [treemap/iterator.go].  Nodes are heap objects: the heap is a list of
  cells and a pointer is an index into it ([None] is Go's [nil]).  Go's
  fixed arrays [[maxNodes]T] are lists of length [maxNodes]; slicing,
  [copy], [clear] and indexing fail ([None]) where Go panics.  Keys are
  integers ordered by [cmp.Compare] (the map built by [New]); the value
  type is a parameter with its zero value.  Loops take fuel. *)

From Stdlib Require Import ZArith Lia Sorted.
From stdpp Require Import base numbers option list.

Local Open Scope Z_scope.
Local Open Scope nat_scope.

(** ** Constants of node.go *)

Definition keyDegr : nat := 16.
Definition maxNodes : nat := 2 * keyDegr.
Definition minNodes : nat := keyDegr.

(** A pointer is an index into the heap. *)
Abbreviation addr := nat.

(** ** Go slices over arrays *)

Section Arrays.
Context {A : Type}.

(** [a[i:j]] *)
Definition slice (a : list A) (i j : nat) : option (list A) :=
  if decide (i ≤ j ∧ j ≤ length a) then Some (take (j - i) (drop i a)) else None.

(** [copy(a[off:], src)]: copies [min (len a - off) (len src)] elements;
    the source is read before the destination is written (memmove). *)
Definition copy_into (a : list A) (off : nat) (src : list A) : option (list A) :=
  if decide (off ≤ length a)
  then Some (take off a ++ take (length a - off) src ++ drop (off + length src) a)
  else None.

(** [clear(a[i:j])] *)
Definition clear_range (z : A) (a : list A) (i j : nat) : option (list A) :=
  if decide (i ≤ j ∧ j ≤ length a)
  then Some (take i a ++ replicate (j - i) z ++ drop j a) else None.

(** [a[i] = x] *)
Definition set_at (a : list A) (i : nat) (x : A) : option (list A) :=
  if decide (i < length a) then Some (<[i := x]> a) else None.

(** the zero array *)
Definition zeros (z : A) : list A := replicate maxNodes z.
End Arrays.

(** [n - 1] used as an index: a negative index panics. *)
Definition dec (n : nat) : option nat :=
match n with O => None | S k => Some k end.

(** The nodes keep parallel arrays (keys and values, keys and children)
  and every method repeats one statement pattern per array.  The
  patterns are named here; the arrays of a node are independent, so a
  method is the pattern applied to each of its arrays. *)
Section ArrayPatterns.
Context {A : Type} (z : A).

(** [copy(a[idx+1:], a[idx:n]); a[idx] = x] *)
Definition arr_insert_at (a : list A) (n idx : nat) (x : A) : option (list A) :=
  s ← slice a idx n;
  a ← copy_into a (idx + 1) s;
  set_at a idx x.

(** [copy(a[i:], a[i+1:n]); clear(a[n-1:n])] *)
Definition arr_remove_at (a : list A) (n i : nat) : option (list A) :=
  s ← slice a (i + 1) n;
  a ← copy_into a i s;
  n1 ← dec n;
  clear_range z a n1 n.

(** [copy(r[:], a[tn:n]); clear(a[tn:n])] with [r] a fresh zero array;
    returns the new [a] and [r] *)
Definition arr_split (a : list A) (tn n : nat) : option (list A * list A) :=
  s ← slice a tn n;
  r ← copy_into (zeros z) 0 s;
  a ← clear_range z a tn n;
  Some (a, r).

(** [copy(a[n:], b[:k])] *)
Definition arr_append (a : list A) (n : nat) (b : list A) (k : nat) : option (list A) :=
  s ← slice b 0 k;
  copy_into a n s.

(** [copy(b[:], b[k:n]); clear(b[n-k:n])] *)
Definition arr_shift_down (b : list A) (n k : nat) : option (list A) :=
  s ← slice b k n;
  b ← copy_into b 0 s;
  if decide (k ≤ n) then clear_range z b (n - k) n else None.

(** [copy(b[k:], b[:bn]); copy(b[:], a[an-k:an]); clear(a[an-k:an])];
    returns the new [a] and [b] *)
Definition arr_shift_right (a : list A) (an : nat) (b : list A) (bn k : nat)
  : option (list A * list A) :=
  s ← slice b 0 bn;
  b ← copy_into b k s;
  if decide (k ≤ an) then
    s ← slice a (an - k) an;
    b ← copy_into b 0 s;
    a ← clear_range z a (an - k) an;
    Some (a, b)
  else None.
End ArrayPatterns.

(** [linearSearchOrdered] of map.go *)
Fixpoint linearSearchOrdered (keys : list Z) (target : Z) : nat * bool :=
match keys with
| [] => (0, false)
| key :: rest =>
    if (key =? target)%Z then (0, true)
    else if (key >? target)%Z then (0, false)
    else let '(i, ok) := linearSearchOrdered rest target in (S i, ok)
end.

Section Treemap.
Context {V : Type} (zeroV : V).

(** ** Node and container layout *)

Record leafNode := mkLeaf {
  lf_next : option addr;
  lf_prev : option addr;
  lf_values : list V;
  lf_keys : list Z;
  lf_n : nat }.

Record internalNode := mkInternal {
  in_nodes : list (option addr);
  in_keys : list Z;
  in_n : nat }.

(** The dynamic type behind a [node] interface value. *)
Inductive cell :=
| CLeaf (l : leafNode)
| CInternal (i : internalNode).

Record Map := mkMap {
  m_heap : list cell;
  m_root : addr;
  m_front : addr;
  m_back : addr;
  m_n : Z }.

Record Iterator := mkIt { it_node : addr; it_idx : nat }.

Definition set_heap (m : Map) (h : list cell) : Map :=
  mkMap h (m_root m) (m_front m) (m_back m) (m_n m).
Definition set_root (m : Map) (r : addr) : Map :=
  mkMap (m_heap m) r (m_front m) (m_back m) (m_n m).
Definition set_back (m : Map) (b : addr) : Map :=
  mkMap (m_heap m) (m_root m) (m_front m) b (m_n m).
Definition set_n (m : Map) (k : Z) : Map :=
  mkMap (m_heap m) (m_root m) (m_front m) (m_back m) k.

(** The type assertions of a [node] to a leaf or an internal node. *)
Definition get_leaf (m : Map) (a : addr) : option leafNode :=
  match m_heap m !! a with Some (CLeaf l) => Some l | _ => None end.
Definition get_inode (m : Map) (a : addr) : option internalNode :=
  match m_heap m !! a with Some (CInternal i) => Some i | _ => None end.

Definition put (m : Map) (a : addr) (c : cell) : Map :=
  set_heap m (<[a := c]> (m_heap m)).
(** [&T{...}] *)
Definition alloc (m : Map) (c : cell) : addr * Map :=
  (length (m_heap m), set_heap m (m_heap m ++ [c])).

(** ** Methods of [leafNode] that touch one node *)

Definition leaf_Keys (t : leafNode) : option (list Z) :=
  slice (lf_keys t) 0 (lf_n t).

Definition leaf_LastKey (t : leafNode) : option Z :=
  i ← dec (lf_n t); lf_keys t !! i.

Definition leaf_IsFull (t : leafNode) : bool := bool_decide (lf_n t = maxNodes).

Definition leaf_RemoveAt (t : leafNode) (i : nat) : option leafNode :=
  vs ← arr_remove_at zeroV (lf_values t) (lf_n t) i;
  ks ← arr_remove_at 0%Z (lf_keys t) (lf_n t) i;
  n1 ← dec (lf_n t);
  Some (mkLeaf (lf_next t) (lf_prev t) vs ks n1).

Definition leaf_InsertAt (t : leafNode) (idx : nat) (key : Z) (value : V)
  : option leafNode :=
  vs ← arr_insert_at (lf_values t) (lf_n t) idx value;
  ks ← arr_insert_at (lf_keys t) (lf_n t) idx key;
  Some (mkLeaf (lf_next t) (lf_prev t) vs ks (lf_n t + 1)).

(** ** Methods of [internalNode] that touch one node *)

Definition inode_Keys (i : internalNode) : option (list Z) :=
  slice (in_keys i) 0 (in_n i).

Definition inode_KeysForFindAndRemove (i : internalNode) : option (list Z) :=
  n1 ← dec (in_n i); slice (in_keys i) 0 n1.

Definition inode_LastKey (i : internalNode) : option Z :=
  n1 ← dec (in_n i); in_keys i !! n1.

Definition inode_IsFull (i : internalNode) : bool := bool_decide (in_n i = maxNodes).

Definition inode_RemoveAt (nd : internalNode) (i : nat) : option internalNode :=
  ns ← arr_remove_at None (in_nodes nd) (in_n nd) i;
  ks ← arr_remove_at 0%Z (in_keys nd) (in_n nd) i;
  n1 ← dec (in_n nd);
  Some (mkInternal ns ks n1).

(** ** The [node] interface: dynamic dispatch on the cell *)

Definition Size (m : Map) (a : addr) : option nat :=
  match m_heap m !! a with
  | Some (CLeaf t) => Some (lf_n t)
  | Some (CInternal i) => Some (in_n i)
  | None => None
  end.

Definition LastKey (m : Map) (a : addr) : option Z :=
  match m_heap m !! a with
  | Some (CLeaf t) => leaf_LastKey t
  | Some (CInternal i) => inode_LastKey i
  | None => None
  end.

Definition IsFull (m : Map) (a : addr) : option bool :=
  match m_heap m !! a with
  | Some (CLeaf t) => Some (leaf_IsFull t)
  | Some (CInternal i) => Some (inode_IsFull i)
  | None => None
  end.

(** [leafNode.Split]: the new right sibling is linked into the leaf list. *)
Definition leaf_Split (a : addr) (m : Map) : option (addr * Map) :=
  tnode ← get_leaf m a;
  let '(r, m) := alloc m (CLeaf (mkLeaf (lf_next tnode) None (zeros zeroV) (zeros 0%Z) 0)) in
  let m := put m a (CLeaf (mkLeaf (Some r) (lf_prev tnode) (lf_values tnode)
                                 (lf_keys tnode) (lf_n tnode))) in
  rnd ← get_leaf m r;
  m ← match lf_next rnd with
       | Some nx =>
           nxt ← get_leaf m nx;
           Some (put m nx (CLeaf (mkLeaf (lf_next nxt) (Some r) (lf_values nxt)
                                         (lf_keys nxt) (lf_n nxt))))
       | None => Some (if decide (m_back m = a) then set_back m r else m)
       end;
  tnode ← get_leaf m a;
  rnd ← get_leaf m r;
  let n := lf_n tnode in
  let rn := lf_n tnode / 2 in
  let tn := lf_n tnode - rn in
  '(tvs, rvs) ← arr_split zeroV (lf_values tnode) tn n;
  '(tks, rks) ← arr_split 0%Z (lf_keys tnode) tn n;
  let m := put m r (CLeaf (mkLeaf (lf_next rnd) (Some a) rvs rks rn)) in
  let m := put m a (CLeaf (mkLeaf (lf_next tnode) (lf_prev tnode) tvs tks tn)) in
  Some (r, m).

(** [internalNode.Split] *)
Definition inode_Split (a : addr) (m : Map) : option (addr * Map) :=
  inode ← get_inode m a;
  let n := in_n inode in
  let rn := in_n inode / 2 in
  let tn := in_n inode - rn in
  '(tns, rns) ← arr_split None (in_nodes inode) tn n;
  '(tks, rks) ← arr_split 0%Z (in_keys inode) tn n;
  let '(r, m) := alloc m (CInternal (mkInternal rns rks rn)) in
  Some (r, put m a (CInternal (mkInternal tns tks tn))).

Definition Split (a : addr) (m : Map) : option (addr * Map) :=
  match m_heap m !! a with
  | Some (CLeaf _) => leaf_Split a m
  | Some (CInternal _) => inode_Split a m
  | None => None
  end.

(** [internalNode.SplitAt] *)
Definition SplitAt (ia : addr) (idx : nat) (m : Map) : option Map :=
  inode ← get_inode m ia;
  lnd ← mjoin (in_nodes inode !! idx);
  '(rnd, m) ← Split lnd m;
  inode ← get_inode m ia;
  ns ← arr_insert_at (in_nodes inode) (in_n inode) (idx + 1) (Some rnd);
  lk ← LastKey m lnd;
  ks ← arr_insert_at (in_keys inode) (in_n inode) idx lk;
  Some (put m ia (CInternal (mkInternal ns ks (in_n inode + 1)))).

(** [leafNode.Merge] *)
Definition leaf_Merge (a o : addr) (m : Map) : option Map :=
  rnd ← get_leaf m o;
  tnode ← get_leaf m a;
  vs ← arr_append (lf_values tnode) (lf_n tnode) (lf_values rnd) (lf_n rnd);
  ks ← arr_append (lf_keys tnode) (lf_n tnode) (lf_keys rnd) (lf_n rnd);
  let m := put m a (CLeaf (mkLeaf (lf_next rnd) (lf_prev tnode) vs ks
                                 (lf_n tnode + lf_n rnd))) in
  match lf_next rnd with
  | Some nx =>
      nxt ← get_leaf m nx;
      Some (put m nx (CLeaf (mkLeaf (lf_next nxt) (Some a) (lf_values nxt)
                                    (lf_keys nxt) (lf_n nxt))))
  | None => Some (set_back m a)
  end.

(** [internalNode.Merge] *)
Definition inode_Merge (a o : addr) (m : Map) : option Map :=
  rnd ← get_inode m o;
  inode ← get_inode m a;
  ns ← arr_append (in_nodes inode) (in_n inode) (in_nodes rnd) (in_n rnd);
  ks ← arr_append (in_keys inode) (in_n inode) (in_keys rnd) (in_n rnd);
  Some (put m a (CInternal (mkInternal ns ks (in_n inode + in_n rnd)))).

Definition Merge (a o : addr) (m : Map) : option Map :=
  match m_heap m !! a with
  | Some (CLeaf _) => leaf_Merge a o m
  | Some (CInternal _) => inode_Merge a o m
  | None => None
  end.

(** [leafNode.ShiftLeft]: move the first [n] entries of [o] to the end of [a]. *)
Definition leaf_ShiftLeft (a o : addr) (n : nat) (m : Map) : option Map :=
  rnd ← get_leaf m o;
  tnode ← get_leaf m a;
  vs ← arr_append (lf_values tnode) (lf_n tnode) (lf_values rnd) n;
  ks ← arr_append (lf_keys tnode) (lf_n tnode) (lf_keys rnd) n;
  let m := put m a (CLeaf (mkLeaf (lf_next tnode) (lf_prev tnode) vs ks (lf_n tnode + n))) in
  rnd ← get_leaf m o;
  vs ← arr_shift_down zeroV (lf_values rnd) (lf_n rnd) n;
  ks ← arr_shift_down 0%Z (lf_keys rnd) (lf_n rnd) n;
  Some (put m o (CLeaf (mkLeaf (lf_next rnd) (lf_prev rnd) vs ks (lf_n rnd - n)))).

(** [internalNode.ShiftLeft] *)
Definition inode_ShiftLeft (a o : addr) (n : nat) (m : Map) : option Map :=
  rnd ← get_inode m o;
  inode ← get_inode m a;
  ns ← arr_append (in_nodes inode) (in_n inode) (in_nodes rnd) n;
  ks ← arr_append (in_keys inode) (in_n inode) (in_keys rnd) n;
  let m := put m a (CInternal (mkInternal ns ks (in_n inode + n))) in
  rnd ← get_inode m o;
  ns ← arr_shift_down None (in_nodes rnd) (in_n rnd) n;
  ks ← arr_shift_down 0%Z (in_keys rnd) (in_n rnd) n;
  Some (put m o (CInternal (mkInternal ns ks (in_n rnd - n)))).

Definition ShiftLeft (a o : addr) (n : nat) (m : Map) : option Map :=
  match m_heap m !! a with
  | Some (CLeaf _) => leaf_ShiftLeft a o n m
  | Some (CInternal _) => inode_ShiftLeft a o n m
  | None => None
  end.

(** [leafNode.ShiftRight]: move the last [n] entries of [a] to the front of [o]. *)
Definition leaf_ShiftRight (a o : addr) (n : nat) (m : Map) : option Map :=
  rnd ← get_leaf m o;
  tnode ← get_leaf m a;
  '(tvs, rvs) ← arr_shift_right zeroV (lf_values tnode) (lf_n tnode)
                                (lf_values rnd) (lf_n rnd) n;
  '(tks, rks) ← arr_shift_right 0%Z (lf_keys tnode) (lf_n tnode)
                                (lf_keys rnd) (lf_n rnd) n;
  let m := put m o (CLeaf (mkLeaf (lf_next rnd) (lf_prev rnd) rvs rks (lf_n rnd + n))) in
  tnode ← get_leaf m a;
  Some (put m a (CLeaf (mkLeaf (lf_next tnode) (lf_prev tnode) tvs tks (lf_n tnode - n)))).

(** [internalNode.ShiftRight] *)
Definition inode_ShiftRight (a o : addr) (n : nat) (m : Map) : option Map :=
  rnd ← get_inode m o;
  inode ← get_inode m a;
  '(tns, rns) ← arr_shift_right None (in_nodes inode) (in_n inode)
                                (in_nodes rnd) (in_n rnd) n;
  '(tks, rks) ← arr_shift_right 0%Z (in_keys inode) (in_n inode)
                                (in_keys rnd) (in_n rnd) n;
  let m := put m o (CInternal (mkInternal rns rks (in_n rnd + n))) in
  inode ← get_inode m a;
  Some (put m a (CInternal (mkInternal tns tks (in_n inode - n)))).

Definition ShiftRight (a o : addr) (n : nat) (m : Map) : option Map :=
  match m_heap m !! a with
  | Some (CLeaf _) => leaf_ShiftRight a o n m
  | Some (CInternal _) => inode_ShiftRight a o n m
  | None => None
  end.

(** ** map.go *)

(** [New]: one empty leaf is root, front and back. *)
Definition New : Map :=
  mkMap [CLeaf (mkLeaf None None (zeros zeroV) (zeros 0%Z) 0)] 0 0 0 0%Z.

Definition splitRoot (m : Map) : option Map :=
  '(rnd, m) ← Split (m_root m) m;
  let lnd := m_root m in
  lk ← LastKey m lnd;
  ks ← set_at (zeros 0%Z) 0 lk;
  ns ← set_at (zeros None) 0 (Some lnd);
  rk ← LastKey m rnd;
  ks ← set_at ks 1 rk;
  ns ← set_at ns 1 (Some rnd);
  let '(r, m) := alloc m (CInternal (mkInternal ns ks 2)) in
  Some (set_root m r).

(** The inner loop of [Insert]: the key exceeds every routing key of
    [ia], so it is appended at the end of the right spine. *)
Fixpoint insert_extend (fuel : nat) (ia : addr) (key : Z) (value : V) (m : Map)
  : option ((Iterator * V * bool) * Map) :=
  match fuel with
  | O => None
  | S fuel =>
      inode ← get_inode m ia;
      n1 ← dec (in_n inode);
      node ← mjoin (in_nodes inode !! n1);
      full ← IsFull m node;
      '(node, m) ← (if full : bool then
                      m ← SplitAt ia n1 m;
                      inode ← get_inode m ia;
                      n1 ← dec (in_n inode);
                      node ← mjoin (in_nodes inode !! n1);
                      Some (node, m)
                    else Some (node, m));
      inode ← get_inode m ia;
      n1 ← dec (in_n inode);
      ks ← set_at (in_keys inode) n1 key;
      let m := put m ia (CInternal (mkInternal (in_nodes inode) ks (in_n inode))) in
      match m_heap m !! node with
      | Some (CInternal _) => insert_extend fuel node key value m
      | Some (CLeaf tnode) =>
          let idx := lf_n tnode in
          tnode ← leaf_InsertAt tnode idx key value;
          let m := put m node (CLeaf tnode) in
          let m := set_n m (m_n m + 1)%Z in
          Some ((mkIt node idx, zeroV, false), m)
      | None => None
      end
  end.

(** The outer loop of [Insert]. *)
Fixpoint insert_loop (fuel : nat) (node : addr) (key : Z) (value : V) (m : Map)
  : option ((Iterator * V * bool) * Map) :=
  match fuel with
  | O => None
  | S fuel =>
      match m_heap m !! node with
      | Some (CLeaf tnode) =>
          ks ← leaf_Keys tnode;
          let '(i, ok) := linearSearchOrdered ks key in
          if ok then
            oldValue ← lf_values tnode !! i;
            vs ← set_at (lf_values tnode) i value;
            let m := put m node (CLeaf (mkLeaf (lf_next tnode) (lf_prev tnode) vs
                                               (lf_keys tnode) (lf_n tnode))) in
            Some ((mkIt node i, oldValue, ok), m)
          else
            tnode ← leaf_InsertAt tnode i key value;
            let m := put m node (CLeaf tnode) in
            let m := set_n m (m_n m + 1)%Z in
            Some ((mkIt node i, zeroV, ok), m)
      | Some (CInternal inode) =>
          ks ← inode_Keys inode;
          let '(i, _) := linearSearchOrdered ks key in
          if decide (i = in_n inode) then insert_extend (S fuel) node key value m
          else
            descNode ← mjoin (in_nodes inode !! i);
            full ← IsFull m descNode;
            if full : bool then
              m ← SplitAt node i m;
              inode ← get_inode m node;
              ki ← in_keys inode !! i;
              descNode ← (if decide (Z.compare ki key = Lt)
                          then mjoin (in_nodes inode !! (i + 1))
                          else Some descNode);
              insert_loop fuel descNode key value m
            else insert_loop fuel descNode key value m
      | None => None
      end
  end.

(** [Map.Insert] *)
Definition Insert (key : Z) (value : V) (m : Map)
  : option ((Iterator * V * bool) * Map) :=
  full ← IsFull m (m_root m);
  m ← (if full : bool then splitRoot m else Some m);
  insert_loop (length (m_heap m)) (m_root m) key value m.

(** [Map.Find] *)
Fixpoint find_loop (fuel : nat) (node : addr) (key : Z) (m : Map)
  : option ((V * bool) * Map) :=
  match fuel with
  | O => None
  | S fuel =>
      match m_heap m !! node with
      | Some (CLeaf tnode) =>
          ks ← leaf_Keys tnode;
          let '(i, ok) := linearSearchOrdered ks key in
          if ok then v ← lf_values tnode !! i; Some ((v, true), m)
          else Some ((zeroV, false), m)
      | Some (CInternal inode) =>
          ks ← inode_KeysForFindAndRemove inode;
          let '(i, _) := linearSearchOrdered ks key in
          node ← mjoin (in_nodes inode !! i);
          find_loop fuel node key m
      | None => None
      end
  end.

Definition Find (key : Z) (m : Map) : option ((V * bool) * Map) :=
  find_loop (length (m_heap m)) (m_root m) key m.

(** [Map.LowerBound] *)
Fixpoint lowerBound_loop (fuel : nat) (node : addr) (key : Z) (m : Map)
  : option (Iterator * Map) :=
  match fuel with
  | O => None
  | S fuel =>
      match m_heap m !! node with
      | Some (CLeaf tnode) =>
          ks ← leaf_Keys tnode;
          let '(i, _) := linearSearchOrdered ks key in
          match lf_next tnode with
          | Some nx => if decide (i = lf_n tnode) then Some (mkIt nx 0, m)
                       else Some (mkIt node i, m)
          | None => Some (mkIt node i, m)
          end
      | Some (CInternal inode) =>
          ks ← inode_KeysForFindAndRemove inode;
          let '(i, _) := linearSearchOrdered ks key in
          node ← mjoin (in_nodes inode !! i);
          lowerBound_loop fuel node key m
      | None => None
      end
  end.

Definition LowerBound (key : Z) (m : Map) : option (Iterator * Map) :=
  lowerBound_loop (length (m_heap m)) (m_root m) key m.

(** [Map.mergeNode]: merges [nodes[i+1]] into [nodes[i]] *)
Definition mergeNode (node : addr) (i : nat) (m : Map) : option (addr * Map) :=
  inode ← get_inode m node;
  lnd ← mjoin (in_nodes inode !! i);
  rnd ← mjoin (in_nodes inode !! (i + 1));
  m ← Merge lnd rnd m;
  inode ← get_inode m node;
  if decide (m_root m = node ∧ in_n inode = 2) then Some (lnd, set_root m lnd)
  else
    inode ← inode_RemoveAt inode (i + 1);
    lk ← LastKey m lnd;
    ks ← set_at (in_keys inode) i lk;
    Some (lnd, put m node (CInternal (mkInternal (in_nodes inode) ks (in_n inode)))).

(** [Map.shiftLeft]: called with the index [i] of the right sibling *)
Definition shiftLeft (node : addr) (i : nat) (m : Map) : option Map :=
  inode ← get_inode m node;
  i1 ← dec i;
  lnd ← mjoin (in_nodes inode !! i1);
  rnd ← mjoin (in_nodes inode !! i);
  lsz ← Size m lnd;
  rsz ← Size m rnd;
  if decide (lsz ≤ (lsz + rsz + 1) / 2) then
    let n := (lsz + rsz + 1) / 2 - lsz in
    m ← ShiftLeft lnd rnd n m;
    inode ← get_inode m node;
    lk ← LastKey m lnd;
    ks ← set_at (in_keys inode) i1 lk;
    Some (put m node (CInternal (mkInternal (in_nodes inode) ks (in_n inode))))
  else None.

(** [Map.shiftRight]: called with the index [i] of the left sibling *)
Definition shiftRight (node : addr) (i : nat) (m : Map) : option Map :=
  inode ← get_inode m node;
  lnd ← mjoin (in_nodes inode !! i);
  rnd ← mjoin (in_nodes inode !! (i + 1));
  lsz ← Size m lnd;
  rsz ← Size m rnd;
  if decide (rsz ≤ (lsz + rsz + 1) / 2) then
    let n := (lsz + rsz + 1) / 2 - rsz in
    m ← ShiftRight lnd rnd n m;
    inode ← get_inode m node;
    lk ← LastKey m lnd;
    ks ← set_at (in_keys inode) i lk;
    Some (put m node (CInternal (mkInternal (in_nodes inode) ks (in_n inode))))
  else None.

(** [Map.Begin], [Map.End], [Map.Len] *)
Definition Begin (m : Map) : Iterator := mkIt (m_front m) 0.
Definition End (m : Map) : option Iterator :=
  b ← get_leaf m (m_back m); Some (mkIt (m_back m) (lf_n b)).
Definition Len (m : Map) : Z := m_n m.

(** The descent loop of [Map.remove]. *)
Fixpoint remove_loop (fuel : nat) (node : addr) (key : Z) (m : Map)
  : option ((Iterator * V * bool) * Map) :=
  match fuel with
  | O => None
  | S fuel =>
      match m_heap m !! node with
      | Some (CLeaf tnode) =>
          ks ← leaf_Keys tnode;
          let '(i, _) := linearSearchOrdered ks key in
          if decide (i = lf_n tnode) then
            e ← End m; Some ((e, zeroV, false), m)
          else
            ki ← lf_keys tnode !! i;
            if decide (Z.compare key ki ≠ Eq) then
              e ← End m; Some ((e, zeroV, false), m)
            else
              oldValue ← lf_values tnode !! i;
              tnode ← leaf_RemoveAt tnode i;
              let m := put m node (CLeaf tnode) in
              let m := set_n m (m_n m - 1)%Z in
              match lf_next tnode with
              | Some nx =>
                  if decide (lf_n tnode = i) then Some ((mkIt nx 0, oldValue, true), m)
                  else Some ((mkIt node i, oldValue, true), m)
              | None => Some ((mkIt node i, oldValue, true), m)
              end
      | Some (CInternal inode) =>
          ks ← inode_KeysForFindAndRemove inode;
          let '(i, _) := linearSearchOrdered ks key in
          descNode ← mjoin (in_nodes inode !! i);
          dsz ← Size m descNode;
          if decide (minNodes < dsz) then remove_loop fuel descNode key m
          else
            c ← (if decide (i + 1 < in_n inode)
                 then r ← mjoin (in_nodes inode !! (i + 1)); s ← Size m r;
                      Some (bool_decide (minNodes < s))
                 else Some false);
            if c : bool then
              m ← shiftLeft node (i + 1) m;
              remove_loop fuel descNode key m
            else
              c ← (if decide (0 < i)
                   then i1 ← dec i; l ← mjoin (in_nodes inode !! i1); s ← Size m l;
                        Some (bool_decide (minNodes < s))
                   else Some false);
              if c : bool then
                i1 ← dec i;
                m ← shiftRight node i1 m;
                remove_loop fuel descNode key m
              else if decide (i + 1 < in_n inode) then
                '(node, m) ← mergeNode node i m;
                remove_loop fuel node key m
              else
                i1 ← dec i;
                '(node, m) ← mergeNode node i1 m;
                remove_loop fuel node key m
      | None => None
      end
  end.

(** [Map.remove] *)
Definition remove (key : Z) (m : Map) : option ((Iterator * V * bool) * Map) :=
  let node := m_root m in
  '(node, m) ← match m_heap m !! node with
                | Some (CInternal inode) =>
                    if decide (in_n inode = 2) then
                      c0 ← mjoin (in_nodes inode !! 0);
                      s0 ← Size m c0;
                      if decide (s0 = minNodes) then
                        c1 ← mjoin (in_nodes inode !! 1);
                        s1 ← Size m c1;
                        if decide (s1 = minNodes) then mergeNode node 0 m
                        else Some (node, m)
                      else Some (node, m)
                    else Some (node, m)
                | Some (CLeaf _) => Some (node, m)
                | None => None
                end;
  remove_loop (length (m_heap m)) node key m.

(** [Map.Remove] *)
Definition Remove (key : Z) (m : Map) : option ((V * bool) * Map) :=
  '((_, oldValue, ok), m) ← remove key m;
  Some ((oldValue, ok), m).

(** ** iterator.go *)

Definition it_Key (m : Map) (it : Iterator) : option Z :=
  t ← get_leaf m (it_node it); lf_keys t !! it_idx it.

Definition it_Value (m : Map) (it : Iterator) : option V :=
  t ← get_leaf m (it_node it); lf_values t !! it_idx it.

Definition it_SetValue (m : Map) (it : Iterator) (value : V) : option Map :=
  t ← get_leaf m (it_node it);
  vs ← set_at (lf_values t) (it_idx it) value;
  Some (put m (it_node it) (CLeaf (mkLeaf (lf_next t) (lf_prev t) vs (lf_keys t) (lf_n t)))).

Definition it_Begin (m : Map) (it : Iterator) : option bool :=
  t ← get_leaf m (it_node it);
  Some (bool_decide (it_idx it = 0 ∧ lf_prev t = None)).

Definition it_End (m : Map) (it : Iterator) : option bool :=
  t ← get_leaf m (it_node it);
  Some (bool_decide (lf_n t = it_idx it ∧ lf_next t = None)).

Definition it_Next (m : Map) (it : Iterator) : option Iterator :=
  t ← get_leaf m (it_node it);
  let idx := it_idx it + 1 in
  match lf_next t with
  | Some nx => if decide (idx = lf_n t) then Some (mkIt nx 0) else Some (mkIt (it_node it) idx)
  | None => Some (mkIt (it_node it) idx)
  end.

Definition it_Prev (m : Map) (it : Iterator) : option Iterator :=
  match it_idx it with
  | O =>
      t ← get_leaf m (it_node it);
      p ← lf_prev t;
      pn ← get_leaf m p;
      i ← dec (lf_n pn);
      Some (mkIt p i)
  | S i => Some (mkIt (it_node it) i)
  end.

(** [Iterator.Seq], collected: the pairs yielded from [it] up to the end. *)
Fixpoint seq_loop (fuel : nat) (m : Map) (it : Iterator) : option (list (Z * V)) :=
  match fuel with
  | O => None
  | S fuel =>
      e ← it_End m it;
      if e : bool then Some []
      else
        k ← it_Key m it;
        v ← it_Value m it;
        it ← it_Next m it;
        rest ← seq_loop fuel m it;
        Some ((k, v) :: rest)
  end.

Definition Seq (m : Map) (it : Iterator) : option (list (Z * V)) :=
  seq_loop (S (Z.to_nat (m_n m))) m it.

(** [Map.Keys] and [Map.Values], collected. *)
Definition Keys (m : Map) : option (list Z) :=
  kvs ← Seq m (Begin m); Some (map fst kvs).
Definition Values (m : Map) : option (list V) :=
  kvs ← Seq m (Begin m); Some (map snd kvs).

(** [Map.RemoveIter] *)
Definition RemoveIter (it : Iterator) (m : Map) : option (Iterator * Map) :=
  e ← it_End m it;
  if e : bool then Some (it, m)
  else
    let tnode := it_node it in
    t ← get_leaf m tnode;
    if decide (tnode ≠ m_root m ∧ lf_n t = minNodes) then
      k ← it_Key m it;
      '((it, _, _), m) ← remove k m;
      Some (it, m)
    else
      t ← leaf_RemoveAt t (it_idx it);
      let m := put m tnode (CLeaf t) in
      let m := set_n m (m_n m - 1)%Z in
      match lf_next t with
      | Some nx =>
          if decide (lf_n t = it_idx it) then Some (mkIt nx 0, m)
          else Some (mkIt tnode (it_idx it), m)
      | None => Some (mkIt tnode (it_idx it), m)
      end.

(** [Map.Clear] *)
Definition Clear (m : Map) : Map :=
  if decide (m_n m = 0%Z) then m
  else
    let '(node, m) := alloc m (CLeaf (mkLeaf None None (zeros zeroV) (zeros 0%Z) 0)) in
    mkMap (m_heap m) node node node 0%Z.
End Treemap.

(** * Runs of the public operations, and what is observed of a map *)

Section Runs.
Context {V : Type} (zeroV : V).
Local Abbreviation Map := (@Map V).

(** The iterator reached from [Begin()] by [p] calls of [Next()]. *)
Fixpoint iter_at (m : Map) (p : nat) : option Iterator :=
  match p with
  | O => Some (Begin m)
  | S p => it ← iter_at m p; it_Next m it
  end.

(** The calls that change a map.  [RemoveIter] takes the iterator that
    [LowerBound] returns for a key: every iterator over the map, the end
    iterator included, is the lower bound of some key. *)
Inductive op :=
| OInsert (k : Z) (v : V)
| ORemove (k : Z)
| ORemoveIter (k : Z)
| OClear.

Definition run_op (o : op) (m : Map) : option Map :=
  match o with
  | OInsert k v => '(_, m) ← Insert zeroV k v m; Some m
  | ORemove k => '(_, m) ← Remove zeroV k m; Some m
  | ORemoveIter k =>
      '(it, m) ← LowerBound k m;
      '(_, m) ← RemoveIter zeroV it m;
      Some m
  | OClear => Some (Clear zeroV m)
  end.

Fixpoint run_ops (os : list op) (m : Map) : option Map :=
  match os with
  | [] => Some m
  | o :: os => m ← run_op o m; run_ops os m
  end.

(** [Insert] called on each pair of a list in turn. *)
Definition inserts (l : list (Z * V)) : list op := (λ kv, OInsert kv.1 kv.2) <$> l.

(** The value of the last pair of [l] with the key [k]. *)
Fixpoint last_value (l : list (Z * V)) (k : Z) : option V :=
  match l with
  | [] => None
  | (k', v) :: l =>
      match last_value l k with
      | Some v' => Some v'
      | None => if decide (k' = k) then Some v else None
      end
  end.

(** The nodes of the tree: the root, and the children [0..n) of an
    interior node of the tree. *)
Inductive reach (m : Map) : addr → Prop :=
| reach_root : reach m (m_root m)
| reach_child x nd i c :
    reach m x → get_inode m x = Some nd → i < in_n nd →
    in_nodes nd !! i = Some (Some c) → reach m c.

(** The keys stored in the subtree rooted at a node: the keys [0..n) of
    its leaves. *)
Inductive stored (m : Map) : addr → Z → Prop :=
| stored_leaf x l i k :
    get_leaf m x = Some l → i < lf_n l → lf_keys l !! i = Some k → stored m x k
| stored_node x nd i c k :
    get_inode m x = Some nd → i < in_n nd → in_nodes nd !! i = Some (Some c) →
    stored m c k → stored m x k.

(** The slots [n, 2D) of the arrays of a node hold zero values. *)
Definition zero_tail (c : @cell V) : Prop :=
  match c with
  | CLeaf l =>
      ∀ i, lf_n l ≤ i < maxNodes →
           lf_keys l !! i = Some 0%Z ∧ lf_values l !! i = Some zeroV
  | CInternal nd =>
      ∀ i, in_n nd ≤ i < maxNodes →
           in_keys nd !! i = Some 0%Z ∧ in_nodes nd !! i = Some None
  end.

(** ** The pairs of a map as an ordered list

    What the operations do to the pairs that iteration yields, on a
    list of pairs with ascending keys. *)

(** [Insert]: the pair takes its place in the order, or replaces the
    pair with its key. *)
Fixpoint kv_insert (k : Z) (v : V) (l : list (Z * V)) : list (Z * V) :=
  match l with
  | [] => [(k, v)]
  | (k', v') :: l' =>
      if decide (k < k')%Z then (k, v) :: (k', v') :: l'
      else if decide (k = k') then (k, v) :: l'
      else (k', v') :: kv_insert k v l'
  end.

(** [Remove]: the pair with the key goes. *)
Definition kv_remove (k : Z) (l : list (Z * V)) : list (Z * V) :=
  filter (λ kv, kv.1 ≠ k) l.

(** [RemoveIter(LowerBound(k))]: the first pair whose key is not below
    [k] goes. *)
Fixpoint kv_remove_from (k : Z) (l : list (Z * V)) : list (Z * V) :=
  match l with
  | [] => []
  | (k', v') :: l' =>
      if decide (k ≤ k')%Z then l' else (k', v') :: kv_remove_from k l'
  end.

Definition model_op (o : op) (l : list (Z * V)) : list (Z * V) :=
  match o with
  | OInsert k v => kv_insert k v l
  | ORemove k => kv_remove k l
  | ORemoveIter k => kv_remove_from k l
  | OClear => []
  end.

Definition model_run (os : list op) : list (Z * V) :=
  foldl (λ l o, model_op o l) [] os.

(** The nodes of the tree with their depth below the root. *)
Inductive reach_at (m : Map) : nat → addr → Prop :=
| reach_at_root : reach_at m 0 (m_root m)
| reach_at_child d x nd i c :
    reach_at m d x → get_inode m x = Some nd → i < in_n nd →
    in_nodes nd !! i = Some (Some c) → reach_at m (S d) c.

(** The pairs stored in the subtree rooted at a node: the keys with
    their values in the slots [0..n) of its leaves. *)
Inductive holds (m : Map) : addr → Z → V → Prop :=
| holds_leaf x l i k v :
    get_leaf m x = Some l → i < lf_n l →
    lf_keys l !! i = Some k → lf_values l !! i = Some v → holds m x k v
| holds_node x nd i c k v :
    get_inode m x = Some nd → i < in_n nd → in_nodes nd !! i = Some (Some c) →
    holds m c k v → holds m x k v.
End Runs.

(** The sizes that the specification calls NORMAL: [D+1 .. 2D-1]. *)
Definition is_normal (n : nat) : bool :=
bool_decide (keyDegr + 1 ≤ n ≤ 2 * keyDegr - 1).

Global Arguments op : clear implicits.

(** * Arrays holding a live prefix followed by zeros *)

Lemma maxNodes_eq : maxNodes = 32.
Proof. reflexivity. Qed.
Lemma minNodes_eq : minNodes = 16.
Proof. reflexivity. Qed.

Global Opaque maxNodes minNodes.

Ltac nodes_lia := rewrite ?maxNodes_eq, ?minNodes_eq in *; lia.

Global Arguments Nat.div : simpl never.
Global Arguments Nat.modulo : simpl never.

(** arithmetic on lengths *)
Ltac len_simp :=
repeat (progress (rewrite ?length_app, ?length_fmap, ?length_take, ?length_drop,
                    ?length_insert, ?length_replicate in *;
                  cbn [length] in *)).
Ltac len := len_simp; lia.

(** integer halving, for [lia] *)
Lemma half_spec n : ∃ q, n / 2 = q ∧ (n = 2 * q ∨ n = 2 * q + 1).
Proof.
exists (n / 2). split; [done|].
pose proof (Nat.div_mod_eq n 2). pose proof (Nat.mod_upper_bound n 2). lia.
Qed.

Ltac halve n :=
let q := fresh "q" in
let Hq := fresh "Hq" in
let Hq' := fresh "Hq" in
destruct (half_spec n) as (q & Hq & Hq').

Section Pad.
Context {A : Type} (z : A).
Implicit Types l : list A.

(** The array whose first [length l] slots hold [l] and whose other
    slots hold the zero value. *)
Definition pad (l : list A) : list A := l ++ replicate (maxNodes - length l) z.

Lemma length_pad l : length l ≤ maxNodes → length (pad l) = maxNodes.
Proof. intros. unfold pad. rewrite length_app, length_replicate. lia. Qed.

Lemma pad_nil : pad [] = zeros z.
Proof. unfold pad, zeros. simpl. by rewrite Nat.sub_0_r. Qed.

Lemma lookup_pad_lt l i : i < length l → pad l !! i = l !! i.
Proof. intros. unfold pad. by rewrite lookup_app_l. Qed.

Lemma lookup_pad_ge l i : length l ≤ i → i < maxNodes → pad l !! i = Some z.
Proof.
  intros. unfold pad. rewrite lookup_app_r by done.
  apply lookup_replicate_2. lia.
Qed.

Lemma take_pad_le l i : i ≤ length l → take i (pad l) = take i l.
Proof. intros. unfold pad. by rewrite take_app_le. Qed.

Lemma take_pad_ge l i :
  length l ≤ i → i ≤ maxNodes → take i (pad l) = l ++ replicate (i - length l) z.
Proof.
  intros. unfold pad. rewrite take_app_ge by done.
  f_equal. rewrite take_replicate. f_equal. lia.
Qed.

Lemma drop_pad_le l i :
  i ≤ length l → drop i (pad l) = drop i l ++ replicate (maxNodes - length l) z.
Proof. intros. unfold pad. by rewrite drop_app_le. Qed.

Lemma drop_pad_ge l i :
  length l ≤ i → drop i (pad l) = replicate (maxNodes - i) z.
Proof.
  intros. unfold pad. rewrite drop_app_ge by done.
  rewrite drop_replicate. f_equal. lia.
Qed.

Lemma pad_app_replicate l k :
  length l + k ≤ maxNodes →
  l ++ replicate (maxNodes - length l) z
  = (l ++ replicate k z) ++ replicate (maxNodes - (length l + k)) z.
Proof.
  intros. rewrite <- (assoc_L (++)). f_equal.
  rewrite <- replicate_add. f_equal. lia.
Qed.

(** [a[0:n]] is the live prefix *)
Lemma slice_pad_all l : length l ≤ maxNodes → slice (pad l) 0 (length l) = Some l.
Proof.
  intros. unfold slice. rewrite decide_True.
  - rewrite drop_0, Nat.sub_0_r, take_pad_le, firstn_all; done.
  - rewrite length_pad; lia.
Qed.

Lemma slice_pad l i j :
  i ≤ j → j ≤ length l → length l ≤ maxNodes →
  slice (pad l) i j = Some (take (j - i) (drop i l)).
Proof.
  intros. unfold slice. rewrite decide_True.
  - f_equal. rewrite drop_pad_le by lia. rewrite take_app_le; [done|].
    rewrite length_drop. lia.
  - rewrite length_pad; lia.
Qed.

Lemma slice_pad_prefix l j :
  j ≤ length l → length l ≤ maxNodes → slice (pad l) 0 j = Some (take j l).
Proof. intros. rewrite slice_pad by lia. by rewrite drop_0, Nat.sub_0_r. Qed.

Lemma slice_pad_suffix l i :
  i ≤ length l → length l ≤ maxNodes → slice (pad l) i (length l) = Some (drop i l).
Proof.
  intros. rewrite slice_pad by lia. f_equal.
  apply take_ge. rewrite length_drop. lia.
Qed.

Lemma set_at_pad l i x :
  i < length l → length l ≤ maxNodes → set_at (pad l) i x = Some (pad (<[i := x]> l)).
Proof.
  intros. unfold set_at. rewrite decide_True by (rewrite length_pad; lia).
  f_equal. unfold pad. rewrite length_insert. by rewrite insert_app_l.
Qed.

(** the array pattern of [InsertAt] and of the splice of [SplitAt] *)
Lemma insert_at_pad l idx x :
  idx ≤ length l → length l < maxNodes →
  (s ← slice (pad l) idx (length l);
   a ← copy_into (pad l) (idx + 1) s;
   set_at a idx x) = Some (pad (take idx l ++ x :: drop idx l)).
Proof.
  intros Hi Hn. rewrite slice_pad_suffix by lia. simpl.
  unfold copy_into. rewrite decide_True by (rewrite length_pad; lia). simpl.
  unfold set_at. rewrite decide_True.
  2:{ rewrite !length_app, length_take, length_pad by lia. lia. }
  f_equal. rewrite length_pad, length_drop by lia.
  rewrite (take_ge (drop idx l)) by (rewrite length_drop; lia).
  rewrite drop_pad_ge by lia.
  destruct (decide (idx = length l)) as [->|Hne].
  - rewrite take_pad_ge by lia. rewrite drop_all, firstn_all. simpl.
    replace (length l + 1 - length l) with 1 by lia. simpl.
    rewrite <- (assoc_L (++)). rewrite insert_app_r_alt by lia.
    rewrite Nat.sub_diag. simpl. unfold pad.
    rewrite <- (assoc_L (++)). simpl. do 3 f_equal.
    rewrite length_app. simpl. lia.
  - rewrite take_pad_le by lia.
    destruct (lookup_lt_is_Some_2 l idx) as [y Hy]; [lia|].
    replace (idx + 1) with (S idx) by lia.
    rewrite (take_S_r l idx y Hy).
    rewrite <- !(assoc_L (++)). rewrite insert_app_r_alt by (rewrite length_take; lia).
    rewrite length_take. replace (idx - idx `min` length l) with 0 by lia.
    simpl. unfold pad.
    rewrite <- (assoc_L (++)). simpl. do 4 f_equal.
    rewrite length_app. simpl. rewrite length_take, length_drop. lia.
Qed.

(** the array pattern of [RemoveAt] *)
Lemma remove_at_pad l i n1 :
  i < length l → length l ≤ maxNodes → length l = S n1 →
  (s ← slice (pad l) (i + 1) (length l);
   a ← copy_into (pad l) i s;
   clear_range z a n1 (length l)) = Some (pad (take i l ++ drop (i + 1) l)).
Proof.
  intros Hi Hn Hn1. rewrite slice_pad_suffix by lia. simpl.
  unfold copy_into. rewrite decide_True by (rewrite length_pad; lia). simpl.
  unfold clear_range. rewrite length_pad, length_drop by lia.
  rewrite take_pad_le by lia.
  rewrite (take_ge (drop (i + 1) l)) by (rewrite length_drop; lia).
  rewrite drop_pad_le by lia.
  rewrite decide_True.
  2:{ rewrite !length_app, length_take, !length_drop, length_replicate. lia. }
  f_equal.
  set (X := take i l ++ drop (i + 1) l).
  assert (HX : length X = n1).
  { unfold X. rewrite length_app, length_take, length_drop. lia. }
  rewrite (assoc_L (++) (take i l)). fold X.
  rewrite (take_app_length' X) by done.
  rewrite (assoc_L (++) X (drop _ l)).
  rewrite drop_app_length' by (rewrite length_app, length_drop; lia).
  unfold pad. rewrite HX. f_equal.
  rewrite <- replicate_add. f_equal. lia.
Qed.

(** the array pattern of [Split] *)
Lemma split_right_pad l tn :
  tn ≤ length l → length l ≤ maxNodes →
  (s ← slice (pad l) tn (length l); copy_into (zeros z) 0 s) = Some (pad (drop tn l)).
Proof.
  intros. rewrite slice_pad_suffix by lia. simpl.
  unfold copy_into, zeros. rewrite decide_True by lia. f_equal. simpl.
  rewrite length_replicate, Nat.sub_0_r, drop_replicate.
  rewrite take_ge by (rewrite length_drop; lia). done.
Qed.

Lemma split_left_pad l tn :
  tn ≤ length l → length l ≤ maxNodes →
  clear_range z (pad l) tn (length l) = Some (pad (take tn l)).
Proof.
  intros. unfold clear_range. rewrite decide_True by (rewrite length_pad; lia).
  f_equal. rewrite take_pad_le, drop_pad_ge by lia. unfold pad.
  f_equal. rewrite <- replicate_add. f_equal. rewrite length_take. lia.
Qed.

(** the array pattern of [Merge] and of the first half of [ShiftLeft] *)
Lemma append_pad l s :
  length l + length s ≤ maxNodes →
  copy_into (pad l) (length l) s = Some (pad (l ++ s)).
Proof.
  intros. unfold copy_into. rewrite decide_True by (rewrite length_pad; lia).
  f_equal. rewrite length_pad by lia. rewrite take_pad_le, firstn_all by lia.
  rewrite take_ge by lia. rewrite drop_pad_ge by lia. unfold pad.
  rewrite <- (assoc_L (++)). do 3 f_equal. rewrite length_app. lia.
Qed.

(** the second half of [ShiftLeft] *)
Lemma shift_down_pad l k :
  k ≤ length l → length l ≤ maxNodes →
  (s ← slice (pad l) k (length l);
   a ← copy_into (pad l) 0 s;
   clear_range z a (length l - k) (length l)) = Some (pad (drop k l)).
Proof.
  intros. rewrite slice_pad_suffix by lia. simpl.
  rewrite length_pad, length_drop, Nat.sub_0_r by lia.
  rewrite take_ge by (rewrite length_drop; lia).
  rewrite drop_pad_le by lia.
  unfold clear_range. rewrite decide_True.
  2:{ rewrite !length_app, !length_drop, length_replicate. lia. }
  f_equal. rewrite (take_app_length' (drop k l)) by (rewrite length_drop; lia).
  rewrite (assoc_L (++) (drop k l) (drop _ l)).
  rewrite drop_app_length' by (rewrite length_app, !length_drop; lia).
  unfold pad. f_equal.
  rewrite <- replicate_add. f_equal. rewrite !length_drop. lia.
Qed.

(** the first half of [ShiftRight] *)
Lemma shift_up_pad l k s :
  length s = k → length l + k ≤ maxNodes →
  (s0 ← slice (pad l) 0 (length l);
   a ← copy_into (pad l) k s0;
   copy_into a 0 s) = Some (pad (s ++ l)).
Proof.
  intros Hs Hn. rewrite slice_pad_all by lia. simpl.
  unfold copy_into. rewrite decide_True by (rewrite length_pad; lia). simpl.
  f_equal. rewrite length_pad by lia.
  rewrite (take_ge l) by lia.
  rewrite drop_pad_ge by lia.
  rewrite (take_ge s).
  2:{ rewrite !length_app, length_take, length_pad, length_replicate by lia. lia. }
  rewrite (drop_app_length' (take k (pad l))) by (rewrite length_take, length_pad; lia).
  unfold pad. rewrite <- (assoc_L (++)). do 3 f_equal. rewrite length_app. lia.
Qed.
End Pad.

Global Arguments slice : simpl never.
Global Arguments copy_into : simpl never.
Global Arguments clear_range : simpl never.
Global Arguments set_at : simpl never.
Global Arguments pad : simpl never.
Global Arguments zeros : simpl never.

Section Patterns.
Context {A : Type} (z : A).
Implicit Types l : list A.

(** ** The statement patterns on such arrays *)

Lemma arr_insert_at_pad l n idx x :
  length l = n → idx ≤ n → n < maxNodes →
  arr_insert_at (pad z l) n idx x = Some (pad z (take idx l ++ x :: drop idx l)).
Proof. intros <-. apply (insert_at_pad z). Qed.

Lemma arr_remove_at_pad l n i :
  length l = n → i < n → n ≤ maxNodes →
  arr_remove_at z (pad z l) n i = Some (pad z (take i l ++ drop (i + 1) l)).
Proof.
  intros <- Hi Hn. destruct (length l) as [|n1] eqn:E; [lia|].
  pose proof (remove_at_pad z l i n1) as H. rewrite E in H.
  specialize (H ltac:(lia) ltac:(lia) eq_refl).
  unfold arr_remove_at.
  destruct (slice (pad z l) (i + 1) (S n1)) as [s|]; [|done]. cbn in *.
  destruct (copy_into (pad z l) i s) as [a|]; [|done]. cbn in *. done.
Qed.

Lemma arr_split_pad l n tn :
  length l = n → tn ≤ n → n ≤ maxNodes →
  arr_split z (pad z l) tn n = Some (pad z (take tn l), pad z (drop tn l)).
Proof.
  intros <- ? ?. unfold arr_split.
  pose proof (split_right_pad z l tn ltac:(done) ltac:(done)) as H1.
  destruct (slice (pad z l) tn (length l)) as [s|]; [|done]. cbn in *.
  rewrite H1. cbn. rewrite (split_left_pad z) by done. done.
Qed.

Lemma arr_append_pad l n b k :
  length l = n → k ≤ length b → length b ≤ maxNodes → n + k ≤ maxNodes →
  arr_append (pad z l) n (pad z b) k = Some (pad z (l ++ take k b)).
Proof.
  intros <- ? ? ?. unfold arr_append. rewrite slice_pad_prefix by done. cbn.
  apply (append_pad z). rewrite length_take. lia.
Qed.

Lemma arr_shift_down_pad l n k :
  length l = n → k ≤ n → n ≤ maxNodes →
  arr_shift_down z (pad z l) n k = Some (pad z (drop k l)).
Proof.
  intros <- ? ?. unfold arr_shift_down.
  pose proof (shift_down_pad z l k ltac:(done) ltac:(done)) as H1.
  destruct (slice (pad z l) k (length l)) as [s|]; [|done]. cbn in *.
  destruct (copy_into (pad z l) 0 s) as [a|]; [|done]. cbn in *.
  by rewrite decide_True by done.
Qed.

Lemma arr_shift_right_pad a an b bn k :
  length a = an → length b = bn →
  k ≤ an → an ≤ maxNodes → bn + k ≤ maxNodes →
  arr_shift_right z (pad z a) an (pad z b) bn k
  = Some (pad z (take (an - k) a), pad z (drop (an - k) a ++ b)).
Proof.
  intros <- <- ? ? ?. unfold arr_shift_right.
  pose proof (shift_up_pad z b k (drop (length a - k) a)) as HH.
  rewrite length_drop in HH. specialize (HH ltac:(lia) ltac:(lia)).
  destruct (slice (pad z b) 0 (length b)) as [s|]; [|done]. cbn in *.
  destruct (copy_into (pad z b) k s) as [b'|]; [|done]. cbn in *.
  rewrite decide_True by done.
  rewrite slice_pad_suffix by lia. cbn. rewrite HH. cbn.
  rewrite (split_left_pad z) by lia. done.
Qed.
End Patterns.

Global Arguments arr_insert_at : simpl never.
Global Arguments arr_remove_at : simpl never.
Global Arguments arr_split : simpl never.
Global Arguments arr_append : simpl never.
Global Arguments arr_shift_down : simpl never.
Global Arguments arr_shift_right : simpl never.

Lemma pad_fmap {A B} (f : A → B) (z : A) (l : list A) :
f <$> pad z l = pad (f z) (f <$> l).
Proof. unfold pad. by rewrite fmap_app, fmap_replicate, length_fmap. Qed.

(** * [linearSearchOrdered] on increasing keys *)

Lemma linearSearchOrdered_length ks k :
(linearSearchOrdered ks k).1 ≤ length ks.
Proof.
induction ks as [|x ks IH]; simpl; [lia|].
destruct (x =? k)%Z; [simpl; lia|]. destruct (x >? k)%Z; [simpl; lia|].
destruct (linearSearchOrdered ks k). simpl in *. lia.
Qed.

(** every key before the returned index is smaller than the target *)
Lemma linearSearchOrdered_before ks k j x :
j < (linearSearchOrdered ks k).1 → ks !! j = Some x → (x < k)%Z.
Proof.
revert j. induction ks as [|y ks IH]; intros j; simpl; [lia|].
destruct (Z.eqb_spec y k); [simpl; lia|].
destruct (y >? k)%Z eqn:Hgt; [simpl; lia|].
destruct (linearSearchOrdered ks k) as [i ok] eqn:E. simpl in *.
intros Hj Hx. destruct j as [|j]; simpl in Hx.
- inversion Hx; subst. lia.
- eapply IH; [|done]. lia.
Qed.

(** the key at the returned index is the target or larger *)
Lemma linearSearchOrdered_at ks k x :
ks !! (linearSearchOrdered ks k).1 = Some x →
(k ≤ x)%Z ∧ ((linearSearchOrdered ks k).2 = true ↔ x = k).
Proof.
induction ks as [|y ks IH]; simpl; [done|].
destruct (Z.eqb_spec y k).
- simpl. intros [= ->]. split; [lia|done].
- destruct (y >? k)%Z eqn:Hgt.
  + simpl. intros [= ->]. split; [lia|]. split; [done|]. intros; lia.
  + destruct (linearSearchOrdered ks k) as [i ok] eqn:E. simpl in *. done.
Qed.

Lemma linearSearchOrdered_found ks k :
(linearSearchOrdered ks k).2 = true →
ks !! (linearSearchOrdered ks k).1 = Some k.
Proof.
induction ks as [|y ks IH]; simpl; [done|].
destruct (Z.eqb_spec y k); [by intros; subst|].
destruct (y >? k)%Z; [done|].
destruct (linearSearchOrdered ks k) as [i ok] eqn:E. simpl in *. done.
Qed.

Lemma linearSearchOrdered_end ks k :
(linearSearchOrdered ks k).1 = length ks → (linearSearchOrdered ks k).2 = false.
Proof.
intros H. destruct (linearSearchOrdered ks k).2 eqn:E; [|done].
apply linearSearchOrdered_found in E. apply lookup_lt_Some in E. lia.
Qed.

Set Warnings "-register-all".

(** * The tree a heap represents *)

(** Bounds on keys: [None] is no bound. *)
Definition blt (lo : option Z) (k : Z) : Prop :=
match lo with Some l => (l < k)%Z | None => True end.
Definition ble (k : Z) (hi : option Z) : Prop :=
match hi with Some h => (k ≤ h)%Z | None => True end.

(** [inc lo ks hi]: [ks] is strictly increasing, above [lo] and at most [hi]. *)
Fixpoint inc (lo : option Z) (ks : list Z) (hi : option Z) : Prop :=
match ks with
| [] => True
| k :: ks' => blt lo k ∧ ble k hi ∧ inc (Some k) ks' hi
end.

(** the lower bound that applies after the keys [ks] *)
Definition lastb (lo : option Z) (ks : list Z) : option Z :=
match last ks with Some k => Some k | None => lo end.

Section Abstract.
Context {V : Type}.

Inductive atree :=
| ALeaf (a : addr) (kvs : list (Z * V))
| ANode (a : addr) (ks : list Z) (cs : list atree).

Lemma atree_ind' (P : atree → Prop) :
  (∀ a kvs, P (ALeaf a kvs)) →
  (∀ a ks cs, Forall P cs → P (ANode a ks cs)) →
  ∀ t, P t.
Proof.
  intros Hl Hn. fix IH 1. intros [a kvs|a ks cs]; [apply Hl|].
  apply Hn. induction cs as [|c cs IHcs]; constructor; [apply IH|apply IHcs].
Qed.

Definition raddr (t : atree) : addr :=
  match t with ALeaf a _ => a | ANode a _ _ => a end.

(** [Size()] *)
Definition asize (t : atree) : nat :=
  match t with ALeaf _ kvs => length kvs | ANode _ ks _ => length ks end.

(** the live keys of the node itself *)
Definition akeys (t : atree) : list Z :=
  match t with ALeaf _ kvs => kvs.*1 | ANode _ ks _ => ks end.

(** the leaves from left to right, with their pairs *)
Fixpoint aleaves (t : atree) : list (addr * list (Z * V)) :=
  match t with
  | ALeaf a kvs => [(a, kvs)]
  | ANode _ _ cs => concat (map aleaves cs)
  end.

Definition leaves (t : atree) : list addr := (aleaves t).*1.
Definition contents (t : atree) : list (Z * V) := concat (aleaves t).*2.

(** the same for a row of sibling subtrees *)
Definition fals (ts : list atree) : list (addr * list (Z * V)) :=
  concat (map aleaves ts).
Definition fleaves (ts : list atree) : list addr := (fals ts).*1.
Definition fcontents (ts : list atree) : list (Z * V) := concat (fals ts).*2.

(** every node of the tree *)
Fixpoint addrs (t : atree) : list addr :=
  match t with
  | ALeaf a _ => [a]
  | ANode a _ cs => a :: concat (map addrs cs)
  end.

Definition faddrs (ts : list atree) : list addr := concat (map addrs ts).

Definition is_leaf (t : atree) : bool :=
  match t with ALeaf _ _ => true | ANode _ _ _ => false end.

(** [kids P lo ks cs]: child [i] satisfies [P] between the routing keys
    [i-1] and [i]. *)
Fixpoint kids (P : option Z → Z → atree → Prop) (lo : option Z)
    (ks : list Z) (cs : list atree) : Prop :=
  match ks, cs with
  | [], [] => True
  | k :: ks', c :: cs' => P lo k c ∧ kids P (Some k) ks' cs'
  | _, _ => False
  end.

(** A subtree of height [ht] whose keys, routing keys included, lie in
    ([lo], [hi]] : the keys of a node increase, the subtree of child [i]
    lies in (routing[i-1], routing[i]], and every child holds between
    [minNodes] and [maxNodes] entries. *)
Fixpoint wf (ht : nat) (lo hi : option Z) (t : atree) : Prop :=
  match ht, t with
  | O, ALeaf _ kvs => inc lo kvs.*1 hi
  | S ht, ANode _ ks cs =>
      inc lo ks hi ∧
      kids (λ lo k c, wf ht lo (Some k) c ∧ minNodes ≤ asize c ≤ maxNodes) lo ks cs
  | _, _ => False
  end.

Context (zeroV : V).
Local Abbreviation cell := (@cell V).
Local Abbreviation Map := (@Map V).

Definition leaf_rec (nx pv : option addr) (kvs : list (Z * V)) : leafNode :=
  mkLeaf nx pv (pad zeroV kvs.*2) (pad 0%Z kvs.*1) (length kvs).
Definition leaf_cell (nx pv : option addr) (kvs : list (Z * V)) : cell :=
  CLeaf (leaf_rec nx pv kvs).

Definition node_rec (ks : list Z) (cs : list atree) : internalNode :=
  mkInternal (pad None (Some ∘ raddr <$> cs)) (pad 0%Z ks) (length ks).
Definition node_cell (ks : list Z) (cs : list atree) : cell :=
  CInternal (node_rec ks cs).

(** The heap holds the tree: every array is its live prefix followed by
    zeros. *)
Inductive repr (h : list cell) : atree → Prop :=
| repr_leaf a kvs nx pv :
    h !! a = Some (leaf_cell nx pv kvs) →
    length kvs ≤ maxNodes →
    repr h (ALeaf a kvs)
| repr_node a ks cs :
    h !! a = Some (node_cell ks cs) →
    length ks ≤ maxNodes →
    length cs = length ks →
    Forall (repr h) cs →
    repr h (ANode a ks cs).

(** The leaf list: [ls] is linked in both directions, [p] before its
    first leaf and [q] after its last. *)
Fixpoint lseg (h : list cell) (p : option addr) (ls : list addr) (q : option addr)
  : Prop :=
  match ls with
  | [] => True
  | a :: ls' =>
      (∃ l, h !! a = Some (CLeaf l) ∧ lf_prev l = p ∧
            lf_next l = match ls' with [] => q | b :: _ => Some b end) ∧
      lseg h (Some a) ls' q
  end.

(** the cell up to the links of a leaf *)
Definition cell_eqv (c c' : cell) : Prop :=
  match c, c' with
  | CLeaf l, CLeaf l' =>
      lf_values l = lf_values l' ∧ lf_keys l = lf_keys l' ∧ lf_n l = lf_n l'
  | CInternal i, CInternal i' => i = i'
  | _, _ => False
  end.

(** the links of the leaves are kept *)
Definition links_kept (h h' : list cell) : Prop :=
  ∀ x l, h !! x = Some (CLeaf l) →
    ∃ l', h' !! x = Some (CLeaf l') ∧ lf_next l' = lf_next l ∧ lf_prev l' = lf_prev l.

(** the contents outside of [S] are kept *)
Definition kept_outside (S : list addr) (h h' : list cell) : Prop :=
  ∀ x c, h !! x = Some c → x ∉ S → ∃ c', h' !! x = Some c' ∧ cell_eqv c c'.

(** A row [ts] of sibling subtrees sits in the heap of [m]: the trees
    are represented, no node is shared, and the leaf list of the map is
    [L1], the leaves of [ts], then [L2], ending at [m.back]. *)
Definition LocF (m : Map) (ts : list atree) (L1 L2 : list addr) : Prop :=
  Forall (repr (m_heap m)) ts ∧
  NoDup (faddrs ts) ∧
  NoDup (L1 ++ fleaves ts ++ L2) ∧
  lseg (m_heap m) None (L1 ++ fleaves ts ++ L2) None ∧
  last (L1 ++ fleaves ts ++ L2) = Some (m_back m).

(** A step that rewrites the row [ts] into [ts']: the heap only grows,
    cells outside of [ts] keep their contents, and the nodes of [ts']
    are nodes of [ts] or new. *)
Definition StepF (m : Map) (ts : list atree) (m' : Map) (ts' : list atree) : Prop :=
  length (m_heap m) ≤ length (m_heap m') ∧
  kept_outside (faddrs ts) (m_heap m) (m_heap m') ∧
  (∀ x, x ∈ faddrs ts' → x ∈ faddrs ts ∨ length (m_heap m) ≤ x) ∧
  m_front m' = m_front m.
End Abstract.

Global Arguments atree : clear implicits.

(** ** Bounds and increasing keys *)

Lemma inc_ble lo ks hi hi' :
inc lo ks hi → (∀ k, ble k hi → ble k hi') → inc lo ks hi'.
Proof.
revert lo. induction ks as [|k ks IH]; intros lo; simpl; [done|].
intros (?&?&?). eauto.
Qed.

Lemma inc_blt lo lo' ks hi :
inc lo ks hi → (∀ k, blt lo k → blt lo' k) → inc lo' ks hi.
Proof. destruct ks; simpl; [done|]. intros (?&?&?). eauto. Qed.

Lemma inc_app lo l1 l2 hi :
inc lo (l1 ++ l2) hi ↔ inc lo l1 hi ∧ inc (lastb lo l1) l2 hi.
Proof.
revert lo. induction l1 as [|k l1 IH]; intros lo; simpl.
- unfold lastb. simpl. tauto.
- rewrite IH. unfold lastb. rewrite last_cons.
  destruct (last l1); simpl; tauto.
Qed.

Lemma inc_Forall lo ks hi : inc lo ks hi → Forall (λ k, blt lo k ∧ ble k hi) ks.
Proof.
revert lo. induction ks as [|k ks IH]; intros lo; simpl; [constructor|].
intros (H1&H2&H3). constructor; [done|].
eapply Forall_impl; [by apply IH|]. simpl. intros x [Hx ?]. split; [|done].
destruct lo; simpl in *; [lia|done].
Qed.

Lemma inc_lookup_lt lo ks hi i j x y :
inc lo ks hi → ks !! i = Some x → ks !! j = Some y → i < j → (x < y)%Z.
Proof.
revert lo i j. induction ks as [|k ks IH]; intros lo i j; [done|].
simpl. intros (H1&H2&H3) Hi Hj Hij.
destruct j as [|j]; [lia|]. simpl in Hj.
destruct i as [|i]; simpl in Hi.
- inversion Hi; subst.
  apply inc_Forall in H3. rewrite Forall_lookup in H3.
  by destruct (H3 _ _ Hj).
- eapply IH; eauto. lia.
Qed.

Lemma inc_last_ble lo ks hi k : inc lo ks hi → last ks = Some k → ble k hi.
Proof.
intros H Hl. apply inc_Forall in H. rewrite Forall_forall in H.
apply last_Some_elem_of in Hl. by apply H.
Qed.

Lemma inc_hi_last lo ks hi k :
inc lo ks hi → last ks = Some k → inc lo ks (Some k).
Proof.
revert lo. induction ks as [|x ks IH]; intros lo; [done|].
simpl. intros (H1&H2&H3) Hl. rewrite last_cons in Hl.
destruct (last ks) as [y|] eqn:E.
- inversion Hl; subst. split_and!; [done| |by apply IH].
  destruct ks as [|z ks]; [done|]. simpl in H3.
  assert (x < k)%Z; [|lia].
  eapply (inc_lookup_lt None (x :: z :: ks) hi 0 (length (z :: ks))); simpl; eauto.
  + rewrite last_lookup in E. simpl in E. done.
  + lia.
- inversion Hl; subst. apply last_None in E. subst. simpl. split_and!; [done|lia|done].
Qed.

Lemma lastb_blt lo ks hi k :
inc lo ks hi → blt (lastb lo ks) k → blt lo k.
Proof.
unfold lastb. destruct (last ks) as [x|] eqn:E; [|done].
intros H Hk. apply inc_Forall in H. rewrite Forall_forall in H.
apply last_Some_elem_of in E. destruct (H _ E) as [H1 _].
destruct lo; simpl in *; [lia|done].
Qed.

(** * Heaps, frames and rows of subtrees *)

Section Frames.
Context {V : Type} (zeroV : V).
Local Abbreviation cell := (@cell V).
Local Abbreviation Map := (@Map V).
Local Abbreviation atree := (atree V).
Local Abbreviation repr := (repr zeroV).
Implicit Types (h : list cell) (t c : atree) (ts cs : list atree) (m : Map).

Lemma fals_nil : fals (V:=V) [] = [].
Proof. done. Qed.
Lemma fals_cons t ts : fals (t :: ts) = aleaves t ++ fals ts.
Proof. done. Qed.
Lemma fals_app ts1 ts2 : fals (ts1 ++ ts2) = fals ts1 ++ fals ts2.
Proof. unfold fals. by rewrite map_app, concat_app. Qed.
Lemma fals_single t : fals [t] = aleaves t.
Proof. unfold fals. simpl. by rewrite app_nil_r. Qed.

Lemma fleaves_cons t ts : fleaves (t :: ts) = leaves t ++ fleaves ts.
Proof. unfold fleaves, leaves. by rewrite fals_cons, fmap_app. Qed.
Lemma fleaves_app ts1 ts2 : fleaves (ts1 ++ ts2) = fleaves ts1 ++ fleaves ts2.
Proof. unfold fleaves. by rewrite fals_app, fmap_app. Qed.
Lemma fleaves_single t : fleaves [t] = leaves t.
Proof. unfold fleaves, leaves. by rewrite fals_single. Qed.
Lemma fleaves_nil : fleaves (V:=V) [] = [].
Proof. done. Qed.

Lemma fcontents_cons t ts : fcontents (t :: ts) = contents t ++ fcontents ts.
Proof. unfold fcontents, contents. by rewrite fals_cons, fmap_app, concat_app. Qed.
Lemma fcontents_app ts1 ts2 : fcontents (ts1 ++ ts2) = fcontents ts1 ++ fcontents ts2.
Proof. unfold fcontents. by rewrite fals_app, fmap_app, concat_app. Qed.
Lemma fcontents_single t : fcontents [t] = contents t.
Proof. unfold fcontents, contents. by rewrite fals_single. Qed.
Lemma fcontents_nil : fcontents (V:=V) [] = [].
Proof. done. Qed.

Lemma faddrs_cons t ts : faddrs (t :: ts) = addrs t ++ faddrs ts.
Proof. done. Qed.
Lemma faddrs_app ts1 ts2 : faddrs (ts1 ++ ts2) = faddrs ts1 ++ faddrs ts2.
Proof. unfold faddrs. by rewrite map_app, concat_app. Qed.
Lemma faddrs_single t : faddrs [t] = addrs t.
Proof. unfold faddrs. simpl. by rewrite app_nil_r. Qed.
Lemma faddrs_nil : faddrs (V:=V) [] = [].
Proof. done. Qed.

Lemma leaves_node a ks cs : leaves (ANode a ks cs) = fleaves cs.
Proof. done. Qed.
Lemma contents_node a ks cs : contents (ANode a ks cs) = fcontents cs.
Proof. done. Qed.
Lemma addrs_node a ks cs : addrs (ANode a ks cs) = a :: faddrs cs.
Proof. done. Qed.

Lemma raddr_in_addrs t : raddr t ∈ addrs t.
Proof. destruct t; simpl; apply list_elem_of_here. Qed.

(** the leaves are nodes *)
Lemma leaves_addrs t x : x ∈ leaves t → x ∈ addrs t.
Proof.
  induction t as [a kvs|a ks cs IH] using atree_ind'.
  - done.
  - rewrite leaves_node, addrs_node. intros Hx. apply list_elem_of_further.
    induction IH as [|c cs Hc _ IHcs]; [done|].
    rewrite fleaves_cons in Hx. rewrite faddrs_cons.
    apply elem_of_app in Hx as [Hx|Hx]; apply elem_of_app; auto.
Qed.

Lemma fleaves_faddrs ts x : x ∈ fleaves ts → x ∈ faddrs ts.
Proof.
  induction ts as [|t ts IH]; [done|].
  rewrite fleaves_cons, faddrs_cons, !elem_of_app.
  intros [?|?]; [left; by apply leaves_addrs|right; auto].
Qed.

(** ** Cells up to links *)

Lemma cell_eqv_refl (c : cell) : cell_eqv c c.
Proof. by destruct c. Qed.

Lemma cell_eqv_trans (c1 c2 c3 : cell) :
  cell_eqv c1 c2 → cell_eqv c2 c3 → cell_eqv c1 c3.
Proof.
  destruct c1, c2, c3; simpl; try done.
  - intros (->&->&->) (->&->&->). done.
  - congruence.
Qed.

Lemma cell_eqv_leaf nx pv kvs (c : cell) :
  cell_eqv (leaf_cell zeroV nx pv kvs) c → ∃ nx' pv', c = leaf_cell zeroV nx' pv' kvs.
Proof.
  destruct c as [[nx' pv' vs ks n]|]; simpl; [|done].
  intros (<-&<-&<-). by exists nx', pv'.
Qed.

Lemma cell_eqv_node ks cs (c : cell) :
  cell_eqv (node_cell ks cs) c → c = node_cell ks cs.
Proof. destruct c; simpl; [done|]. by intros <-. Qed.

(** ** Frames *)

Lemma kept_outside_refl S h : kept_outside S h h.
Proof. intros x c Hx _. exists c. split; [done|apply cell_eqv_refl]. Qed.

Lemma kept_outside_length S h h' x :
  kept_outside S h h' → x < length h → x ∉ S → x < length h'.
Proof.
  intros Hk Hx HS. destruct (lookup_lt_is_Some_2 h x Hx) as [c Hc].
  destruct (Hk x c Hc HS) as (c'&Hc'&_). by eapply lookup_lt_Some.
Qed.

Lemma kept_outside_weaken S S' h h' :
  kept_outside S h h' → (∀ x, x ∈ S → x ∈ S') → kept_outside S' h h'.
Proof. intros Hk HS x c Hx Hn. apply Hk; [done|]. intros ?. apply Hn. auto. Qed.

Lemma kept_outside_trans S h1 h2 h3 :
  kept_outside S h1 h2 → kept_outside S h2 h3 → kept_outside S h1 h3.
Proof.
  intros H1 H2 x c Hx Hn. destruct (H1 x c Hx Hn) as (c2&Hc2&E2).
  destruct (H2 x c2 Hc2 Hn) as (c3&Hc3&E3). exists c3. split; [done|].
  by eapply cell_eqv_trans.
Qed.

Lemma kept_outside_put S h a (c : cell) :
  a ∈ S → kept_outside S h (<[a := c]> h).
Proof.
  intros Ha x c0 Hx Hn. exists c0. split; [|apply cell_eqv_refl].
  rewrite list_lookup_insert_ne; [done|]. intros ->. done.
Qed.

Lemma kept_outside_put_eqv S h a (c0 c : cell) :
  h !! a = Some c0 → cell_eqv c0 c → kept_outside S h (<[a := c]> h).
Proof.
  intros Ha He x c1 Hx Hn. destruct (decide (x = a)) as [->|Hne].
  - exists c. rewrite list_lookup_insert_eq by (by eapply lookup_lt_Some).
    split; [done|]. congruence.
  - exists c1. rewrite list_lookup_insert_ne by done. split; [done|apply cell_eqv_refl].
Qed.

Lemma kept_outside_alloc S h (c : cell) : kept_outside S h (h ++ [c]).
Proof.
  intros x c0 Hx Hn. exists c0. split; [|apply cell_eqv_refl].
  by apply lookup_app_l_Some.
Qed.

Lemma links_kept_refl h : links_kept h h.
Proof. intros x l Hx. by exists l. Qed.

Lemma links_kept_trans h1 h2 h3 :
  links_kept h1 h2 → links_kept h2 h3 → links_kept h1 h3.
Proof.
  intros H1 H2 x l Hx. destruct (H1 x l Hx) as (l2&Hl2&E1&E2).
  destruct (H2 x l2 Hl2) as (l3&Hl3&E3&E4). exists l3. split; [done|]. split; congruence.
Qed.

Lemma links_kept_alloc h (c : cell) : links_kept h (h ++ [c]).
Proof. intros x l Hx. exists l. split; [|done]. by apply lookup_app_l_Some. Qed.

Lemma links_kept_put_internal h a i (c : cell) :
  h !! a = Some (CInternal i) → links_kept h (<[a := c]> h).
Proof.
  intros Ha x l Hx. exists l. split; [|done].
  rewrite list_lookup_insert_ne; [done|]. intros ->. congruence.
Qed.

Lemma links_kept_put_leaf h a (l0 l1 : leafNode) :
  h !! a = Some (CLeaf l0) → lf_next l1 = lf_next l0 → lf_prev l1 = lf_prev l0 →
  links_kept h (<[a := CLeaf l1]> h).
Proof.
  intros Ha Hn Hp x l Hx. destruct (decide (x = a)) as [->|Hne].
  - exists l1. rewrite list_lookup_insert_eq by (by eapply lookup_lt_Some).
    split; [done|]. split; congruence.
  - exists l. by rewrite list_lookup_insert_ne.
Qed.

Lemma links_kept_put_fresh h a (c : cell) :
  length h ≤ a → links_kept h (<[a := c]> h).
Proof. intros Ha. rewrite list_insert_ge by done. apply links_kept_refl. Qed.

(** ** The representation under frames *)

Lemma repr_kept S h h' t :
  repr h t → kept_outside S h h' → (∀ x, x ∈ addrs t → x ∉ S) → repr h' t.
Proof.
  intros Hr Hk. induction t as [a kvs|a ks cs IH] using atree_ind'; intros Hn.
  - inversion Hr as [? ? nx pv Ha Hlen|]; subst.
    destruct (Hk a _ Ha) as (c'&Hc'&He); [apply Hn, list_elem_of_here|].
    apply cell_eqv_leaf in He as (nx'&pv'&->). by econstructor.
  - inversion Hr as [|? ? ? Ha Hlen Hcs Hall]; subst.
    destruct (Hk a _ Ha) as (c'&Hc'&He); [apply Hn, list_elem_of_here|].
    apply cell_eqv_node in He as ->. constructor; [done..|].
    rewrite addrs_node in Hn.
    clear Ha Hc' Hcs Hlen Hr. induction Hall as [|c cs Hc Hall IHall]; [constructor|].
    inversion IH as [|? ? IHc IHcs]; subst. constructor.
    + apply IHc; [done|]. intros x Hx. apply Hn. rewrite faddrs_cons.
      apply list_elem_of_further, elem_of_app. by left.
    + apply IHall; [done|]. intros x Hx. apply Hn. rewrite faddrs_cons.
      apply elem_of_cons in Hx as [->|Hx]; [apply list_elem_of_here|].
      apply list_elem_of_further, elem_of_app. by right.
Qed.

Lemma repr_alloc h t (c : cell) : repr h t → repr (h ++ [c]) t.
Proof.
  intros Hr. eapply (repr_kept []); [done|apply kept_outside_alloc|].
  intros x _. apply not_elem_of_nil.
Qed.

Lemma repr_put_other h t a (c : cell) :
  repr h t → a ∉ addrs t → repr (<[a := c]> h) t.
Proof.
  intros Hr Ha. eapply (repr_kept [a]); [done|apply kept_outside_put, list_elem_of_here|].
  intros x Hx Hx'. apply list_elem_of_singleton in Hx' as ->. done.
Qed.

(** every node of a represented tree is allocated *)
Lemma repr_allocated h t x : repr h t → x ∈ addrs t → x < length h.
Proof.
  induction t as [a kvs|a ks cs IH] using atree_ind'; intros Hr Hx.
  - inversion Hr; subst. apply list_elem_of_singleton in Hx as ->.
    by eapply lookup_lt_Some.
  - inversion Hr as [|? ? ? Ha Hlen Hcs Hall]; subst. rewrite addrs_node in Hx.
    apply elem_of_cons in Hx as [->|Hx]; [by eapply lookup_lt_Some|].
    clear Ha Hcs Hlen Hr. induction Hall as [|c cs Hc Hall IHall]; [by apply elem_of_nil in Hx|].
    inversion IH; subst. rewrite faddrs_cons in Hx.
    apply elem_of_app in Hx as [Hx|Hx]; auto.
Qed.

Lemma frepr_allocated h ts x : Forall (repr h) ts → x ∈ faddrs ts → x < length h.
Proof.
  induction 1 as [|t ts Ht Hts IH]; [by intros ?%elem_of_nil|].
  rewrite faddrs_cons. intros [?|?]%elem_of_app; [by eapply repr_allocated|auto].
Qed.

Lemma frepr_kept S h h' ts :
  Forall (repr h) ts → kept_outside S h h' → (∀ x, x ∈ faddrs ts → x ∉ S) →
  Forall (repr h') ts.
Proof.
  induction 1 as [|t ts Ht Hts IH]; intros Hk Hn; constructor.
  - eapply repr_kept; [done..|]. intros x Hx. apply Hn. rewrite faddrs_cons.
    apply elem_of_app. by left.
  - apply IH; [done|]. intros x Hx. apply Hn. rewrite faddrs_cons.
    apply elem_of_app. by right.
Qed.

(** ** The leaf list under frames *)

Lemma lseg_kept h h' p ls q : lseg h p ls q → links_kept h h' → lseg h' p ls q.
Proof.
  intros H Hk. revert p H. induction ls as [|a ls IH]; intros p; simpl; [done|].
  intros [(l&Hl&Hp&Hn) Hrest]. split; [|by apply IH].
  destruct (Hk a l Hl) as (l'&Hl'&En&Ep). exists l'. split; [done|]. split; congruence.
Qed.

Definition hd_or (ls : list addr) (q : option addr) : option addr :=
  match ls with [] => q | b :: _ => Some b end.
Definition last_or (p : option addr) (ls : list addr) : option addr :=
  match last ls with Some a => Some a | None => p end.

Lemma lseg_app h p l1 l2 q :
  lseg h p (l1 ++ l2) q ↔ lseg h p l1 (hd_or l2 q) ∧ lseg h (last_or p l1) l2 q.
Proof.
  revert p. induction l1 as [|a l1 IH]; intros p; simpl.
  - unfold last_or. simpl. tauto.
  - rewrite IH. unfold last_or. rewrite last_cons.
    destruct l1 as [|b l1]; simpl.
    + tauto.
    + destruct (last (b :: l1)) eqn:E; [tauto|].
      apply last_None in E. done.
Qed.

Lemma lseg_leaf h p ls q x : lseg h p ls q → x ∈ ls → ∃ l, h !! x = Some (CLeaf l).
Proof.
  revert p. induction ls as [|a ls IH]; intros p; simpl; [by intros _ ?%elem_of_nil|].
  intros [(l&Hl&_) Hrest] [->|Hx]%elem_of_cons; eauto.
Qed.

(** ** Rows of subtrees *)

Local Abbreviation LocF := (LocF zeroV).

Lemma LocF_focus m cl ts cr L1 L2 :
  LocF m (cl ++ ts ++ cr) L1 L2 → LocF m ts (L1 ++ fleaves cl) (fleaves cr ++ L2).
Proof.
  intros (Hr&Hnd&Hndl&Hseg&Hlast).
  rewrite !fleaves_app in Hndl, Hseg, Hlast.
  rewrite <- !(assoc_L (++)) in *.
  split_and!; rewrite <- ?(assoc_L (++)); try done.
  - apply Forall_app in Hr as [_ Hr]. by apply Forall_app in Hr as [Hr _].
  - rewrite !faddrs_app in Hnd. apply NoDup_app in Hnd as (_&_&Hnd).
    by apply NoDup_app in Hnd as (Hnd&_&_).
Qed.

Lemma StepF_refl m ts : StepF m ts m ts.
Proof. split_and!; [done|apply kept_outside_refl|auto|done]. Qed.

Lemma StepF_trans m1 ts1 m2 ts2 m3 ts3 :
  StepF m1 ts1 m2 ts2 → StepF m2 ts2 m3 ts3 → StepF m1 ts1 m3 ts3.
Proof.
  intros (Hl1&Hk1&Ha1&Hf1) (Hl2&Hk2&Ha2&Hf2). split_and!.
  - lia.
  - intros x c Hx Hn. destruct (Hk1 x c Hx Hn) as (c2&Hc2&E2).
    destruct (Hk2 x c2 Hc2) as (c3&Hc3&E3).
    { intros Hin. destruct (Ha1 x Hin) as [?|?]; [done|].
      apply lookup_lt_Some in Hx. lia. }
    exists c3. split; [done|]. by eapply cell_eqv_trans.
  - intros x Hx. destruct (Ha2 x Hx) as [Hin|?]; [|right; lia].
    destruct (Ha1 x Hin); auto.
  - congruence.
Qed.

(** replacing a part of a row *)
Lemma LocF_unfocus m m' cl ts ts' cr L1 L2 :
  LocF m (cl ++ ts ++ cr) L1 L2 →
  StepF m ts m' ts' →
  LocF m' ts' (L1 ++ fleaves cl) (fleaves cr ++ L2) →
  LocF m' (cl ++ ts' ++ cr) L1 L2 ∧ StepF m (cl ++ ts ++ cr) m' (cl ++ ts' ++ cr).
Proof.
  intros (Hr&Hnd&Hndl&Hseg&Hlast) (Hlen&Hk&Ha&Hf) (Hr'&Hnd'&Hndl'&Hseg'&Hlast').
  apply Forall_app in Hr as [Hrl Hr]. apply Forall_app in Hr as [Hrt Hrr].
  rewrite !faddrs_app in Hnd.
  apply NoDup_app in Hnd as (Hndcl&Hd1&Hnd).
  apply NoDup_app in Hnd as (Hndts&Hd2&Hndcr).
  assert (Hfresh : ∀ x, x ∈ faddrs ts' → (x ∉ faddrs cl) ∧ (x ∉ faddrs cr)).
  { intros x Hx. destruct (Ha x Hx) as [Hin|Hge].
    - split; intros Hc.
      + apply (Hd1 x Hc). apply elem_of_app. by left.
      + by apply (Hd2 x Hin).
    - split; intros Hc; eapply frepr_allocated in Hc; eauto; lia. }
  split.
  - split_and!.
    + apply Forall_app. split; [|apply Forall_app; split; [done|]].
      * eapply frepr_kept; [done..|]. intros x Hx Hx'.
        apply (Hd1 x Hx). apply elem_of_app. by left.
      * eapply frepr_kept; [done..|]. intros x Hx Hx'. by apply (Hd2 x Hx').
    + rewrite !faddrs_app. apply NoDup_app. split_and!; [done| |].
      * intros x Hx [Hx'|Hx']%elem_of_app.
        -- by destruct (Hfresh x Hx').
        -- apply (Hd1 x Hx). apply elem_of_app. by right.
      * apply NoDup_app. split_and!; [done| |done].
        intros x Hx Hx'. by destruct (Hfresh x Hx).
    + rewrite !fleaves_app. rewrite <- !(assoc_L (++)) in *. done.
    + rewrite !fleaves_app. rewrite <- !(assoc_L (++)) in *. done.
    + rewrite !fleaves_app. rewrite <- !(assoc_L (++)) in *. done.
  - split_and!; [done| | |done].
    + eapply kept_outside_weaken; [done|]. intros x Hx.
      rewrite !faddrs_app, !elem_of_app. auto.
    + intros x. rewrite !faddrs_app, !elem_of_app.
      intros [?|[Hx|?]]; auto. destruct (Ha x Hx); auto.
Qed.

(** ** A node and the row of its children *)

Lemma LocF_node_open m a ks cs L1 L2 :
  LocF m [ANode a ks cs] L1 L2 →
  m_heap m !! a = Some (node_cell ks cs) ∧
  length ks ≤ maxNodes ∧ length cs = length ks ∧
  (a ∉ faddrs cs) ∧ LocF m cs L1 L2.
Proof.
  intros (Hr&Hnd&Hndl&Hseg&Hlast).
  apply Forall_inv in Hr. inversion Hr; subst.
  rewrite faddrs_single, addrs_node in Hnd. apply NoDup_cons in Hnd as [Hna Hnd].
  rewrite fleaves_single, leaves_node in *.
  split_and!; try done.
Qed.

Lemma LocF_node_close m a ks cs L1 L2 :
  m_heap m !! a = Some (node_cell ks cs) →
  length ks ≤ maxNodes → length cs = length ks →
  a ∉ faddrs cs → LocF m cs L1 L2 →
  LocF m [ANode a ks cs] L1 L2.
Proof.
  intros Ha Hlen Hcs Hna (Hr&Hnd&Hndl&Hseg&Hlast).
  rewrite <- (leaves_node a ks cs), <- fleaves_single in *.
  split_and!; try done.
  - apply Forall_singleton. by constructor.
  - rewrite faddrs_single, addrs_node. by apply NoDup_cons.
Qed.

(** writing the cell of the parent keeps the row of its children *)
Lemma LocF_put_internal m a i (c : cell) ts L1 L2 :
  LocF m ts L1 L2 → m_heap m !! a = Some (CInternal i) → a ∉ faddrs ts →
  LocF (put m a c) ts L1 L2.
Proof.
  intros (Hr&Hnd&Hndl&Hseg&Hlast) Ha Hna. split_and!; try done.
  - simpl. eapply frepr_kept; [done|apply (kept_outside_put [a]), list_elem_of_here|].
    intros x Hx ->%list_elem_of_singleton. done.
  - simpl. eapply lseg_kept; [done|]. by eapply links_kept_put_internal.
Qed.

Lemma StepF_node m a ks cs m' ks' cs' :
  StepF m cs m' cs' → StepF m [ANode a ks cs] m' [ANode a ks' cs'].
Proof.
  intros (Hlen&Hk&Ha&Hf). split_and!; [done| |  |done].
  - eapply kept_outside_weaken; [done|]. intros x Hx.
    rewrite faddrs_single, addrs_node. by apply list_elem_of_further.
  - intros x. rewrite !faddrs_single, !addrs_node.
    intros [->|Hx]%elem_of_cons; [left; apply list_elem_of_here|].
    destruct (Ha x Hx); [left; by apply list_elem_of_further|by right].
Qed.

Lemma StepF_put m ts m' ts' a (c : cell) :
  StepF m ts m' ts' → a ∈ faddrs ts → StepF m ts (put m' a c) ts'.
Proof.
  intros (Hlen&Hk&Ha&Hf) Hin. split_and!; [|  |done|done].
  - simpl. by rewrite length_insert.
  - simpl. eapply kept_outside_trans; [done|]. by apply kept_outside_put.
Qed.

(** the cell of a node outside the row is not touched *)
Lemma StepF_lookup_node m ts m' ts' a ks cs :
  StepF m ts m' ts' → m_heap m !! a = Some (node_cell ks cs) →
  a ∉ faddrs ts → m_heap m' !! a = Some (node_cell ks cs).
Proof.
  intros (Hlen&Hk&Ha&Hf) Hc Hn. destruct (Hk a _ Hc Hn) as (c'&Hc'&E).
  apply cell_eqv_node in E as ->. done.
Qed.
End Frames.

(** * The node methods on represented nodes *)

(** one step of symbolic execution of the model *)
Ltac mstep :=
cbn [mbind option_bind leaf_cell leaf_rec node_cell node_rec
     lf_next lf_prev lf_values lf_keys lf_n in_nodes in_keys in_n
     m_heap m_root m_front m_back m_n put set_heap set_root set_back set_n
     alloc get_leaf get_inode fst snd it_node it_idx].

Section NodeOps.
Context {V : Type} (zeroV : V).
Local Abbreviation cell := (@cell V).
Local Abbreviation Map := (@Map V).
Local Abbreviation atree := (atree V).
Local Abbreviation repr := (repr zeroV).
Local Abbreviation LocF := (LocF zeroV).
Local Abbreviation leaf_rec := (leaf_rec zeroV).
Local Abbreviation leaf_cell := (leaf_cell zeroV).
Implicit Types (h : list cell) (t c : atree) (ts cs : list atree) (m : Map).
Implicit Types (kvs : list (Z * V)) (ks : list Z).

(** ** One leaf *)

Lemma leaf_Keys_rec nx pv kvs :
  length kvs ≤ maxNodes → leaf_Keys (leaf_rec nx pv kvs) = Some kvs.*1.
Proof.
  intros. unfold leaf_Keys, leaf_rec. simpl.
  rewrite <- (length_fmap fst kvs). apply slice_pad_all. by rewrite length_fmap.
Qed.

Lemma dec_S n : dec (S n) = Some n.
Proof. done. Qed.

Lemma dec_pos n : 0 < n → dec n = Some (n - 1).
Proof. destruct n; [lia|]. intros _. simpl. f_equal. lia. Qed.

Lemma leaf_LastKey_rec nx pv kvs :
  length kvs ≤ maxNodes → leaf_LastKey (leaf_rec nx pv kvs) = last kvs.*1.
Proof.
  intros. unfold leaf_LastKey, leaf_rec. simpl.
  destruct (length kvs) as [|n] eqn:E.
  - apply nil_length_inv in E. by subst.
  - simpl. rewrite lookup_pad_lt by (rewrite length_fmap; lia).
    rewrite last_lookup, length_fmap, E. done.
Qed.

Lemma leaf_IsFull_rec nx pv kvs :
  leaf_IsFull (leaf_rec nx pv kvs) = bool_decide (length kvs = maxNodes).
Proof. done. Qed.

Lemma leaf_values_lookup nx pv kvs i :
  i < length kvs → lf_values (leaf_rec nx pv kvs) !! i = kvs.*2 !! i.
Proof. intros. simpl. apply lookup_pad_lt. by rewrite length_fmap. Qed.

Lemma leaf_keys_lookup nx pv kvs i :
  i < length kvs → lf_keys (leaf_rec nx pv kvs) !! i = kvs.*1 !! i.
Proof. intros. simpl. apply lookup_pad_lt. by rewrite length_fmap. Qed.

Lemma leaf_InsertAt_rec nx pv kvs idx k v :
  idx ≤ length kvs → length kvs < maxNodes →
  leaf_InsertAt (leaf_rec nx pv kvs) idx k v
  = Some (leaf_rec nx pv (take idx kvs ++ (k, v) :: drop idx kvs)).
Proof.
  intros. unfold leaf_InsertAt, leaf_rec. simpl.
  rewrite !arr_insert_at_pad by (rewrite ?length_fmap; lia). cbn.
  f_equal. rewrite !fmap_app, !fmap_cons, !fmap_take, !fmap_drop. simpl.
  f_equal. rewrite length_app, length_take. simpl. rewrite length_drop. lia.
Qed.

Lemma leaf_RemoveAt_rec nx pv kvs i :
  i < length kvs → length kvs ≤ maxNodes →
  leaf_RemoveAt zeroV (leaf_rec nx pv kvs) i = Some (leaf_rec nx pv (delete i kvs)).
Proof.
  intros. unfold leaf_RemoveAt, leaf_rec. simpl.
  rewrite !arr_remove_at_pad by (rewrite ?length_fmap; lia). cbn.
  rewrite dec_pos by lia. cbn.
  f_equal. rewrite delete_take_drop.
  rewrite !fmap_app, !fmap_take, !fmap_drop.
  replace (i + 1) with (S i) by lia.
  f_equal. rewrite length_app, length_take, length_drop. lia.
Qed.

Lemma leaf_set_value nx pv kvs i k v0 v :
  kvs !! i = Some (k, v0) → length kvs ≤ maxNodes →
  set_at (lf_values (leaf_rec nx pv kvs)) i v
  = Some (lf_values (leaf_rec nx pv (<[i := (k, v)]> kvs))) ∧
  lf_keys (leaf_rec nx pv (<[i := (k, v)]> kvs)) = lf_keys (leaf_rec nx pv kvs).
Proof.
  intros Hi Hn. pose proof (lookup_lt_Some _ _ _ Hi). simpl. split.
  - rewrite set_at_pad by (rewrite length_fmap; lia).
    by rewrite list_fmap_insert.
  - rewrite list_fmap_insert. simpl. f_equal.
    apply list_insert_id. by rewrite list_lookup_fmap, Hi.
Qed.

(** ** One internal node *)

Lemma inode_Keys_rec ks cs :
  length ks ≤ maxNodes → inode_Keys (node_rec ks cs) = Some ks.
Proof. intros. unfold inode_Keys, node_rec. simpl. by apply slice_pad_all. Qed.

Lemma inode_KeysForFindAndRemove_rec ks cs :
  0 < length ks → length ks ≤ maxNodes →
  inode_KeysForFindAndRemove (node_rec ks cs) = Some (take (length ks - 1) ks).
Proof.
  intros. unfold inode_KeysForFindAndRemove, node_rec. simpl.
  rewrite dec_pos by done. cbn. apply slice_pad_prefix; lia.
Qed.

Lemma inode_LastKey_rec ks cs :
  length ks ≤ maxNodes → inode_LastKey (node_rec ks cs) = last ks.
Proof.
  intros. unfold inode_LastKey, node_rec. simpl.
  destruct (length ks) as [|n] eqn:E.
  - apply nil_length_inv in E. by subst.
  - simpl. rewrite lookup_pad_lt by lia. by rewrite last_lookup, E.
Qed.

Lemma inode_nodes_lookup cs i c :
  cs !! i = Some c → mjoin (pad None (Some ∘ raddr <$> cs) !! i) = Some (raddr c).
Proof.
  intros Hi. rewrite lookup_pad_lt.
  - by rewrite list_lookup_fmap, Hi.
  - rewrite length_fmap. by eapply lookup_lt_Some.
Qed.

Lemma inode_RemoveAt_rec ks cs i :
  i < length ks → length ks ≤ maxNodes → length cs = length ks →
  inode_RemoveAt (node_rec ks cs) i = Some (node_rec (delete i ks) (delete i cs)).
Proof.
  intros Hi Hn Hcs. unfold inode_RemoveAt, node_rec. simpl.
  rewrite !arr_remove_at_pad by (rewrite ?length_fmap; lia). cbn.
  rewrite dec_pos by lia. cbn.
  f_equal. rewrite !delete_take_drop.
  rewrite !fmap_app, !fmap_take, !fmap_drop.
  replace (i + 1) with (S i) by lia.
  f_equal. rewrite length_app, length_take, length_drop. lia.
Qed.

Lemma inode_set_key ks cs i k :
  i < length ks → length ks ≤ maxNodes →
  set_at (in_keys (node_rec ks cs)) i k = Some (in_keys (node_rec (<[i := k]> ks) cs)).
Proof. intros. simpl. by apply set_at_pad. Qed.

(** ** The [node] interface on a represented tree *)

Lemma repr_lookup h t :
  repr h t →
  match t with
  | ALeaf a kvs => ∃ nx pv, h !! a = Some (leaf_cell nx pv kvs)
  | ANode a ks cs => h !! a = Some (node_cell ks cs)
  end.
Proof. inversion 1; eauto. Qed.

Lemma repr_size_le h t : repr h t → asize t ≤ maxNodes.
Proof. by inversion 1. Qed.

Lemma Size_repr m t : repr (m_heap m) t → Size m (raddr t) = Some (asize t).
Proof. inversion 1 as [? ? ? ? Ha|? ? ? Ha]; subst; unfold Size; simpl; by rewrite Ha. Qed.

Lemma IsFull_repr m t :
  repr (m_heap m) t → IsFull m (raddr t) = Some (bool_decide (asize t = maxNodes)).
Proof. inversion 1 as [? ? ? ? Ha|? ? ? Ha]; subst; unfold IsFull; simpl; by rewrite Ha. Qed.

Lemma LastKey_repr m t :
  repr (m_heap m) t → LastKey m (raddr t) = last (akeys t).
Proof.
  inversion 1 as [? ? ? ? Ha|? ? ? Ha]; subst; unfold LastKey; simpl; rewrite Ha.
  - by apply leaf_LastKey_rec.
  - by apply inode_LastKey_rec.
Qed.
End NodeOps.

(** * Split *)

Section SplitOps.
Context {V : Type} (zeroV : V).
Local Abbreviation cell := (@cell V).
Local Abbreviation Map := (@Map V).
Local Abbreviation atree := (atree V).
Local Abbreviation repr := (repr zeroV).
Local Abbreviation LocF := (LocF zeroV).
Local Abbreviation leaf_rec := (leaf_rec zeroV).
Local Abbreviation leaf_cell := (leaf_cell zeroV).
Implicit Types (h : list cell) (t c : atree) (ts cs : list atree) (m : Map).
Implicit Types (kvs : list (Z * V)) (ks : list Z).

(** the two halves of a node; the right half lives at [r] *)
Definition asplit (t : atree) (r : addr) : atree * atree :=
  match t with
  | ALeaf a kvs =>
      let tn := length kvs - length kvs / 2 in
      (ALeaf a (take tn kvs), ALeaf r (drop tn kvs))
  | ANode a ks cs =>
      let tn := length ks - length ks / 2 in
      (ANode a (take tn ks) (take tn cs), ANode r (drop tn ks) (drop tn cs))
  end.

Lemma lseg_local h h' p ls q :
  lseg h p ls q → (∀ y, y ∈ ls → h' !! y = h !! y) → lseg h' p ls q.
Proof.
  revert p. induction ls as [|a ls IH]; intros p; simpl; [done|].
  intros [(l&Hl&Hp&Hn) Hrest] Hsame. split.
  - exists l. rewrite Hsame by apply list_elem_of_here. done.
  - apply IH; [done|]. intros y Hy. apply Hsame. by apply list_elem_of_further.
Qed.

Lemma lseg_allocated h p ls q x : lseg h p ls q → x ∈ ls → x < length h.
Proof.
  intros H Hx. destruct (lseg_leaf _ _ _ _ _ H Hx) as [l Hl].
  by eapply lookup_lt_Some.
Qed.

Lemma leaf_Split_ok m a kvs L1 L2 :
  LocF m [ALeaf a kvs] L1 L2 →
  ∀ (r : addr) tn, r = length (m_heap m) → tn = length kvs - length kvs / 2 →
  ∃ m', leaf_Split zeroV a m = Some (r, m') ∧
    LocF m' [ALeaf a (take tn kvs); ALeaf r (drop tn kvs)] L1 L2 ∧
    StepF m [ALeaf a kvs] m' [ALeaf a (take tn kvs); ALeaf r (drop tn kvs)] ∧
    length (m_heap m') = S (length (m_heap m)) ∧
    m_root m' = m_root m ∧ m_n m' = m_n m.
Proof.
  intros (Hr&Hnd&Hndl&Hseg&Hlast).
  apply Forall_inv in Hr. inversion Hr as [? ? nx pv Ha Hlen|]; subst.
  intros r tn Hrdef Htndef. halve (length kvs).
  rewrite fleaves_single in *. change (leaves (ALeaf a kvs)) with [a] in *.
  simpl in Hndl, Hseg, Hlast.
  pose proof (lookup_lt_Some _ _ _ Ha) as Halloc. rewrite <- Hrdef in Halloc.
  apply lseg_app in Hseg as [Hseg1 Hseg2]. simpl in Hseg1, Hseg2.
  destruct Hseg2 as [(l&Hl&Hpv&Hnx) Hseg2].
  rewrite Ha in Hl. injection Hl as <-. simpl in Hpv, Hnx.
  apply NoDup_app in Hndl as (Hnd1&Hd1&Hnd2).
  apply NoDup_cons in Hnd2 as [Ha2 Hnd2].
  assert (Ha1 : a ∉ L1).
  { intros Hin. apply (Hd1 a Hin). apply list_elem_of_here. }
  assert (HL1 : ∀ y, y ∈ L1 → y < r).
  { intros y Hy. rewrite Hrdef. eapply lseg_allocated; [apply Hseg1|done]. }
  assert (HL2 : ∀ y, y ∈ L2 → y < r).
  { intros y Hy. rewrite Hrdef. eapply lseg_allocated; [apply Hseg2|done]. }
  set (ca := leaf_cell (Some r) pv (take tn kvs)).
  set (cr := leaf_cell nx (Some a) (drop tn kvs)).
  assert (Htn : tn ≤ length kvs) by lia.
  (* the heap after the links are set *)
  assert (Hsplit : ∀ m3 : Map,
    m_heap m3 !! a = Some (CLeaf (mkLeaf (Some r) pv (pad zeroV kvs.*2)
                                         (pad 0%Z kvs.*1) (length kvs))) →
    m_heap m3 !! r = Some (CLeaf (mkLeaf nx None (zeros zeroV) (zeros 0%Z) 0)) →
    (tnode ← get_leaf m3 a;
     rnd ← get_leaf m3 r;
     let n := lf_n tnode in
     let rn := lf_n tnode / 2 in
     let tn := lf_n tnode - rn in
     '(tvs, rvs) ← arr_split zeroV (lf_values tnode) tn n;
     '(tks, rks) ← arr_split 0%Z (lf_keys tnode) tn n;
     let m := put m3 r (CLeaf (mkLeaf (lf_next rnd) (Some a) rvs rks rn)) in
     let m := put m a (CLeaf (mkLeaf (lf_next tnode) (lf_prev tnode) tvs tks tn)) in
     Some (r, m)) = Some (r, put (put m3 r cr) a ca)).
  { intros m3 H3a H3r. unfold get_leaf. rewrite H3a. cbn [mbind option_bind].
    rewrite H3r. cbn [mbind option_bind lf_n lf_values lf_keys lf_next lf_prev].
    rewrite <- Htndef.
    rewrite !arr_split_pad by (rewrite ?length_fmap; lia).
    cbn [mbind option_bind].
    unfold ca, cr, leaf_cell, leaf_rec.
    rewrite !fmap_take, !fmap_drop, length_take, length_drop.
    do 6 f_equal; lia. }
  unfold leaf_Split, get_leaf. rewrite Ha. mstep.
  rewrite <- Hrdef. rewrite list_lookup_insert_ne by lia.
  rewrite list_lookup_middle by done. mstep.
  destruct L2 as [|x L2]; simpl in Hnx; subst nx; cbn.
  - (* the split leaf is the last one: [back] moves *)
    assert (Hback : m_back m = a).
    { rewrite last_snoc in Hlast. by injection Hlast. }
    rewrite decide_True by done.
    eexists. split.
    { apply Hsplit; simpl.
      - rewrite list_lookup_insert_eq by (rewrite length_app; simpl; lia). done.
      - rewrite list_lookup_insert_ne by lia.
        by rewrite list_lookup_middle. }
    simpl.
    set (h' := <[a:=ca]> (<[r:=cr]> (<[a:=_]> (m_heap m ++ [_])))).
    assert (Hh'a : h' !! a = Some ca).
    { unfold h'. apply list_lookup_insert_eq.
      rewrite !length_insert, length_app. simpl. lia. }
    assert (Hh'r : h' !! r = Some cr).
    { unfold h'. rewrite list_lookup_insert_ne by lia.
      apply list_lookup_insert_eq. rewrite !length_insert, length_app. simpl.
      lia. }
    assert (Hh'o : ∀ y, y ≠ a → y < r → h' !! y = m_heap m !! y).
    { intros y Hy1 Hy2. unfold h'.
      rewrite !list_lookup_insert_ne by lia. apply lookup_app_l. lia. }
    assert (Hlen' : length h' = S r).
    { unfold h'. rewrite !length_insert, length_app. simpl. lia. }
    split_and!; try done.
    + split_and!; simpl.
      * constructor; [|constructor; [|constructor]].
        -- econstructor; [apply Hh'a|]. rewrite length_take. lia.
        -- econstructor; [apply Hh'r|]. rewrite length_drop. lia.
      * change (NoDup [a; r]). apply NoDup_cons. split; [|apply NoDup_singleton].
        intros ->%list_elem_of_singleton. lia.
      * change (NoDup (L1 ++ [a; r] ++ [])). rewrite app_nil_r.
        apply NoDup_app. split_and!; [done| |].
        -- intros y Hy [->|[->|?%elem_of_nil]%elem_of_cons]%elem_of_cons; [done| |done].
           specialize (HL1 _ Hy). lia.
        -- apply NoDup_cons. split; [|apply NoDup_singleton].
           intros ->%list_elem_of_singleton. lia.
      * change (lseg h' None (L1 ++ [a; r] ++ []) None). rewrite app_nil_r.
        apply lseg_app. split.
        -- eapply lseg_local; [apply Hseg1|]. intros y Hy. apply Hh'o; [|by apply HL1].
           intros ->. done.
        -- simpl. split_and!; [|  |done].
           ++ eexists. split; [apply Hh'a|]. done.
           ++ eexists. split; [apply Hh'r|]. done.
      * change (last (L1 ++ [a; r] ++ []) = Some r). rewrite app_nil_r.
        change (last (L1 ++ [a] ++ [r]) = Some r).
        rewrite (assoc_L (++) L1 [a] [r]). apply last_snoc.
    + split_and!; simpl; [fold h'; lia| |  |done].
      * intros y c Hy Hny. rewrite faddrs_single in Hny. simpl in Hny.
        exists c. split; [|apply cell_eqv_refl]. fold h'. rewrite Hh'o; [done| |].
        -- intros ->. apply Hny, list_elem_of_here.
        -- rewrite Hrdef. by eapply lookup_lt_Some.
      * intros y. rewrite faddrs_cons, faddrs_single. simpl.
        intros [->|[->|?%elem_of_nil]%elem_of_cons]%elem_of_cons; [|right; lia|done].
        left. rewrite faddrs_single. apply list_elem_of_here.
  - (* there is a next leaf: its [prev] moves *)
    apply NoDup_cons in Hnd2 as [Hx2 Hnd2].
    assert (Hxa : x ≠ a).
    { intros ->. apply Ha2, list_elem_of_here. }
    assert (Hxr : x < r) by (apply HL2, list_elem_of_here).
    assert (Hx1 : x ∉ L1).
    { intros Hin. apply (Hd1 x Hin). apply list_elem_of_further, list_elem_of_here. }
    simpl in Hseg2. destruct Hseg2 as [(lx&Hlx&Hpx&Hnx) Hseg2].
    rewrite list_lookup_insert_ne by lia.
    rewrite lookup_app_l by lia. rewrite Hlx. cbn.
    eexists. split.
    { apply Hsplit; simpl.
      - rewrite list_lookup_insert_ne by lia.
        rewrite list_lookup_insert_eq by (rewrite length_app; simpl; lia). done.
      - rewrite !list_lookup_insert_ne by lia.
        by rewrite list_lookup_middle. }
    simpl.
    set (cx := CLeaf (mkLeaf (lf_next lx) (Some r) (lf_values lx) (lf_keys lx) (lf_n lx))).
    set (h' := <[a:=ca]> (<[r:=cr]> (<[x:=cx]> (<[a:=_]> (m_heap m ++ [_]))))).
    assert (Hh'a : h' !! a = Some ca).
    { unfold h'. apply list_lookup_insert_eq.
      rewrite !length_insert, length_app. simpl. lia. }
    assert (Hh'r : h' !! r = Some cr).
    { unfold h'. rewrite list_lookup_insert_ne by lia.
      apply list_lookup_insert_eq. rewrite !length_insert, length_app. simpl.
      lia. }
    assert (Hh'x : h' !! x = Some cx).
    { unfold h'. rewrite !list_lookup_insert_ne by lia.
      apply list_lookup_insert_eq. rewrite !length_insert, length_app. simpl.
      lia. }
    assert (Hh'o : ∀ y, y ≠ a → y ≠ x → y < r → h' !! y = m_heap m !! y).
    { intros y Hy1 Hy2 Hy3. unfold h'.
      rewrite !list_lookup_insert_ne by lia. apply lookup_app_l. lia. }
    assert (Hlen' : length h' = S r).
    { unfold h'. rewrite !length_insert, length_app. simpl. lia. }
    split_and!; try done.
    + split_and!; simpl.
      * constructor; [|constructor; [|constructor]].
        -- econstructor; [apply Hh'a|]. rewrite length_take. lia.
        -- econstructor; [apply Hh'r|]. rewrite length_drop. lia.
      * change (NoDup [a; r]). apply NoDup_cons. split; [|apply NoDup_singleton].
        intros ->%list_elem_of_singleton. lia.
      * change (NoDup (L1 ++ [a; r] ++ x :: L2)).
        apply NoDup_app. split_and!; [done| |].
        -- intros y Hy [->|[->|Hin]%elem_of_cons]%elem_of_cons; [done| |].
           ++ specialize (HL1 _ Hy). lia.
           ++ apply (Hd1 y Hy). by apply list_elem_of_further.
        -- apply NoDup_cons. split.
           { intros [->|Hin]%elem_of_cons; [lia|]. by apply Ha2. }
           apply NoDup_cons. split; [|by apply NoDup_cons].
           intros Hin. specialize (HL2 _ Hin). lia.
      * change (lseg h' None (L1 ++ [a; r] ++ x :: L2) None).
        apply lseg_app. split.
        -- eapply lseg_local; [apply Hseg1|]. intros y Hy. apply Hh'o; [| |by apply HL1].
           ++ intros ->. done.
           ++ intros ->. done.
        -- simpl. split_and!.
           ++ eexists. split; [apply Hh'a|]. done.
           ++ eexists. split; [apply Hh'r|]. done.
           ++ eexists. split; [apply Hh'x|]. done.
           ++ eapply lseg_local; [apply Hseg2|]. intros y Hy. apply Hh'o.
              ** intros ->. apply Ha2. by apply list_elem_of_further.
              ** intros ->. done.
              ** apply HL2. by apply list_elem_of_further.
      * change (last (L1 ++ [a; r] ++ x :: L2) = Some (m_back m)).
        rewrite <- Hlast.
        rewrite !last_app. simpl. rewrite !last_cons.
        by destruct (last L2).
    + split_and!; simpl; [fold h'; lia| |  |done].
      * intros y c Hy Hny. rewrite faddrs_single in Hny. simpl in Hny. fold h'.
        destruct (decide (y = x)) as [->|Hyx].
        -- exists cx. split; [done|]. rewrite Hlx in Hy. injection Hy as <-. done.
        -- exists c. split; [|apply cell_eqv_refl]. rewrite Hh'o; [done| |done|].
           ++ intros ->. apply Hny, list_elem_of_here.
           ++ rewrite Hrdef. by eapply lookup_lt_Some.
      * intros y. rewrite faddrs_cons, faddrs_single. simpl.
        intros [->|[->|?%elem_of_nil]%elem_of_cons]%elem_of_cons; [|right; lia|done].
        left. rewrite faddrs_single. apply list_elem_of_here.
Qed.

Lemma faddrs_take_drop n cs : faddrs (take n cs) ++ faddrs (drop n cs) = faddrs cs.
Proof. by rewrite <- faddrs_app, take_drop. Qed.
Lemma fleaves_take_drop n cs : fleaves (take n cs) ++ fleaves (drop n cs) = fleaves cs.
Proof. by rewrite <- fleaves_app, take_drop. Qed.
Lemma fcontents_take_drop n cs :
  fcontents (take n cs) ++ fcontents (drop n cs) = fcontents cs.
Proof. by rewrite <- fcontents_app, take_drop. Qed.

Lemma inode_Split_ok m a ks cs L1 L2 :
  LocF m [ANode a ks cs] L1 L2 →
  ∀ (r : addr) tn, r = length (m_heap m) → tn = length ks - length ks / 2 →
  ∃ m', inode_Split a m = Some (r, m') ∧
    LocF m' [ANode a (take tn ks) (take tn cs); ANode r (drop tn ks) (drop tn cs)] L1 L2 ∧
    StepF m [ANode a ks cs] m'
          [ANode a (take tn ks) (take tn cs); ANode r (drop tn ks) (drop tn cs)] ∧
    length (m_heap m') = S (length (m_heap m)) ∧
    m_root m' = m_root m ∧ m_n m' = m_n m.
Proof.
  intros HL r tn Hrdef Htndef.
  destruct (LocF_node_open _ _ _ _ _ _ _ HL) as (Ha&Hlen&Hcs&Hna&(Hr&Hnd&Hndl&Hseg&Hlast)).
  halve (length ks).
  pose proof (lookup_lt_Some _ _ _ Ha) as Halloc. rewrite <- Hrdef in Halloc.
  unfold inode_Split, get_inode. rewrite Ha. mstep.
  rewrite <- Htndef.
  rewrite !arr_split_pad by (rewrite ?length_fmap; lia). mstep.
  rewrite <- Hrdef.
  eexists. split; [reflexivity|].
  rewrite <- !fmap_take, <- !fmap_drop.
  set (cl := node_cell (take tn ks) (take tn cs)).
  set (cr := node_cell (drop tn ks) (drop tn cs)).
  assert (Hcl : CInternal (mkInternal (pad None (Some ∘ raddr <$> take tn cs))
                   (pad 0%Z (take tn ks)) tn) = cl).
  { unfold cl, node_cell, node_rec. rewrite length_take. do 2 f_equal. lia. }
  assert (Hcr : CInternal (mkInternal (pad None (Some ∘ raddr <$> drop tn cs))
                   (pad 0%Z (drop tn ks)) (length ks `div` 2)) = cr).
  { unfold cr, node_cell, node_rec. rewrite length_drop. do 2 f_equal. lia. }
  rewrite Hcl, Hcr. simpl.
  set (h' := <[a:=cl]> (m_heap m ++ [cr])).
  assert (Hh'a : h' !! a = Some cl).
  { unfold h'. apply list_lookup_insert_eq. rewrite length_app. simpl. lia. }
  assert (Hh'r : h' !! r = Some cr).
  { unfold h'. rewrite list_lookup_insert_ne by lia. by apply list_lookup_middle. }
  assert (Hlen' : length h' = S r).
  { unfold h'. rewrite !length_insert, length_app. simpl. lia. }
  assert (Hk : kept_outside [a] (m_heap m) h').
  { unfold h'. eapply kept_outside_trans; [apply kept_outside_alloc|].
    apply kept_outside_put, list_elem_of_here. }
  assert (Hlk : links_kept (m_heap m) h').
  { unfold h'. eapply links_kept_trans; [apply links_kept_alloc|].
    eapply links_kept_put_internal. apply lookup_app_l_Some, Ha. }
  assert (Hr' : Forall (repr h') cs).
  { eapply frepr_kept; [done..|]. intros x Hx ->%list_elem_of_singleton. done. }
  assert (Hcsr : ∀ y, y ∈ faddrs cs → y < r).
  { intros y Hy. rewrite Hrdef. by eapply frepr_allocated. }
  split_and!; try done.
  - split_and!; simpl.
    + constructor; [|constructor; [|constructor]].
      * constructor; [done|rewrite length_take; lia|rewrite !length_take; lia|].
        by apply Forall_take.
      * constructor; [done|rewrite length_drop; lia|rewrite !length_drop; lia|].
        by apply Forall_drop.
    + rewrite faddrs_cons, faddrs_single, !addrs_node.
      apply NoDup_cons. split.
      * intros [Hin|[->|Hin]%elem_of_cons]%elem_of_app; [|lia|].
        -- apply Hna. rewrite <- (faddrs_take_drop tn). apply elem_of_app. by left.
        -- apply Hna. rewrite <- (faddrs_take_drop tn). apply elem_of_app. by right.
      * rewrite <- (faddrs_take_drop tn) in Hnd, Hcsr.
        apply NoDup_app in Hnd as (N1&N2&N3).
        apply NoDup_app. split_and!; [done| |].
        -- intros y Hy [Hyr|Hin]%elem_of_cons; [|by apply (N2 y)].
           specialize (Hcsr y). rewrite elem_of_app in Hcsr. specialize (Hcsr (or_introl Hy)). lia.
        -- apply NoDup_cons. split; [|done].
           intros Hin. specialize (Hcsr r). rewrite elem_of_app in Hcsr.
           specialize (Hcsr (or_intror Hin)). lia.
    + rewrite fleaves_cons, fleaves_single, !leaves_node, fleaves_take_drop. done.
    + rewrite fleaves_cons, fleaves_single, !leaves_node, fleaves_take_drop.
      by eapply lseg_kept.
    + rewrite fleaves_cons, fleaves_single, !leaves_node, fleaves_take_drop. done.
  - split_and!; simpl; [fold h'; lia| |  |done].
    + fold h'. eapply kept_outside_weaken; [done|]. intros x ->%list_elem_of_singleton.
      rewrite faddrs_single, addrs_node. apply list_elem_of_here.
    + intros y. rewrite faddrs_cons, !faddrs_single, !addrs_node.
      rewrite <- (faddrs_take_drop tn cs).
      intros [->|[Hin|[->|Hin]%elem_of_cons]%elem_of_app]%elem_of_cons.
      * left. apply list_elem_of_here.
      * left. apply list_elem_of_further, elem_of_app. by left.
      * right. lia.
      * left. apply list_elem_of_further, elem_of_app. by right.
Qed.

(** [Split] of either kind of node *)
Lemma Split_ok m t L1 L2 :
  LocF m [t] L1 L2 →
  ∀ (r : addr), r = length (m_heap m) →
  ∃ m', Split zeroV (raddr t) m = Some (r, m') ∧
    LocF m' [(asplit t r).1; (asplit t r).2] L1 L2 ∧
    StepF m [t] m' [(asplit t r).1; (asplit t r).2] ∧
    length (m_heap m') = S (length (m_heap m)) ∧
    m_root m' = m_root m ∧ m_n m' = m_n m.
Proof.
  intros HL r Hr. pose proof HL as (Hrep&_). apply Forall_inv in Hrep.
  apply repr_lookup in Hrep. unfold Split. destruct t as [a kvs|a ks cs]; simpl.
  - destruct Hrep as (nx&pv&->). by apply leaf_Split_ok.
  - rewrite Hrep. by apply inode_Split_ok.
Qed.
End SplitOps.

(** * Well-formed subtrees under the restructuring steps *)

Lemma lastb_nil lo : lastb lo [] = lo.
Proof. done. Qed.
Lemma lastb_snoc lo ks k : lastb lo (ks ++ [k]) = Some k.
Proof. unfold lastb. by rewrite last_snoc. Qed.
Lemma lastb_cons lo k ks : lastb lo (k :: ks) = lastb (Some k) ks.
Proof. unfold lastb. rewrite last_cons. by destruct (last ks). Qed.
Lemma lastb_app lo l1 l2 : lastb lo (l1 ++ l2) = lastb (lastb lo l1) l2.
Proof. unfold lastb. rewrite last_app. by destruct (last l2). Qed.
Lemma lastb_last lo ks k : last ks = Some k → lastb lo ks = Some k.
Proof. unfold lastb. by intros ->. Qed.

Lemma blt_lastb lo ks hi k : inc lo ks hi → blt lo k → (∀ x, x ∈ ks → (x < k)%Z) → blt (lastb lo ks) k.
Proof.
intros Hinc Hlo Hall. unfold lastb. destruct (last ks) as [x|] eqn:E; [|done].
simpl. apply Hall. by apply last_Some_elem_of.
Qed.

Lemma inc_cons_iff lo k ks hi :
inc lo (k :: ks) hi ↔ blt lo k ∧ ble k hi ∧ inc (Some k) ks hi.
Proof. done. Qed.

Lemma inc_snoc lo ks k hi :
inc lo (ks ++ [k]) hi ↔ inc lo ks hi ∧ blt (lastb lo ks) k ∧ ble k hi.
Proof. rewrite inc_app. simpl. tauto. Qed.

(** raising the upper bound to a key above all of [ks] *)
Lemma inc_raise lo ks hi k hi' :
inc lo ks hi → (∀ x, ble x hi → (x ≤ k)%Z) → ble k hi' → inc lo ks hi'.
Proof.
intros H Hk Hhi'. eapply inc_ble; [done|]. intros x Hx.
specialize (Hk x Hx). destruct hi'; simpl in *; [lia|done].
Qed.

Lemma inc_elem_lt_last lo ks hi x k :
inc lo ks hi → x ∈ ks → last ks = Some k → (x ≤ k)%Z.
Proof.
intros H Hx Hl. apply (inc_hi_last _ _ _ _ H) in Hl.
apply inc_Forall in Hl. rewrite Forall_forall in Hl. by destruct (Hl x Hx).
Qed.

Lemma inc_insert lo ks hi i key :
inc lo ks hi → blt lo key → ble key hi →
(∀ j x, j < i → ks !! j = Some x → (x < key)%Z) →
(∀ x, ks !! i = Some x → (key < x)%Z) →
i ≤ length ks →
inc lo (take i ks ++ key :: drop i ks) hi.
Proof.
intros H Hlo Hhi Hbefore Hat Hi.
rewrite <- (take_drop i ks) in H. apply inc_app in H as [H1 H2].
apply inc_app. split; [done|]. simpl. split_and!; [|done|].
- eapply blt_lastb; [done..|]. intros x [j Hj]%list_elem_of_lookup.
  pose proof (lookup_lt_Some _ _ _ Hj) as Hlt. rewrite length_take in Hlt.
  rewrite lookup_take_lt in Hj by lia. eapply Hbefore; [|done]. lia.
- destruct (drop i ks) as [|x rest] eqn:E; [done|].
  simpl in *. destruct H2 as (?&?&?). split_and!; [|done..].
  apply Hat. rewrite <- (Nat.add_0_r i), <- lookup_drop, E. done.
Qed.

Section WfLemmas.
Context {V : Type}.
Local Abbreviation atree := (atree V).
Implicit Types (t c : atree) (ts cs : list atree) (ks : list Z).
Implicit Types (P : option Z → Z → atree → Prop).

Lemma kids_length P lo ks cs : kids P lo ks cs → length ks = length cs.
Proof.
  revert lo cs. induction ks as [|k ks IH]; intros lo [|c cs]; simpl; try done.
  intros [_ H]. f_equal. eauto.
Qed.

Lemma kids_app P lo ks1 ks2 cs1 cs2 :
  length ks1 = length cs1 →
  kids P lo (ks1 ++ ks2) (cs1 ++ cs2) ↔ kids P lo ks1 cs1 ∧ kids P (lastb lo ks1) ks2 cs2.
Proof.
  revert lo cs1. induction ks1 as [|k ks1 IH]; intros lo [|c cs1]; simpl; try done.
  - intros _. rewrite lastb_nil. tauto.
  - intros [= Hlen]. rewrite IH by done. rewrite lastb_cons. tauto.
Qed.

Lemma kids_impl P Q lo ks cs :
  kids P lo ks cs → (∀ lo k c, c ∈ cs → P lo k c → Q lo k c) → kids Q lo ks cs.
Proof.
  revert lo cs. induction ks as [|k ks IH]; intros lo [|c cs]; simpl; try done.
  intros [H1 H2] HPQ. split.
  - apply HPQ; [apply list_elem_of_here|done].
  - apply IH; [done|]. intros ????. apply HPQ. by apply list_elem_of_further.
Qed.

Lemma kids_blt P lo lo' ks cs :
  kids P lo ks cs → (∀ k c, P lo k c → P lo' k c) → kids P lo' ks cs.
Proof.
  destruct ks as [|k ks], cs as [|c cs]; simpl; try done.
  intros [H1 H2] HP. split; auto.
Qed.

Lemma kids_Forall P lo ks cs (Q : atree → Prop) :
  kids P lo ks cs → (∀ lo k c, P lo k c → Q c) → Forall Q cs.
Proof.
  revert lo cs. induction ks as [|k ks IH]; intros lo [|c cs]; simpl; try done.
  intros [H1 H2] HPQ. constructor; eauto.
Qed.

(** the shape is fixed by the height *)
Lemma wf_leaf lo hi t : wf 0 lo hi t → ∃ a kvs, t = ALeaf a kvs.
Proof. destruct t; simpl; [eauto|done]. Qed.
Lemma wf_node ht lo hi t : wf (S ht) lo hi t → ∃ a ks cs, t = ANode a ks cs.
Proof. destruct t; simpl; [done|eauto]. Qed.

Lemma wf_inc ht lo hi t : wf ht lo hi t → inc lo (akeys t) hi.
Proof. destruct ht, t; simpl; try done. by intros [? _]. Qed.

Lemma wf_ble ht lo hi hi' t :
  wf ht lo hi t → (∀ k, ble k hi → ble k hi') → wf ht lo hi' t.
Proof.
  destruct ht, t; simpl; try done.
  - intros. by eapply inc_ble.
  - intros [H1 H2] Hhi. split; [by eapply inc_ble|done].
Qed.

Lemma wf_blt ht lo lo' hi t :
  wf ht lo hi t → (∀ k, blt lo k → blt lo' k) → wf ht lo' hi t.
Proof.
  revert lo lo' hi t. induction ht as [|ht IH]; intros lo lo' hi [a kvs|a ks cs]; simpl; try done.
  - intros. by eapply inc_blt.
  - intros [H1 H2] Hlo. split; [by eapply inc_blt|].
    eapply kids_blt; [done|]. intros k c [Hw Hs]. split; [|done]. by eapply IH.
Qed.

Lemma wf_hi_last ht lo hi t k :
  wf ht lo hi t → last (akeys t) = Some k → wf ht lo (Some k) t.
Proof.
  destruct ht, t; simpl; try done.
  - intros. by eapply inc_hi_last.
  - intros [H1 H2] Hl. split; [by eapply inc_hi_last|done].
Qed.

Lemma wf_asize_children ht lo hi a ks cs :
  wf (S ht) lo hi (ANode a ks cs) → length cs = length ks.
Proof. intros [_ H]. symmetry. by eapply kids_length. Qed.

(** the keys of a subtree obey its bounds *)
Lemma wf_contents ht lo hi t :
  wf ht lo hi t → asize t ≠ 0 ∨ ht = 0 →
  Forall (λ k, blt lo k ∧ ble k hi) (contents t).*1.
Proof.
  revert lo hi t. induction ht as [|ht IH]; intros lo hi [a kvs|a ks cs]; simpl; try done.
  - intros H _. unfold contents. simpl. rewrite app_nil_r. by apply inc_Forall.
  - intros [H1 H2] _. rewrite contents_node.
    revert lo H1 H2. revert cs. induction ks as [|k ks IHks]; intros [|c cs] lo; simpl; try done.
    intros (Hlo&Hhi&Hinc) [[Hw [Hs1 Hs2]] Hk].
    rewrite fcontents_cons, fmap_app. apply Forall_app. split.
    + eapply Forall_impl; [apply IH; [done|]|].
      * left. rewrite minNodes_eq in Hs1. lia.
      * simpl. intros x [? Hx]. split; [done|].
        destruct hi; simpl in *; [lia|done].
    + eapply Forall_impl; [by apply IHks|].
      simpl. intros x [Hx ?]. split; [|done].
      destruct lo; simpl in *; [lia|done].
Qed.

(** ** The two halves of a split *)

Lemma wf_asplit ht lo hi t r lk :
  wf ht lo hi t →
  last (akeys (asplit t r).1) = Some lk →
  wf ht lo (Some lk) (asplit t r).1 ∧ wf ht (Some lk) hi (asplit t r).2.
Proof.
  destruct ht, t as [a kvs|a ks cs]; simpl; try done.
  - set (tn := length kvs - length kvs `div` 2).
    intros H Hl. rewrite <- (take_drop tn kvs), fmap_app in H.
    apply inc_app in H as [H1 H2]. rewrite (lastb_last _ _ _ Hl) in H2.
    split; [|done]. by eapply inc_hi_last.
  - set (tn := length ks - length ks `div` 2).
    intros [H Hk] Hl. pose proof (kids_length _ _ _ _ Hk) as Hlen.
    rewrite <- (take_drop tn ks) in H. apply inc_app in H as [H1 H2].
    rewrite (lastb_last _ _ _ Hl) in H2.
    rewrite <- (take_drop tn ks), <- (take_drop tn cs) in Hk.
    apply kids_app in Hk as [Hk1 Hk2]; [|rewrite !length_take; lia].
    rewrite (lastb_last _ _ _ Hl) in Hk2.
    split; (split; [|done]); [by eapply inc_hi_last|done].
Qed.

Lemma asplit_sizes t r :
  asize (asplit t r).1 = asize t - asize t / 2 ∧ asize (asplit t r).2 = asize t / 2.
Proof.
  destruct t as [a kvs|a ks cs]; simpl.
  - halve (length kvs). rewrite length_take, length_drop. lia.
  - halve (length ks). rewrite length_take, length_drop. lia.
Qed.

Lemma asplit_raddr t r : raddr (asplit t r).1 = raddr t ∧ raddr (asplit t r).2 = r.
Proof. by destruct t. Qed.

Lemma asplit_fals t r : aleaves (asplit t r).1 ++ aleaves (asplit t r).2 = aleaves t
  ∨ ∃ a kvs, t = ALeaf a kvs.
Proof.
  destruct t as [a kvs|a ks cs]; [right; eauto|left]. simpl.
  rewrite <- concat_app, <- map_app, take_drop. done.
Qed.

Lemma asplit_contents t r :
  contents (asplit t r).1 ++ contents (asplit t r).2 = contents t.
Proof.
  destruct t as [a kvs|a ks cs]; simpl.
  - unfold contents. simpl. rewrite !app_nil_r. apply take_drop.
  - rewrite !contents_node. apply fcontents_take_drop.
Qed.

(** the last key of the left half exists when the node has two entries *)
Lemma asplit_last_key t r :
  2 ≤ asize t → is_Some (last (akeys (asplit t r).1)).
Proof.
  intros Hs. apply (proj2 (last_is_Some _)).
  destruct t as [a kvs|a ks cs]; simpl in *.
  - halve (length kvs). intros Hnil%(f_equal length).
    rewrite length_fmap, length_take in Hnil. simpl in Hnil. lia.
  - halve (length ks). intros Hnil%(f_equal length).
    rewrite length_take in Hnil. simpl in Hnil. lia.
Qed.

(** ** A node, opened at one child *)

(** what a node asks of a child between two of its keys *)
Definition kid (ht : nat) (lo : option Z) (k : Z) (c : atree) : Prop :=
  wf ht lo (Some k) c ∧ minNodes ≤ asize c ≤ maxNodes.

Lemma wf_node_unfold ht lo hi a ks cs :
  wf (S ht) lo hi (ANode a ks cs) ↔ inc lo ks hi ∧ kids (kid ht) lo ks cs.
Proof. done. Qed.

Lemma wf_node_at ht lo hi a ks1 k ks2 cs1 c cs2 :
  length ks1 = length cs1 →
  wf (S ht) lo hi (ANode a (ks1 ++ k :: ks2) (cs1 ++ c :: cs2)) ↔
  inc lo (ks1 ++ k :: ks2) hi ∧ kids (kid ht) lo ks1 cs1 ∧
  kid ht (lastb lo ks1) k c ∧ kids (kid ht) (Some k) ks2 cs2.
Proof.
  intros Hlen. rewrite wf_node_unfold, kids_app by done. simpl. tauto.
Qed.

Lemma wf_lo_first ht lo hi t k :
  wf ht lo hi t → k ∈ akeys t → blt lo k ∧ ble k hi.
Proof.
  intros Hw Hk. apply wf_inc, inc_Forall in Hw. rewrite Forall_forall in Hw. auto.
Qed.

Lemma akeys_length t : length (akeys t) = asize t.
Proof. destruct t; simpl; [apply length_fmap|done]. Qed.

Lemma akeys_nonempty t : 0 < asize t → ∃ k, k ∈ akeys t.
Proof.
  rewrite <- akeys_length. destruct (akeys t) as [|k l]; simpl; [lia|].
  exists k. apply list_elem_of_here.
Qed.

(** the node after [SplitAt] of a full child *)
Lemma wf_SplitAt ht lo hi a ks1 k ks2 cs1 c cs2 r lk :
  length ks1 = length cs1 →
  wf (S ht) lo hi (ANode a (ks1 ++ k :: ks2) (cs1 ++ c :: cs2)) →
  asize c = maxNodes →
  last (akeys (asplit c r).1) = Some lk →
  wf (S ht) lo hi (ANode a (ks1 ++ lk :: k :: ks2)
                     (cs1 ++ (asplit c r).1 :: (asplit c r).2 :: cs2)) ∧
  asize (asplit c r).1 = minNodes ∧ asize (asplit c r).2 = minNodes ∧
  (lk < k)%Z.
Proof.
  intros Hlen Hw Hfull Hlk.
  apply wf_node_at in Hw as (Hinc&Hk1&[Hwc Hsc]&Hk2); [|done].
  destruct (wf_asplit _ _ _ _ r lk Hwc Hlk) as [Hwl Hwr].
  destruct (asplit_sizes c r) as [Hsl Hsr]. rewrite Hfull in Hsl, Hsr.
  rewrite maxNodes_eq in Hsl, Hsr. change (32 `div` 2) with 16 in *.
  change (32 - 16) with 16 in Hsl.
  assert (Hlo : blt (lastb lo ks1) lk ∧ ble lk (Some lk)).
  { eapply wf_lo_first; [done|]. by apply last_Some_elem_of. }
  assert (Hlt : (lk < k)%Z).
  { destruct (akeys_nonempty (asplit c r).2) as [x Hx]; [lia|].
    destruct (wf_lo_first _ _ _ _ _ Hwr Hx) as [H1 H2]. simpl in *. lia. }
  split_and!; [|by rewrite minNodes_eq..|done].
  replace (ks1 ++ lk :: k :: ks2) with (ks1 ++ [lk] ++ k :: ks2) by done.
  replace (cs1 ++ (asplit c r).1 :: (asplit c r).2 :: cs2)
    with (cs1 ++ [(asplit c r).1] ++ (asplit c r).2 :: cs2) by done.
  rewrite wf_node_unfold.
  apply inc_app in Hinc as [Hi1 Hi2]. destruct Hi2 as (Hi2&Hi3&Hi4).
  split.
  - apply inc_app. split; [done|]. simpl. split_and!; try done.
    + by destruct Hlo.
    + destruct hi; simpl in *; [lia|done].
  - apply kids_app; [done|]. split; [done|]. cbn [kids app]. unfold kid.
    split_and!; try done.
    + rewrite Hsl, minNodes_eq. lia.
    + rewrite Hsl, maxNodes_eq. lia.
    + rewrite Hsr, minNodes_eq. lia.
    + rewrite Hsr, maxNodes_eq. lia.
Qed.
End WfLemmas.

(** * [SplitAt] and [splitRoot] *)

Section SplitAt.
Context {V : Type} (zeroV : V).
Local Abbreviation cell := (@cell V).
Local Abbreviation Map := (@Map V).
Local Abbreviation atree := (atree V).
Local Abbreviation repr := (repr zeroV).
Local Abbreviation LocF := (LocF zeroV).
Implicit Types (h : list cell) (t c : atree) (ts cs : list atree) (m : Map).
Implicit Types (kvs : list (Z * V)) (ks : list Z).

Lemma node_cell_ext ks cs cs' :
  raddr <$> cs = raddr <$> cs' → node_cell ks cs = node_cell ks cs'.
Proof.
  intros H. unfold node_cell, node_rec. do 3 f_equal.
  rewrite !(list_fmap_compose raddr Some). by rewrite H.
Qed.

Lemma SplitAt_ok m a ks1 k ks2 cs1 c cs2 L1 L2 idx :
  LocF m [ANode a (ks1 ++ k :: ks2) (cs1 ++ c :: cs2)] L1 L2 →
  length ks1 = idx → length cs1 = idx →
  length (ks1 ++ k :: ks2) < maxNodes → 2 ≤ asize c →
  ∀ (r : addr), r = length (m_heap m) →
  ∃ m' lk, SplitAt zeroV a idx m = Some m' ∧
    last (akeys (asplit c r).1) = Some lk ∧
    LocF m' [ANode a (ks1 ++ lk :: k :: ks2)
                     (cs1 ++ (asplit c r).1 :: (asplit c r).2 :: cs2)] L1 L2 ∧
    StepF m [ANode a (ks1 ++ k :: ks2) (cs1 ++ c :: cs2)]
          m' [ANode a (ks1 ++ lk :: k :: ks2)
                      (cs1 ++ (asplit c r).1 :: (asplit c r).2 :: cs2)] ∧
    m_root m' = m_root m ∧ m_n m' = m_n m.
Proof.
  intros HL Hks1 Hcs1 Hn Hc r Hr.
  destruct (LocF_node_open _ _ _ _ _ _ _ HL) as (Ha&Hlen&Hcs&Hna&HLcs).
  pose proof (LocF_focus _ m cs1 [c] cs2 L1 L2 HLcs) as HLc.
  destruct (Split_ok _ _ _ _ _ HLc r Hr) as (m1&HS&HL1&HSt&Hlen1&Hroot1&Hn1).
  destruct (asplit_last_key c r Hc) as [lk Hlk].
  destruct (asplit_raddr c r) as [Hra Hrb].
  set (cl := (asplit c r).1) in *. set (cr := (asplit c r).2) in *.
  exists (put m1 a (node_cell (ks1 ++ lk :: k :: ks2) (cs1 ++ cl :: cr :: cs2))), lk.
  assert (Hnac : a ∉ faddrs [c]).
  { intros Hin. apply Hna. rewrite faddrs_app, faddrs_cons. rewrite faddrs_single in Hin.
    apply elem_of_app. right. apply elem_of_app. by left. }
  pose proof (StepF_lookup_node _ _ _ _ _ _ _ HSt Ha Hnac) as Ha1.
  destruct (LocF_unfocus _ m m1 cs1 [c] [cl; cr] cs2 L1 L2 HLcs HSt HL1) as [HLcs' HStcs].
  assert (Hnacs' : a ∉ faddrs (cs1 ++ [cl; cr] ++ cs2)).
  { intros Hin. destruct HStcs as (_&_&Hsub&_). destruct (Hsub a Hin) as [?|?]; [done|].
    apply lookup_lt_Some in Ha. lia. }
  split_and!.
  - unfold SplitAt, get_inode. rewrite Ha. mstep.
    rewrite (inode_nodes_lookup (cs1 ++ c :: cs2) idx c) by (by apply list_lookup_middle).
    mstep. rewrite HS. mstep. rewrite Ha1. mstep.
    rewrite arr_insert_at_pad; [|by rewrite length_fmap|len..].
    mstep.
    assert (Hrl : repr (m_heap m1) cl).
    { destruct HL1 as (HF&_). by apply Forall_inv in HF. }
    rewrite <- Hra, (LastKey_repr _ _ _ Hrl), Hlk. mstep.
    rewrite arr_insert_at_pad by (done || len). mstep.
    do 2 f_equal. unfold node_cell, node_rec. f_equal. f_equal.
    + f_equal. rewrite !fmap_app, !fmap_cons.
      set (F1 := Some ∘ raddr <$> cs1). set (F2 := Some ∘ raddr <$> cs2).
      assert (length F1 = idx) by (unfold F1; len).
      replace (F1 ++ (Some ∘ raddr) c :: F2) with ((F1 ++ [(Some ∘ raddr) c]) ++ F2)
        by (by rewrite <- (assoc_L (++))).
      rewrite take_app_length', drop_app_length' by len.
      rewrite <- (assoc_L (++)). simpl. by rewrite Hra, Hrb.
    + f_equal. rewrite take_app_length', drop_app_length' by done. done.
    + len.
  - done.
  - apply LocF_node_close.
    + simpl. apply list_lookup_insert_eq. by eapply lookup_lt_Some.
    + len.
    + len.
    + done.
    + exact (LocF_put_internal _ _ _ _ _ _ _ _ HLcs' Ha1 Hnacs').
  - apply StepF_put.
    + by apply StepF_node.
    + rewrite faddrs_single, addrs_node. apply list_elem_of_here.
  - done.
  - done.
Qed.
End SplitAt.

(** * Insert *)

Section InsertLeaf.
Context {V : Type} (zeroV : V).
Local Abbreviation cell := (@cell V).
Local Abbreviation Map := (@Map V).
Local Abbreviation atree := (atree V).
Local Abbreviation repr := (repr zeroV).
Local Abbreviation LocF := (LocF zeroV).
Local Abbreviation leaf_cell := (leaf_cell zeroV).
Implicit Types (h : list cell) (t c : atree) (ts cs : list atree) (m : Map).
Implicit Types (kvs : list (Z * V)) (ks : list Z) (it : @Iterator).

(** [it] points at the pair number [p] of the leaves [als] *)
Definition at_pos (als : list (addr * list (Z * V))) (it : Iterator) (p : nat) : Prop :=
  ∃ A kvs B, als = A ++ (it_node it, kvs) :: B ∧ it_idx it < length kvs ∧
             p = length (concat A.*2) + it_idx it.

(** the pairs [c'] after inserting [(key, value)] into [c], the value
    [old] found there before when [rep], and the place of [it] *)
Definition ins_post (key : Z) (value : V) (c c' : list (Z * V))
    (als' : list (addr * list (Z * V))) (it : Iterator) (old : V) (rep : bool) : Prop :=
  ∃ l1 l2, c' = l1 ++ (key, value) :: l2 ∧
           (if rep then c = l1 ++ (key, old) :: l2 else c = l1 ++ l2 ∧ old = zeroV) ∧
           at_pos als' it (length l1).

Lemma at_pos_ctx A B als it p :
  at_pos als it p → at_pos (A ++ als ++ B) it (length (concat A.*2) + p).
Proof.
  intros (A0&kvs&B0&->&Hi&->). exists (A ++ A0), kvs, (B0 ++ B). split_and!; [|done|].
  - by rewrite <- !(assoc_L (++)).
  - rewrite fmap_app, concat_app, length_app. lia.
Qed.

Lemma ins_post_ctx key value (l l' : list (Z * V)) als' it old rep A B :
  ins_post key value l l' als' it old rep →
  ins_post key value (concat A.*2 ++ l ++ concat B.*2) (concat A.*2 ++ l' ++ concat B.*2)
           (A ++ als' ++ B) it old rep.
Proof.
  intros (l1&l2&->&Hc&Hp). exists (concat A.*2 ++ l1), (l2 ++ concat B.*2). split_and!.
  - by rewrite <- !(assoc_L (++)).
  - destruct rep.
    + subst l. by rewrite <- !(assoc_L (++)).
    + destruct Hc as [-> ->]. by rewrite <- !(assoc_L (++)).
  - rewrite length_app. by apply at_pos_ctx.
Qed.

(** writing new pairs into a leaf *)
Lemma LocF_put_leaf m a kvs kvs' nx pv L1 L2 :
  LocF m [ALeaf a kvs] L1 L2 →
  m_heap m !! a = Some (leaf_cell nx pv kvs) →
  length kvs' ≤ maxNodes →
  LocF (put m a (leaf_cell nx pv kvs')) [ALeaf a kvs'] L1 L2 ∧
  StepF m [ALeaf a kvs] (put m a (leaf_cell nx pv kvs')) [ALeaf a kvs'].
Proof.
  intros (Hr&Hnd&Hndl&Hseg&Hlast) Ha Hlen. split.
  - split_and!; try done.
    + constructor; [|constructor]. econstructor; [|done].
      simpl. apply list_lookup_insert_eq. by eapply lookup_lt_Some.
    + simpl. eapply lseg_kept; [done|]. by eapply links_kept_put_leaf.
  - split_and!; simpl; [by rewrite length_insert| |auto|done].
    apply kept_outside_put. rewrite faddrs_single. apply list_elem_of_here.
Qed.

Lemma LocF_set_n m k ts L1 L2 : LocF m ts L1 L2 → LocF (set_n m k) ts L1 L2.
Proof. done. Qed.
Lemma StepF_set_n m ts m' ts' k : StepF m ts m' ts' → StepF m ts (set_n m' k) ts'.
Proof. done. Qed.

Lemma LocF_leaf_lookup m a kvs L1 L2 :
  LocF m [ALeaf a kvs] L1 L2 →
  ∃ nx pv, m_heap m !! a = Some (leaf_cell nx pv kvs) ∧ length kvs ≤ maxNodes.
Proof.
  intros (Hr&_). apply Forall_inv in Hr. inversion Hr; subst. eauto.
Qed.

Context (key : Z) (value : V).

(** what [Insert] guarantees on a subtree of height [ht] that is not full *)
Definition insert_spec (ht : nat) : Prop :=
  ∀ t m lo hi L1 L2 fuel,
    LocF m [t] L1 L2 → wf ht lo hi t → asize t < maxNodes →
    (ht ≠ 0 → 0 < asize t) →
    blt lo key → ble key hi → ht < fuel →
    ∃ it old rep m' t',
      insert_loop zeroV fuel (raddr t) key value m = Some ((it, old, rep), m') ∧
      LocF m' [t'] L1 L2 ∧ StepF m [t] m' [t'] ∧
      raddr t' = raddr t ∧ wf ht lo hi t' ∧
      asize t ≤ asize t' ≤ asize t + 1 ∧
      m_root m' = m_root m ∧
      ins_post key value (contents t) (contents t') (aleaves t') it old rep ∧
      m_n m' = (if rep then m_n m else m_n m + 1)%Z ∧
      head (leaves t') = head (leaves t).

Lemma insert_leaf : insert_spec 0.
Proof.
  intros t m lo hi L1 L2 fuel HL Hwf Hsz _ Hlo Hhi Hfuel.
  destruct (wf_leaf _ _ _ Hwf) as (a&kvs&->). simpl in Hwf, Hsz.
  destruct (LocF_leaf_lookup _ _ _ _ _ HL) as (nx&pv&Ha&Hlen).
  destruct fuel as [|fuel]; [lia|]. simpl.
  rewrite Ha. mstep. rewrite leaf_Keys_rec by done. mstep.
  pose proof (linearSearchOrdered_length kvs.*1 key) as Hi.
  pose proof (linearSearchOrdered_before kvs.*1 key) as Hbefore.
  pose proof (linearSearchOrdered_at kvs.*1 key) as Hat.
  pose proof (linearSearchOrdered_found kvs.*1 key) as Hfound.
  destruct (linearSearchOrdered kvs.*1 key) as [i ok]. simpl in *.
  rewrite length_fmap in Hi.
  destruct ok.
  - (* the key is in the leaf: its value is replaced *)
    specialize (Hfound eq_refl).
    apply list_lookup_fmap_Some in Hfound as ([k old]&Hk&Hkv). simpl in Hk. subst k.
    pose proof (lookup_lt_Some _ _ _ Hkv) as Hilt.
    rewrite lookup_pad_lt by (by rewrite length_fmap).
    rewrite list_lookup_fmap, Hkv. mstep.
    destruct (leaf_set_value zeroV nx pv kvs i key old value Hkv Hlen) as [Hset Hkeys].
    simpl in Hset, Hkeys. rewrite Hset. mstep.
    set (kvs' := <[i:=(key, value)]> kvs).
    assert (Hlen' : length kvs' = length kvs) by apply length_insert.
    replace (CLeaf _) with (leaf_cell nx pv kvs').
    2:{ unfold leaf_cell, leaf_rec. fold kvs' in Hkeys. by rewrite Hkeys, Hlen'. }
    destruct (LocF_put_leaf m a kvs kvs' nx pv L1 L2 HL Ha) as [HL' HS']; [lia|].
    exists (mkIt a i), old, true, (put m a (leaf_cell nx pv kvs')), (ALeaf a kvs').
    split_and!; try done.
    + simpl. unfold kvs'. rewrite list_fmap_insert. simpl.
      rewrite list_insert_id; [done|]. by rewrite list_lookup_fmap, Hkv.
    + simpl. lia.
    + simpl. lia.
    + exists (take i kvs), (drop (S i) kvs). unfold contents. simpl. rewrite !app_nil_r.
      split_and!.
      * unfold kvs'. by apply insert_take_drop.
      * symmetry. by apply take_drop_middle.
      * exists [], kvs', []. simpl. split_and!; [done|lia|].
        rewrite length_take. lia.
  - (* the pair is inserted at [i] *)
    rewrite leaf_InsertAt_rec by lia. mstep.
    set (kvs' := take i kvs ++ (key, value) :: drop i kvs).
    assert (Hlen' : length kvs' = S (length kvs)) by (unfold kvs'; len).
    change (CLeaf (leaf_rec zeroV nx pv kvs')) with (leaf_cell nx pv kvs').
    destruct (LocF_put_leaf m a kvs kvs' nx pv L1 L2 HL Ha) as [HL' HS']; [lia|].
    eexists (mkIt a i), zeroV, false, _, (ALeaf a kvs').
    split_and!; try done.
    + simpl. unfold kvs'. rewrite fmap_app, fmap_cons, fmap_take, fmap_drop. simpl.
      apply inc_insert; try done; [|rewrite length_fmap; lia].
      intros x Hx. destruct (Hat x Hx) as [Hle Hiff].
      assert (x ≠ key); [|lia]. intros ->. by destruct Hiff as [_ Hiff]; specialize (Hiff eq_refl).
    + simpl. lia.
    + simpl. lia.
    + exists (take i kvs), (drop i kvs). unfold contents. simpl. rewrite !app_nil_r.
      split_and!; [done|by rewrite take_drop|done|].
      exists [], kvs', []. simpl. split_and!; [done|lia|].
      rewrite length_take. lia.
Qed.
End InsertLeaf.

Section InsertNode.
Context {V : Type} (zeroV : V).
Local Abbreviation cell := (@cell V).
Local Abbreviation Map := (@Map V).
Local Abbreviation atree := (atree V).
Local Abbreviation repr := (repr zeroV).
Local Abbreviation LocF := (LocF zeroV).
Local Abbreviation leaf_cell := (leaf_cell zeroV).
Implicit Types (h : list cell) (t c : atree) (ts cs : list atree) (m : Map).
Implicit Types (kvs : list (Z * V)) (ks : list Z) (it : @Iterator).

(** a step inside one child is a step of the node *)
Lemma node_child_step m m' a ks1 k ks2 cs1 c c' cs2 L1 L2 :
  LocF m [ANode a (ks1 ++ k :: ks2) (cs1 ++ c :: cs2)] L1 L2 →
  LocF m' [c'] (L1 ++ fleaves cs1) (fleaves cs2 ++ L2) →
  StepF m [c] m' [c'] → raddr c' = raddr c →
  LocF m' [ANode a (ks1 ++ k :: ks2) (cs1 ++ c' :: cs2)] L1 L2 ∧
  StepF m [ANode a (ks1 ++ k :: ks2) (cs1 ++ c :: cs2)]
        m' [ANode a (ks1 ++ k :: ks2) (cs1 ++ c' :: cs2)].
Proof.
  intros HL HL' HSt Hra.
  destruct (LocF_node_open _ _ _ _ _ _ _ HL) as (Ha&Hlen&Hcs&Hna&HLcs).
  destruct (LocF_unfocus _ m m' cs1 [c] [c'] cs2 L1 L2 HLcs HSt HL') as [HLcs' HStcs].
  assert (Hnac : a ∉ faddrs [c]).
  { intros Hin. apply Hna. rewrite faddrs_app, faddrs_cons. rewrite faddrs_single in Hin.
    apply elem_of_app. right. apply elem_of_app. by left. }
  pose proof (StepF_lookup_node _ _ _ _ _ _ _ HSt Ha Hnac) as Ha1.
  split.
  - apply LocF_node_close; [| |len| |done].
    + rewrite Ha1. f_equal. apply node_cell_ext.
      rewrite !fmap_app, !fmap_cons. by rewrite Hra.
    + done.
    + intros Hin. destruct HStcs as (_&_&Hsub&_). destruct (Hsub a Hin) as [?|?]; [done|].
      apply lookup_lt_Some in Ha. lia.
  - by apply StepF_node.
Qed.

Lemma contents_node_at a ks (cs1 : list atree) c cs2 :
  contents (ANode a ks (cs1 ++ c :: cs2)) = fcontents cs1 ++ contents c ++ fcontents cs2.
Proof. by rewrite contents_node, fcontents_app, fcontents_cons. Qed.

Lemma aleaves_node_at a ks (cs1 : list atree) c cs2 :
  aleaves (ANode a ks (cs1 ++ c :: cs2)) = fals cs1 ++ aleaves c ++ fals cs2.
Proof. change (aleaves (ANode a ks (cs1 ++ c :: cs2))) with (fals (cs1 ++ c :: cs2)).
       by rewrite fals_app, fals_cons. Qed.

Lemma LocF_child_repr m a ks cs L1 L2 c :
  LocF m [ANode a ks cs] L1 L2 → c ∈ cs → repr (m_heap m) c.
Proof.
  intros HL Hc. destruct (LocF_node_open _ _ _ _ _ _ _ HL) as (_&_&_&_&(Hr&_)).
  rewrite Forall_forall in Hr. auto.
Qed.

Lemma head_app_eq {A} (l1 l1' r : list A) :
  head l1' = head l1 → head (l1' ++ r) = head (l1 ++ r).
Proof. by destruct l1, l1'. Qed.

Lemma leaves_node_at a ks (cs1 : list atree) c cs2 :
  leaves (ANode a ks (cs1 ++ c :: cs2)) = fleaves cs1 ++ leaves c ++ fleaves cs2.
Proof. by rewrite leaves_node, fleaves_app, fleaves_cons. Qed.

(** the first leaf below a node, when one child is rewritten *)
Lemma head_leaves_child a ks ks' (cs1 : list atree) c c' cs2 :
  head (leaves c') = head (leaves c) →
  head (leaves (ANode a ks (cs1 ++ c' :: cs2))) =
  head (leaves (ANode a ks' (cs1 ++ c :: cs2))).
Proof.
  intros H. rewrite !leaves_node_at. destruct (fleaves cs1); [|done]. simpl.
  by apply head_app_eq.
Qed.

Lemma leaves_asplit c r :
  head (leaves (asplit c r).1 ++ leaves (asplit c r).2) = head (leaves c).
Proof.
  destruct (asplit_fals c r) as [E|(a0&kvs&->)]; [|done].
  unfold leaves. by rewrite <- fmap_app, E.
Qed.

Lemma head_leaves_split a ks ks' (cs1 : list atree) c cs2 r :
  head (leaves (ANode a ks (cs1 ++ (asplit c r).1 :: (asplit c r).2 :: cs2))) =
  head (leaves (ANode a ks' (cs1 ++ c :: cs2))).
Proof.
  rewrite !leaves_node, !fleaves_app, !fleaves_cons. destruct (fleaves cs1); [|done].
  simpl. rewrite (assoc_L (++)). apply head_app_eq, leaves_asplit.
Qed.

Context (key : Z) (value : V).
Local Abbreviation insert_spec := (insert_spec zeroV key value).
Local Abbreviation ins_post := (ins_post zeroV key value).

(** the descent into a child that is not full *)
Lemma insert_descend ht :
  insert_spec ht →
  ∀ m a ks1 k ks2 cs1 c cs2 lo hi L1 L2 fuel,
    LocF m [ANode a (ks1 ++ k :: ks2) (cs1 ++ c :: cs2)] L1 L2 →
    wf (S ht) lo hi (ANode a (ks1 ++ k :: ks2) (cs1 ++ c :: cs2)) →
    length ks1 = length cs1 →
    asize c < maxNodes →
    blt (lastb lo ks1) key → (key ≤ k)%Z → ht < fuel →
    ∃ it old rep m' c',
      insert_loop zeroV fuel (raddr c) key value m = Some ((it, old, rep), m') ∧
      LocF m' [ANode a (ks1 ++ k :: ks2) (cs1 ++ c' :: cs2)] L1 L2 ∧
      StepF m [ANode a (ks1 ++ k :: ks2) (cs1 ++ c :: cs2)]
            m' [ANode a (ks1 ++ k :: ks2) (cs1 ++ c' :: cs2)] ∧
      wf (S ht) lo hi (ANode a (ks1 ++ k :: ks2) (cs1 ++ c' :: cs2)) ∧
      m_root m' = m_root m ∧
      ins_post (contents (ANode a (ks1 ++ k :: ks2) (cs1 ++ c :: cs2)))
               (contents (ANode a (ks1 ++ k :: ks2) (cs1 ++ c' :: cs2)))
               (aleaves (ANode a (ks1 ++ k :: ks2) (cs1 ++ c' :: cs2))) it old rep ∧
      m_n m' = (if rep then m_n m else m_n m + 1)%Z ∧
      head (leaves (ANode a (ks1 ++ k :: ks2) (cs1 ++ c' :: cs2))) =
      head (leaves (ANode a (ks1 ++ k :: ks2) (cs1 ++ c :: cs2))).
Proof.
  intros IH m a ks1 k ks2 cs1 c cs2 lo hi L1 L2 fuel HL Hwf Hlen Hsz Hlo Hhi Hfuel.
  pose proof Hwf as Hwf0.
  apply wf_node_at in Hwf as (Hinc&Hk1&[Hwc [Hs1 Hs2]]&Hk2); [|done].
  destruct (LocF_node_open _ _ _ _ _ _ _ HL) as (Ha&Hlenks&Hcs&Hna&HLcs).
  pose proof (LocF_focus _ m cs1 [c] cs2 L1 L2 HLcs) as HLc.
  destruct (IH c m (lastb lo ks1) (Some k) _ _ fuel HLc Hwc Hsz) as
    (it&old&rep&m'&c'&Hrun&HL'&HSt&Hra&Hwc'&Hsz'&Hroot&Hpost&Hn&Hhd); try done.
  { intros _. rewrite minNodes_eq in Hs1. lia. }
  exists it, old, rep, m', c'.
  destruct (node_child_step _ _ _ _ _ _ _ _ _ _ _ _ HL HL' HSt Hra) as [HLn HStn].
  split_and!; try done.
  - apply wf_node_at; [done|]. split_and!; try done. split; [done|lia].
  - rewrite !contents_node_at, aleaves_node_at. by apply ins_post_ctx.
  - by apply head_leaves_child.
Qed.

(** what the inner loop of [Insert] guarantees on a node of height
    [S ht] whose keys are all smaller than [key] *)
Definition extend_spec (ht : nat) : Prop :=
  ∀ t m lo k0 L1 L2 fuel,
    LocF m [t] L1 L2 → wf (S ht) lo (Some k0) t → (k0 < key)%Z →
    asize t < maxNodes → 0 < asize t → ht < fuel →
    ∃ it m' t',
      insert_extend zeroV fuel (raddr t) key value m = Some ((it, zeroV, false), m') ∧
      LocF m' [t'] L1 L2 ∧ StepF m [t] m' [t'] ∧ raddr t' = raddr t ∧
      wf (S ht) lo (Some key) t' ∧ asize t ≤ asize t' ≤ asize t + 1 ∧
      m_root m' = m_root m ∧
      contents t' = contents t ++ [(key, value)] ∧
      at_pos (aleaves t') it (length (contents t)) ∧
      m_n m' = (m_n m + 1)%Z ∧
      head (leaves t') = head (leaves t).

Lemma split_at_index {A} (l : list A) i x :
  l !! i = Some x → ∃ l1 l2, l = l1 ++ x :: l2 ∧ length l1 = i.
Proof.
  intros H. exists (take i l), (drop (S i) l). split.
  - symmetry. by apply take_drop_middle.
  - rewrite length_take. apply lookup_lt_Some in H. lia.
Qed.

Lemma fcontents_split (cs1 : list atree) c cs2 r :
  fcontents (cs1 ++ (asplit c r).1 :: (asplit c r).2 :: cs2) = fcontents (cs1 ++ c :: cs2).
Proof.
  rewrite !fcontents_app, !fcontents_cons, (assoc_L (++) (contents _)).
  by rewrite asplit_contents.
Qed.

Lemma insert_node ht : insert_spec ht → extend_spec ht → insert_spec (S ht).
Proof.
  intros IH IHext t m lo hi L1 L2 fuel HL Hwf Hsz Hpos Hlo Hhi Hfuel.
  destruct (wf_node _ _ _ _ Hwf) as (a&ks&cs&->). simpl in Hsz, Hpos.
  specialize (Hpos ltac:(done)).
  destruct (LocF_node_open _ _ _ _ _ _ _ HL) as (Ha&Hlen&Hcs&Hna&HLcs).
  destruct fuel as [|fuel]; [lia|]. cbn [insert_loop raddr].
  rewrite Ha. mstep. rewrite inode_Keys_rec by done. mstep.
  pose proof (linearSearchOrdered_length ks key) as Hi.
  pose proof (linearSearchOrdered_before ks key) as Hbefore.
  pose proof (linearSearchOrdered_at ks key) as Hat.
  destruct (linearSearchOrdered ks key) as [i ok]. simpl in Hi, Hbefore, Hat.
  destruct (decide (i = length ks)) as [->|Hne].
  - (* the key is beyond every routing key *)
    destruct (last ks) as [k0|] eqn:Hl0.
    2:{ apply last_None in Hl0. subst ks. simpl in Hpos. lia. }
    assert (Hk0 : (k0 < key)%Z).
    { rewrite last_lookup in Hl0. eapply Hbefore; [|done]. lia. }
    pose proof (wf_hi_last _ _ _ _ _ Hwf Hl0) as Hwf0.
    destruct (IHext _ m lo k0 L1 L2 (S fuel) HL Hwf0 Hk0) as
      (it&m'&t'&Hrun&HL'&HSt&Hra&Hwf'&Hsz'&Hroot&Hc&Hp&Hn&Hhd); [done|done|lia|].
    cbn [raddr] in Hrun. exists it, zeroV, false, m', t'.
    split_and!; try done.
    + eapply wf_ble; [done|]. intros x Hx. simpl in Hx.
      destruct hi; simpl in *; [lia|done].
    + lia.
    + lia.
    + exists (contents (ANode a ks cs)), []. by rewrite app_nil_r.
  - (* the child [i] takes the key *)
    destruct (lookup_lt_is_Some_2 ks i) as [ki Hki]; [lia|].
    destruct (lookup_lt_is_Some_2 cs i) as [c Hci]; [lia|].
    destruct (Hat ki Hki) as [Hle _].
    destruct (split_at_index _ _ _ Hki) as (ks1&ks2&->&Hl1).
    destruct (split_at_index _ _ _ Hci) as (cs1&cs2&->&Hl2).
    assert (Hlo1 : blt (lastb lo ks1) key).
    { eapply blt_lastb; [|done|].
      - apply wf_inc in Hwf. simpl in Hwf. apply inc_app in Hwf as [Hw1 _]. apply Hw1.
      - intros x [j Hj]%list_elem_of_lookup. eapply (Hbefore j).
        + apply lookup_lt_Some in Hj. lia.
        + by apply lookup_app_l_Some. }
    rewrite (inode_nodes_lookup _ _ _ Hci). mstep.
    assert (Hrc : repr (m_heap m) c).
    { eapply LocF_child_repr; [done|]. apply elem_of_app. right. apply list_elem_of_here. }
    rewrite (IsFull_repr _ _ _ Hrc). mstep.
    pose proof Hwf as Hwf0.
    apply wf_node_at in Hwf0 as (_&_&[_ [Hsc1 Hsc2]]&_); [|lia].
    destruct (decide (asize c = maxNodes)) as [Hfull|Hnfull].
    + (* it is full and is split first *)
      rewrite bool_decide_true by done.
      assert (Hc2 : 2 ≤ asize c) by (rewrite Hfull, maxNodes_eq; lia).
      destruct (SplitAt_ok _ m a ks1 ki ks2 cs1 c cs2 L1 L2 i HL Hl1 Hl2 Hsz Hc2 _ eq_refl)
        as (m1&lk&HSp&Hlk&HL1&HSt1&Hroot1&Hn1).
      set (r := length (m_heap m)) in *.
      assert (Hl12 : length ks1 = length cs1) by lia.
      destruct (wf_SplitAt _ _ _ a _ _ _ _ _ _ r lk Hl12 Hwf Hfull Hlk) as
        (Hwf1&Hsl&Hsr&Hlt).
      destruct (asplit_raddr c r) as [Hra Hrb].
      set (cl := (asplit c r).1) in *. set (cr := (asplit c r).2) in *.
      rewrite HSp. mstep.
      destruct (LocF_node_open _ _ _ _ _ _ _ HL1) as (Ha1&Hlen1&Hcs1&Hna1&HLcs1).
      unfold get_inode. rewrite Ha1. mstep.
      rewrite (lookup_pad_lt 0%Z _ i) by len.
      rewrite (list_lookup_middle ks1 _ lk i) by done. mstep.
      destruct (decide ((lk ?= key)%Z = Lt)) as [Hcmp|Hcmp].
      * (* the right half takes the key *)
        apply Z.compare_lt_iff in Hcmp.
        rewrite (inode_nodes_lookup (cs1 ++ cl :: cr :: cs2) (i + 1) cr).
        2:{ rewrite (cons_middle cl), (assoc_L (++)). apply list_lookup_middle. len. }
        mstep.
        revert HL1 HSt1 Hwf1.
        rewrite (cons_middle lk ks1), (cons_middle cl cs1), !(assoc_L (++)).
        intros HL1 HSt1 Hwf1.
        destruct (insert_descend ht IH m1 a (ks1 ++ [lk]) ki ks2 (cs1 ++ [cl]) cr cs2
                    lo hi L1 L2 fuel HL1 Hwf1) as
          (it&old&rep&m'&c'&Hrun&HL'&HSt'&Hwf'&Hroot'&Hpost&Hn'&Hhd); [len| | |done|lia|].
        { rewrite Hsr, minNodes_eq, maxNodes_eq. lia. }
        { by rewrite lastb_snoc. }
        exists it, old, rep, m', (ANode a ((ks1 ++ [lk]) ++ ki :: ks2) ((cs1 ++ [cl]) ++ c' :: cs2)).
        split_and!; try done.
        -- by eapply StepF_trans.
        -- simpl. len.
        -- simpl. len.
        -- congruence.
        -- rewrite contents_node in *.
           rewrite <- (assoc_L (++) cs1 [cl]) in Hpost. simpl in Hpost.
           unfold cl, cr in Hpost. by rewrite fcontents_split in Hpost.
        -- destruct rep; congruence.
        -- rewrite Hhd. rewrite <- !(assoc_L (++)). apply head_leaves_split.
      * (* the left half takes the key *)
        assert (Hcmp' : (key ≤ lk)%Z).
        { destruct (Z.compare_spec lk key); [lia|done|lia]. }
        mstep.
        destruct (insert_descend ht IH m1 a ks1 lk (ki :: ks2) cs1 cl (cr :: cs2)
                    lo hi L1 L2 fuel HL1 Hwf1) as
          (it&old&rep&m'&c'&Hrun&HL'&HSt'&Hwf'&Hroot'&Hpost&Hn'&Hhd); [lia| |done|done|lia|].
        { rewrite Hsl, minNodes_eq, maxNodes_eq. lia. }
        rewrite Hra in Hrun.
        exists it, old, rep, m', (ANode a (ks1 ++ lk :: ki :: ks2) (cs1 ++ c' :: cr :: cs2)).
        split_and!; try done.
        -- by eapply StepF_trans.
        -- simpl. len.
        -- simpl. len.
        -- congruence.
        -- rewrite contents_node in *. unfold cl, cr in Hpost.
           by rewrite fcontents_split in Hpost.
        -- destruct rep; congruence.
        -- rewrite Hhd. apply head_leaves_split.
    + (* it has room *)
      rewrite bool_decide_false by done.
      destruct (insert_descend ht IH m a ks1 ki ks2 cs1 c cs2
                  lo hi L1 L2 fuel HL Hwf) as
        (it&old&rep&m'&c'&Hrun&HL'&HSt'&Hwf'&Hroot'&Hpost&Hn'&Hhd); [lia|lia|done|done|lia|].
      exists it, old, rep, m', (ANode a (ks1 ++ ki :: ks2) (cs1 ++ c' :: cs2)).
      split_and!; try done; simpl; lia.
Qed.
End InsertNode.

Section InsertExtend.
Context {V : Type} (zeroV : V).
Local Abbreviation cell := (@cell V).
Local Abbreviation Map := (@Map V).
Local Abbreviation atree := (atree V).
Local Abbreviation repr := (repr zeroV).
Local Abbreviation LocF := (LocF zeroV).
Local Abbreviation leaf_cell := (leaf_cell zeroV).
Implicit Types (h : list cell) (t c : atree) (ts cs : list atree) (m : Map).
Implicit Types (kvs : list (Z * V)) (ks : list Z) (it : @Iterator).

(** writing new routing keys into a node *)
Lemma node_set_keys m a ks ks' cs L1 L2 :
  LocF m [ANode a ks cs] L1 L2 → length ks' = length ks →
  LocF (put m a (node_cell ks' cs)) [ANode a ks' cs] L1 L2 ∧
  StepF m [ANode a ks cs] (put m a (node_cell ks' cs)) [ANode a ks' cs].
Proof.
  intros HL Hlen.
  destruct (LocF_node_open _ _ _ _ _ _ _ HL) as (Ha&Hlenks&Hcs&Hna&HLcs).
  split.
  - apply LocF_node_close; [|lia|lia|done|].
    + simpl. apply list_lookup_insert_eq. by eapply lookup_lt_Some.
    + by eapply LocF_put_internal.
  - apply StepF_put.
    + apply StepF_node, StepF_refl.
    + rewrite faddrs_single, addrs_node. apply list_elem_of_here.
Qed.

Context (key : Z) (value : V).
Local Abbreviation extend_spec := (extend_spec zeroV key value).

(** the end of the inner loop: the child [node] of a node whose last
    routing key is now [key] *)
Definition extend_tail (fuel : nat) (node : addr) (m : Map)
  : option ((Iterator * V * bool) * Map) :=
  match m_heap m !! node with
  | Some (CInternal _) => insert_extend zeroV fuel node key value m
  | Some (CLeaf tnode) =>
      let idx := lf_n tnode in
      tnode ← leaf_InsertAt tnode idx key value;
      let m := put m node (CLeaf tnode) in
      let m := set_n m (m_n m + 1)%Z in
      Some ((mkIt node idx, zeroV, false), m)
  | None => None
  end.

(** the second half of the inner loop, after the optional split *)
Definition extend_rest (fuel : nat) (ia node : addr) (m : Map)
  : option ((Iterator * V * bool) * Map) :=
  inode ← get_inode m ia;
  n1 ← dec (in_n inode);
  ks ← set_at (in_keys inode) n1 key;
  extend_tail fuel node
    (put m ia (CInternal (mkInternal (in_nodes inode) ks (in_n inode)))).

Lemma insert_extend_unfold fuel ia m :
  insert_extend zeroV (S fuel) ia key value m =
  (inode ← get_inode m ia;
   n1 ← dec (in_n inode);
   node ← mjoin (in_nodes inode !! n1);
   full ← IsFull m node;
   '(node, m) ← (if full : bool then
                   m ← SplitAt zeroV ia n1 m;
                   inode ← get_inode m ia;
                   n1 ← dec (in_n inode);
                   node ← mjoin (in_nodes inode !! n1);
                   Some (node, m)
                 else Some (node, m));
   extend_rest fuel ia node m).
Proof. done. Qed.

Definition tail_spec (ht : nat) : Prop :=
  ∀ c m lo k0 L1 L2 fuel,
    LocF m [c] L1 L2 → wf ht lo (Some k0) c → (k0 < key)%Z →
    blt lo key → asize c < maxNodes → (ht ≠ 0 → 0 < asize c) → ht ≤ fuel →
    ∃ it m' c',
      extend_tail fuel (raddr c) m = Some ((it, zeroV, false), m') ∧
      LocF m' [c'] L1 L2 ∧ StepF m [c] m' [c'] ∧ raddr c' = raddr c ∧
      wf ht lo (Some key) c' ∧ asize c ≤ asize c' ≤ asize c + 1 ∧
      m_root m' = m_root m ∧
      contents c' = contents c ++ [(key, value)] ∧
      at_pos (aleaves c') it (length (contents c)) ∧
      m_n m' = (m_n m + 1)%Z ∧
      head (leaves c') = head (leaves c).

Lemma tail_leaf : tail_spec 0.
Proof.
  intros c m lo k0 L1 L2 fuel HL Hwf Hk0 Hlo Hsz _ _.
  destruct (wf_leaf _ _ _ Hwf) as (a&kvs&->). simpl in Hwf, Hsz.
  destruct (LocF_leaf_lookup _ _ _ _ _ _ HL) as (nx&pv&Ha&Hlen).
  unfold extend_tail. cbn [raddr]. rewrite Ha. mstep.
  rewrite leaf_InsertAt_rec by lia. mstep.
  rewrite take_ge, drop_ge by lia.
  set (kvs' := kvs ++ [(key, value)]).
  assert (Hlen' : length kvs' = S (length kvs)) by (unfold kvs'; len).
  change (CLeaf (leaf_rec zeroV nx pv kvs')) with (leaf_cell nx pv kvs').
  destruct (LocF_put_leaf _ m a kvs kvs' nx pv L1 L2 HL Ha) as [HL' HS']; [lia|].
  eexists (mkIt a (length kvs)), _, (ALeaf a kvs').
  split_and!; try done.
  - simpl. unfold kvs'. rewrite fmap_app. simpl. apply inc_snoc. split_and!.
    + apply (inc_raise lo _ (Some k0) key); [done|simpl; lia|simpl; lia].
    + unfold lastb. destruct (last kvs.*1) as [x|] eqn:E.
      * simpl. apply (inc_last_ble _ _ _ _ Hwf) in E. simpl in E. lia.
      * done.
    + simpl. lia.
  - simpl. lia.
  - simpl. lia.
  - unfold contents. simpl. by rewrite !app_nil_r.
  - exists [], kvs', []. simpl. split_and!; [done|lia|].
    unfold contents. simpl. rewrite app_nil_r. lia.
Qed.

Lemma tail_node ht : extend_spec ht → tail_spec (S ht).
Proof.
  intros IH c m lo k0 L1 L2 fuel HL Hwf Hk0 Hlo Hsz Hpos Hfuel.
  destruct (wf_node _ _ _ _ Hwf) as (a&ks&cs&->).
  destruct (LocF_node_open _ _ _ _ _ _ _ HL) as (Ha&_).
  unfold extend_tail. cbn [raddr]. rewrite Ha. mstep.
  destruct (IH _ m lo k0 L1 L2 fuel HL Hwf Hk0 Hsz) as
    (it&m'&t'&Hrun&Hrest); [auto|lia|].
  exists it, m', t'. split; [done|]. done.
Qed.

Lemma extend_rest_ok ht :
  tail_spec ht →
  ∀ m a ks1 kl cs1 c lo k0 L1 L2 fuel,
    LocF m [ANode a (ks1 ++ [kl]) (cs1 ++ [c])] L1 L2 →
    wf (S ht) lo (Some k0) (ANode a (ks1 ++ [kl]) (cs1 ++ [c])) → (k0 < key)%Z →
    length ks1 = length cs1 → asize c < maxNodes → ht ≤ fuel →
    ∃ it m' c',
      extend_rest fuel a (raddr c) m = Some ((it, zeroV, false), m') ∧
      LocF m' [ANode a (ks1 ++ [key]) (cs1 ++ [c'])] L1 L2 ∧
      StepF m [ANode a (ks1 ++ [kl]) (cs1 ++ [c])]
            m' [ANode a (ks1 ++ [key]) (cs1 ++ [c'])] ∧
      wf (S ht) lo (Some key) (ANode a (ks1 ++ [key]) (cs1 ++ [c'])) ∧
      m_root m' = m_root m ∧
      contents (ANode a (ks1 ++ [key]) (cs1 ++ [c'])) =
        contents (ANode a (ks1 ++ [kl]) (cs1 ++ [c])) ++ [(key, value)] ∧
      at_pos (aleaves (ANode a (ks1 ++ [key]) (cs1 ++ [c']))) it
             (length (contents (ANode a (ks1 ++ [kl]) (cs1 ++ [c])))) ∧
      m_n m' = (m_n m + 1)%Z ∧
      head (leaves (ANode a (ks1 ++ [key]) (cs1 ++ [c']))) =
      head (leaves (ANode a (ks1 ++ [kl]) (cs1 ++ [c]))).
Proof.
  intros IH m a ks1 kl cs1 c lo k0 L1 L2 fuel HL Hwf Hk0 Hlen Hsz Hfuel.
  destruct (LocF_node_open _ _ _ _ _ _ _ HL) as (Ha&Hlenks&Hcs&Hna&HLcs).
  apply wf_node_at in Hwf as (Hinc&Hk1&[Hwc [Hs1 Hs2]]&_); [|done].
  apply inc_snoc in Hinc as (Hinc1&Hlokl&Hklk0). simpl in Hklk0.
  unfold extend_rest, get_inode. rewrite Ha. mstep.
  rewrite length_app. cbn [length]. rewrite Nat.add_1_r, dec_S. mstep.
  pose proof (inode_set_key (ks1 ++ [kl]) (cs1 ++ [c]) (length ks1) key) as Hset.
  rewrite insert_app_r_alt, Nat.sub_diag in Hset by lia. cbn [insert list_insert] in Hset.
  simpl in Hset. rewrite Hset by len. clear Hset. mstep.
  destruct (node_set_keys m a (ks1 ++ [kl]) (ks1 ++ [key]) (cs1 ++ [c]) L1 L2 HL) as
    [HL2 HSt2]; [len|].
  replace (CInternal _) with (node_cell (V:=V) (ks1 ++ [key]) (cs1 ++ [c])).
  2:{ unfold node_cell, node_rec. do 2 f_equal. len. }
  set (m2 := put m a _) in *.
  destruct (LocF_node_open _ _ _ _ _ _ _ HL2) as (Ha2&_&_&_&HLcs2).
  pose proof (LocF_focus _ m2 cs1 [c] [] L1 L2 HLcs2) as HLc.
  assert (Hlokey : blt (lastb lo ks1) key).
  { destruct (lastb lo ks1); simpl in *; [lia|done]. }
  destruct (IH c m2 (lastb lo ks1) kl _ _ fuel HLc Hwc) as
    (it&m'&c'&Hrun&HL'&HSt&Hra&Hwc'&Hsz'&Hroot&Hc&Hp&Hn&Hhd); try done; try lia.
  { intros _. rewrite minNodes_eq in Hs1. lia. }
  exists it, m', c'.
  destruct (node_child_step _ m2 m' a ks1 key [] cs1 c c' [] L1 L2 HL2 HL' HSt Hra)
    as [HLn HStn].
  split_and!; try done.
  - by eapply StepF_trans.
  - apply wf_node_at; [done|]. split_and!; try done.
    + apply inc_snoc. split_and!; [|done|simpl; lia].
      apply (inc_raise lo _ (Some k0) key); [done|simpl; lia|simpl; lia].
    + split; [done|lia].
  - rewrite !contents_node_at, Hc. by rewrite <- !(assoc_L (++)).
  - pose proof (at_pos_ctx (fals cs1) (fals []) _ _ _ Hp) as Hp'.
    rewrite aleaves_node_at, contents_node_at.
    replace (length (fcontents cs1 ++ contents c ++ fcontents []))
      with (length (concat (fals cs1).*2) + length (contents c)); [done|].
    unfold fcontents. rewrite fals_nil. len_simp. simpl. lia.
  - by apply head_leaves_child.
Qed.

Lemma extend_of_tail ht : tail_spec ht → extend_spec ht.
Proof.
  intros IH t m lo k0 L1 L2 fuel HL Hwf Hk0 Hsz Hpos Hfuel.
  destruct (wf_node _ _ _ _ Hwf) as (a&ks&cs&->). simpl in Hsz, Hpos.
  destruct (LocF_node_open _ _ _ _ _ _ _ HL) as (Ha&Hlen&Hcs&Hna&HLcs).
  destruct fuel as [|fuel]; [lia|]. rewrite insert_extend_unfold. cbn [raddr].
  unfold get_inode. rewrite Ha. mstep.
  destruct (lookup_lt_is_Some_2 ks (length ks - 1)) as [kl Hkl]; [lia|].
  destruct (lookup_lt_is_Some_2 cs (length ks - 1)) as [c Hc]; [lia|].
  destruct (split_at_index _ _ _ Hkl) as (ks1&ks2&->&Hl1).
  destruct (split_at_index _ _ _ Hc) as (cs1&cs2&->&Hl2).
  assert (ks2 = []) as -> by (apply nil_length_inv; revert Hl1; len).
  assert (cs2 = []) as -> by (apply nil_length_inv; revert Hl2 Hcs Hl1; len).
  rewrite dec_pos by lia. mstep.
  rewrite (inode_nodes_lookup _ _ _ Hc). mstep.
  assert (Hrc : repr (m_heap m) c).
  { eapply LocF_child_repr; [done|]. apply elem_of_app. right. apply list_elem_of_here. }
  rewrite (IsFull_repr _ _ _ Hrc). mstep.
  assert (Hl12 : length ks1 = length cs1) by lia.
  pose proof Hwf as Hwf0.
  apply wf_node_at in Hwf0 as (_&_&[_ [Hsc1 Hsc2]]&_); [|lia].
  destruct (decide (asize c = maxNodes)) as [Hfull|Hnfull].
  - rewrite bool_decide_true by done.
    assert (Hc2 : 2 ≤ asize c) by (rewrite Hfull, maxNodes_eq; lia).
    destruct (SplitAt_ok _ m a ks1 kl [] cs1 c [] L1 L2 _ HL Hl1 Hl2 Hsz Hc2 _ eq_refl)
      as (m1&lk&HSp&Hlk&HL1&HSt1&Hroot1&Hn1).
    set (r := length (m_heap m)) in *.
    destruct (wf_SplitAt _ _ _ a _ _ _ _ _ _ r lk Hl12 Hwf Hfull Hlk) as
      (Hwf1&Hsl&Hsr&Hlt).
    destruct (asplit_raddr c r) as [Hra Hrb].
    rewrite HSp. mstep.
    destruct (LocF_node_open _ _ _ _ _ _ _ HL1) as (Ha1&Hlen1&Hcs1&Hna1&HLcs1).
    rewrite Ha1. mstep.
    rewrite dec_pos by len. mstep.
    rewrite (inode_nodes_lookup _ _ (asplit c r).2).
    2:{ rewrite (cons_middle (asplit c r).1), (assoc_L (++)).
        rewrite lookup_app_r by len. replace (_ - _) with 0 by len. done. }
    mstep.
    revert HL1 HSt1 Hwf1.
    rewrite (cons_middle lk ks1), (cons_middle (asplit c r).1 cs1), !(assoc_L (++)).
    intros HL1 HSt1 Hwf1.
    destruct (extend_rest_ok ht IH m1 a (ks1 ++ [lk]) kl (cs1 ++ [(asplit c r).1])
                (asplit c r).2 lo k0 L1 L2 fuel HL1 Hwf1 Hk0) as
      (it&m'&c'&Hrun&HL'&HSt'&Hwf'&Hroot'&Hcont&Hp&Hn'&Hhd); [len| |lia|].
    { rewrite Hsr, minNodes_eq, maxNodes_eq. lia. }
    eexists it, m', _. split_and!; try done.
    + by eapply StepF_trans.
    + simpl. len.
    + simpl. len.
    + congruence.
    + rewrite Hcont. f_equal. rewrite !contents_node.
      rewrite <- (assoc_L (++) cs1). simpl. apply fcontents_split.
    + replace (length (contents (ANode a (ks1 ++ [kl]) (cs1 ++ [c])))) with
        (length (contents (ANode a ((ks1 ++ [lk]) ++ [kl])
                   ((cs1 ++ [(asplit c r).1]) ++ [(asplit c r).2])))); [done|].
      f_equal. rewrite !contents_node.
      rewrite <- (assoc_L (++) cs1). simpl. apply fcontents_split.
    + congruence.
    + rewrite Hhd. rewrite <- !(assoc_L (++)). apply head_leaves_split.
  - rewrite bool_decide_false by done. mstep.
    destruct (extend_rest_ok ht IH m a ks1 kl cs1 c lo k0 L1 L2 fuel HL Hwf Hk0) as
      (it&m'&c'&Hrun&HL'&HSt'&Hwf'&Hroot'&Hcont&Hp&Hn'&Hhd); [lia|lia|lia|].
    eexists it, m', _. split_and!; try done; simpl; len.
Qed.

Lemma tail_all ht : tail_spec ht.
Proof.
  induction ht as [|ht IH]; [apply tail_leaf|]. by apply tail_node, extend_of_tail.
Qed.

Lemma extend_all ht : extend_spec ht.
Proof. apply extend_of_tail, tail_all. Qed.

Lemma insert_all ht : insert_spec zeroV key value ht.
Proof.
  induction ht as [|ht IH]; [apply insert_leaf|]. apply insert_node; [done|apply extend_all].
Qed.
End InsertExtend.

(** * The invariant of a map *)

Lemma set_at_pad_end {A} (z : A) l x :
length l < maxNodes → set_at (pad z l) (length l) x = Some (pad z (l ++ [x])).
Proof.
intros. unfold set_at. rewrite decide_True by (rewrite length_pad; lia).
f_equal. unfold pad. rewrite insert_app_r_alt, Nat.sub_diag by lia.
rewrite length_app. simpl.
destruct (maxNodes - length l) as [|n] eqn:E; [lia|]. simpl.
rewrite <- (assoc_L (++)). simpl. do 3 f_equal. lia.
Qed.

Section Invariant.
Context {V : Type} (zeroV : V).
Local Abbreviation cell := (@cell V).
Local Abbreviation Map := (@Map V).
Local Abbreviation atree := (atree V).
Local Abbreviation repr := (repr zeroV).
Local Abbreviation LocF := (LocF zeroV).
Local Abbreviation leaf_cell := (leaf_cell zeroV).
Implicit Types (h : list cell) (t c : atree) (ts cs : list atree) (m : Map).
Implicit Types (kvs : list (Z * V)) (ks : list Z) (it : @Iterator).

(** The map [m] holds the tree [t] of height [ht]: the tree sits at the
    root, its leaves are the whole leaf list from [m.front] to [m.back],
    the keys are ordered, every node but the root is at least half full,
    an interior root has two children or more, and [m.n] counts the
    pairs. *)
Definition Rep (m : Map) (ht : nat) (t : atree) : Prop :=
  raddr t = m_root m ∧ LocF m [t] [] [] ∧ wf ht None None t ∧
  asize t ≤ maxNodes ∧ (ht ≠ 0 → 2 ≤ asize t) ∧
  head (leaves t) = Some (m_front m) ∧
  m_n m = Z.of_nat (length (contents t)) ∧
  ht < length (m_heap m).

(** the pairs [kvs] are stored in a well-formed map *)
Definition Inv (m : Map) (kvs : list (Z * V)) : Prop :=
  ∃ ht t, Rep m ht t ∧ contents t = kvs.

Lemma LocF_alloc m (c : cell) ts L1 L2 :
  LocF m ts L1 L2 → LocF (alloc m c).2 ts L1 L2.
Proof.
  intros (Hr&Hnd&Hndl&Hseg&Hlast). split_and!; try done.
  - simpl. eapply Forall_impl; [done|]. intros t. apply repr_alloc.
  - simpl. eapply lseg_kept; [done|]. apply links_kept_alloc.
Qed.

Lemma Rep_New : Rep (New zeroV) 0 (ALeaf 0 []).
Proof.
  unfold Rep, New. simpl. split_and!; try done; try lia.
  split_and!; simpl.
  - constructor; [|constructor]. apply (repr_leaf _ _ 0 [] None None); [|simpl; lia].
    simpl. unfold leaf_cell, leaf_rec. simpl. by rewrite !pad_nil.
  - rewrite faddrs_single. simpl. apply NoDup_singleton.
  - apply NoDup_singleton.
  - split; [|done]. eexists. split; [done|]. done.
  - done.
Qed.

Lemma Inv_New : Inv (New zeroV) [].
Proof. exists 0, (ALeaf 0 []). split; [apply Rep_New|done]. Qed.

Lemma splitRoot_ok m ht t :
  Rep m ht t → asize t = maxNodes →
  ∃ m' t', splitRoot zeroV m = Some m' ∧ Rep m' (S ht) t' ∧
           contents t' = contents t ∧ asize t' = 2.
Proof.
  intros (Hroot&HL&Hwf&Hsz&Hht&Hfront&Hn&Hfuel) Hfull.
  destruct (Split_ok _ m t [] [] HL _ eq_refl) as (m1&HSp&HL1&HSt1&Hlen1&Hroot1&Hn1).
  set (r := length (m_heap m)) in *.
  assert (Hc2 : 2 ≤ asize t) by (rewrite Hfull, maxNodes_eq; lia).
  destruct (asplit_last_key t r Hc2) as [lk Hlk].
  destruct (wf_asplit _ _ _ _ r lk Hwf Hlk) as [Hwf1 Hwf2].
  destruct (asplit_sizes t r) as [Hs1 Hs2].
  destruct (asplit_raddr t r) as [Hra Hrb].
  pose proof (asplit_contents t r) as Hcont.
  pose proof (leaves_asplit t r) as Hhd.
  set (t1 := (asplit t r).1) in *. set (t2 := (asplit t r).2) in *.
  rewrite Hfull in Hs1, Hs2. rewrite maxNodes_eq in Hs1, Hs2.
  change (32 - 32 / 2) with 16 in Hs1. change (32 / 2) with 16 in Hs2.
  destruct (last (akeys t2)) as [rk|] eqn:Hrk.
  2:{ apply last_None in Hrk. apply (f_equal length) in Hrk.
      rewrite akeys_length in Hrk. simpl in Hrk. lia. }
  pose proof HL1 as (Hrep1&_).
  apply Forall_cons in Hrep1 as [Hrep1 Hrep2]. apply Forall_inv in Hrep2.
  unfold splitRoot. rewrite <- Hroot, HSp. mstep. rewrite Hroot1, <- Hroot, <- Hra.
  rewrite (LastKey_repr _ _ _ Hrep1). fold t1. rewrite Hlk. mstep.
  rewrite <- !pad_nil.
  assert (Hmx : 2 < maxNodes) by (rewrite maxNodes_eq; lia).
  pose proof (set_at_pad_end 0%Z [] lk) as E1.
  pose proof (set_at_pad_end None [] (Some (raddr t1))) as E2.
  pose proof (set_at_pad_end 0%Z [lk] rk) as E3.
  pose proof (set_at_pad_end None [Some (raddr t1)] (Some r)) as E4.
  simpl in E1, E2, E3, E4.
  rewrite E1 by lia. mstep. rewrite E2 by lia. mstep.
  replace (LastKey m1 r) with (LastKey m1 (raddr t2)) by (by rewrite Hrb).
  rewrite (LastKey_repr _ _ _ Hrep2), Hrk. mstep.
  rewrite E3 by lia. mstep. rewrite E4 by lia. mstep.
  eexists _, (ANode (length (m_heap m1)) [lk; rk] [t1; t2]). split; [done|].
  assert (Hlt : (lk < rk)%Z).
  { apply wf_inc, inc_Forall in Hwf2. rewrite Forall_forall in Hwf2.
    apply last_Some_elem_of in Hrk. by destruct (Hwf2 _ Hrk). }
  split_and!.
  - split_and!; simpl; try done.
    + apply LocF_node_close; simpl.
      * rewrite lookup_app_r by done. rewrite Nat.sub_diag. simpl.
        unfold node_cell, node_rec. simpl. by rewrite Hrb.
      * rewrite maxNodes_eq. lia.
      * done.
      * intros Hin. eapply frepr_allocated in Hin; [|by destruct HL1]. lia.
      * by apply (LocF_alloc m1).
    + split_and!; simpl; try done;
        rewrite ?Hs1, ?Hs2, ?minNodes_eq, ?maxNodes_eq; try lia.
      eapply wf_hi_last; [done|]. done.
    + rewrite maxNodes_eq. lia.
    + rewrite leaves_node, fleaves_cons, fleaves_single. rewrite Hhd, Hfront.
      destruct HSt1 as (_&_&_&Hf). by rewrite Hf.
    + rewrite contents_node, fcontents_cons, fcontents_single, Hcont. congruence.
    + rewrite length_app. simpl. lia.
  - by rewrite contents_node, fcontents_cons, fcontents_single.
  - done.
Qed.

Lemma ins_post_length key value (c c' : list (Z * V)) als it old (rep : bool) :
  ins_post zeroV key value c c' als it old rep →
  length c' = if rep then length c else S (length c).
Proof.
  intros (l1&l2&->&Hc&_). destruct rep.
  - subst c. by rewrite !length_app.
  - destruct Hc as [-> _]. rewrite !length_app. simpl. lia.
Qed.

Lemma Insert_Rep key value m ht t :
  Rep m ht t →
  ∃ it old rep m' ht' t',
    Insert zeroV key value m = Some ((it, old, rep), m') ∧ Rep m' ht' t' ∧
    ins_post zeroV key value (contents t) (contents t') (aleaves t') it old rep.
Proof.
  intros HR. pose proof HR as (Hroot&HL&Hwf&Hsz&Hht&Hfront&Hn&Hfuel).
  assert (Hrt : repr (m_heap m) t) by (destruct HL as (Hr&_); by apply Forall_inv in Hr).
  assert (Hgo : ∀ m1 ht1 t1, Rep m1 ht1 t1 → asize t1 < maxNodes →
    ∃ it old rep m' ht' t',
      insert_loop zeroV (length (m_heap m1)) (m_root m1) key value m1 =
        Some ((it, old, rep), m') ∧ Rep m' ht' t' ∧
      ins_post zeroV key value (contents t1) (contents t') (aleaves t') it old rep).
  { clear. intros m ht t (Hroot&HL&Hwf&Hsz&Hht&Hfront&Hn&Hfuel) Hlt.
    destruct (insert_all zeroV key value ht t m None None [] [] (length (m_heap m))
                HL Hwf Hlt) as
      (it&old&rep&m'&t'&Hrun&HL'&HSt&Hra&Hwf'&Hsz'&Hroot'&Hpost&Hn'&Hhd);
      [intros; specialize (Hht ltac:(done)); lia|done|done|done|].
    rewrite Hroot in Hrun.
    exists it, old, rep, m', ht, t'. split; [done|]. split; [|done].
    pose proof (ins_post_length _ _ _ _ _ _ _ _ Hpost) as Hlen.
    destruct HSt as (Hle&_&_&Hf).
    split_and!; try done; try lia.
    - congruence.
    - rewrite Hn', Hlen. destruct rep; lia. }
  unfold Insert. rewrite <- Hroot, (IsFull_repr _ _ _ Hrt). mstep.
  destruct (decide (asize t = maxNodes)) as [Hfull|Hnfull].
  - rewrite bool_decide_true by done.
    destruct (splitRoot_ok m ht t HR Hfull) as (m1&t1&HSp&HR1&Hc1&Hs1).
    rewrite HSp. mstep.
    destruct (Hgo m1 (S ht) t1 HR1) as (it&old&rep&m'&ht'&t'&Hrun&HR'&Hpost).
    { rewrite Hs1, maxNodes_eq. lia. }
    exists it, old, rep, m', ht', t'. rewrite <- Hc1. done.
  - rewrite bool_decide_false by done. mstep.
    destruct (Hgo m ht t HR) as (it&old&rep&m'&ht'&t'&Hrun&HR'&Hpost); [lia|].
    exists it, old, rep, m', ht', t'. done.
Qed.
End Invariant.

(** * Iteration *)

Section Iteration.
Context {V : Type} (zeroV : V).
Local Abbreviation cell := (@cell V).
Local Abbreviation Map := (@Map V).
Local Abbreviation atree := (atree V).
Local Abbreviation repr := (repr zeroV).
Local Abbreviation LocF := (LocF zeroV).
Local Abbreviation leaf_cell := (leaf_cell zeroV).
Local Abbreviation Rep := (Rep zeroV).
Local Abbreviation Inv := (Inv zeroV).
Implicit Types (h : list cell) (t c : atree) (ts cs : list atree) (m : Map).
Implicit Types (kvs : list (Z * V)) (ks : list Z) (it : @Iterator).
Implicit Types (als : list (addr * list (Z * V))).

(** the cell of a leaf of the tree *)
Definition leaf_in (h : list cell) (p : addr * list (Z * V)) : Prop :=
  (∃ nx pv, h !! p.1 = Some (leaf_cell nx pv p.2)) ∧ length p.2 ≤ maxNodes.

Lemma repr_leaf_cells h t : repr h t → Forall (leaf_in h) (aleaves t).
Proof.
  induction t as [a kvs|a ks cs IH] using atree_ind'; intros Hr.
  - inversion Hr; subst. constructor; [|constructor]. split; eauto.
  - inversion Hr as [|? ? ? Ha Hlen Hcs Hall]; subst. simpl.
    clear Ha Hcs Hlen Hr. induction Hall as [|c cs Hc Hall IHall]; [constructor|].
    inversion IH; subst. simpl. apply Forall_app. auto.
Qed.

(** every leaf below an interior node is at least half full *)
Lemma wf_leaves_min ht lo hi t :
  wf (S ht) lo hi t → Forall (λ p, minNodes ≤ length p.2) (aleaves t).
Proof.
  revert lo hi t. induction ht as [|ht IH]; intros lo hi t Hwf;
    destruct (wf_node _ _ _ _ Hwf) as (a&ks&cs&->);
    apply wf_node_unfold in Hwf as [_ Hk]; simpl.
  - revert lo ks Hk. induction cs as [|c cs IHcs]; intros lo [|k ks]; simpl; try done.
    intros [[Hwc [Hs _]] Hk]. apply Forall_app. split; [|eauto].
    destruct (wf_leaf _ _ _ Hwc) as (b&kvs&->). simpl in *. by constructor.
  - revert lo ks Hk. induction cs as [|c cs IHcs]; intros lo [|k ks]; simpl; try done.
    intros [[Hwc _] Hk]. apply Forall_app. split; eauto.
Qed.

(** the leaves of a map, as the iterators see them *)
Definition Chain (m : Map) (als : list (addr * list (Z * V))) : Prop :=
  lseg (m_heap m) None als.*1 None ∧ Forall (leaf_in (m_heap m)) als ∧
  (length als = 1 ∨ Forall (λ p, 0 < length p.2) als) ∧
  head als.*1 = Some (m_front m) ∧ last als.*1 = Some (m_back m) ∧
  m_n m = Z.of_nat (length (concat als.*2)).

Lemma aleaves_nonempty ht lo hi t : wf ht lo hi t → (ht ≠ 0 → 0 < asize t) → aleaves t ≠ [].
Proof.
  revert lo hi t. induction ht as [|ht IH]; intros lo hi t Hwf Hpos.
  - by destruct (wf_leaf _ _ _ Hwf) as (a&kvs&->).
  - destruct (wf_node _ _ _ _ Hwf) as (a&ks&cs&->).
    apply wf_node_unfold in Hwf as [_ Hk]. simpl in Hpos. specialize (Hpos ltac:(done)).
    destruct ks as [|k ks], cs as [|c cs]; simpl in *; try done; try lia.
    destruct Hk as [[Hwc [Hs _]] _]. intros [E _]%app_eq_nil. revert E.
    eapply IH; [done|]. intros _. rewrite minNodes_eq in Hs. lia.
Qed.

Lemma Rep_Chain m ht t : Rep m ht t → Chain m (aleaves t).
Proof.
  intros (Hroot&HL&Hwf&Hsz&Hht&Hfront&Hn&Hfuel).
  destruct HL as (Hr&Hnd&Hndl&Hseg&Hlast).
  rewrite fleaves_single, app_nil_r in *. simpl in *. apply Forall_inv in Hr.
  split_and!; try done.
  - by apply repr_leaf_cells.
  - destruct ht as [|ht].
    + left. by destruct (wf_leaf _ _ _ Hwf) as (a&kvs&->).
    + right. eapply Forall_impl; [by eapply wf_leaves_min|].
      simpl. intros p. rewrite minNodes_eq. lia.
Qed.

Definition total (als : list (addr * list (Z * V))) : list (Z * V) := concat als.*2.

(** [it] is at the pair number [p], or past the last pair *)
Definition at_end (als : list (addr * list (Z * V))) (it : Iterator) : Prop :=
  ∃ A kvs, als = A ++ [(it_node it, kvs)] ∧ it_idx it = length kvs.

Definition pos_or_end (als : list (addr * list (Z * V))) (it : Iterator) (p : nat)
  : Prop :=
  at_pos als it p ∨ (p = length (total als) ∧ at_end als it).

Lemma Chain_leaf m A a kvs B :
  Chain m (A ++ (a, kvs) :: B) →
  m_heap m !! a = Some (leaf_cell (hd_or B.*1 None) (last_or None A.*1) kvs) ∧
  length kvs ≤ maxNodes.
Proof.
  intros (Hseg&Hcells&_). rewrite fmap_app, fmap_cons in Hseg.
  apply lseg_app in Hseg as [_ Hseg]. simpl in Hseg.
  destruct Hseg as [(l&Hl&Hp&Hn) _].
  apply Forall_app in Hcells as [_ Hcells]. apply Forall_cons in Hcells as [Hc _].
  destruct Hc as [(nx&pv&Hc) Hlen]. simpl in *. split; [|done].
  rewrite Hc in Hl. inversion Hl; subst. simpl in Hn, Hp. rewrite Hc. unfold hd_or.
  by rewrite Hn, Hp.
Qed.

Lemma at_pos_lookup als it p :
  at_pos als it p →
  ∃ A kvs B kv, als = A ++ (it_node it, kvs) :: B ∧ kvs !! it_idx it = Some kv ∧
                total als !! p = Some kv ∧ p = length (total A) + it_idx it.
Proof.
  intros (A&kvs&B&->&Hi&->).
  destruct (lookup_lt_is_Some_2 kvs (it_idx it) Hi) as [kv Hkv].
  exists A, kvs, B, kv. split_and!; try done.
  unfold total. rewrite fmap_app, concat_app, fmap_cons. simpl.
  rewrite lookup_app_r by lia. replace (_ - _) with (it_idx it) by lia.
  by apply lookup_app_l_Some.
Qed.

(** [Key] and [Value] of an iterator at a pair *)
Lemma it_Key_Value m als it p k v :
  Chain m als → at_pos als it p → total als !! p = Some (k, v) →
  it_Key m it = Some k ∧ it_Value m it = Some v.
Proof.
  intros HC Hp Hkv. destruct (at_pos_lookup _ _ _ Hp) as (A&kvs&B&kv&->&Hi&Hkv'&_).
  rewrite Hkv in Hkv'. inversion Hkv'; subst kv.
  destruct (Chain_leaf _ _ _ _ _ HC) as [Ha Hlen].
  pose proof (lookup_lt_Some _ _ _ Hi) as Hlt.
  unfold it_Key, it_Value, get_leaf. rewrite Ha. mstep.
  rewrite !lookup_pad_lt by (by rewrite length_fmap).
  by rewrite !list_lookup_fmap, Hi.
Qed.

Lemma it_End_pos m als it p :
  Chain m als → at_pos als it p → it_End m it = Some false.
Proof.
  intros HC (A&kvs&B&->&Hi&->). destruct (Chain_leaf _ _ _ _ _ HC) as [Ha Hlen].
  unfold it_End, get_leaf. rewrite Ha. mstep. f_equal. apply bool_decide_false. lia.
Qed.

Lemma it_End_end m als it :
  Chain m als → at_end als it → it_End m it = Some true.
Proof.
  intros HC (A&kvs&->&Hi). destruct (Chain_leaf _ _ _ _ _ HC) as [Ha Hlen].
  unfold it_End, get_leaf. rewrite Ha. mstep. f_equal. by apply bool_decide_true.
Qed.

Lemma total_app A B : total (A ++ B) = total A ++ total B.
Proof. unfold total. by rewrite fmap_app, concat_app. Qed.
Lemma total_cons a kvs B : total ((a, kvs) :: B) = kvs ++ total B.
Proof. done. Qed.

(** [Next] moves to the following pair, or past the last one *)
Lemma it_Next_pos m als it p :
  Chain m als → at_pos als it p →
  ∃ it', it_Next m it = Some it' ∧ pos_or_end als it' (S p).
Proof.
  intros HC (A&kvs&B&->&Hi&->). destruct (Chain_leaf _ _ _ _ _ HC) as [Ha Hlen].
  unfold it_Next, get_leaf. rewrite Ha. mstep.
  destruct HC as (_&_&Hne&_).
  destruct (decide (it_idx it + 1 = length kvs)) as [Hlast|Hnl].
  - destruct B as [|[b kvb] B]; simpl.
    + eexists. split; [done|]. right. split.
      * rewrite total_app, total_cons, !length_app. unfold total. simpl. lia.
      * exists A, kvs. simpl. split; [done|lia].
    + eexists. split; [done|]. left.
      exists (A ++ [(it_node it, kvs)]), kvb, B. simpl. split_and!.
      * by rewrite <- (assoc_L (++)).
      * destruct Hne as [Hne|Hne]; [rewrite length_app in Hne; simpl in Hne; lia|].
        apply Forall_app in Hne as [_ Hne]. apply Forall_cons in Hne as [_ Hne].
        apply Forall_cons in Hne as [Hne _]. done.
      * fold (total (A ++ [(it_node it, kvs)])). fold (total A).
        rewrite total_app, length_app, total_cons. simpl. rewrite app_nil_r. lia.
  - assert (Hres : pos_or_end (A ++ (it_node it, kvs) :: B)
              (mkIt (it_node it) (it_idx it + 1)) (S (length (concat A.*2) + it_idx it))).
    { left. exists A, kvs, B. simpl. split_and!; [done|lia|lia]. }
    destruct (hd_or B.*1 None); eauto.
Qed.

(** the pairs yielded from an iterator *)
Lemma seq_loop_ok m als :
  Chain m als →
  ∀ fuel it p, pos_or_end als it p → length (total als) - p < fuel →
               seq_loop fuel m it = Some (drop p (total als)).
Proof.
  intros HC. induction fuel as [|fuel IH]; intros it p Hp Hfuel; [lia|].
  simpl. destruct Hp as [Hp|[-> He]].
  - rewrite (it_End_pos _ _ _ _ HC Hp). mstep.
    destruct (at_pos_lookup _ _ _ Hp) as (_&_&_&[k v]&_&_&Hkv&_).
    destruct (it_Key_Value _ _ _ _ _ _ HC Hp Hkv) as [-> ->]. mstep.
    destruct (it_Next_pos _ _ _ _ HC Hp) as (it'&->&Hp'). mstep.
    pose proof (lookup_lt_Some _ _ _ Hkv).
    rewrite (IH it' (S p)) by (done || lia). mstep.
    by rewrite (drop_S _ _ _ Hkv).
  - rewrite (it_End_end _ _ _ HC He). mstep. by rewrite drop_all.
Qed.

Lemma Begin_pos m als : Chain m als → pos_or_end als (Begin m) 0.
Proof.
  intros (Hseg&Hcells&Hne&Hfront&Hback&Hn).
  destruct als as [|[a kvs] B]; [done|]. simpl in Hfront. inversion Hfront; subst.
  unfold Begin. destruct kvs as [|kv kvs].
  - right. destruct Hne as [Hne|Hne].
    + destruct B; [|done]. split; [done|]. by exists [], [].
    + apply Forall_cons in Hne as [Hne _]. simpl in Hne. lia.
  - left. exists [], (kv :: kvs), B. simpl. split_and!; [done|lia|done].
Qed.

(** Iterating a map yields its pairs. *)
Lemma Rep_Seq m ht t : Rep m ht t → Seq m (Begin m) = Some (contents t).
Proof.
  intros HR. pose proof (Rep_Chain _ _ _ HR) as HC.
  unfold Seq. rewrite (seq_loop_ok m _ HC _ _ 0 (Begin_pos _ _ HC)); [done|].
  destruct HC as (_&_&_&_&_&Hn). rewrite Hn. unfold total. lia.
Qed.
End Iteration.

(** * The pairs of a map are ordered *)

Lemma inc_StronglySorted lo ks hi : inc lo ks hi → StronglySorted Z.lt ks.
Proof.
revert lo. induction ks as [|k ks IH]; intros lo; simpl; [constructor|].
intros (H1&H2&H3). constructor; [by eapply IH|].
apply inc_Forall in H3. eapply Forall_impl; [done|]. simpl. tauto.
Qed.

(** a strictly increasing list holds a key once *)
Lemma inc_middle_notin lo (l1 l2 : list Z) k hi :
inc lo (l1 ++ k :: l2) hi → (k ∉ l1) ∧ (k ∉ l2).
Proof.
intros H. apply inc_app in H as [H1 H2]. simpl in H2. destruct H2 as (Hlo&_&H2).
split.
- intros Hin. unfold lastb in Hlo. destruct (last l1) as [y|] eqn:E.
  + pose proof (inc_elem_lt_last _ _ _ _ _ H1 Hin E). simpl in Hlo. lia.
  + apply last_None in E. subst. by apply elem_of_nil in Hin.
- intros Hin. apply inc_Forall in H2. rewrite Forall_forall in H2.
  destruct (H2 _ Hin) as [Hk _]. simpl in Hk. lia.
Qed.

Section Sorted.
Context {V : Type} (zeroV : V).
Local Abbreviation cell := (@cell V).
Local Abbreviation Map := (@Map V).
Local Abbreviation atree := (atree V).
Local Abbreviation Rep := (Rep zeroV).
Local Abbreviation Inv := (Inv zeroV).
Implicit Types (h : list cell) (t c : atree) (ts cs : list atree) (m : Map).
Implicit Types (kvs : list (Z * V)) (ks : list Z) (it : @Iterator).

Lemma wf_contents_inc ht lo hi t : wf ht lo hi t → inc lo (contents t).*1 hi.
Proof.
  revert lo hi t. induction ht as [|ht IH]; intros lo hi t Hwf.
  - destruct (wf_leaf _ _ _ Hwf) as (a&kvs&->). unfold contents. simpl.
    by rewrite app_nil_r.
  - destruct (wf_node _ _ _ _ Hwf) as (a&ks&cs&->).
    apply wf_node_unfold in Hwf as [Hinc Hk]. rewrite contents_node.
    revert lo ks Hinc Hk. induction cs as [|c cs IHcs]; intros lo [|k ks]; simpl; try done.
    intros (Hlo&Hhi&Hinc) [[Hwc _] Hk].
    rewrite fcontents_cons, fmap_app. apply inc_app. split.
    + apply IH in Hwc. eapply inc_ble; [done|]. simpl. intros x Hx.
      destruct hi; simpl in *; [lia|done].
    + specialize (IHcs _ _ Hinc Hk). eapply inc_blt; [done|].
      intros x Hx. simpl in Hx. unfold lastb.
      destruct (last (contents c).*1) as [y|] eqn:E.
      * apply IH in Hwc. apply (inc_last_ble _ _ _ _ Hwc) in E. simpl in *. lia.
      * destruct lo; simpl in *; [lia|done].
Qed.

Lemma Rep_inc m ht t : Rep m ht t → inc None (contents t).*1 None.
Proof. intros (_&_&Hwf&_). by eapply wf_contents_inc. Qed.

Lemma Rep_sorted m ht t : Rep m ht t → StronglySorted Z.lt (contents t).*1.
Proof. intros H. eapply inc_StronglySorted. by eapply Rep_inc. Qed.

Lemma Inv_sorted m kvs : Inv m kvs → StronglySorted Z.lt kvs.*1.
Proof. intros (ht&t&HR&<-). by eapply Rep_sorted. Qed.

Lemma Inv_Seq m kvs : Inv m kvs → Seq m (Begin m) = Some kvs.
Proof. intros (ht&t&HR&<-). by eapply Rep_Seq. Qed.

Lemma Inv_Len m kvs : Inv m kvs → Len m = Z.of_nat (length kvs).
Proof. intros (ht&t&(_&_&_&_&_&_&Hn&_)&<-). done. Qed.

(** the pairs after an insertion *)
Lemma ins_post_elem key value kvs kvs' als it old rep :
  ins_post zeroV key value kvs kvs' als it old rep →
  inc None kvs'.*1 None →
  (∀ k v, (k, v) ∈ kvs' ↔ (k = key ∧ v = value) ∨ (k ≠ key ∧ (k, v) ∈ kvs)) ∧
  (rep = true ↔ key ∈ kvs.*1) ∧
  (rep = true → (key, old) ∈ kvs) ∧ (rep = false → old = zeroV).
Proof.
  intros (l1&l2&->&Hc&_) Hs.
  assert (Hnotin : (key ∉ l1.*1) ∧ (key ∉ l2.*1)).
  { rewrite fmap_app, fmap_cons in Hs. by eapply inc_middle_notin. }
  destruct Hnotin as [Hn1 Hn2].
  assert (Hk1 : ∀ k v, (k, v) ∈ l1 → k ≠ key).
  { intros k v Hin ->. apply Hn1. apply list_elem_of_fmap. by exists (key, v). }
  assert (Hk2 : ∀ k v, (k, v) ∈ l2 → k ≠ key).
  { intros k v Hin ->. apply Hn2. apply list_elem_of_fmap. by exists (key, v). }
  destruct rep.
  - subst kvs. split_and!; try done.
    + intros k v. rewrite !elem_of_app, !elem_of_cons. split.
      * intros [H|[H|H]]; [right|left|right]; try (inversion H; by subst).
        -- split; [by eapply Hk1|auto].
        -- split; [by eapply Hk2|auto].
      * intros [[-> ->]|[Hne [H|[H|H]]]]; auto. inversion H; subst. done.
    + split; [|done]. intros _. rewrite fmap_app, fmap_cons. simpl.
      apply elem_of_app. right. apply list_elem_of_here.
    + intros _. apply elem_of_app. right. apply list_elem_of_here.
  - destruct Hc as [-> ->]. split_and!; try done.
    + intros k v. rewrite !elem_of_app, !elem_of_cons. split.
      * intros [H|[H|H]]; [right|left|right]; try (inversion H; by subst).
        -- split; [by eapply Hk1|auto].
        -- split; [by eapply Hk2|auto].
      * intros [[-> ->]|[Hne [H|H]]]; auto.
    + split; [done|]. rewrite fmap_app. intros [H|H]%elem_of_app; done.
Qed.

(** [Insert] on a well-formed map *)
Lemma Insert_Inv key value m kvs :
  Inv m kvs →
  ∃ it old rep m' kvs',
    Insert zeroV key value m = Some ((it, old, rep), m') ∧ Inv m' kvs' ∧
    (∀ k v, (k, v) ∈ kvs' ↔ (k = key ∧ v = value) ∨ (k ≠ key ∧ (k, v) ∈ kvs)) ∧
    (rep = true ↔ key ∈ kvs.*1) ∧
    (rep = true → (key, old) ∈ kvs) ∧ (rep = false → old = zeroV) ∧
    it_Key m' it = Some key ∧ it_Value m' it = Some value ∧
    length kvs' = (if rep then length kvs else S (length kvs)).
Proof.
  intros (ht&t&HR&<-).
  destruct (Insert_Rep zeroV key value m ht t HR) as (it&old&rep&m'&ht'&t'&Hrun&HR'&Hpost).
  exists it, old, rep, m', (contents t'). split; [done|].
  split; [by exists ht', t'|].
  pose proof (Rep_inc _ _ _ HR') as Hs.
  destruct (ins_post_elem _ _ _ _ _ _ _ _ Hpost Hs) as (H1&H2&H3&H4).
  split_and!; try done.
  - destruct Hpost as (l1&l2&Hc&_&Hp).
    eapply it_Key_Value; [by eapply Rep_Chain|done|].
    unfold total. fold (contents t'). rewrite Hc. by apply list_lookup_middle.
  - destruct Hpost as (l1&l2&Hc&_&Hp).
    eapply it_Key_Value; [by eapply Rep_Chain|done|].
    unfold total. fold (contents t'). rewrite Hc. by apply list_lookup_middle.
  - by eapply ins_post_length.
Qed.
End Sorted.

(** * Find and LowerBound *)

(** a search that fails in an increasing list: the key is not there *)
Lemma linearSearchOrdered_absent lo ks hi k :
inc lo ks hi → (linearSearchOrdered ks k).2 = false → k ∉ ks.
Proof.
intros Hinc Hok [j Hj]%list_elem_of_lookup.
pose proof (linearSearchOrdered_before ks k) as Hb.
pose proof (linearSearchOrdered_at ks k) as Ha.
pose proof (linearSearchOrdered_length ks k) as Hl.
destruct (linearSearchOrdered ks k) as [i ok]. simpl in *. subst ok.
destruct (decide (j < i)) as [Hlt|Hge].
- specialize (Hb _ _ Hlt Hj). lia.
- destruct (lookup_lt_is_Some_2 ks i) as [x Hx].
  { apply lookup_lt_Some in Hj. lia. }
  destruct (Ha x Hx) as [Hle Hiff].
  destruct (decide (j = i)) as [->|Hne].
  + rewrite Hj in Hx. inversion Hx; subst. by destruct Hiff as [_ Hiff]; specialize (Hiff eq_refl).
  + assert (x < k)%Z; [|lia]. eapply (inc_lookup_lt _ _ _ i j); eauto. lia.
Qed.

(** the keys from the index of the search on are not smaller *)
Lemma linearSearchOrdered_after lo ks hi k j x :
inc lo ks hi → (linearSearchOrdered ks k).1 ≤ j → ks !! j = Some x → (k ≤ x)%Z.
Proof.
intros Hinc Hle Hj.
pose proof (linearSearchOrdered_at ks k) as Ha.
destruct (linearSearchOrdered ks k) as [i ok]. simpl in *.
destruct (lookup_lt_is_Some_2 ks i) as [y Hy].
{ apply lookup_lt_Some in Hj. lia. }
destruct (Ha y Hy) as [Hky _].
destruct (decide (j = i)) as [->|Hne]; [congruence|].
assert (y < x)%Z; [|lia]. eapply (inc_lookup_lt _ _ _ i j); eauto. lia.
Qed.

Section ReadOnly.
Context {V : Type} (zeroV : V).
Local Abbreviation cell := (@cell V).
Local Abbreviation Map := (@Map V).
Local Abbreviation atree := (atree V).
Local Abbreviation repr := (repr zeroV).
Local Abbreviation Rep := (Rep zeroV).
Local Abbreviation Inv := (Inv zeroV).
Implicit Types (h : list cell) (t c : atree) (ts cs : list atree) (m : Map).
Implicit Types (kvs : list (Z * V)) (ks : list Z) (it : @Iterator).

Lemma kids_wf_node ht lo hi a ks cs :
  inc lo ks hi → kids (kid ht) lo ks cs → wf (S ht) lo hi (ANode a ks cs).
Proof. intros. by apply wf_node_unfold. Qed.

(** the keys below the children of a node *)
Lemma kids_contents ht lo hi ks cs :
  inc lo ks hi → kids (kid ht) lo ks cs →
  Forall (λ k, blt lo k ∧ ble k hi) (fcontents cs).*1.
Proof.
  intros Hinc Hk. destruct (decide (ks = [])) as [->|Hne].
  - destruct cs; [constructor|done].
  - rewrite <- (contents_node 0 ks cs).
    apply (wf_contents (S ht)); [by apply kids_wf_node|]. left. simpl.
    destruct ks; [done|]. simpl. lia.
Qed.

(** The child that [Find], [LowerBound] and [remove] descend into: the
    keys below the children before it are smaller than [key], those
    below the children after it greater. *)
Lemma select_child ht lo hi a ks cs key :
  wf (S ht) lo hi (ANode a ks cs) → 0 < length ks →
  ∃ ks1 ki ks2 cs1 c cs2,
    ks = ks1 ++ ki :: ks2 ∧ cs = cs1 ++ c :: cs2 ∧
    length ks1 = (linearSearchOrdered (take (length ks - 1) ks) key).1 ∧
    length cs1 = length ks1 ∧
    Forall (λ k, (k < key)%Z) (fcontents cs1).*1 ∧
    Forall (λ k, (key < k)%Z) (fcontents cs2).*1.
Proof.
  intros Hwf Hpos.
  pose proof (linearSearchOrdered_length (take (length ks - 1) ks) key) as Hi.
  pose proof (linearSearchOrdered_before (take (length ks - 1) ks) key) as Hbefore.
  pose proof (linearSearchOrdered_at (take (length ks - 1) ks) key) as Hat.
  destruct (linearSearchOrdered _ key) as [i ok]. simpl in Hi, Hbefore, Hat.
  rewrite length_take in Hi.
  pose proof (wf_asize_children _ _ _ _ _ _ Hwf) as Hlen.
  destruct (lookup_lt_is_Some_2 ks i) as [ki Hki]; [lia|].
  destruct (lookup_lt_is_Some_2 cs i) as [c Hci]; [lia|].
  destruct (split_at_index _ _ _ Hki) as (ks1&ks2&->&Hl1).
  destruct (split_at_index _ _ _ Hci) as (cs1&cs2&->&Hl2).
  exists ks1, ki, ks2, cs1, c, cs2. split_and!; try done; try lia.
  - apply wf_node_at in Hwf as (Hinc&Hk1&_&_); [|lia].
    apply inc_app in Hinc as [Hinc1 _].
    destruct (last ks1) as [k1|] eqn:El.
    + apply (inc_hi_last _ _ _ _ Hinc1) in El as Hinc1'.
      eapply Forall_impl; [eapply kids_contents; [apply Hinc1'|done]|].
      simpl. intros x [_ Hx].
      assert (k1 < key)%Z; [|lia]. rewrite last_lookup in El.
      assert (0 < length ks1) by (destruct ks1; simpl in *; [done|lia]).
      eapply (Hbefore (pred (length ks1))); [lia|].
      rewrite lookup_take_lt.
      * by apply lookup_app_l_Some.
      * revert Hi. len.
    + apply last_None in El. subst ks1. destruct cs1; [constructor|done].
  - apply wf_node_at in Hwf as (Hinc&_&_&Hk2); [|lia].
    apply inc_app in Hinc as [_ Hinc2]. simpl in Hinc2. destruct Hinc2 as (_&_&Hinc2).
    destruct (decide (ks2 = [])) as [->|Hne].
    { destruct cs2; [constructor|done]. }
    eapply Forall_impl; [eapply kids_contents; [apply Hinc2|done]|].
    simpl. intros x [Hx _].
    assert (key ≤ ki)%Z; [|lia]. eapply Hat.
    rewrite lookup_take_lt.
    + by apply list_lookup_middle.
    + revert Hi. rewrite length_app. simpl. destruct ks2; [done|]. simpl. lia.
Qed.

Implicit Types (als : list (addr * list (Z * V))).

Lemma repr_node_inv h a ks cs :
  repr h (ANode a ks cs) →
  h !! a = Some (node_cell ks cs) ∧ length ks ≤ maxNodes ∧ length cs = length ks ∧
  Forall (repr h) cs.
Proof. by inversion 1. Qed.

Lemma repr_leaf_inv h a kvs :
  repr h (ALeaf a kvs) →
  (∃ nx pv, h !! a = Some (leaf_cell zeroV nx pv kvs)) ∧ length kvs ≤ maxNodes.
Proof. inversion 1; subst. eauto. Qed.

Lemma kid_pos ht lo k c : kid ht lo k c → 0 < asize c.
Proof. intros [_ [H _]]. rewrite minNodes_eq in H. lia. Qed.

(** ** Find *)

Lemma find_loop_ok key m ht :
  ∀ t lo hi fuel,
    repr (m_heap m) t → wf ht lo hi t → (ht ≠ 0 → 0 < asize t) → ht < fuel →
    ∃ v ok, find_loop zeroV fuel (raddr t) key m = Some ((v, ok), m) ∧
            (if ok : bool then (key, v) ∈ contents t
             else v = zeroV ∧ key ∉ (contents t).*1).
Proof.
  induction ht as [|ht IH]; intros t lo hi fuel Hr Hwf Hpos Hfuel;
    (destruct fuel as [|fuel]; [lia|]).
  - destruct (wf_leaf _ _ _ Hwf) as (a&kvs&->). simpl in Hwf.
    destruct (repr_leaf_inv _ _ _ Hr) as [(nx&pv&Ha) Hlen].
    simpl. rewrite Ha. mstep. rewrite leaf_Keys_rec by done. mstep.
    pose proof (linearSearchOrdered_found kvs.*1 key) as Hfound.
    pose proof (linearSearchOrdered_absent _ _ _ key Hwf) as Habs.
    destruct (linearSearchOrdered kvs.*1 key) as [i [|]]; simpl in Hfound, Habs.
    + specialize (Hfound eq_refl).
      apply list_lookup_fmap_Some in Hfound as ([k v]&Hk&Hkv). simpl in Hk. subst k.
      pose proof (lookup_lt_Some _ _ _ Hkv) as Hilt.
      rewrite lookup_pad_lt by (by rewrite length_fmap).
      rewrite list_lookup_fmap, Hkv. mstep.
      exists v, true. split; [done|]. unfold contents. simpl. rewrite app_nil_r.
      by eapply list_elem_of_lookup_2.
    + exists zeroV, false. split; [done|]. split; [done|].
      unfold contents. simpl. rewrite app_nil_r. auto.
  - destruct (wf_node _ _ _ _ Hwf) as (a&ks&cs&->). simpl in Hpos.
    specialize (Hpos ltac:(done)).
    destruct (repr_node_inv _ _ _ _ Hr) as (Ha&Hlen&Hcs&Hall).
    cbn [find_loop raddr]. rewrite Ha. mstep.
    rewrite inode_KeysForFindAndRemove_rec by done. mstep.
    destruct (select_child _ _ _ _ _ _ key Hwf Hpos) as
      (ks1&ki&ks2&cs1&c&cs2&->&->&Hi&Hl&H1&H2).
    destruct (linearSearchOrdered _ key) as [i ok]. simpl in Hi. subst i.
    rewrite (inode_nodes_lookup _ _ c) by (apply list_lookup_middle; lia). mstep.
    apply wf_node_at in Hwf as (_&_&Hkid&_); [|lia].
    assert (Hrc : repr (m_heap m) c).
    { rewrite Forall_forall in Hall. apply Hall, elem_of_app. right. apply list_elem_of_here. }
    destruct (IH c _ _ fuel Hrc (proj1 Hkid)) as (v&ok'&Hrun&Hres);
      [intros _; by eapply kid_pos|lia|].
    exists v, ok'. split; [done|]. rewrite contents_node_at.
    destruct ok'.
    + apply elem_of_app. right. apply elem_of_app. by left.
    + destruct Hres as [-> Hno]. split; [done|]. rewrite !fmap_app.
      rewrite Forall_forall in H1, H2.
      intros [Hin|[Hin|Hin]%elem_of_app]%elem_of_app; [|done|].
      * specialize (H1 _ Hin). lia.
      * specialize (H2 _ Hin). lia.
Qed.

Lemma Find_Rep key m ht t :
  Rep m ht t →
  ∃ v ok, Find zeroV key m = Some ((v, ok), m) ∧
          (if ok : bool then (key, v) ∈ contents t
           else v = zeroV ∧ key ∉ (contents t).*1).
Proof.
  intros (Hroot&HL&Hwf&Hsz&Hht&Hfront&Hn&Hfuel). unfold Find. rewrite <- Hroot.
  destruct HL as (Hr&_). apply Forall_inv in Hr.
  eapply find_loop_ok; eauto. intros H. specialize (Hht H). lia.
Qed.

(** ** LowerBound *)

(** [p] is the place of the first pair whose key is not below [key] *)
Definition lb_pos (key : Z) (kvs : list (Z * V)) (p : nat) : Prop :=
  p ≤ length kvs ∧
  Forall (λ kv, (kv.1 < key)%Z) (take p kvs) ∧
  Forall (λ kv, (key ≤ kv.1)%Z) (drop p kvs).

Lemma lb_pos_ctx key (XA kvs XB : list (Z * V)) i :
  Forall (λ kv, (kv.1 < key)%Z) XA → Forall (λ kv, (key ≤ kv.1)%Z) XB →
  lb_pos key kvs i → lb_pos key (XA ++ kvs ++ XB) (length XA + i).
Proof.
  intros HA HB (Hi&H1&H2). split_and!.
  - rewrite !length_app. lia.
  - rewrite take_app_add', take_app_le by done. by apply Forall_app.
  - rewrite drop_app_add', drop_app_le by done. by apply Forall_app.
Qed.

Lemma lb_pos_search lo hi key kvs :
  inc lo kvs.*1 hi → lb_pos key kvs (linearSearchOrdered kvs.*1 key).1.
Proof.
  intros Hinc.
  pose proof (linearSearchOrdered_length kvs.*1 key) as Hi.
  pose proof (linearSearchOrdered_before kvs.*1 key) as Hbefore.
  pose proof (linearSearchOrdered_after lo kvs.*1 hi key) as Hafter.
  destruct (linearSearchOrdered kvs.*1 key) as [i ok]. simpl in *.
  rewrite length_fmap in Hi. split_and!; [done| |].
  - apply Forall_lookup. intros j kv Hj. apply lookup_take_Some in Hj as [Hj Hlt].
    eapply Hbefore; [done|]. by rewrite list_lookup_fmap, Hj.
  - apply Forall_lookup. intros j kv Hj. rewrite lookup_drop in Hj.
    eapply (Hafter (i + j)); [done|lia|]. by rewrite list_lookup_fmap, Hj.
Qed.

Lemma lowerBound_loop_ok key m ht :
  ∀ t A B lo hi fuel,
    Chain zeroV m (A ++ aleaves t ++ B) → repr (m_heap m) t → wf ht lo hi t →
    (ht ≠ 0 → 0 < asize t) → ht < fuel →
    Forall (λ kv, (kv.1 < key)%Z) (total A) → Forall (λ kv, (key ≤ kv.1)%Z) (total B) →
    ∃ it p, lowerBound_loop fuel (raddr t) key m = Some (it, m) ∧
            pos_or_end (A ++ aleaves t ++ B) it p ∧
            lb_pos key (total (A ++ aleaves t ++ B)) p.
Proof.
  induction ht as [|ht IH]; intros t A B lo hi fuel HC Hr Hwf Hpos Hfuel HA HB;
    (destruct fuel as [|fuel]; [lia|]).
  - destruct (wf_leaf _ _ _ Hwf) as (a&kvs&->). simpl in Hwf. simpl in HC.
    destruct (Chain_leaf _ _ _ _ _ _ HC) as [Ha Hlen].
    simpl. rewrite Ha. mstep. rewrite leaf_Keys_rec by done. mstep.
    pose proof (lb_pos_search _ _ key _ Hwf) as Hlb.
    destruct (linearSearchOrdered kvs.*1 key) as [i ok]. simpl in Hlb.
    pose proof Hlb as (Hi&_&_).
    pose proof (lb_pos_ctx key (total A) kvs (total B) i HA HB Hlb) as Hlb'.
    assert (Htot : total (A ++ (a, kvs) :: B) = total A ++ kvs ++ total B).
    { by rewrite total_app, total_cons. }
    rewrite Htot.
    destruct (decide (i = length kvs)) as [->|Hne].
    + destruct B as [|[b kvb] B]; simpl.
      * exists (mkIt a (length kvs)), (length (total A) + length kvs).
        split; [done|]. split; [|done]. right. split.
        -- rewrite Htot, !length_app. unfold total. simpl. lia.
        -- by exists A, kvs.
      * exists (mkIt b 0), (length (total A) + length kvs).
        split; [done|]. split; [|done]. left.
        exists (A ++ [(a, kvs)]), kvb, B. simpl. split_and!.
        -- by rewrite <- (assoc_L (++)).
        -- destruct HC as (_&_&[Hne|Hne]&_).
           ++ rewrite length_app in Hne. simpl in Hne. lia.
           ++ apply Forall_app in Hne as [_ Hne]. apply Forall_cons in Hne as [_ Hne].
              apply Forall_cons in Hne as [Hne _]. done.
        -- fold (total (A ++ [(a, kvs)])). rewrite total_app, length_app.
           rewrite total_cons, length_app. unfold total. simpl. lia.
    + exists (mkIt a i), (length (total A) + i).
      split; [by destruct (hd_or B.*1 None)|]. split; [|done]. left.
      exists A, kvs, B. simpl. split_and!; [done|lia|done].
  - destruct (wf_node _ _ _ _ Hwf) as (a&ks&cs&->). simpl in Hpos.
    specialize (Hpos ltac:(done)).
    destruct (repr_node_inv _ _ _ _ Hr) as (Ha&Hlen&Hcs&Hall).
    cbn [lowerBound_loop raddr]. rewrite Ha. mstep.
    rewrite inode_KeysForFindAndRemove_rec by done. mstep.
    destruct (select_child _ _ _ _ _ _ key Hwf Hpos) as
      (ks1&ki&ks2&cs1&c&cs2&->&->&Hi&Hl&H1&H2).
    destruct (linearSearchOrdered _ key) as [i ok]. simpl in Hi. subst i.
    rewrite (inode_nodes_lookup _ _ c) by (apply list_lookup_middle; lia). mstep.
    apply wf_node_at in Hwf as (_&_&Hkid&_); [|lia].
    rewrite aleaves_node_at in *.
    assert (E : A ++ (fals cs1 ++ aleaves c ++ fals cs2) ++ B =
                (A ++ fals cs1) ++ aleaves c ++ (fals cs2 ++ B)).
    { by rewrite <- !(assoc_L (++)). }
    rewrite E in *.
    eapply (IH c _ _ _ _ fuel); eauto.
    + rewrite Forall_forall in Hall. apply Hall, elem_of_app. right. apply list_elem_of_here.
    + apply (proj1 Hkid).
    + intros _. by eapply kid_pos.
    + lia.
    + rewrite total_app. apply Forall_app. split; [done|].
      rewrite Forall_fmap in H1. done.
    + rewrite total_app. apply Forall_app. split; [|done].
      rewrite Forall_fmap in H2. eapply Forall_impl; [exact H2|]. simpl. intros; lia.
Qed.

Lemma LowerBound_Rep key m ht t :
  Rep m ht t →
  ∃ it p, LowerBound key m = Some (it, m) ∧
          pos_or_end (aleaves t) it p ∧ lb_pos key (contents t) p.
Proof.
  intros HR. pose proof (Rep_Chain _ _ _ _ HR) as HC.
  destruct HR as (Hroot&HL&Hwf&Hsz&Hht&Hfront&Hn&Hfuel). unfold LowerBound.
  rewrite <- Hroot. destruct HL as (Hr&_). apply Forall_inv in Hr.
  destruct (lowerBound_loop_ok key m ht t [] [] None None (length (m_heap m))) as
    (it&p&Hrun&Hp&Hlb); try done.
  - by rewrite app_nil_r.
  - intros H. specialize (Hht H). lia.
  - simpl in *. rewrite app_nil_r in *. by exists it, p.
Qed.
End ReadOnly.

(** * Merging and rebalancing two siblings *)

Section Siblings.
Context {V : Type}.
Local Abbreviation atree := (atree V).
Implicit Types (t c l r : atree) (ts cs : list atree).
Implicit Types (kvs : list (Z * V)) (ks : list Z).

(** [l] after [l.Merge(r)] *)
Definition amerge (l r : atree) : atree :=
  match l, r with
  | ALeaf a kvs, ALeaf _ kvs' => ALeaf a (kvs ++ kvs')
  | ANode a ks cs, ANode _ ks' cs' => ANode a (ks ++ ks') (cs ++ cs')
  | _, _ => l
  end.

(** a node cut after its first [j] entries; the rest lives at [b] *)
Definition asplit_at (j : nat) (b : addr) (t : atree) : atree * atree :=
  match t with
  | ALeaf a kvs => (ALeaf a (take j kvs), ALeaf b (drop j kvs))
  | ANode a ks cs => (ANode a (take j ks) (take j cs), ANode b (drop j ks) (drop j cs))
  end.

(** two siblings after a shift that leaves [j] entries in the left one *)
Definition ashift (l r : atree) (j : nat) : atree * atree :=
  asplit_at j (raddr r) (amerge l r).

Lemma wf_is_leaf ht lo hi t : wf ht lo hi t → is_leaf t = bool_decide (ht = 0).
Proof. by destruct ht, t. Qed.

Lemma amerge_raddr l r : raddr (amerge l r) = raddr l.
Proof. by destruct l, r. Qed.

Lemma amerge_asize l r :
  is_leaf l = is_leaf r → asize (amerge l r) = asize l + asize r.
Proof. destruct l, r; simpl; try done; intros _; by rewrite length_app. Qed.

Lemma amerge_akeys l r :
  is_leaf l = is_leaf r → akeys (amerge l r) = akeys l ++ akeys r.
Proof. destruct l, r; simpl; try done; intros _; by rewrite fmap_app. Qed.

Lemma amerge_contents l r :
  is_leaf l = is_leaf r → contents (amerge l r) = contents l ++ contents r.
Proof.
  destruct l, r; simpl; try done; intros _.
  - unfold contents. simpl. by rewrite !app_nil_r.
  - by rewrite !contents_node, fcontents_app.
Qed.

Lemma amerge_head_leaves l r :
  is_leaf l = is_leaf r → head (leaves (amerge l r)) = head (leaves l ++ leaves r).
Proof.
  destruct l, r; simpl; try done; intros _.
  by rewrite !leaves_node, fleaves_app.
Qed.

Lemma asplit_at_raddr j b t : raddr (asplit_at j b t).1 = raddr t ∧ raddr (asplit_at j b t).2 = b.
Proof. by destruct t. Qed.

Lemma asplit_at_asize j b t :
  asize (asplit_at j b t).1 = j `min` asize t ∧ asize (asplit_at j b t).2 = asize t - j.
Proof. destruct t; simpl; by rewrite length_take, length_drop. Qed.

Lemma asplit_at_contents j b t :
  contents (asplit_at j b t).1 ++ contents (asplit_at j b t).2 = contents t.
Proof.
  destruct t as [a kvs|a ks cs]; simpl.
  - unfold contents. simpl. rewrite !app_nil_r. apply take_drop.
  - rewrite !contents_node. apply fcontents_take_drop.
Qed.

Lemma asplit_at_akeys j b t :
  akeys (asplit_at j b t).1 = take j (akeys t) ∧ akeys (asplit_at j b t).2 = drop j (akeys t).
Proof. destruct t; simpl; by rewrite ?fmap_take, ?fmap_drop. Qed.

Lemma ashift_raddr l r j :
  raddr (ashift l r j).1 = raddr l ∧ raddr (ashift l r j).2 = raddr r.
Proof. unfold ashift. destruct (asplit_at_raddr j (raddr r) (amerge l r)) as [-> ->].
       by rewrite amerge_raddr. Qed.

Lemma ashift_asize l r j :
  is_leaf l = is_leaf r → j ≤ asize l + asize r →
  asize (ashift l r j).1 = j ∧ asize (ashift l r j).2 = asize l + asize r - j.
Proof.
  intros Hk Hj. unfold ashift.
  destruct (asplit_at_asize j (raddr r) (amerge l r)) as [-> ->].
  rewrite amerge_asize by done. lia.
Qed.

Lemma ashift_contents l r j :
  is_leaf l = is_leaf r →
  contents (ashift l r j).1 ++ contents (ashift l r j).2 = contents l ++ contents r.
Proof. intros. unfold ashift. by rewrite asplit_at_contents, amerge_contents. Qed.

Lemma ashift_head_leaves l r j :
  is_leaf l = is_leaf r →
  head (leaves (ashift l r j).1 ++ leaves (ashift l r j).2) = head (leaves l ++ leaves r).
Proof.
  destruct l, r; simpl; try done; intros _.
  rewrite !leaves_node, <- !fleaves_app. by rewrite take_drop.
Qed.

(** ** Order *)

Lemma wf_amerge ht lo k1 hi l r :
  wf ht lo (Some k1) l → wf ht (Some k1) hi r → 0 < asize l → 0 < asize r →
  wf ht lo hi (amerge l r).
Proof.
  intros Hl Hr Hposl Hposr.
  assert (Hhi : ∀ k, ble k (Some k1) → ble k hi).
  { destruct (akeys_nonempty r Hposr) as [x Hx].
    destruct (wf_lo_first _ _ _ _ _ Hr Hx) as [H1 H2].
    intros k Hk. destruct hi; simpl in *; [lia|done]. }
  assert (Hlo : ∀ k, blt (Some k1) k → blt (lastb lo (akeys l)) k).
  { intros k Hk. unfold lastb. destruct (last (akeys l)) as [y|] eqn:E.
    - apply wf_inc in Hl. apply (inc_last_ble _ _ _ _ Hl) in E. simpl in *. lia.
    - apply last_None in E. apply (f_equal length) in E.
      rewrite akeys_length in E. simpl in E. lia. }
  assert (Hinc : inc lo (akeys l ++ akeys r) hi).
  { apply inc_app. split.
    - eapply inc_ble; [by eapply wf_inc|done].
    - eapply inc_blt; [by eapply wf_inc|done]. }
  destruct ht, l as [a kvs|a ks cs], r as [b kvs'|b ks' cs']; simpl in *; try done.
  - by rewrite fmap_app.
  - destruct Hl as [_ Hkl]. destruct Hr as [_ Hkr]. split; [done|].
    apply kids_app; [by eapply kids_length|]. split; [done|].
    eapply kids_blt; [done|]. intros k c [Hw Hs]. split; [|done].
    eapply wf_blt; [done|]. done.
Qed.

Lemma wf_asplit_at ht lo hi t j b lk :
  wf ht lo hi t →
  last (akeys (asplit_at j b t).1) = Some lk →
  wf ht lo (Some lk) (asplit_at j b t).1 ∧ wf ht (Some lk) hi (asplit_at j b t).2.
Proof.
  destruct ht, t as [a kvs|a ks cs]; simpl; try done.
  - intros H Hl. rewrite <- (take_drop j kvs), fmap_app in H.
    apply inc_app in H as [H1 H2]. rewrite (lastb_last _ _ _ Hl) in H2.
    split; [|done]. by eapply inc_hi_last.
  - intros [H Hk] Hl. pose proof (kids_length _ _ _ _ Hk) as Hlen.
    rewrite <- (take_drop j ks) in H. apply inc_app in H as [H1 H2].
    rewrite (lastb_last _ _ _ Hl) in H2.
    rewrite <- (take_drop j ks), <- (take_drop j cs) in Hk.
    apply kids_app in Hk as [Hk1 Hk2]; [|rewrite !length_take; lia].
    rewrite (lastb_last _ _ _ Hl) in Hk2.
    split; (split; [|done]); [by eapply inc_hi_last|done].
Qed.

Lemma last_akeys_pos t : 0 < asize t → is_Some (last (akeys t)).
Proof.
  intros H. apply last_is_Some. intros E%(f_equal length).
  rewrite akeys_length in E. simpl in E. lia.
Qed.

(** a shift to the left leaves an end of the right sibling in place,
    a shift to the right a beginning of the left one *)
Lemma ashift_right_suffix ht lo1 hi1 lo2 hi2 l r j :
  wf ht lo1 hi1 l → wf ht lo2 hi2 r → asize l ≤ j →
  ∃ X, contents r = X ++ contents (ashift l r j).2.
Proof.
  intros Hl Hr Hj. destruct ht, l as [a kvs|a ks cs], r as [b kvs'|b ks' cs']; try done;
    simpl in Hj; unfold ashift; simpl.
  - exists (take (j - length kvs) kvs'). unfold contents. simpl. rewrite !app_nil_r.
    rewrite drop_app_ge by done. by rewrite take_drop.
  - pose proof (wf_asize_children _ _ _ _ _ _ Hl) as Hlen.
    exists (fcontents (take (j - length cs) cs')). rewrite !contents_node.
    rewrite drop_app_ge by lia. by rewrite fcontents_take_drop.
Qed.

Lemma ashift_left_prefix ht lo1 hi1 lo2 hi2 l r j :
  wf ht lo1 hi1 l → wf ht lo2 hi2 r → j ≤ asize l →
  ∃ X, contents l = contents (ashift l r j).1 ++ X.
Proof.
  intros Hl Hr Hj. destruct ht, l as [a kvs|a ks cs], r as [b kvs'|b ks' cs']; try done;
    simpl in Hj; unfold ashift; simpl.
  - exists (drop j kvs). unfold contents. simpl. rewrite !app_nil_r.
    rewrite take_app_le by done. by rewrite take_drop.
  - pose proof (wf_asize_children _ _ _ _ _ _ Hl) as Hlen.
    exists (fcontents (drop j cs)). rewrite !contents_node.
    rewrite take_app_le by lia. by rewrite fcontents_take_drop.
Qed.

(** the parent after a shift between the children [l] and [r] *)
Lemma wf_parent_shift ht lo hi a ks1 k1 k2 ks2 cs1 l r cs2 j lk :
  length ks1 = length cs1 →
  wf (S ht) lo hi (ANode a (ks1 ++ k1 :: k2 :: ks2) (cs1 ++ l :: r :: cs2)) →
  minNodes ≤ j ≤ maxNodes → minNodes ≤ asize l + asize r - j ≤ maxNodes →
  j ≤ asize l + asize r →
  last (akeys (ashift l r j).1) = Some lk →
  wf (S ht) lo hi (ANode a (ks1 ++ lk :: k2 :: ks2)
                     (cs1 ++ (ashift l r j).1 :: (ashift l r j).2 :: cs2)).
Proof.
  intros Hlen Hw Hj1 Hj2 Hj Hlk.
  apply wf_node_at in Hw as (Hinc&Hk1&[Hwl Hsl]&Hk2); [|done].
  simpl in Hk2. destruct Hk2 as [[Hwr Hsr] Hk2].
  pose proof minNodes_eq as Hmin. pose proof maxNodes_eq as Hmax.
  assert (Hkind : is_leaf l = is_leaf r).
  { by rewrite (wf_is_leaf _ _ _ _ Hwl), (wf_is_leaf _ _ _ _ Hwr). }
  assert (Hwm : wf ht (lastb lo ks1) (Some k2) (amerge l r)).
  { eapply wf_amerge; [done|done|lia|lia]. }
  destruct (wf_asplit_at _ _ _ _ j (raddr r) lk Hwm Hlk) as [Hwl' Hwr'].
  destruct (ashift_asize l r j Hkind Hj) as [Hsl' Hsr'].
  fold (ashift l r j) in Hwl', Hwr'.
  assert (Hlo : blt (lastb lo ks1) lk).
  { eapply wf_lo_first; [apply Hwl'|]. by apply last_Some_elem_of. }
  assert (Hlt : (lk < k2)%Z).
  { destruct (akeys_nonempty (ashift l r j).2) as [x Hx]; [lia|].
    destruct (wf_lo_first _ _ _ _ _ Hwr' Hx) as [H1 H2]. simpl in *. lia. }
  apply wf_node_at; [done|].
  apply inc_app in Hinc as [Hi1 Hi2]. destruct Hi2 as (Hi2&Hi3&Hi4&Hi5&Hi6).
  split_and!; try done.
  - apply inc_app. split; [done|]. simpl. split_and!; try done.
    destruct hi; simpl in *; [lia|done].
  - split; [done|lia].
  - simpl. split; [|done]. split; [done|lia].
Qed.

(** the parent after the children [l] and [r] are merged *)
Lemma wf_parent_merge ht lo hi a ks1 k1 k2 ks2 cs1 l r cs2 lk :
  length ks1 = length cs1 →
  wf (S ht) lo hi (ANode a (ks1 ++ k1 :: k2 :: ks2) (cs1 ++ l :: r :: cs2)) →
  asize l + asize r ≤ maxNodes →
  last (akeys (amerge l r)) = Some lk →
  wf (S ht) lo hi (ANode a (ks1 ++ lk :: ks2) (cs1 ++ amerge l r :: cs2)).
Proof.
  intros Hlen Hw Hsz Hlk.
  apply wf_node_at in Hw as (Hinc&Hk1&[Hwl Hsl]&Hk2); [|done].
  simpl in Hk2. destruct Hk2 as [[Hwr Hsr] Hk2].
  pose proof minNodes_eq as Hmin. pose proof maxNodes_eq as Hmax.
  assert (Hkind : is_leaf l = is_leaf r).
  { by rewrite (wf_is_leaf _ _ _ _ Hwl), (wf_is_leaf _ _ _ _ Hwr). }
  assert (Hwm : wf ht (lastb lo ks1) (Some k2) (amerge l r)).
  { eapply wf_amerge; [done|done|lia|lia]. }
  pose proof (wf_hi_last _ _ _ _ _ Hwm Hlk) as Hwm'.
  assert (Hlo : blt (lastb lo ks1) lk ∧ ble lk (Some k2)).
  { eapply wf_lo_first; [apply Hwm|]. by apply last_Some_elem_of. }
  destruct Hlo as [Hlo Hle]. simpl in Hle.
  apply wf_node_at; [done|].
  apply inc_app in Hinc as [Hi1 Hi2]. destruct Hi2 as (Hi2&Hi3&Hi4&Hi5&Hi6).
  split_and!; try done.
  - apply inc_app. split; [done|]. simpl. split_and!; try done.
    + destruct hi; simpl in *; [lia|done].
    + eapply inc_blt; [done|]. simpl. lia.
  - split; [done|]. rewrite amerge_asize by done. lia.
  - eapply kids_blt; [done|]. intros k c [Hwc Hsc]. split; [|done].
    eapply wf_blt; [done|]. simpl. lia.
Qed.
End Siblings.

(** * Merge, ShiftLeft and ShiftRight on the heap *)

Section SiblingOps.
Context {V : Type} (zeroV : V).
Local Abbreviation cell := (@cell V).
Local Abbreviation Map := (@Map V).
Local Abbreviation atree := (atree V).
Local Abbreviation repr := (repr zeroV).
Local Abbreviation LocF := (LocF zeroV).
Local Abbreviation leaf_rec := (leaf_rec zeroV).
Local Abbreviation leaf_cell := (leaf_cell zeroV).
Implicit Types (h : list cell) (t c : atree) (ts cs : list atree) (m : Map).
Implicit Types (kvs : list (Z * V)) (ks : list Z).

Lemma faddrs_elem cs c x : c ∈ cs → x ∈ addrs c → x ∈ faddrs cs.
Proof.
  induction cs as [|d cs IH]; [by intros ?%elem_of_nil|].
  rewrite faddrs_cons, elem_of_app. intros [->|Hc]%elem_of_cons; auto.
Qed.

Lemma faddrs_two_nodes a b ks ks' (cs cs' : list atree) :
  faddrs [ANode a ks cs; ANode b ks' cs'] ≡ₚ a :: b :: faddrs (cs ++ cs').
Proof.
  rewrite faddrs_cons, faddrs_single, !addrs_node, faddrs_app. simpl.
  constructor. by rewrite Permutation_middle.
Qed.

Lemma fleaves_two_nodes a b ks ks' (cs cs' : list atree) :
  fleaves [ANode a ks cs; ANode b ks' cs'] = fleaves (cs ++ cs').
Proof. by rewrite fleaves_cons, fleaves_single, !leaves_node, fleaves_app. Qed.

(** two sibling nodes whose children are dealt out again *)
Lemma LocF_regroup m a b ks cs ks' cs' ks1 cs1 ks2 cs2 L1 L2 :
  LocF m [ANode a ks cs; ANode b ks' cs'] L1 L2 →
  cs1 ++ cs2 = cs ++ cs' →
  length cs1 = length ks1 → length ks1 ≤ maxNodes →
  length cs2 = length ks2 → length ks2 ≤ maxNodes →
  ∀ m', m_heap m' = <[b := node_cell ks2 cs2]> (<[a := node_cell ks1 cs1]> (m_heap m)) →
        m_back m' = m_back m → m_front m' = m_front m →
        LocF m' [ANode a ks1 cs1; ANode b ks2 cs2] L1 L2 ∧
        StepF m [ANode a ks cs; ANode b ks' cs'] m' [ANode a ks1 cs1; ANode b ks2 cs2].
Proof.
  intros (Hr&Hnd&Hndl&Hseg&Hlast) Hcs Hl1 Hn1 Hl2 Hn2 m' Hh Hb Hf.
  apply Forall_cons in Hr as [Hra Hrb]. apply Forall_inv in Hrb.
  inversion Hra as [|? ? ? Ha Hlena Hcsa Halla]; subst.
  inversion Hrb as [|? ? ? Hb' Hlenb Hcsb Hallb]; subst.
  rewrite faddrs_two_nodes in Hnd.
  apply NoDup_cons in Hnd as [Hna Hnd]. apply NoDup_cons in Hnd as [Hnb Hnd].
  assert (Hab : a ≠ b).
  { intros ->. apply Hna. apply list_elem_of_here. }
  assert (Hna' : a ∉ faddrs (cs ++ cs')).
  { intros Hin. apply Hna. by apply list_elem_of_further. }
  pose proof (lookup_lt_Some _ _ _ Ha) as Hlta.
  pose proof (lookup_lt_Some _ _ _ Hb') as Hltb.
  assert (Hall : Forall (repr (m_heap m')) (cs ++ cs')).
  { rewrite Hh. apply Forall_forall. intros c Hc.
    assert (Hrc : repr (m_heap m) c).
    { apply elem_of_app in Hc as [Hc|Hc];
        [rewrite Forall_forall in Halla|rewrite Forall_forall in Hallb]; auto. }
    assert (Hsub : ∀ x, x ∈ addrs c → x ∈ faddrs (cs ++ cs')).
    { intros x Hx. by eapply faddrs_elem. }
    apply repr_put_other; [apply repr_put_other; [done|]|]; intros Hin;
      apply Hsub in Hin; done. }
  rewrite <- Hcs in Hall. apply Forall_app in Hall as [Hall1 Hall2].
  split.
  - split_and!.
    + constructor; [|constructor; [|constructor]].
      * constructor; try done. rewrite Hh.
        rewrite list_lookup_insert_ne by done.
        apply list_lookup_insert_eq. done.
      * constructor; try done. rewrite Hh.
        apply list_lookup_insert_eq. by rewrite length_insert.
    + rewrite faddrs_two_nodes, Hcs. by repeat constructor.
    + by rewrite fleaves_two_nodes, Hcs, <- (fleaves_two_nodes a b ks ks').
    + rewrite fleaves_two_nodes, Hcs, <- (fleaves_two_nodes a b ks ks').
      eapply lseg_kept; [done|]. rewrite Hh.
      apply (links_kept_trans _ (<[a:=node_cell ks1 cs1]> (m_heap m)));
        [by eapply links_kept_put_internal|].
      eapply links_kept_put_internal. rewrite list_lookup_insert_ne by done. done.
    + rewrite fleaves_two_nodes, Hcs, <- (fleaves_two_nodes a b ks ks'). by rewrite Hb.
  - split_and!; [by rewrite Hh, !length_insert| | |done].
    + rewrite Hh.
      apply (kept_outside_trans _ _ (<[a:=node_cell ks1 cs1]> (m_heap m)));
        apply kept_outside_put.
      * rewrite faddrs_two_nodes. apply list_elem_of_here.
      * rewrite faddrs_two_nodes. apply list_elem_of_further, list_elem_of_here.
    + intros x. rewrite !faddrs_two_nodes, Hcs. auto.
Qed.

(** two sibling nodes merged into the left one *)
Lemma LocF_merge_nodes m a b ks cs ks' cs' L1 L2 :
  LocF m [ANode a ks cs; ANode b ks' cs'] L1 L2 →
  length ks + length ks' ≤ maxNodes →
  ∀ m', m_heap m' = <[a := node_cell (ks ++ ks') (cs ++ cs')]> (m_heap m) →
        m_back m' = m_back m → m_front m' = m_front m →
        LocF m' [ANode a (ks ++ ks') (cs ++ cs')] L1 L2 ∧
        StepF m [ANode a ks cs; ANode b ks' cs'] m' [ANode a (ks ++ ks') (cs ++ cs')].
Proof.
  intros (Hr&Hnd&Hndl&Hseg&Hlast) Hsz m' Hh Hb Hf.
  apply Forall_cons in Hr as [Hra Hrb]. apply Forall_inv in Hrb.
  inversion Hra as [|? ? ? Ha Hlena Hcsa Halla]; subst.
  inversion Hrb as [|? ? ? Hb' Hlenb Hcsb Hallb]; subst.
  rewrite faddrs_two_nodes in Hnd.
  apply NoDup_cons in Hnd as [Hna Hnd]. apply NoDup_cons in Hnd as [Hnb Hnd].
  assert (Hna' : a ∉ faddrs (cs ++ cs')).
  { intros Hin. apply Hna. by apply list_elem_of_further. }
  pose proof (lookup_lt_Some _ _ _ Ha) as Hlta.
  assert (Hall : Forall (repr (m_heap m')) (cs ++ cs')).
  { rewrite Hh. apply Forall_forall. intros c Hc.
    assert (Hrc : repr (m_heap m) c).
    { apply elem_of_app in Hc as [Hc|Hc];
        [rewrite Forall_forall in Halla|rewrite Forall_forall in Hallb]; auto. }
    apply repr_put_other; [done|]. intros Hin. apply Hna'. by eapply faddrs_elem. }
  split.
  - split_and!.
    + constructor; [|constructor]. constructor; try done.
      * rewrite Hh. by apply list_lookup_insert_eq.
      * rewrite length_app. lia.
      * rewrite !length_app. lia.
    + rewrite faddrs_single, addrs_node. by constructor.
    + by rewrite fleaves_single, leaves_node, <- (fleaves_two_nodes a b ks ks').
    + rewrite fleaves_single, leaves_node, <- (fleaves_two_nodes a b ks ks').
      eapply lseg_kept; [done|]. rewrite Hh. by eapply links_kept_put_internal.
    + rewrite fleaves_single, leaves_node, <- (fleaves_two_nodes a b ks ks'). by rewrite Hb.
  - split_and!; [by rewrite Hh, !length_insert| | |done].
    + rewrite Hh. apply kept_outside_put.
      rewrite faddrs_two_nodes. apply list_elem_of_here.
    + intros x. rewrite faddrs_two_nodes, faddrs_single, addrs_node.
      intros [->|Hx]%elem_of_cons; left; [apply list_elem_of_here|].
      by do 2 apply list_elem_of_further.
Qed.

(** two sibling leaves whose pairs are dealt out again *)
Lemma LocF_regroup_leaves m a b kvs kvs' L1 L2 :
  LocF m [ALeaf a kvs; ALeaf b kvs'] L1 L2 →
  ∃ nx pv nx' pv',
    m_heap m !! a = Some (leaf_cell nx pv kvs) ∧
    m_heap m !! b = Some (leaf_cell nx' pv' kvs') ∧ a ≠ b ∧
    length kvs ≤ maxNodes ∧ length kvs' ≤ maxNodes ∧
    ∀ k1 k2 m',
      length k1 ≤ maxNodes → length k2 ≤ maxNodes →
      m_heap m' = <[b := leaf_cell nx' pv' k2]> (<[a := leaf_cell nx pv k1]> (m_heap m)) →
      m_back m' = m_back m → m_front m' = m_front m →
      LocF m' [ALeaf a k1; ALeaf b k2] L1 L2 ∧
      StepF m [ALeaf a kvs; ALeaf b kvs'] m' [ALeaf a k1; ALeaf b k2].
Proof.
  intros (Hr&Hnd&Hndl&Hseg&Hlast).
  apply Forall_cons in Hr as [Hra Hrb]. apply Forall_inv in Hrb.
  inversion Hra as [? ? nx pv Ha Hlena|]; subst.
  inversion Hrb as [? ? nx' pv' Hb Hlenb|]; subst.
  exists nx, pv, nx', pv'.
  assert (Hab : a ≠ b).
  { intros ->. apply NoDup_cons in Hnd as [Hnd _]. apply Hnd, list_elem_of_here. }
  split_and!; try done. intros k1 k2 m' Hk1 Hk2 Hh Hbk Hf.
  pose proof (lookup_lt_Some _ _ _ Ha) as Hlta.
  pose proof (lookup_lt_Some _ _ _ Hb) as Hltb.
  split.
  - split_and!; try done.
    + constructor; [|constructor; [|constructor]].
      * econstructor; [|done]. rewrite Hh, list_lookup_insert_ne by done.
        by apply list_lookup_insert_eq.
      * econstructor; [|done]. rewrite Hh.
        apply list_lookup_insert_eq. by rewrite length_insert.
    + eapply lseg_kept; [done|]. rewrite Hh.
      apply (links_kept_trans _ (<[a:=leaf_cell nx pv k1]> (m_heap m))).
      * by apply (links_kept_put_leaf _ a (leaf_rec nx pv kvs) (leaf_rec nx pv k1)).
      * apply (links_kept_put_leaf _ b (leaf_rec nx' pv' kvs') (leaf_rec nx' pv' k2));
          [|done|done].
        rewrite list_lookup_insert_ne by done. done.
    + by rewrite Hbk.
  - split_and!; [by rewrite Hh, !length_insert| |auto|done].
    rewrite Hh. apply (kept_outside_trans _ _ (<[a:=leaf_cell nx pv k1]> (m_heap m)));
      apply kept_outside_put.
    + apply list_elem_of_here.
    + apply list_elem_of_further, list_elem_of_here.
Qed.

(** [leafNode.Merge] *)
Lemma leaf_Merge_ok m a b kvs kvs' L1 L2 :
  LocF m [ALeaf a kvs; ALeaf b kvs'] L1 L2 →
  length kvs + length kvs' ≤ maxNodes →
  ∃ m', leaf_Merge a b m = Some m' ∧
    LocF m' [ALeaf a (kvs ++ kvs')] L1 L2 ∧
    StepF m [ALeaf a kvs; ALeaf b kvs'] m' [ALeaf a (kvs ++ kvs')] ∧
    m_root m' = m_root m ∧ m_n m' = m_n m.
Proof.
  intros (Hr&Hnd&Hndl&Hseg&Hlast) Hsz.
  apply Forall_cons in Hr as [Hra Hrb]. apply Forall_inv in Hrb.
  inversion Hra as [? ? nx pv Ha Hlena|]; subst.
  inversion Hrb as [? ? nx' pv' Hb Hlenb|]; subst.
  change (fleaves [ALeaf a kvs; ALeaf b kvs']) with [a; b] in *.
  change (fleaves [ALeaf a (kvs ++ kvs')]) with [a].
  change (faddrs [ALeaf a kvs; ALeaf b kvs']) with [a; b] in *.
  change (faddrs [ALeaf a (kvs ++ kvs')]) with [a].
  simpl in Hndl, Hseg, Hlast.
  apply lseg_app in Hseg as [Hseg1 Hseg2]. simpl in Hseg1, Hseg2.
  destruct Hseg2 as [(la&Hla&Hpva&Hnxa) [(lb&Hlb&Hpvb&Hnxb) Hseg2]].
  rewrite Ha in Hla. injection Hla as <-. rewrite Hb in Hlb. injection Hlb as <-.
  simpl in Hpva, Hnxa, Hpvb, Hnxb. subst nx pv'.
  apply NoDup_app in Hndl as (Hnd1&Hd1&Hnd2).
  apply NoDup_cons in Hnd2 as [Ha2 Hnd2]. apply NoDup_cons in Hnd2 as [Hb2 Hnd2].
  assert (Hab : a ≠ b).
  { intros ->. apply Ha2, list_elem_of_here. }
  assert (Ha1 : a ∉ L1).
  { intros Hin. apply (Hd1 a Hin). apply list_elem_of_here. }
  assert (HaL2 : a ∉ L2).
  { intros Hin. apply Ha2. by apply list_elem_of_further. }
  pose proof (lookup_lt_Some _ _ _ Ha) as Hlta.
  unfold leaf_Merge, get_leaf. rewrite Hb, Ha. mstep.
  rewrite !(arr_append_pad _ _ (length kvs)) by (rewrite ?length_fmap; lia).
  mstep. rewrite !firstn_all2 by (rewrite length_fmap; lia).
  rewrite <- !fmap_app, <- length_app.
  change (CLeaf (mkLeaf nx' pv (pad zeroV (kvs ++ kvs').*2) (pad 0%Z (kvs ++ kvs').*1)
                        (length (kvs ++ kvs'))))
    with (leaf_cell nx' pv (kvs ++ kvs')).
  set (ca := leaf_cell nx' pv (kvs ++ kvs')).
  assert (Hlen' : length (kvs ++ kvs') ≤ maxNodes) by (rewrite length_app; lia).
  destruct L2 as [|x L2]; simpl in Hnxb; subst nx'.
  - (* the right leaf was the last one: [back] moves *)
    eexists. split; [done|]. simpl. split_and!; try done.
    + split_and!; simpl; try done.
      * constructor; [|constructor]. econstructor; [|done].
        by apply list_lookup_insert_eq.
      * apply NoDup_singleton.
      * apply NoDup_app. split_and!; [done| |apply NoDup_singleton].
        intros y Hy ->%list_elem_of_singleton. done.
      * apply lseg_app. simpl. split.
        -- eapply lseg_local; [done|]. intros y Hy.
           rewrite list_lookup_insert_ne; [done|]. intros ->. done.
        -- split; [|done]. eexists. split; [by apply list_lookup_insert_eq|]. done.
      * by rewrite last_snoc.
    + split_and!; simpl; [by rewrite length_insert| | |done].
      * apply kept_outside_put. apply list_elem_of_here.
      * intros y ->%list_elem_of_singleton. left. apply list_elem_of_here.
  - (* the following leaf is linked back to the left leaf *)
    simpl in Hseg2. destruct Hseg2 as [(lx&Hlx&Hpvx&Hnxx) Hseg2].
    assert (Hxa : x ≠ a).
    { intros ->. apply HaL2, list_elem_of_here. }
    assert (Hxb : x ≠ b).
    { intros ->. apply Hb2, list_elem_of_here. }
    apply NoDup_cons in Hnd2 as [Hx2 Hnd2].
    rewrite list_lookup_insert_ne by done. rewrite Hlx. mstep.
    pose proof (lookup_lt_Some _ _ _ Hlx) as Hltx.
    eexists. split; [done|]. simpl.
    set (cx := CLeaf (mkLeaf (lf_next lx) (Some a) (lf_values lx) (lf_keys lx) (lf_n lx))).
    set (h' := <[x:=cx]> (<[a:=ca]> (m_heap m))).
    assert (Hh'a : h' !! a = Some ca).
    { unfold h'. rewrite list_lookup_insert_ne by done. by apply list_lookup_insert_eq. }
    assert (Hh'x : h' !! x = Some cx).
    { unfold h'. apply list_lookup_insert_eq. by rewrite length_insert. }
    assert (Hh'o : ∀ y, y ≠ a → y ≠ x → h' !! y = m_heap m !! y).
    { intros y Hy1 Hy2. unfold h'. by rewrite !list_lookup_insert_ne. }
    split_and!; try done.
    + split_and!; simpl; try done.
      * constructor; [|constructor]. by econstructor.
      * apply NoDup_singleton.
      * apply NoDup_app. split_and!; [done| |].
        -- intros y Hy [->|Hin]%elem_of_cons; [done|].
           apply (Hd1 y Hy). by do 2 apply list_elem_of_further.
        -- apply NoDup_cons. split; [done|]. by apply NoDup_cons.
      * apply lseg_app. simpl. split_and!.
        -- eapply lseg_local; [done|]. intros y Hy. apply Hh'o.
           ++ intros ->. done.
           ++ intros ->. apply (Hd1 x Hy).
              do 2 apply list_elem_of_further. apply list_elem_of_here.
        -- eexists. split; [done|]. done.
        -- eexists. split; [done|]. split; [done|]. simpl. done.
        -- eapply lseg_local; [done|]. intros y Hy. apply Hh'o.
           ++ intros ->. apply HaL2. by apply list_elem_of_further.
           ++ intros ->. done.
      * rewrite !last_app in *. simpl in *. rewrite !last_cons in *.
        destruct (last L2); done.
    + split_and!; simpl; [by rewrite !length_insert| | |done].
      * intros y c Hy Hn.
        destruct (decide (y = x)) as [->|Hne].
        -- exists cx. split; [done|]. rewrite Hlx in Hy. inversion Hy; subst. done.
        -- exists c. split; [|apply cell_eqv_refl]. rewrite Hh'o; [done| |done].
           intros ->. apply Hn, list_elem_of_here.
      * intros y ->%list_elem_of_singleton. left. apply list_elem_of_here.
Qed.

Lemma node_cell_eq ks cs ns kk n :
  ns = pad None (Some ∘ raddr <$> cs) → kk = pad 0%Z ks → n = length ks →
  CInternal (mkInternal ns kk n) = node_cell (V:=V) ks cs.
Proof. by intros -> -> ->. Qed.

Lemma leaf_cell_eq nx pv kvs vs kk n :
  vs = pad zeroV kvs.*2 → kk = pad 0%Z kvs.*1 → n = length kvs →
  CLeaf (mkLeaf nx pv vs kk n) = leaf_cell nx pv kvs.
Proof. by intros -> -> ->. Qed.

(** [node.Merge] *)
Lemma Merge_ok m l r L1 L2 :
  LocF m [l; r] L1 L2 → is_leaf l = is_leaf r → asize l + asize r ≤ maxNodes →
  ∃ m', Merge (raddr l) (raddr r) m = Some m' ∧
    LocF m' [amerge l r] L1 L2 ∧ StepF m [l; r] m' [amerge l r] ∧
    m_root m' = m_root m ∧ m_n m' = m_n m.
Proof.
  intros HL Hkind Hsz.
  destruct l as [a kvs|a ks cs], r as [b kvs'|b ks' cs']; simpl in Hkind; try done.
  - destruct (leaf_Merge_ok m a b kvs kvs' L1 L2 HL Hsz) as (m'&Hrun&Hrest).
    exists m'. split; [|done]. unfold Merge. simpl.
    destruct HL as (Hr&_). apply Forall_inv in Hr. inversion Hr; subst.
    by rewrite H1.
  - pose proof HL as (Hr&_).
    apply Forall_cons in Hr as [Hra Hrb]. apply Forall_inv in Hrb.
    inversion Hra as [|? ? ? Ha Hlena Hcsa Halla]; subst.
    inversion Hrb as [|? ? ? Hb Hlenb Hcsb Hallb]; subst.
    simpl in Hsz. unfold Merge. simpl. rewrite Ha.
    unfold inode_Merge, get_inode. rewrite Hb, Ha. mstep.
    rewrite !(arr_append_pad _ _ (length ks)) by (rewrite ?length_fmap; lia).
    mstep. rewrite !take_ge by (rewrite ?length_fmap; lia).
    eexists. split; [done|].
    destruct (LocF_merge_nodes m a b ks cs ks' cs' L1 L2 HL Hsz
      (put m a (node_cell (ks ++ ks') (cs ++ cs')))) as [HL' HSt]; try done.
    erewrite node_cell_eq; [split_and!; done| | |].
    + by rewrite fmap_app.
    + done.
    + by rewrite length_app.
Qed.

(** [node.ShiftLeft] *)
Lemma ShiftLeft_ok m l r n L1 L2 :
  LocF m [l; r] L1 L2 → is_leaf l = is_leaf r →
  n ≤ asize r → asize l + n ≤ maxNodes →
  ∃ m', ShiftLeft zeroV (raddr l) (raddr r) n m = Some m' ∧
    LocF m' [(ashift l r (asize l + n)).1; (ashift l r (asize l + n)).2] L1 L2 ∧
    StepF m [l; r] m' [(ashift l r (asize l + n)).1; (ashift l r (asize l + n)).2] ∧
    m_root m' = m_root m ∧ m_n m' = m_n m.
Proof.
  intros HL Hkind Hn Hsz.
  destruct l as [a kvs|a ks cs], r as [b kvs'|b ks' cs']; simpl in Hkind; try done;
    simpl in Hn, Hsz; unfold ashift; simpl.
  - destruct (LocF_regroup_leaves m a b kvs kvs' L1 L2 HL) as
      (nx&pv&nx'&pv'&Ha&Hb&Hab&Hlena&Hlenb&Hgo).
    unfold ShiftLeft. rewrite Ha. unfold leaf_ShiftLeft, get_leaf. rewrite Hb, Ha. mstep.
    rewrite !(arr_append_pad _ _ (length kvs)) by (rewrite ?length_fmap; lia).
    mstep. rewrite list_lookup_insert_ne by done. rewrite Hb. mstep.
    rewrite !arr_shift_down_pad by (rewrite ?length_fmap; lia). mstep.
    rewrite take_app_add', drop_app_add' by done.
    set (m' := put (put m a (leaf_cell nx pv (kvs ++ take n kvs')))
                   b (leaf_cell nx' pv' (drop n kvs'))).
    destruct (Hgo (kvs ++ take n kvs') (drop n kvs') m') as [HL' HSt];
      [| |done|done|done|].
    { rewrite length_app, length_take. lia. }
    { rewrite length_drop. lia. }
    exists m'. split; [|done]. f_equal. unfold m'. f_equal; [f_equal|].
    + apply leaf_cell_eq; rewrite ?fmap_app, ?fmap_take, ?length_app, ?length_take;
        try done; lia.
    + apply leaf_cell_eq; rewrite ?fmap_drop, ?length_drop; try done.
  - pose proof HL as (Hr&Hnd&_).
    apply Forall_cons in Hr as [Hra Hrb]. apply Forall_inv in Hrb.
    inversion Hra as [|? ? ? Ha Hlena Hcsa Halla]; subst.
    inversion Hrb as [|? ? ? Hb Hlenb Hcsb Hallb]; subst.
    assert (Hab : a ≠ b).
    { intros ->. rewrite faddrs_two_nodes in Hnd. apply NoDup_cons in Hnd as [Hnd _].
      apply Hnd, list_elem_of_here. }
    unfold ShiftLeft. rewrite Ha. unfold inode_ShiftLeft, get_inode. rewrite Hb, Ha. mstep.
    rewrite !(arr_append_pad _ _ (length ks)) by (rewrite ?length_fmap; lia).
    mstep. rewrite list_lookup_insert_ne by done. rewrite Hb. mstep.
    rewrite !arr_shift_down_pad by (rewrite ?length_fmap; lia). mstep.
    assert (E1 : take (length ks + n) (cs ++ cs') = cs ++ take n cs').
    { rewrite <- Hcsa. by apply take_app_add'. }
    assert (E2 : drop (length ks + n) (cs ++ cs') = drop n cs').
    { rewrite <- Hcsa. by apply drop_app_add'. }
    rewrite E1, E2, !take_app_add', !drop_app_add' by done.
    set (m' := put (put m a (node_cell (ks ++ take n ks') (cs ++ take n cs')))
                   b (node_cell (drop n ks') (drop n cs'))).
    destruct (LocF_regroup m a b ks cs ks' cs' (ks ++ take n ks') (cs ++ take n cs')
                 (drop n ks') (drop n cs') L1 L2 HL) with (m' := m') as [HL' HSt];
      [| | | | |done|done|done|].
    { by rewrite <- (assoc_L (++)), take_drop. }
    { rewrite !length_app, !length_take. lia. }
    { rewrite !length_app, !length_take. lia. }
    { rewrite !length_drop. lia. }
    { rewrite !length_drop. lia. }
    exists m'. split; [|done]. f_equal. unfold m'. f_equal; [f_equal|].
    + apply node_cell_eq; rewrite ?fmap_app, ?fmap_take, ?length_app, ?length_take;
        try done; lia.
    + apply node_cell_eq; rewrite ?fmap_drop, ?length_drop; try done.
Qed.

(** [node.ShiftRight] *)
Lemma ShiftRight_ok m l r n L1 L2 :
  LocF m [l; r] L1 L2 → is_leaf l = is_leaf r →
  n ≤ asize l → asize r + n ≤ maxNodes →
  ∃ m', ShiftRight zeroV (raddr l) (raddr r) n m = Some m' ∧
    LocF m' [(ashift l r (asize l - n)).1; (ashift l r (asize l - n)).2] L1 L2 ∧
    StepF m [l; r] m' [(ashift l r (asize l - n)).1; (ashift l r (asize l - n)).2] ∧
    m_root m' = m_root m ∧ m_n m' = m_n m.
Proof.
  intros HL Hkind Hn Hsz.
  destruct l as [a kvs|a ks cs], r as [b kvs'|b ks' cs']; simpl in Hkind; try done;
    simpl in Hn, Hsz; unfold ashift; simpl.
  - destruct (LocF_regroup_leaves m a b kvs kvs' L1 L2 HL) as
      (nx&pv&nx'&pv'&Ha&Hb&Hab&Hlena&Hlenb&Hgo).
    unfold ShiftRight. rewrite Ha. unfold leaf_ShiftRight, get_leaf. rewrite Hb, Ha. mstep.
    rewrite !(arr_shift_right_pad _ _ (length kvs) _ (length kvs'))
      by (rewrite ?length_fmap; lia).
    mstep. rewrite list_lookup_insert_ne by done. rewrite Ha. mstep.
    rewrite take_app_le, drop_app_le by lia.
    set (m' := put (put m b (leaf_cell nx' pv' (drop (length kvs - n) kvs ++ kvs')))
                   a (leaf_cell nx pv (take (length kvs - n) kvs))).
    destruct (Hgo (take (length kvs - n) kvs) (drop (length kvs - n) kvs ++ kvs') m')
      as [HL' HSt]; [| |by apply list_insert_insert_ne|done|done|].
    { rewrite length_take. lia. }
    { rewrite length_app, length_drop. lia. }
    exists m'. split; [|done]. f_equal. unfold m'. f_equal; [f_equal|].
    + apply leaf_cell_eq; rewrite ?fmap_app, ?fmap_drop, ?length_app, ?length_drop;
        try done; lia.
    + apply leaf_cell_eq; rewrite ?fmap_take, ?length_take; try done; lia.
  - pose proof HL as (Hr&Hnd&_).
    apply Forall_cons in Hr as [Hra Hrb]. apply Forall_inv in Hrb.
    inversion Hra as [|? ? ? Ha Hlena Hcsa Halla]; subst.
    inversion Hrb as [|? ? ? Hb Hlenb Hcsb Hallb]; subst.
    assert (Hab : a ≠ b).
    { intros ->. rewrite faddrs_two_nodes in Hnd. apply NoDup_cons in Hnd as [Hnd _].
      apply Hnd, list_elem_of_here. }
    unfold ShiftRight. rewrite Ha. unfold inode_ShiftRight, get_inode. rewrite Hb, Ha. mstep.
    rewrite !(arr_shift_right_pad _ _ (length ks) _ (length ks'))
      by (rewrite ?length_fmap; lia).
    mstep. rewrite list_lookup_insert_ne by done. rewrite Ha. mstep.
    rewrite !take_app_le, !drop_app_le by lia.
    set (m' := put (put m b (node_cell (drop (length ks - n) ks ++ ks')
                                       (drop (length ks - n) cs ++ cs')))
                   a (node_cell (take (length ks - n) ks) (take (length ks - n) cs))).
    destruct (LocF_regroup m a b ks cs ks' cs' (take (length ks - n) ks)
                 (take (length ks - n) cs)
                 (drop (length ks - n) ks ++ ks') (drop (length ks - n) cs ++ cs') L1 L2 HL)
      with (m' := m')
      as [HL' HSt]; [| | | | |by apply list_insert_insert_ne|done|done|].
    { by rewrite (assoc_L (++)), take_drop. }
    { rewrite !length_take. lia. }
    { rewrite !length_take. lia. }
    { rewrite !length_app, !length_drop. lia. }
    { rewrite !length_app, !length_drop. lia. }
    exists m'. split; [|done]. f_equal. unfold m'. f_equal; [f_equal|].
    + apply node_cell_eq; rewrite ?fmap_app, ?fmap_drop, ?length_app, ?length_drop;
        try done; lia.
    + apply node_cell_eq; rewrite ?fmap_take, ?length_take; try done; lia.
Qed.
End SiblingOps.

(** * mergeNode, shiftLeft and shiftRight of the map *)

Section ParentOps.
Context {V : Type} (zeroV : V).
Local Abbreviation cell := (@cell V).
Local Abbreviation Map := (@Map V).
Local Abbreviation atree := (atree V).
Local Abbreviation repr := (repr zeroV).
Local Abbreviation LocF := (LocF zeroV).
Implicit Types (h : list cell) (t c l r : atree) (ts cs : list atree) (m : Map).
Implicit Types (kvs : list (Z * V)) (ks : list Z).

(** a node written again after a step on its children *)
Lemma node_rebuild m m' a ks cs ks' cs' L1 L2 :
  LocF m [ANode a ks cs] L1 L2 → LocF m' cs' L1 L2 → StepF m cs m' cs' →
  length ks' ≤ maxNodes → length cs' = length ks' →
  m_heap m' !! a = Some (node_cell ks cs) ∧
  LocF (put m' a (node_cell ks' cs')) [ANode a ks' cs'] L1 L2 ∧
  StepF m [ANode a ks cs] (put m' a (node_cell ks' cs')) [ANode a ks' cs'].
Proof.
  intros HL HL' HSt Hlen Hcs.
  destruct (LocF_node_open _ _ _ _ _ _ _ HL) as (Ha&Hlenks&Hcsks&Hna&HLcs).
  pose proof (StepF_lookup_node _ _ _ _ _ _ _ HSt Ha Hna) as Ha1.
  assert (Hna' : a ∉ faddrs cs').
  { intros Hin. destruct HSt as (_&_&Hsub&_). destruct (Hsub a Hin) as [?|?]; [done|].
    apply lookup_lt_Some in Ha. lia. }
  split; [done|]. split.
  - apply LocF_node_close; [|done|done|done|].
    + simpl. apply list_lookup_insert_eq. by eapply lookup_lt_Some.
    + by eapply LocF_put_internal.
  - apply StepF_put.
    + by apply StepF_node.
    + rewrite faddrs_single, addrs_node. apply list_elem_of_here.
Qed.

Lemma delete_second {A} (xs ys : list A) x y :
  delete (length xs + 1) (xs ++ x :: y :: ys) = xs ++ x :: ys.
Proof. induction xs as [|z xs IH]; simpl; [done|]. by rewrite IH. Qed.

Lemma insert_middle {A} (xs ys : list A) x z :
  <[length xs := z]> (xs ++ x :: ys) = xs ++ z :: ys.
Proof. induction xs as [|y xs IH]; simpl; [done|]. by rewrite IH. Qed.

Lemma lookup_second {A} (xs ys : list A) x y :
  (xs ++ x :: y :: ys) !! (length xs + 1) = Some y.
Proof. induction xs as [|z xs IH]; simpl; done. Qed.

(** [mergeNode] below a node that stays *)
Lemma mergeNode_ok m a ks1 k1 k2 ks2 cs1 l r cs2 L1 L2 i :
  LocF m [ANode a (ks1 ++ k1 :: k2 :: ks2) (cs1 ++ l :: r :: cs2)] L1 L2 →
  length ks1 = i → length cs1 = i →
  is_leaf l = is_leaf r → asize l + asize r ≤ maxNodes → 0 < asize r →
  ¬ (m_root m = a ∧ length (ks1 ++ k1 :: k2 :: ks2) = 2) →
  ∃ m' lk, mergeNode a i m = Some (raddr l, m') ∧
    last (akeys (amerge l r)) = Some lk ∧
    LocF m' [ANode a (ks1 ++ lk :: ks2) (cs1 ++ amerge l r :: cs2)] L1 L2 ∧
    StepF m [ANode a (ks1 ++ k1 :: k2 :: ks2) (cs1 ++ l :: r :: cs2)]
          m' [ANode a (ks1 ++ lk :: ks2) (cs1 ++ amerge l r :: cs2)] ∧
    m_root m' = m_root m ∧ m_n m' = m_n m.
Proof.
  intros HL Hl1 Hl2 Hkind Hsz Hpos Hnroot.
  destruct (LocF_node_open _ _ _ _ _ _ _ HL) as (Ha&Hlen&Hcs&Hna&HLcs).
  pose proof (LocF_focus _ m cs1 [l; r] cs2 L1 L2 HLcs) as HLf.
  destruct (Merge_ok _ m l r _ _ HLf Hkind Hsz) as (m1&HM&HL1&HSt1&Hroot1&Hn1).
  destruct (LocF_unfocus _ m m1 cs1 [l; r] [amerge l r] cs2 L1 L2 HLcs HSt1 HL1)
    as [HLcs1 HStcs1].
  destruct (last_akeys_pos (amerge l r)) as [lk Hlk].
  { rewrite amerge_asize by done. lia. }
  assert (Hlen' : length (ks1 ++ lk :: ks2) ≤ maxNodes) by (revert Hlen; len).
  assert (Hcs' : length (cs1 ++ amerge l r :: cs2) = length (ks1 ++ lk :: ks2)).
  { revert Hcs. len. }
  destruct (node_rebuild m m1 a _ _ (ks1 ++ lk :: ks2) (cs1 ++ amerge l r :: cs2)
              L1 L2 HL HLcs1 HStcs1 Hlen' Hcs') as (Ha1&HL'&HSt').
  exists (put m1 a (node_cell (ks1 ++ lk :: ks2) (cs1 ++ amerge l r :: cs2))), lk.
  split_and!; try done.
  unfold mergeNode, get_inode. rewrite Ha. mstep.
  rewrite (inode_nodes_lookup _ i l) by (by apply list_lookup_middle). mstep.
  rewrite (inode_nodes_lookup _ (i + 1) r) by (rewrite <- Hl2; apply lookup_second). mstep.
  rewrite HM. mstep. rewrite Ha1. mstep.
  rewrite decide_False by (rewrite Hroot1; done).
  rewrite inode_RemoveAt_rec by (revert Hcs; len). mstep.
  assert (Hrm : repr (m_heap m1) (amerge l r)).
  { destruct HL1 as (Hr&_). by apply Forall_inv in Hr. }
  rewrite <- (amerge_raddr l r), (LastKey_repr _ _ _ Hrm), Hlk. mstep.
  assert (E1 : delete (i + 1) (ks1 ++ k1 :: k2 :: ks2) = ks1 ++ k1 :: ks2).
  { rewrite <- Hl1. apply delete_second. }
  assert (E2 : delete (i + 1) (cs1 ++ l :: r :: cs2) = cs1 ++ l :: cs2).
  { rewrite <- Hl2. apply delete_second. }
  rewrite E1, E2. subst i.
  unfold set_at. rewrite decide_True by (rewrite length_pad; revert Hlen; len).
  mstep. do 3 f_equal. apply node_cell_eq.
  - rewrite !fmap_app, !fmap_cons. simpl. by rewrite amerge_raddr.
  - rewrite <- (insert_middle ks1 ks2 k1 lk). unfold pad.
    rewrite length_insert. by rewrite insert_app_l by len.
  - len.
Qed.

(** [mergeNode] of the two children of the root: the root goes away *)
Lemma mergeNode_root_ok m a k1 k2 l r L1 L2 :
  LocF m [ANode a [k1; k2] [l; r]] L1 L2 → m_root m = a →
  is_leaf l = is_leaf r → asize l + asize r ≤ maxNodes →
  ∃ m', mergeNode a 0 m = Some (raddr l, m') ∧
    LocF m' [amerge l r] L1 L2 ∧
    StepF m [ANode a [k1; k2] [l; r]] m' [amerge l r] ∧
    m_root m' = raddr l ∧ m_n m' = m_n m.
Proof.
  intros HL Hroot Hkind Hsz.
  destruct (LocF_node_open _ _ _ _ _ _ _ HL) as (Ha&Hlen&Hcs&Hna&HLcs).
  destruct (Merge_ok _ m l r _ _ HLcs Hkind Hsz) as (m1&HM&HL1&HSt1&Hroot1&Hn1).
  pose proof (StepF_lookup_node _ _ _ _ _ _ _ HSt1 Ha Hna) as Ha1.
  exists (set_root m1 (raddr l)). split_and!; try done.
  - unfold mergeNode, get_inode. rewrite Ha. mstep.
    rewrite (inode_nodes_lookup [l; r] 0 l) by done. mstep.
    rewrite (inode_nodes_lookup [l; r] (0 + 1) r) by done. mstep.
    rewrite HM. mstep. rewrite Ha1. mstep.
    rewrite decide_True by (rewrite Hroot1; done). done.
  - destruct HSt1 as (H1&H2&H3&H4). split_and!; try done.
    + eapply kept_outside_weaken; [done|]. intros x Hx.
      rewrite faddrs_single, addrs_node. by apply list_elem_of_further.
    + intros x Hx. destruct (H3 x Hx) as [Hin|?]; [left|by right].
      rewrite faddrs_single, addrs_node. by apply list_elem_of_further.
Qed.

Lemma LocF_repr_in m ts L1 L2 t : LocF m ts L1 L2 → t ∈ ts → repr (m_heap m) t.
Proof. intros (Hr&_) Hin. rewrite Forall_forall in Hr. auto. Qed.

(** the common end of [shiftLeft] and [shiftRight]: the children [l]
    and [r] have been rebalanced, the key between them is set *)
Lemma shift_finish m m1 a ks1 k1 k2 ks2 cs1 l r cs2 L1 L2 i j :
  LocF m [ANode a (ks1 ++ k1 :: k2 :: ks2) (cs1 ++ l :: r :: cs2)] L1 L2 →
  length ks1 = i → length cs1 = i → is_leaf l = is_leaf r →
  0 < j → j ≤ asize l + asize r →
  LocF m1 [(ashift l r j).1; (ashift l r j).2] (L1 ++ fleaves cs1) (fleaves cs2 ++ L2) →
  StepF m [l; r] m1 [(ashift l r j).1; (ashift l r j).2] →
  ∃ m' lk,
    (inode ← get_inode m1 a;
     lk ← LastKey m1 (raddr l);
     ks ← set_at (in_keys inode) i lk;
     Some (put m1 a (CInternal (mkInternal (in_nodes inode) ks (in_n inode))))) = Some m' ∧
    last (akeys (ashift l r j).1) = Some lk ∧
    LocF m' [ANode a (ks1 ++ lk :: k2 :: ks2)
                     (cs1 ++ (ashift l r j).1 :: (ashift l r j).2 :: cs2)] L1 L2 ∧
    StepF m [ANode a (ks1 ++ k1 :: k2 :: ks2) (cs1 ++ l :: r :: cs2)]
          m' [ANode a (ks1 ++ lk :: k2 :: ks2)
                      (cs1 ++ (ashift l r j).1 :: (ashift l r j).2 :: cs2)] ∧
    m_root m' = m_root m1 ∧ m_n m' = m_n m1.
Proof.
  intros HL Hl1 Hl2 Hkind Hj0 Hj HL1 HSt1.
  destruct (LocF_node_open _ _ _ _ _ _ _ HL) as (Ha&Hlen&Hcs&Hna&HLcs).
  destruct (LocF_unfocus _ m m1 cs1 [l; r] [(ashift l r j).1; (ashift l r j).2] cs2
              L1 L2 HLcs HSt1 HL1) as [HLcs1 HStcs1].
  destruct (ashift_asize l r j Hkind Hj) as [Hsl Hsr].
  destruct (ashift_raddr l r j) as [Hral Hrar].
  destruct (last_akeys_pos (ashift l r j).1) as [lk Hlk]; [lia|].
  set (l' := (ashift l r j).1) in *. set (r' := (ashift l r j).2) in *.
  assert (Hlen' : length (ks1 ++ lk :: k2 :: ks2) ≤ maxNodes) by (revert Hlen; len).
  assert (Hcs' : length (cs1 ++ l' :: r' :: cs2) = length (ks1 ++ lk :: k2 :: ks2)).
  { revert Hcs. len. }
  destruct (node_rebuild m m1 a _ _ (ks1 ++ lk :: k2 :: ks2) (cs1 ++ l' :: r' :: cs2)
              L1 L2 HL HLcs1 HStcs1 Hlen' Hcs') as (Ha1&HL'&HSt').
  exists (put m1 a (node_cell (ks1 ++ lk :: k2 :: ks2) (cs1 ++ l' :: r' :: cs2))), lk.
  split_and!; try done.
  unfold get_inode. rewrite Ha1. mstep.
  assert (Hrl : repr (m_heap m1) l').
  { eapply LocF_repr_in; [apply HL1|]. apply list_elem_of_here. }
  rewrite <- Hral, (LastKey_repr _ _ _ Hrl), Hlk. mstep.
  unfold set_at. rewrite decide_True by (rewrite length_pad; revert Hlen; len).
  mstep. do 3 f_equal. apply node_cell_eq.
  - rewrite !fmap_app, !fmap_cons. simpl. by rewrite Hral, Hrar.
  - subst i. rewrite <- (insert_middle ks1 (k2 :: ks2) k1 lk). unfold pad.
    rewrite length_insert. by rewrite insert_app_l by len.
  - len.
Qed.

(** [Map.shiftLeft]: the left child ends with half of the entries,
    rounded up *)
Lemma shiftLeft_ok m a ks1 k1 k2 ks2 cs1 l r cs2 L1 L2 i j :
  LocF m [ANode a (ks1 ++ k1 :: k2 :: ks2) (cs1 ++ l :: r :: cs2)] L1 L2 →
  length ks1 = i → length cs1 = i → is_leaf l = is_leaf r →
  j = (asize l + asize r + 1) / 2 → asize l ≤ j → j ≤ maxNodes → 0 < j →
  ∃ m' lk, shiftLeft zeroV a (i + 1) m = Some m' ∧
    last (akeys (ashift l r j).1) = Some lk ∧
    LocF m' [ANode a (ks1 ++ lk :: k2 :: ks2)
                     (cs1 ++ (ashift l r j).1 :: (ashift l r j).2 :: cs2)] L1 L2 ∧
    StepF m [ANode a (ks1 ++ k1 :: k2 :: ks2) (cs1 ++ l :: r :: cs2)]
          m' [ANode a (ks1 ++ lk :: k2 :: ks2)
                      (cs1 ++ (ashift l r j).1 :: (ashift l r j).2 :: cs2)] ∧
    m_root m' = m_root m ∧ m_n m' = m_n m.
Proof.
  intros HL Hl1 Hl2 Hkind Hjdef Hlj Hjmax Hj0.
  destruct (LocF_node_open _ _ _ _ _ _ _ HL) as (Ha&Hlen&Hcs&Hna&HLcs).
  pose proof (LocF_focus _ m cs1 [l; r] cs2 L1 L2 HLcs) as HLf.
  assert (Hjle : j ≤ asize l + asize r).
  { subst j. halve (asize l + asize r + 1). lia. }
  destruct (ShiftLeft_ok _ m l r (j - asize l) _ _ HLf Hkind) as
    (m1&HS&HL1&HSt1&Hroot1&Hn1); [lia|lia|].
  replace (asize l + (j - asize l)) with j in * by lia.
  destruct (shift_finish m m1 a ks1 k1 k2 ks2 cs1 l r cs2 L1 L2 i j HL Hl1 Hl2 Hkind
              Hj0 Hjle HL1 HSt1) as (m'&lk&Hfin&Hlk&HL'&HSt'&Hroot'&Hn').
  exists m', lk. split_and!; try done; try congruence.
  unfold get_inode in Hfin. unfold shiftLeft, get_inode. rewrite Ha. mstep.
  rewrite Nat.add_1_r, dec_S. mstep.
  rewrite (inode_nodes_lookup _ i l) by (by apply list_lookup_middle). mstep.
  rewrite (inode_nodes_lookup _ (S i) r)
    by (rewrite <- Nat.add_1_r, <- Hl2; apply lookup_second).
  mstep.
  rewrite (Size_repr zeroV m l), (Size_repr zeroV m r);
    try (eapply LocF_repr_in; [apply HLf|]).
  2:{ apply list_elem_of_further, list_elem_of_here. }
  2:{ apply list_elem_of_here. }
  mstep. rewrite <- Hjdef. rewrite decide_True by done.
  rewrite HS. mstep. done.
Qed.

(** [Map.shiftRight]: the right child ends with half of the entries,
    rounded up *)
Lemma shiftRight_ok m a ks1 k1 k2 ks2 cs1 l r cs2 L1 L2 i j :
  LocF m [ANode a (ks1 ++ k1 :: k2 :: ks2) (cs1 ++ l :: r :: cs2)] L1 L2 →
  length ks1 = i → length cs1 = i → is_leaf l = is_leaf r →
  asize r ≤ (asize l + asize r + 1) / 2 → (asize l + asize r + 1) / 2 ≤ maxNodes →
  j = asize l + asize r - (asize l + asize r + 1) / 2 → 0 < j →
  ∃ m' lk, shiftRight zeroV a i m = Some m' ∧
    last (akeys (ashift l r j).1) = Some lk ∧
    LocF m' [ANode a (ks1 ++ lk :: k2 :: ks2)
                     (cs1 ++ (ashift l r j).1 :: (ashift l r j).2 :: cs2)] L1 L2 ∧
    StepF m [ANode a (ks1 ++ k1 :: k2 :: ks2) (cs1 ++ l :: r :: cs2)]
          m' [ANode a (ks1 ++ lk :: k2 :: ks2)
                      (cs1 ++ (ashift l r j).1 :: (ashift l r j).2 :: cs2)] ∧
    m_root m' = m_root m ∧ m_n m' = m_n m.
Proof.
  intros HL Hl1 Hl2 Hkind Hrj Hjmax Hjdef Hj0.
  destruct (LocF_node_open _ _ _ _ _ _ _ HL) as (Ha&Hlen&Hcs&Hna&HLcs).
  pose proof (LocF_focus _ m cs1 [l; r] cs2 L1 L2 HLcs) as HLf.
  set (q := (asize l + asize r + 1) / 2) in *.
  assert (Hq : q ≤ asize l + asize r).
  { unfold q. halve (asize l + asize r + 1). lia. }
  destruct (ShiftRight_ok _ m l r (q - asize r) _ _ HLf Hkind) as
    (m1&HS&HL1&HSt1&Hroot1&Hn1); [lia|lia|].
  replace (asize l - (q - asize r)) with j in * by lia.
  destruct (shift_finish m m1 a ks1 k1 k2 ks2 cs1 l r cs2 L1 L2 i j HL Hl1 Hl2 Hkind
              Hj0 ltac:(lia) HL1 HSt1) as (m'&lk&Hfin&Hlk&HL'&HSt'&Hroot'&Hn').
  exists m', lk. split_and!; try done; try congruence.
  unfold get_inode in Hfin. unfold shiftRight, get_inode. rewrite Ha. mstep.
  rewrite (inode_nodes_lookup _ i l) by (by apply list_lookup_middle). mstep.
  rewrite (inode_nodes_lookup _ (i + 1) r) by (rewrite <- Hl2; apply lookup_second). mstep.
  rewrite (Size_repr zeroV m l), (Size_repr zeroV m r);
    try (eapply LocF_repr_in; [apply HLf|]).
  2:{ apply list_elem_of_further, list_elem_of_here. }
  2:{ apply list_elem_of_here. }
  mstep. fold q. rewrite decide_True by done.
  rewrite HS. mstep. done.
Qed.
End ParentOps.

(** * Remove *)

Lemma inc_delete lo ks hi i : inc lo ks hi → inc lo (delete i ks) hi.
Proof.
intros H. destruct (ks !! i) as [k|] eqn:E.
- rewrite delete_take_drop. rewrite <- (take_drop_middle _ _ _ E) in H.
  apply inc_app in H as [H1 H2]. apply inc_app. split; [done|].
  simpl in H2. destruct H2 as (Hlo&Hhi&H2). eapply inc_blt; [done|].
  intros x Hx. simpl in Hx. destruct (lastb lo (take i ks)); simpl in *; [lia|done].
- rewrite delete_take_drop. apply lookup_ge_None in E.
  rewrite take_ge, drop_ge by lia. by rewrite app_nil_r.
Qed.

Section RemoveLoop.
Context {V : Type} (zeroV : V).
Local Abbreviation cell := (@cell V).
Local Abbreviation Map := (@Map V).
Local Abbreviation atree := (atree V).
Local Abbreviation repr := (repr zeroV).
Local Abbreviation LocF := (LocF zeroV).
Local Abbreviation leaf_cell := (leaf_cell zeroV).
Implicit Types (h : list cell) (t c d : atree) (ts cs : list atree) (m : Map).
Implicit Types (kvs : list (Z * V)) (ks : list Z) (it : @Iterator).
Implicit Types (als : list (addr * list (Z * V))).

Definition children (t : atree) : list atree :=
  match t with ANode _ _ cs => cs | ALeaf _ _ => [] end.

(** what the loop of [remove] needs of the node it stands on: an
    interior node has two children or more, and if it has two they are
    not both at the minimum *)
Definition rem_pre (ht : nat) (t : atree) : Prop :=
  ht ≠ 0 →
  2 ≤ asize t ∧ (asize t = 2 → ¬ Forall (λ c, asize c = minNodes) (children t)).

(** [it] is at the pair number [p] of the leaves [als], or, past their
    last pair, at the first pair of the following leaf [L2] if there is
    one *)
Definition succ_it (als : list (addr * list (Z * V))) (L2 : list addr)
    (it : Iterator) (p : nat) : Prop :=
  at_pos als it p ∨
  (p = length (total als) ∧
   match L2 with nx :: _ => it = mkIt nx 0 | [] => at_end als it end).

Context (key : Z).

Definition rem_post (c c' : list (Z * V)) (als' : list (addr * list (Z * V)))
    (L2 : list addr) (m' : Map) (it : Iterator) (old : V) (ok : bool) : Prop :=
  if ok then
    ∃ l1 l2, c = l1 ++ (key, old) :: l2 ∧ c' = l1 ++ l2 ∧ succ_it als' L2 it (length l1)
  else c' = c ∧ (key ∉ c.*1) ∧ old = zeroV ∧ End m' = Some it.

(** the result [x] of the loop started on the subtree [t] *)
Definition rem_res (ht : nat) (t : atree) (m : Map) (lo hi : option Z)
    (L1 L2 : list addr) (x : option ((Iterator * V * bool) * Map)) : Prop :=
  ∃ it old ok m' t',
    x = Some ((it, old, ok), m') ∧
    LocF m' [t'] L1 L2 ∧ StepF m [t] m' [t'] ∧
    raddr t' = raddr t ∧ wf ht lo hi t' ∧
    asize t' ≤ asize t ≤ asize t' + 1 ∧ (ht ≠ 0 → 2 ≤ asize t') ∧
    m_root m' = m_root m ∧
    rem_post (contents t) (contents t') (aleaves t') L2 m' it old ok ∧
    m_n m' = (if ok then m_n m - 1 else m_n m)%Z ∧
    head (leaves t') = head (leaves t).

Definition remove_spec (ht : nat) : Prop :=
  ∀ t m lo hi L1 L2 fuel,
    LocF m [t] L1 L2 → wf ht lo hi t → rem_pre ht t → ht < fuel →
    rem_res ht t m lo hi L1 L2 (remove_loop zeroV fuel (raddr t) key m).

(** the links of a leaf of the row *)
Lemma LocF_leaf_links m a kvs L1 L2 :
  LocF m [ALeaf a kvs] L1 L2 →
  m_heap m !! a = Some (leaf_cell (hd_or L2 None) (last_or None L1) kvs) ∧
  length kvs ≤ maxNodes.
Proof.
  intros (Hr&_&_&Hseg&_). apply Forall_inv in Hr.
  inversion Hr as [? ? nx pv Ha Hlen|]; subst. split; [|done].
  change (fleaves [ALeaf a kvs]) with [a] in Hseg. simpl in Hseg.
  apply lseg_app in Hseg as [_ Hseg]. simpl in Hseg.
  destruct Hseg as [(l&Hl&Hp&Hn) _]. rewrite Ha in Hl. inversion Hl; subst.
  simpl in *. rewrite Ha. unfold hd_or. by rewrite <- Hn, <- Hp.
Qed.

(** [End] is defined on a map with leaves *)
Lemma LocF_End m ts L1 L2 : LocF m ts L1 L2 → is_Some (End m).
Proof.
  intros (_&_&_&Hseg&Hlast). apply last_Some_elem_of in Hlast.
  destruct (lseg_leaf _ _ _ _ _ Hseg Hlast) as [l Hl].
  unfold End, get_leaf. rewrite Hl. by eexists.
Qed.

Lemma remove_leaf : remove_spec 0.
Proof.
  intros t m lo hi L1 L2 fuel HL Hwf _ Hfuel.
  destruct (wf_leaf _ _ _ Hwf) as (a&kvs&->).
  destruct (LocF_leaf_links _ _ _ _ _ HL) as [Ha Hlen].
  destruct (LocF_End _ _ _ _ HL) as [e He].
  destruct fuel as [|fuel]; [lia|]. cbn [remove_loop raddr].
  rewrite Ha. mstep. rewrite leaf_Keys_rec by done. mstep.
  pose proof (linearSearchOrdered_length kvs.*1 key) as Hi.
  pose proof (linearSearchOrdered_at kvs.*1 key) as Hat.
  pose proof (linearSearchOrdered_end kvs.*1 key) as Hend.
  pose proof (linearSearchOrdered_absent _ _ _ key Hwf) as Habs.
  destruct (linearSearchOrdered kvs.*1 key) as [i ok]. simpl in Hi, Hat, Hend, Habs.
  rewrite length_fmap in Hi, Hend.
  assert (Hnot : ok = false →
    rem_res 0 (ALeaf a kvs) m lo hi L1 L2 (e ← End m; Some ((e, zeroV, false), m))).
  { intros ->. rewrite He. mstep. exists e, zeroV, false, m, (ALeaf a kvs).
    split_and!; try done; try (simpl; lia).
    - apply StepF_refl.
    - split_and!; try done. unfold contents. simpl. rewrite app_nil_r. auto. }
  destruct (decide (i = length kvs)) as [->|Hne]; [by apply Hnot, Hend|].
  rewrite (lookup_pad_lt 0%Z _ i) by (rewrite length_fmap; lia).
  destruct (lookup_lt_is_Some_2 kvs i) as [[ki old] Hkv]; [lia|].
  rewrite list_lookup_fmap, Hkv. cbn [fmap option_fmap option_map]. mstep.
  destruct (Hat ki) as [Hle Hiff]; [by rewrite list_lookup_fmap, Hkv|].
  destruct (decide ((key ?= ki)%Z ≠ Eq)) as [Hcmp|Hcmp].
  { apply Hnot. destruct ok; [|done]. destruct Hiff as [Hiff _].
    specialize (Hiff eq_refl). subst ki. by rewrite Z.compare_refl in Hcmp. }
  assert (ki = key) as ->.
  { destruct (Z.compare_spec key ki); try done; exfalso; by apply Hcmp. }
  rewrite (lookup_pad_lt zeroV _ i) by (rewrite length_fmap; lia).
  rewrite list_lookup_fmap, Hkv. cbn [fmap option_fmap option_map]. mstep.
  rewrite leaf_RemoveAt_rec by lia. mstep.
  set (kvs' := delete i kvs).
  assert (Hlen' : length kvs' = length kvs - 1) by (apply length_delete; eauto).
  change (CLeaf (leaf_rec zeroV (hd_or L2 None) (last_or None L1) kvs'))
    with (leaf_cell (hd_or L2 None) (last_or None L1) kvs').
  destruct (LocF_put_leaf _ m a kvs kvs' _ _ L1 L2 HL Ha) as [HL' HS']; [lia|].
  assert (Hres : ∀ it,
    succ_it [(a, kvs')] L2 it i →
    rem_res 0 (ALeaf a kvs) m lo hi L1 L2
      (Some ((it, old, true),
             set_n (put m a (leaf_cell (hd_or L2 None) (last_or None L1) kvs'))
                   (m_n m - 1)%Z))).
  { intros it Hit. eexists it, old, true, _, (ALeaf a kvs').
    split_and!; try done; try (simpl; lia).
    - simpl. unfold kvs'. rewrite list_fmap_delete. by apply inc_delete.
    - exists (take i kvs), (drop (S i) kvs). unfold contents. simpl. rewrite !app_nil_r.
      split_and!.
      + symmetry. by apply take_drop_middle.
      + apply delete_take_drop.
      + rewrite length_take. by replace (i `min` length kvs) with i by lia. }
  destruct L2 as [|nx L2]; cbn [hd_or].
  - apply Hres. destruct (decide (i = length kvs')) as [Hl|Hl].
    + right. split; [unfold total; simpl; rewrite app_nil_r; lia|].
      exists [], kvs'. simpl. done.
    + left. exists [], kvs', []. simpl. split_and!; [done|lia|done].
  - destruct (decide (length kvs' = i)) as [Hl|Hl].
    + apply Hres. right. split; [unfold total; simpl; rewrite app_nil_r; lia|done].
    + apply Hres. left. exists [], kvs', []. simpl. split_and!; [done|lia|done].
Qed.

(** the first leaf below a child holds a pair *)
Lemma first_leaf_kid ht lo k c :
  kid ht lo k c → ∃ b kvs rest, aleaves c = (b, kvs) :: rest ∧ 0 < length kvs.
Proof.
  intros [Hw [Hs _]]. rewrite minNodes_eq in Hs. destruct ht as [|ht].
  - destruct (wf_leaf _ _ _ Hw) as (b&kvs&->). exists b, kvs, []. simpl in *.
    split; [done|lia].
  - pose proof (wf_leaves_min _ _ _ _ Hw) as Hmin.
    pose proof (aleaves_nonempty _ _ _ _ Hw) as Hne.
    destruct (aleaves c) as [|[b kvs] rest]; [exfalso; apply Hne; [lia|done]|].
    apply Forall_cons in Hmin as [Hmin _]. simpl in Hmin. rewrite minNodes_eq in Hmin.
    exists b, kvs, rest. split; [done|lia].
Qed.

Lemma succ_it_ctx ht lo ks2 cs2 als A L2 it p :
  succ_it als (fleaves cs2 ++ L2) it p → kids (kid ht) lo ks2 cs2 →
  succ_it (A ++ als ++ fals cs2) L2 it (length (total A) + p).
Proof.
  intros [Hp|[-> Hend]] Hk; [left; by apply at_pos_ctx|].
  destruct cs2 as [|c2 cs2].
  - right. rewrite fals_nil, app_nil_r. simpl in Hend. split.
    + by rewrite total_app, length_app.
    + destruct L2; [|done]. destruct Hend as (A0&kvs&->&Hi).
      exists (A ++ A0), kvs. split; [|done]. by rewrite <- (assoc_L (++)).
  - destruct ks2 as [|k2 ks2]; [done|]. destruct Hk as [Hkid _].
    destruct (first_leaf_kid _ _ _ _ Hkid) as (b&kvs&rest&Hal&Hpos).
    rewrite fleaves_cons in Hend. unfold leaves in Hend. rewrite Hal in Hend.
    simpl in Hend. subst it. left.
    exists (A ++ als), kvs, (rest ++ fals cs2). simpl. split_and!; [|done|].
    + rewrite fals_cons, Hal. by rewrite <- !(assoc_L (++)).
    + fold (total (A ++ als)). rewrite total_app, length_app. lia.
Qed.

(** the loop goes on in the child [d] of the node [t1] that [t] has
    become *)
Lemma rem_res_descend ht :
  remove_spec ht →
  ∀ t m m1 a ks1 k ks2 cs1 d cs2 lo hi L1 L2 fuel,
    LocF m1 [ANode a (ks1 ++ k :: ks2) (cs1 ++ d :: cs2)] L1 L2 →
    StepF m [t] m1 [ANode a (ks1 ++ k :: ks2) (cs1 ++ d :: cs2)] →
    raddr t = a →
    contents (ANode a (ks1 ++ k :: ks2) (cs1 ++ d :: cs2)) = contents t →
    head (leaves (ANode a (ks1 ++ k :: ks2) (cs1 ++ d :: cs2))) = head (leaves t) →
    m_root m1 = m_root m → m_n m1 = m_n m →
    length (ks1 ++ k :: ks2) ≤ asize t ≤ length (ks1 ++ k :: ks2) + 1 →
    2 ≤ length (ks1 ++ k :: ks2) →
    wf (S ht) lo hi (ANode a (ks1 ++ k :: ks2) (cs1 ++ d :: cs2)) →
    length ks1 = length cs1 → minNodes < asize d →
    Forall (λ x, (x < key)%Z) (fcontents cs1).*1 →
    Forall (λ x, (key < x)%Z) (fcontents cs2).*1 → ht < fuel →
    rem_res (S ht) t m lo hi L1 L2 (remove_loop zeroV fuel (raddr d) key m1).
Proof.
  intros IH t m m1 a ks1 k ks2 cs1 d cs2 lo hi L1 L2 fuel HL1 HSt1 Hra Hcont Hhd Hroot1
    Hn1 Hsz H2 Hwf Hlen Hd HX1 HX2 Hfuel.
  pose proof Hwf as Hwf0.
  apply wf_node_at in Hwf as (Hinc&Hk1&[Hwd [Hs1 Hs2]]&Hk2); [|done].
  destruct (LocF_node_open _ _ _ _ _ _ _ HL1) as (Ha&Hlenks&Hcs&Hna&HLcs).
  pose proof (LocF_focus _ m1 cs1 [d] cs2 L1 L2 HLcs) as HLd.
  destruct (IH d m1 (lastb lo ks1) (Some k) _ _ fuel HLd Hwd) as
    (it&old&ok&m'&d'&Hrun&HL'&HSt&Hrad&Hwd'&Hsz'&_&Hroot&Hpost&Hn&Hhd'); [|done|].
  { intros _. split; [|]; rewrite minNodes_eq in Hd; lia. }
  destruct (node_child_step _ _ _ _ _ _ _ _ _ _ _ _ _ HL1 HL' HSt Hrad) as [HLn HStn].
  exists it, old, ok, m', (ANode a (ks1 ++ k :: ks2) (cs1 ++ d' :: cs2)).
  split_and!; try done.
  - by eapply StepF_trans.
  - apply wf_node_at; [done|]. split_and!; try done. split; [done|lia].
  - simpl. lia.
  - simpl. lia.
  - congruence.
  - rewrite <- Hcont. rewrite !contents_node_at, aleaves_node_at.
    destruct ok; simpl in Hpost |- *.
    + destruct Hpost as (l1&l2&Hc&Hc'&Hit).
      exists (fcontents cs1 ++ l1), (l2 ++ fcontents cs2). split_and!.
      * rewrite Hc. by rewrite <- !(assoc_L (++)).
      * rewrite Hc'. by rewrite <- !(assoc_L (++)).
      * rewrite length_app. eapply (succ_it_ctx ht); [done|]. apply Hk2.
    + destruct Hpost as (Hc&Hno&Hold&Hend). split_and!; try done.
      * by rewrite Hc.
      * rewrite !fmap_app. rewrite Forall_forall in HX1, HX2.
        intros [Hin|[Hin|Hin]%elem_of_app]%elem_of_app; [|done|].
        -- specialize (HX1 _ Hin). lia.
        -- specialize (HX2 _ Hin). lia.
  - destruct ok; congruence.
  - rewrite <- Hhd. by apply head_leaves_child.
Qed.

Lemma kid_is_leaf ht lo1 k1 lo2 k2 c d :
  kid ht lo1 k1 c → kid ht lo2 k2 d → is_leaf c = is_leaf d.
Proof.
  intros [H1 _] [H2 _]. by rewrite (wf_is_leaf _ _ _ _ H1), (wf_is_leaf _ _ _ _ H2).
Qed.

Lemma Forall_fcontents_cons (P : Z → Prop) c cs :
  Forall P (fcontents (c :: cs)).*1 ↔ Forall P (contents c).*1 ∧ Forall P (fcontents cs).*1.
Proof. by rewrite fcontents_cons, fmap_app, Forall_app. Qed.

Lemma Forall_fcontents_snoc (P : Z → Prop) c cs :
  Forall P (fcontents (cs ++ [c])).*1 ↔ Forall P (fcontents cs).*1 ∧ Forall P (contents c).*1.
Proof. by rewrite fcontents_app, fcontents_single, fmap_app, Forall_app. Qed.

(** the child [c] is at the minimum and its right sibling is not *)
Lemma rem_shiftLeft ht :
  remove_spec ht →
  ∀ m a ks1 k1 k2 ks2 cs1 c r cs2 lo hi L1 L2 fuel,
    LocF m [ANode a (ks1 ++ k1 :: k2 :: ks2) (cs1 ++ c :: r :: cs2)] L1 L2 →
    wf (S ht) lo hi (ANode a (ks1 ++ k1 :: k2 :: ks2) (cs1 ++ c :: r :: cs2)) →
    length ks1 = length cs1 → asize c = minNodes → minNodes < asize r →
    Forall (λ x, (x < key)%Z) (fcontents cs1).*1 →
    Forall (λ x, (key < x)%Z) (fcontents (r :: cs2)).*1 → ht < fuel →
    rem_res (S ht) (ANode a (ks1 ++ k1 :: k2 :: ks2) (cs1 ++ c :: r :: cs2)) m lo hi L1 L2
      (m ← shiftLeft zeroV a (length ks1 + 1) m; remove_loop zeroV fuel (raddr c) key m).
Proof.
  intros IH m a ks1 k1 k2 ks2 cs1 c r cs2 lo hi L1 L2 fuel HL Hwf Hlen Hc Hr HX1 HX2 Hfuel.
  pose proof Hwf as Hwf0.
  apply wf_node_at in Hwf0 as (Hinc&Hk1&Hkc&Hk2); [|done].
  simpl in Hk2. destruct Hk2 as [Hkr Hk2].
  pose proof (kid_is_leaf _ _ _ _ _ _ _ Hkc Hkr) as Hkind.
  destruct Hkc as [Hwc [Hc1 Hc2]]. destruct Hkr as [Hwr [Hr1 Hr2]].
  pose proof minNodes_eq as Hmin. pose proof maxNodes_eq as Hmax.
  set (j := (asize c + asize r + 1) / 2).
  assert (Hj : asize c < j ∧ j ≤ maxNodes ∧ minNodes ≤ asize c + asize r - j ∧
               j ≤ asize c + asize r).
  { unfold j. halve (asize c + asize r + 1). lia. }
  destruct Hj as (Hj1&Hj2&Hj3&Hj4).
  destruct (shiftLeft_ok zeroV m a ks1 k1 k2 ks2 cs1 c r cs2 L1 L2 (length ks1) j HL)
    as (m1&lk&HS&Hlk&HL1&HSt1&Hroot1&Hn1); try done; try lia.
  rewrite HS. mstep.
  destruct (ashift_raddr c r j) as [Hra Hrb].
  destruct (ashift_asize c r j Hkind Hj4) as [Hsa Hsb].
  pose proof (ashift_contents c r j Hkind) as Hcont.
  pose proof (ashift_head_leaves c r j Hkind) as Hhd.
  destruct (ashift_right_suffix _ _ _ _ _ c r j Hwc Hwr) as [X HX]; [lia|].
  set (c' := (ashift c r j).1) in *. set (r' := (ashift c r j).2) in *.
  rewrite <- Hra.
  apply (rem_res_descend ht IH _ m m1 a ks1 lk (k2 :: ks2) cs1 c' (r' :: cs2));
    try done; try lia.
  - rewrite !contents_node, !fcontents_app, !fcontents_cons.
    by rewrite !(assoc_L (++) (contents _)), Hcont.
  - rewrite !leaves_node, !fleaves_app, !fleaves_cons.
    destruct (fleaves cs1); [|done]. simpl.
    rewrite !(assoc_L (++) (leaves _)). by apply head_app_eq.
  - simpl. len.
  - revert Hlen. len.
  - eapply wf_parent_shift; try done; lia.
  - apply Forall_fcontents_cons in HX2 as [HXr HXc]. apply Forall_fcontents_cons.
    split; [|done]. rewrite HX, fmap_app in HXr. by apply Forall_app in HXr as [_ ?].
Qed.

(** the child [c] is at the minimum and its left sibling is not *)
Lemma rem_shiftRight ht :
  remove_spec ht →
  ∀ m a ks1 k1 k2 ks2 cs1 l c cs2 lo hi L1 L2 fuel,
    LocF m [ANode a (ks1 ++ k1 :: k2 :: ks2) (cs1 ++ l :: c :: cs2)] L1 L2 →
    wf (S ht) lo hi (ANode a (ks1 ++ k1 :: k2 :: ks2) (cs1 ++ l :: c :: cs2)) →
    length ks1 = length cs1 → asize c = minNodes → minNodes < asize l →
    Forall (λ x, (x < key)%Z) (fcontents (cs1 ++ [l])).*1 →
    Forall (λ x, (key < x)%Z) (fcontents cs2).*1 → ht < fuel →
    rem_res (S ht) (ANode a (ks1 ++ k1 :: k2 :: ks2) (cs1 ++ l :: c :: cs2)) m lo hi L1 L2
      (m ← shiftRight zeroV a (length ks1) m; remove_loop zeroV fuel (raddr c) key m).
Proof.
  intros IH m a ks1 k1 k2 ks2 cs1 l c cs2 lo hi L1 L2 fuel HL Hwf Hlen Hc Hl HX1 HX2 Hfuel.
  pose proof Hwf as Hwf0.
  apply wf_node_at in Hwf0 as (Hinc&Hk1&Hkl&Hk2); [|done].
  simpl in Hk2. destruct Hk2 as [Hkc Hk2].
  pose proof (kid_is_leaf _ _ _ _ _ _ _ Hkl Hkc) as Hkind.
  destruct Hkc as [Hwc [Hc1 Hc2]]. destruct Hkl as [Hwl [Hl1 Hl2]].
  pose proof minNodes_eq as Hmin. pose proof maxNodes_eq as Hmax.
  set (j := asize l + asize c - (asize l + asize c + 1) / 2).
  assert (Hj : minNodes ≤ j ∧ j ≤ asize l ∧ minNodes < asize l + asize c - j ∧
               asize l + asize c - j ≤ maxNodes ∧
               asize c ≤ (asize l + asize c + 1) / 2 ∧
               (asize l + asize c + 1) / 2 ≤ maxNodes).
  { unfold j. halve (asize l + asize c + 1). lia. }
  destruct Hj as (Hj1&Hj2&Hj3&Hj4&Hj5&Hj6).
  destruct (shiftRight_ok zeroV m a ks1 k1 k2 ks2 cs1 l c cs2 L1 L2 (length ks1) j HL)
    as (m1&lk&HS&Hlk&HL1&HSt1&Hroot1&Hn1); try done; try lia.
  rewrite HS. mstep.
  assert (Hj7 : j ≤ asize l + asize c) by lia.
  destruct (ashift_raddr l c j) as [Hra Hrb].
  destruct (ashift_asize l c j Hkind Hj7) as [Hsa Hsb].
  pose proof (ashift_contents l c j Hkind) as Hcont.
  pose proof (ashift_head_leaves l c j Hkind) as Hhd.
  destruct (ashift_left_prefix _ _ _ _ _ l c j Hwl Hwc) as [X HX]; [lia|].
  pose proof (wf_parent_shift _ _ _ a ks1 k1 k2 ks2 cs1 l c cs2 j lk Hlen Hwf) as Hwf1.
  set (l' := (ashift l c j).1) in *. set (c' := (ashift l c j).2) in *.
  rewrite <- Hrb.
  revert HL1 HSt1 Hwf1.
  rewrite (cons_middle lk ks1), (cons_middle l' cs1), !(assoc_L (++)).
  intros HL1 HSt1 Hwf1.
  apply (rem_res_descend ht IH _ m m1 a (ks1 ++ [lk]) k2 ks2 (cs1 ++ [l']) c' cs2);
    try done; try lia.
  - rewrite !contents_node, !fcontents_app, !fcontents_cons, fcontents_nil, app_nil_r.
    rewrite <- !(assoc_L (++)). by rewrite !(assoc_L (++) (contents _)), Hcont.
  - rewrite !leaves_node, !fleaves_app, !fleaves_cons, fleaves_nil, app_nil_r.
    rewrite <- !(assoc_L (++)).
    destruct (fleaves cs1); [|done]. simpl.
    rewrite !(assoc_L (++) (leaves _)). by apply head_app_eq.
  - simpl. len.
  - revert Hlen. len.
  - apply Hwf1; try done; lia.
  - len.
  - apply Forall_fcontents_snoc in HX1 as [HXc HXl]. apply Forall_fcontents_snoc.
    split; [done|]. rewrite HX, fmap_app in HXl. by apply Forall_app in HXl as [? _].
Qed.

(** the child [c] and its right sibling are at the minimum *)
Lemma rem_mergeRight ht :
  remove_spec ht →
  ∀ m a ks1 k1 k2 ks2 cs1 c r cs2 lo hi L1 L2 fuel,
    LocF m [ANode a (ks1 ++ k1 :: k2 :: ks2) (cs1 ++ c :: r :: cs2)] L1 L2 →
    wf (S ht) lo hi (ANode a (ks1 ++ k1 :: k2 :: ks2) (cs1 ++ c :: r :: cs2)) →
    length ks1 = length cs1 → asize c = minNodes → asize r = minNodes →
    3 ≤ length (ks1 ++ k1 :: k2 :: ks2) →
    Forall (λ x, (x < key)%Z) (fcontents cs1).*1 →
    Forall (λ x, (key < x)%Z) (fcontents (r :: cs2)).*1 → ht < fuel →
    rem_res (S ht) (ANode a (ks1 ++ k1 :: k2 :: ks2) (cs1 ++ c :: r :: cs2)) m lo hi L1 L2
      ('(node, m) ← mergeNode a (length ks1) m; remove_loop zeroV fuel node key m).
Proof.
  intros IH m a ks1 k1 k2 ks2 cs1 c r cs2 lo hi L1 L2 fuel HL Hwf Hlen Hc Hr H3 HX1 HX2
    Hfuel.
  pose proof Hwf as Hwf0.
  apply wf_node_at in Hwf0 as (Hinc&Hk1&Hkc&Hk2); [|done].
  simpl in Hk2. destruct Hk2 as [Hkr Hk2].
  pose proof (kid_is_leaf _ _ _ _ _ _ _ Hkc Hkr) as Hkind.
  pose proof minNodes_eq as Hmin. pose proof maxNodes_eq as Hmax.
  destruct (mergeNode_ok zeroV m a ks1 k1 k2 ks2 cs1 c r cs2 L1 L2 (length ks1) HL)
    as (m1&lk&HM&Hlk&HL1&HSt1&Hroot1&Hn1); try done; try lia.
  rewrite HM. mstep.
  pose proof (amerge_asize c r Hkind) as Hsz.
  pose proof (amerge_contents c r Hkind) as Hcont.
  pose proof (amerge_head_leaves c r Hkind) as Hhd.
  pose proof (wf_parent_merge _ _ _ a ks1 k1 k2 ks2 cs1 c r cs2 lk Hlen Hwf) as Hwf1.
  rewrite <- (amerge_raddr c r).
  apply (rem_res_descend ht IH _ m m1 a ks1 lk ks2 cs1 (amerge c r) cs2);
    try done; try lia.
  - rewrite !contents_node, !fcontents_app, !fcontents_cons.
    by rewrite !(assoc_L (++) (contents _)), Hcont.
  - rewrite !leaves_node, !fleaves_app, !fleaves_cons.
    destruct (fleaves cs1); [|done]. simpl.
    rewrite !(assoc_L (++) (leaves _)). by apply head_app_eq.
  - simpl. len.
  - revert H3. len.
  - apply Hwf1; [lia|done].
  - by apply Forall_fcontents_cons in HX2 as [_ ?].
Qed.

(** the last child [c] and its left sibling are at the minimum *)
Lemma rem_mergeLeft ht :
  remove_spec ht →
  ∀ m a ks1 k1 k2 ks2 cs1 l c cs2 lo hi L1 L2 fuel,
    LocF m [ANode a (ks1 ++ k1 :: k2 :: ks2) (cs1 ++ l :: c :: cs2)] L1 L2 →
    wf (S ht) lo hi (ANode a (ks1 ++ k1 :: k2 :: ks2) (cs1 ++ l :: c :: cs2)) →
    length ks1 = length cs1 → asize c = minNodes → asize l = minNodes →
    3 ≤ length (ks1 ++ k1 :: k2 :: ks2) →
    Forall (λ x, (x < key)%Z) (fcontents (cs1 ++ [l])).*1 →
    Forall (λ x, (key < x)%Z) (fcontents cs2).*1 → ht < fuel →
    rem_res (S ht) (ANode a (ks1 ++ k1 :: k2 :: ks2) (cs1 ++ l :: c :: cs2)) m lo hi L1 L2
      ('(node, m) ← mergeNode a (length ks1) m; remove_loop zeroV fuel node key m).
Proof.
  intros IH m a ks1 k1 k2 ks2 cs1 l c cs2 lo hi L1 L2 fuel HL Hwf Hlen Hc Hl H3 HX1 HX2
    Hfuel.
  pose proof Hwf as Hwf0.
  apply wf_node_at in Hwf0 as (Hinc&Hk1&Hkl&Hk2); [|done].
  simpl in Hk2. destruct Hk2 as [Hkc Hk2].
  pose proof (kid_is_leaf _ _ _ _ _ _ _ Hkl Hkc) as Hkind.
  pose proof minNodes_eq as Hmin. pose proof maxNodes_eq as Hmax.
  destruct (mergeNode_ok zeroV m a ks1 k1 k2 ks2 cs1 l c cs2 L1 L2 (length ks1) HL)
    as (m1&lk&HM&Hlk&HL1&HSt1&Hroot1&Hn1); try done; try lia.
  rewrite HM. mstep.
  pose proof (amerge_asize l c Hkind) as Hsz.
  pose proof (amerge_contents l c Hkind) as Hcont.
  pose proof (amerge_head_leaves l c Hkind) as Hhd.
  pose proof (wf_parent_merge _ _ _ a ks1 k1 k2 ks2 cs1 l c cs2 lk Hlen Hwf) as Hwf1.
  rewrite <- (amerge_raddr l c).
  apply (rem_res_descend ht IH _ m m1 a ks1 lk ks2 cs1 (amerge l c) cs2);
    try done; try lia.
  - rewrite !contents_node, !fcontents_app, !fcontents_cons.
    by rewrite !(assoc_L (++) (contents _)), Hcont.
  - rewrite !leaves_node, !fleaves_app, !fleaves_cons.
    destruct (fleaves cs1); [|done]. simpl.
    rewrite !(assoc_L (++) (leaves _)). by apply head_app_eq.
  - simpl. len.
  - revert H3. len.
  - apply Hwf1; [lia|done].
  - by apply Forall_fcontents_snoc in HX1 as [? _].
Qed.

Lemma snoc_inv {A} (xs : list A) : 0 < length xs → ∃ ys y, xs = ys ++ [y].
Proof.
  intros H. destruct (last xs) as [y|] eqn:E.
  - apply last_Some in E as [ys ->]. eauto.
  - apply last_None in E. subst. simpl in H. lia.
Qed.

Lemma remove_node ht : remove_spec ht → remove_spec (S ht).
Proof.
  intros IH t m lo hi L1 L2 fuel HL Hwf Hpre Hfuel.
  destruct (wf_node _ _ _ _ Hwf) as (a&ks&cs&->).
  destruct (Hpre ltac:(done)) as [H2 Hnm]. simpl in H2, Hnm.
  destruct (LocF_node_open _ _ _ _ _ _ _ HL) as (Ha&Hlen&Hcs&Hna&HLcs).
  destruct fuel as [|fuel]; [lia|]. cbn [remove_loop raddr].
  rewrite Ha. mstep. rewrite inode_KeysForFindAndRemove_rec by lia. mstep.
  destruct (select_child _ _ _ _ _ _ key Hwf ltac:(lia)) as
    (ks1&ki&ks2&cs1&c&cs2&->&->&Hi&Hl&HX1&HX2).
  destruct (linearSearchOrdered _ key) as [i ok]. simpl in Hi. subst i.
  rewrite (inode_nodes_lookup _ (length ks1) c) by (by apply list_lookup_middle). mstep.
  assert (Hrc : ∀ x, x ∈ cs1 ++ c :: cs2 → repr (m_heap m) x).
  { intros x Hx. eapply LocF_repr_in; [apply HLcs|done]. }
  rewrite (Size_repr zeroV m c) by (apply Hrc, elem_of_app; right; apply list_elem_of_here).
  mstep.
  pose proof Hwf as Hwf0.
  apply wf_node_at in Hwf0 as (Hinc&Hk1&Hkc&Hk2); [|done].
  pose proof minNodes_eq as Hmin. pose proof maxNodes_eq as Hmax.
  destruct (decide (minNodes < asize c)) as [Hbig|Hsmall].
  { (* the child has an entry to spare *)
    apply (rem_res_descend ht IH _ m m a ks1 ki ks2 cs1 c cs2); try done; try lia.
    - apply StepF_refl.
    - simpl. lia. }
  assert (Hc : asize c = minNodes) by (destruct Hkc as [_ [? ?]]; lia).
  (* the left sibling, if there is one *)
  assert (Hleft : 0 < length ks1 →
    ∃ ks1' kl cs1' l, ks1 = ks1' ++ [kl] ∧ cs1 = cs1' ++ [l] ∧ length ks1' = length cs1' ∧
                      dec (length ks1) = Some (length ks1')).
  { intros Hpos. destruct (snoc_inv ks1 Hpos) as (ks1'&kl&->).
    destruct (snoc_inv cs1 ltac:(lia)) as (cs1'&l&->).
    exists ks1', kl, cs1', l. rewrite !length_app in *. simpl in *.
    split_and!; try done; try lia. by rewrite Nat.add_1_r. }
  destruct cs2 as [|r cs2], ks2 as [|k2 ks2];
    try (exfalso; revert Hcs; rewrite !length_app; simpl; lia).
  - (* [c] is the last child *)
    destruct (decide (length ks1 + 1 < length (ks1 ++ [ki]))) as [Hd|_];
      [exfalso; revert Hd; len|].
    mstep.
    destruct (decide (0 < length ks1)) as [Hpos|Hz];
      [|exfalso; revert H2 Hz; len].
    destruct (Hleft Hpos) as (ks1'&kl&cs1'&l&->&->&Hl'&Hdec).
    rewrite Hdec. mstep.
    rewrite (inode_nodes_lookup _ (length ks1') l).
    2:{ rewrite <- (assoc_L (++)). by apply list_lookup_middle. }
    mstep.
    rewrite (Size_repr zeroV m l).
    2:{ apply Hrc. rewrite <- (assoc_L (++)). apply elem_of_app. right. apply list_elem_of_here. }
    mstep.
    revert HL Hwf Hnm H2 HX1. rewrite <- !(assoc_L (++)). simpl. intros HL Hwf Hnm H2 HX1.
    destruct (decide (minNodes < asize l)) as [Hlbig|Hlsmall].
    + rewrite bool_decide_true by done. mstep.
      apply (rem_shiftRight ht IH m a ks1' kl ki [] cs1' l c []); try done; lia.
    + rewrite bool_decide_false by done. mstep.
      pose proof Hwf as Hwf1.
      apply (wf_node_at _ _ _ a) in Hwf1 as (_&_&[_ [Hl1 Hl2]]&_); [|done].
      apply (rem_mergeLeft ht IH m a ks1' kl ki [] cs1' l c []); try done; try lia.
      destruct (decide (length (ks1' ++ [kl; ki]) = 2)) as [E2|E2]; [|lia].
      exfalso. apply (Hnm E2).
      rewrite length_app in E2. simpl in E2.
      destruct ks1'; [|simpl in E2; lia]. destruct cs1'; [|done]. simpl.
      repeat constructor; lia.
  - (* [c] has a right sibling [r] *)
    destruct (decide (length ks1 + 1 < length (ks1 ++ ki :: k2 :: ks2))) as [_|Hd];
      [|exfalso; revert Hd; len].
    mstep.
    rewrite (inode_nodes_lookup _ (length ks1 + 1) r) by (rewrite <- Hl; apply lookup_second).
    mstep.
    rewrite (Size_repr zeroV m r).
    2:{ apply Hrc. apply elem_of_app. right. apply list_elem_of_further, list_elem_of_here. }
    mstep.
    destruct (decide (minNodes < asize r)) as [Hrbig|Hrsmall].
    + rewrite bool_decide_true by done. mstep.
      apply (rem_shiftLeft ht IH m a ks1 ki k2 ks2 cs1 c r cs2); try done; lia.
    + rewrite bool_decide_false by done. mstep.
      assert (Hr : asize r = minNodes).
      { simpl in Hk2. destruct Hk2 as [[_ [? ?]] _]. lia. }
      assert (Hmerge : rem_res (S ht) (ANode a (ks1 ++ ki :: k2 :: ks2) (cs1 ++ c :: r :: cs2))
                m lo hi L1 L2
                ('(node, m) ← mergeNode a (length ks1) m; remove_loop zeroV fuel node key m)).
      { apply (rem_mergeRight ht IH m a ks1 ki k2 ks2 cs1 c r cs2); try done; try lia.
        destruct (decide (length (ks1 ++ ki :: k2 :: ks2) = 2)) as [E2|E2]; [|lia].
        exfalso. apply (Hnm E2).
        rewrite length_app in E2. simpl in E2.
        destruct ks1; [|simpl in E2; lia]. destruct cs1; [|done].
        destruct ks2; [|simpl in E2; lia]. destruct cs2; [|simpl in Hcs; lia]. simpl.
        repeat constructor; lia. }
      destruct (decide (0 < length ks1)) as [Hpos|Hzero]; [|by mstep].
      destruct (Hleft Hpos) as (ks1'&kl&cs1'&l&->&->&Hl'&Hdec).
      rewrite Hdec. mstep.
      rewrite (inode_nodes_lookup _ (length ks1') l).
      2:{ rewrite <- (assoc_L (++)). by apply list_lookup_middle. }
      mstep.
      rewrite (Size_repr zeroV m l).
      2:{ apply Hrc. rewrite <- (assoc_L (++)). apply elem_of_app. right.
          apply list_elem_of_here. }
      mstep.
      destruct (decide (minNodes < asize l)) as [Hlbig|Hlsmall].
      * rewrite bool_decide_true by done. mstep.
        revert HL Hwf HX1. rewrite <- !(assoc_L (++)). simpl. intros HL Hwf HX1.
        apply (rem_shiftRight ht IH m a ks1' kl ki (k2 :: ks2) cs1' l c (r :: cs2));
          try done; lia.
      * rewrite bool_decide_false by done. by mstep.
Qed.

Lemma remove_all ht : remove_spec ht.
Proof. induction ht as [|ht IH]; [apply remove_leaf|by apply remove_node]. Qed.
End RemoveLoop.

(** * Remove on a map *)

Section RemoveTop.
Context {V : Type} (zeroV : V).
Local Abbreviation cell := (@cell V).
Local Abbreviation Map := (@Map V).
Local Abbreviation atree := (atree V).
Local Abbreviation repr := (repr zeroV).
Local Abbreviation LocF := (LocF zeroV).
Local Abbreviation Rep := (Rep zeroV).
Local Abbreviation Inv := (Inv zeroV).
Implicit Types (h : list cell) (t c d : atree) (ts cs : list atree) (m : Map).
Implicit Types (kvs : list (Z * V)) (ks : list Z) (it : @Iterator).

Context (key : Z).

(** the loop of [remove], started at the root *)
Lemma remove_loop_Rep m ht t :
  Rep m ht t → rem_pre ht t →
  ∃ it old ok m' t',
    remove_loop zeroV (length (m_heap m)) (m_root m) key m = Some ((it, old, ok), m') ∧
    Rep m' ht t' ∧
    rem_post zeroV key (contents t) (contents t') (aleaves t') [] m' it old ok.
Proof.
  intros (Hroot&HL&Hwf&Hsz&Hht&Hfront&Hn&Hfuel) Hpre.
  destruct (remove_all zeroV key ht t m None None [] [] (length (m_heap m)) HL Hwf Hpre Hfuel)
    as (it&old&ok&m'&t'&Hrun&HL'&HSt&Hra&Hwf'&Hsz'&Hht'&Hroot'&Hpost&Hn'&Hhd).
  rewrite Hroot in Hrun.
  exists it, old, ok, m', t'. split; [done|]. split; [|done].
  destruct HSt as (Hle&_&_&Hf).
  split_and!; try done; try lia; try congruence.
  rewrite Hn'. destruct ok; simpl in Hpost.
  - destruct Hpost as (l1&l2&Hc&Hc'&_). rewrite Hn, Hc, Hc', !length_app. simpl. lia.
  - destruct Hpost as (Hc&_). by rewrite Hc.
Qed.

Lemma remove_Rep m ht t :
  Rep m ht t →
  ∃ it old ok m' ht' t',
    remove zeroV key m = Some ((it, old, ok), m') ∧ Rep m' ht' t' ∧
    rem_post zeroV key (contents t) (contents t') (aleaves t') [] m' it old ok.
Proof.
  intros HR.
  assert (Hstay : rem_pre ht t →
    ∃ it old ok m' ht' t',
      remove_loop zeroV (length (m_heap m)) (m_root m) key m = Some ((it, old, ok), m') ∧
      Rep m' ht' t' ∧
      rem_post zeroV key (contents t) (contents t') (aleaves t') [] m' it old ok).
  { intros Hpre. destruct (remove_loop_Rep m ht t HR Hpre) as (it&old&ok&m'&t'&?&?&?).
    by exists it, old, ok, m', ht, t'. }
  pose proof HR as (Hroot&HL&Hwf&Hsz&Hht&Hfront&Hn&Hfuel).
  unfold remove. rewrite <- Hroot.
  destruct ht as [|ht].
  - destruct (wf_leaf _ _ _ Hwf) as (a&kvs&->).
    destruct (LocF_leaf_lookup _ _ _ _ _ _ HL) as (nx&pv&Ha&Hlen).
    cbn [raddr]. rewrite Ha. mstep. simpl in Hroot. rewrite Hroot. by apply Hstay.
  - destruct (wf_node _ _ _ _ Hwf) as (a&ks&cs&->).
    destruct (LocF_node_open _ _ _ _ _ _ _ HL) as (Ha&Hlen&Hcs&Hna&HLcs).
    specialize (Hht ltac:(done)). simpl in Hht, Hroot.
    cbn [raddr]. rewrite Ha. mstep.
    pose proof minNodes_eq as Hmin. pose proof maxNodes_eq as Hmax.
    assert (Hgo : (length ks = 2 → ¬ Forall (λ c, asize c = minNodes) cs) →
      ∃ it old ok m' ht' t',
        remove_loop zeroV (length (m_heap m)) a key m = Some ((it, old, ok), m') ∧
        Rep m' ht' t' ∧
        rem_post zeroV key (contents (ANode a ks cs)) (contents t') (aleaves t') [] m'
                 it old ok).
    { intros Hnm. rewrite Hroot. apply Hstay. intros _. done. }
    destruct (decide (length ks = 2)) as [E2|E2]; [|apply Hgo; intros; done].
    destruct ks as [|k1 [|k2 [|? ?]]]; try done.
    destruct cs as [|l [|r [|? ?]]]; try done.
    rewrite (inode_nodes_lookup [l; r] 0 l) by done. mstep.
    assert (Hrl : repr (m_heap m) l).
    { eapply LocF_repr_in; [apply HLcs|]. apply list_elem_of_here. }
    assert (Hrr : repr (m_heap m) r).
    { eapply LocF_repr_in; [apply HLcs|]. apply list_elem_of_further, list_elem_of_here. }
    rewrite (Size_repr zeroV m l Hrl). mstep.
    destruct (decide (asize l = minNodes)) as [El|El].
    2:{ apply Hgo. intros _ HF. apply Forall_cons in HF as [? _]. done. }
    rewrite (inode_nodes_lookup [l; r] 1 r) by done. mstep.
    rewrite (Size_repr zeroV m r Hrr). mstep.
    destruct (decide (asize r = minNodes)) as [Er|Er].
    2:{ apply Hgo. intros _ HF. apply Forall_cons in HF as [_ HF].
        apply Forall_cons in HF as [? _]. done. }
    (* both children of the root are at the minimum: they are merged
       and the root goes away *)
    destruct (proj1 (wf_node_unfold _ _ _ _ _ _) Hwf) as [Hinc Hkids].
    cbn [kids] in Hkids. destruct Hkids as (Hkl&Hkr&_).
    pose proof (kid_is_leaf _ _ _ _ _ _ _ Hkl Hkr) as Hkind.
    destruct (mergeNode_root_ok zeroV m a k1 k2 l r [] [] HL (eq_sym Hroot) Hkind)
      as (m1&HM&HL1&HSt1&Hroot1&Hn1); [lia|].
    rewrite HM. mstep.
    assert (HR1 : Rep m1 ht (amerge l r)).
    { destruct HSt1 as (Hle&_&_&Hf).
      split_and!; try done.
      - by rewrite amerge_raddr.
      - eapply wf_amerge; [apply Hkl| |lia|lia].
        eapply wf_ble; [apply Hkr|done].
      - rewrite amerge_asize by done. lia.
      - intros _. rewrite amerge_asize by done. lia.
      - rewrite amerge_head_leaves by done. rewrite Hf, <- Hfront.
        by rewrite leaves_node, fleaves_cons, fleaves_single.
      - rewrite Hn1, Hn. rewrite amerge_contents by done.
        by rewrite contents_node, fcontents_cons, fcontents_single.
      - lia. }
    destruct (remove_loop_Rep m1 ht (amerge l r) HR1) as
      (it&old&ok&m'&t'&Hrun&HR'&Hpost).
    { intros _. rewrite amerge_asize by done. split; lia. }
    rewrite Hroot1 in Hrun.
    exists it, old, ok, m', ht, t'. split; [done|]. split; [done|].
    rewrite amerge_contents in Hpost by done.
    by rewrite contents_node, fcontents_cons, fcontents_single.
Qed.

Lemma Remove_Rep m ht t :
  Rep m ht t →
  ∃ old ok m' ht' t',
    Remove zeroV key m = Some ((old, ok), m') ∧ Rep m' ht' t' ∧
    (if ok : bool then ∃ l1 l2, contents t = l1 ++ (key, old) :: l2 ∧ contents t' = l1 ++ l2
     else contents t' = contents t ∧ (key ∉ (contents t).*1) ∧ old = zeroV).
Proof.
  intros HR. destruct (remove_Rep m ht t HR) as (it&old&ok&m'&ht'&t'&Hrun&HR'&Hpost).
  exists old, ok, m', ht', t'. unfold Remove. rewrite Hrun. mstep.
  split; [done|]. split; [done|]. destruct ok; simpl in Hpost.
  - destruct Hpost as (l1&l2&?&?&_). eauto.
  - destruct Hpost as (?&?&?&_). done.
Qed.
End RemoveTop.

(** * RemoveIter and Clear *)

Section LeafUpdate.
Context {V : Type} (zeroV : V).
Local Abbreviation cell := (@cell V).
Local Abbreviation Map := (@Map V).
Local Abbreviation atree := (atree V).
Local Abbreviation repr := (repr zeroV).
Local Abbreviation LocF := (LocF zeroV).
Local Abbreviation leaf_cell := (leaf_cell zeroV).
Local Abbreviation Rep := (Rep zeroV).
Implicit Types (h : list cell) (t c d : atree) (ts cs : list atree) (m : Map).
Implicit Types (kvs : list (Z * V)) (ks : list Z) (it : @Iterator).
Implicit Types (als : list (addr * list (Z * V))).

(** the tree with the pairs of the leaf [a] replaced *)
Fixpoint aset (a : addr) (kvs' : list (Z * V)) (t : atree) : atree :=
  match t with
  | ALeaf b kvs => if decide (b = a) then ALeaf b kvs' else t
  | ANode b ks cs => ANode b ks (map (aset a kvs') cs)
  end.

Definition lset (a : addr) (kvs' : list (Z * V)) (p : addr * list (Z * V))
  : addr * list (Z * V) :=
  if decide (p.1 = a) then (a, kvs') else p.

Lemma raddr_aset a kvs' t : raddr (aset a kvs' t) = raddr t.
Proof. destruct t; simpl; [|done]. by destruct (decide _). Qed.

Lemma raddr_map_aset a kvs' cs : raddr <$> map (aset a kvs') cs = raddr <$> cs.
Proof.
  induction cs as [|c cs IH]; simpl; [done|]. f_equal; [apply raddr_aset|exact IH].
Qed.

Lemma addrs_aset a kvs' t : addrs (aset a kvs' t) = addrs t.
Proof.
  induction t as [b kvs|b ks cs IH] using atree_ind'; simpl.
  - by destruct (decide _).
  - f_equal. induction IH as [|c cs Hc _ IHcs]; simpl; [done|]. by rewrite Hc, IHcs.
Qed.

Lemma aleaves_aset a kvs' t : aleaves (aset a kvs' t) = lset a kvs' <$> aleaves t.
Proof.
  induction t as [b kvs|b ks cs IH] using atree_ind'; simpl.
  - unfold lset. simpl. destruct (decide _); by subst.
  - induction IH as [|c cs Hc _ IHcs]; simpl; [done|].
    by rewrite fmap_app, Hc, IHcs.
Qed.

Lemma leaves_aset a kvs' t : leaves (aset a kvs' t) = leaves t.
Proof.
  unfold leaves. rewrite aleaves_aset, <- list_fmap_compose.
  apply list_fmap_ext. intros i [b kvs] _. unfold lset. simpl.
  destruct (decide _); by subst.
Qed.

Lemma asize_aset_node a kvs' b ks cs : asize (aset a kvs' (ANode b ks cs)) = length ks.
Proof. done. Qed.

Lemma repr_aset h a nx pv kvs kvs' t :
  repr h t → h !! a = Some (leaf_cell nx pv kvs) → length kvs' ≤ maxNodes →
  (∀ kvs0, (a, kvs0) ∈ aleaves t → kvs0 = kvs) →
  repr (<[a := leaf_cell nx pv kvs']> h) (aset a kvs' t).
Proof.
  intros Hr Ha Hlen. pose proof (lookup_lt_Some _ _ _ Ha) as Hlt.
  induction t as [b kvsb|b ks cs IH] using atree_ind'; intros Hdata.
  - simpl. inversion Hr as [? ? nx' pv' Hb Hlenb|]; subst.
    destruct (decide (b = a)) as [->|Hne].
    + rewrite Hb in Ha. econstructor; [|done]. by apply list_lookup_insert_eq.
    + econstructor; [|done]. by rewrite list_lookup_insert_ne.
  - simpl. inversion Hr as [|? ? ? Hb Hlenb Hcs Hall]; subst.
    constructor.
    + rewrite list_lookup_insert_ne by (intros ->; rewrite Hb in Ha; discriminate).
      rewrite Hb. f_equal. apply node_cell_ext. by rewrite raddr_map_aset.
    + done.
    + by rewrite length_map.
    + simpl in Hdata. clear Hb Hcs Hlenb Hr.
      induction Hall as [|c cs Hc Hall IHall]; [constructor|].
      inversion IH as [|? ? IHc IHcs]; subst. simpl. constructor.
      * apply IHc; [done|]. intros kvs0 Hin. apply Hdata. simpl.
        apply elem_of_app. by left.
      * apply IHall; [done|]. intros kvs0 Hin. apply Hdata. simpl.
        apply elem_of_app. by right.
Qed.

Lemma LocF_aset m a nx pv kvs kvs' t L1 L2 :
  LocF m [t] L1 L2 → m_heap m !! a = Some (leaf_cell nx pv kvs) →
  length kvs' ≤ maxNodes →
  (∀ kvs0, (a, kvs0) ∈ aleaves t → kvs0 = kvs) →
  LocF (put m a (leaf_cell nx pv kvs')) [aset a kvs' t] L1 L2.
Proof.
  intros (Hr&Hnd&Hndl&Hseg&Hlast) Ha Hlen Hdata. apply Forall_inv in Hr.
  rewrite faddrs_single, fleaves_single in *.
  split_and!; rewrite ?faddrs_single, ?fleaves_single, ?addrs_aset, ?leaves_aset; try done.
  - constructor; [|constructor]. by eapply repr_aset.
  - simpl. eapply lseg_kept; [done|].
    by apply (links_kept_put_leaf _ a (leaf_rec zeroV nx pv kvs) (leaf_rec zeroV nx pv kvs')).
Qed.

Lemma kids_fmap (P : option Z → Z → atree → Prop) (f : atree → atree) lo ks cs :
  kids P lo ks (map f cs) ↔ kids (λ lo k c, P lo k (f c)) lo ks cs.
Proof.
  revert lo cs. induction ks as [|k ks IH]; intros lo [|c cs]; simpl; try done.
  by rewrite IH.
Qed.

Lemma wf_aset ht lo hi a kvs kvs' t :
  wf ht lo hi t →
  (∀ lo hi, inc lo kvs.*1 hi → inc lo kvs'.*1 hi) →
  (∀ kvs0, (a, kvs0) ∈ aleaves t → kvs0 = kvs) →
  minNodes ≤ length kvs' → length kvs' ≤ maxNodes →
  wf ht lo hi (aset a kvs' t) ∧ (ht ≠ 0 → asize (aset a kvs' t) = asize t) ∧
  (minNodes ≤ asize t → minNodes ≤ asize (aset a kvs' t)) ∧
  (asize t ≤ maxNodes → asize (aset a kvs' t) ≤ maxNodes).
Proof.
  intros Hwf Hinc Hdata Hmin Hmax. revert lo hi t Hwf Hdata.
  induction ht as [|ht IH]; intros lo hi t Hwf Hdata.
  - destruct (wf_leaf _ _ _ Hwf) as (b&kvsb&->). simpl in *.
    destruct (decide (b = a)) as [->|Hne]; simpl; [|done].
    split_and!; try done. apply Hinc.
    by rewrite <- (Hdata kvsb) by apply list_elem_of_here.
  - destruct (wf_node _ _ _ _ Hwf) as (b&ks&cs&->).
    split_and!; try done. cbn [aset]. apply wf_node_unfold in Hwf as [Hi Hk].
    apply wf_node_unfold. split; [done|]. apply kids_fmap.
    eapply kids_impl; [done|]. intros lo' k c Hc [Hwc [Hs1 Hs2]].
    destruct (IH lo' (Some k) c Hwc) as (Hw'&_&Hmn&Hmx).
    { intros kvs0 Hin. apply Hdata. simpl.
      apply list_elem_of_lookup in Hc as [i Hi'].
      rewrite <- (take_drop_middle _ _ _ Hi'), map_app, concat_app. simpl.
      apply elem_of_app. right. apply elem_of_app. by left. }
    split; [done|]. split; auto.
Qed.

(** ** The pairs after a leaf is rewritten *)

Lemma lset_other a kvs' als : a ∉ als.*1 → lset a kvs' <$> als = als.
Proof.
  intros Hn. induction als as [|[b kvs] als IH]; [done|].
  rewrite fmap_cons in *.
  rewrite IH by (intros Hin; apply Hn; by apply list_elem_of_further).
  unfold lset at 1. simpl. rewrite decide_False; [done|].
  intros ->. apply Hn. apply list_elem_of_here.
Qed.

Lemma lset_middle a kvs kvs' A B :
  NoDup (A ++ (a, kvs) :: B).*1 →
  lset a kvs' <$> (A ++ (a, kvs) :: B) = A ++ (a, kvs') :: B.
Proof.
  rewrite fmap_app, fmap_cons. simpl. intros Hnd.
  apply NoDup_app in Hnd as (_&Hd&Hnd). apply NoDup_cons in Hnd as [Hn _].
  rewrite fmap_app, fmap_cons. unfold lset at 2. simpl. rewrite decide_True by done.
  rewrite !lset_other; [done|done|].
  intros Hin. apply (Hd a Hin). apply list_elem_of_here.
Qed.

Lemma NoDup_data (a : addr) kvs (A B : list (addr * list (Z * V))) :
  NoDup (A ++ (a, kvs) :: B).*1 →
  ∀ kvs0, (a, kvs0) ∈ A ++ (a, kvs) :: B → kvs0 = kvs.
Proof.
  rewrite fmap_app, fmap_cons. simpl. intros Hnd kvs0.
  apply NoDup_app in Hnd as (_&Hd&Hnd). apply NoDup_cons in Hnd as [Hn _].
  intros [Hin|[Hin|Hin]%elem_of_cons]%elem_of_app.
  - exfalso. apply (Hd a); [|apply list_elem_of_here].
    apply list_elem_of_fmap. by exists (a, kvs0).
  - by inversion Hin.
  - exfalso. apply Hn. apply list_elem_of_fmap. by exists (a, kvs0).
Qed.

Lemma delete_app_middle {A} (xs ys zs : list A) i :
  i < length ys →
  delete (length xs + i) (xs ++ ys ++ zs) = xs ++ delete i ys ++ zs.
Proof.
  intros Hi. induction xs as [|x xs IH]; simpl; [|by rewrite IH].
  revert i Hi. induction ys as [|y ys IHy]; intros i Hi; simpl in *; [lia|].
  destruct i as [|i]; [done|]. simpl. rewrite IHy by lia. done.
Qed.

Lemma wf_aset_top ht lo hi a kvs kvs' t :
  wf ht lo hi t →
  (∀ lo hi, inc lo kvs.*1 hi → inc lo kvs'.*1 hi) →
  (∀ kvs0, (a, kvs0) ∈ aleaves t → kvs0 = kvs) →
  (ht ≠ 0 → minNodes ≤ length kvs') → length kvs' ≤ length kvs → length kvs ≤ maxNodes →
  wf ht lo hi (aset a kvs' t) ∧ asize (aset a kvs' t) ≤ asize t ∧
  (ht ≠ 0 → asize (aset a kvs' t) = asize t).
Proof.
  intros Hwf Hinc Hdata Hmin Hle Hmax. destruct ht as [|ht].
  - destruct (wf_leaf _ _ _ Hwf) as (b&kvsb&->). simpl in *.
    destruct (decide (b = a)) as [->|Hne]; simpl; [|done].
    rewrite (Hdata kvsb) in * by apply list_elem_of_here.
    split_and!; try done. by apply Hinc.
  - destruct (wf_aset (S ht) lo hi a kvs kvs' t Hwf Hinc Hdata) as (Hw&Hs&_&_); [auto|lia|].
    split_and!; try done. rewrite Hs; done.
Qed.

Lemma inc_lookup_inj lo ks hi i j x :
  inc lo ks hi → ks !! i = Some x → ks !! j = Some x → i = j.
Proof.
  intros Hinc Hi Hj. destruct (Nat.lt_trichotomy i j) as [H|[H|H]]; [|done|].
  - pose proof (inc_lookup_lt _ _ _ _ _ _ _ Hinc Hi Hj H). lia.
  - pose proof (inc_lookup_lt _ _ _ _ _ _ _ Hinc Hj Hi H). lia.
Qed.

(** [RemoveIter] at the end of the map *)
Lemma RemoveIter_end m it :
  it_End m it = Some true → RemoveIter zeroV it m = Some (it, m).
Proof. intros H. unfold RemoveIter. by rewrite H. Qed.

(** [RemoveIter] at a pair *)
Lemma RemoveIter_Rep m ht t it p :
  Rep m ht t → at_pos (aleaves t) it p →
  ∃ it' m' ht' t',
    RemoveIter zeroV it m = Some (it', m') ∧ Rep m' ht' t' ∧
    contents t' = delete p (contents t) ∧ pos_or_end (aleaves t') it' p.
Proof.
  intros HR Hp. pose proof (Rep_Chain _ _ _ _ HR) as HC.
  pose proof (Rep_inc _ _ _ _ HR) as Hsorted.
  destruct (at_pos_lookup _ _ _ Hp) as (A&kvs&B&[k v]&HA&Hkv&Hkv'&Hpdef).
  pose proof (it_End_pos _ _ _ _ _ HC Hp) as Hend.
  destruct (it_Key_Value _ _ _ _ _ _ _ HC Hp Hkv') as [Hkey _].
  pose proof HC as HC'. rewrite HA in HC'.
  destruct (Chain_leaf _ _ _ _ _ _ HC') as [Ha Hlen].
  pose proof (lookup_lt_Some _ _ _ Hkv) as Hidx.
  unfold RemoveIter. rewrite Hend. mstep. unfold get_leaf. rewrite Ha. mstep.
  destruct (decide (it_node it ≠ m_root m ∧ length kvs = minNodes)) as [Hcond|Hcond].
  - (* the leaf is at the minimum: the pair is removed by its key *)
    rewrite Hkey. mstep.
    destruct (remove_Rep zeroV k m ht t HR) as (it'&old&ok&m'&ht'&t'&Hrun&HR'&Hpost).
    rewrite Hrun. mstep. exists it', m', ht', t'. split; [done|]. split; [done|].
    destruct ok; simpl in Hpost.
    + destruct Hpost as (l1&l2&Hc&Hc'&Hit).
      assert (p = length l1) as ->.
      { eapply (inc_lookup_inj _ _ _ _ _ k Hsorted).
        - unfold total in Hkv'. fold (contents t) in Hkv'.
          by rewrite list_lookup_fmap, Hkv'.
        - rewrite Hc, list_lookup_fmap, list_lookup_middle by done. done. }
      split; [|done]. rewrite Hc, Hc'.
      clear. induction l1 as [|x l1 IH]; simpl; [done|]. by rewrite IH.
    + destruct Hpost as (_&Hno&_). exfalso. apply Hno.
      apply list_elem_of_fmap. exists (k, v). split; [done|].
      eapply list_elem_of_lookup_2. apply Hkv'.
  - (* the pair is removed in place *)
    rewrite leaf_RemoveAt_rec by lia. mstep.
    set (kvs' := delete (it_idx it) kvs).
    assert (Hlen' : length kvs' = length kvs - 1) by (apply length_delete; eauto).
    destruct HR as (Hroot&HL&Hwf&Hsz&Hht&Hfront&Hn&Hfuel).
    assert (Hnd : NoDup (aleaves t).*1).
    { destruct HL as (_&_&Hnd&_). by rewrite fleaves_single, app_nil_r in Hnd. }
    rewrite HA in Hnd.
    assert (Hdata : ∀ kvs0, (it_node it, kvs0) ∈ aleaves t → kvs0 = kvs).
    { rewrite HA. by apply NoDup_data. }
    pose proof minNodes_eq as Hmin. pose proof maxNodes_eq as Hmax.
    assert (Hmin' : ht ≠ 0 → minNodes ≤ length kvs').
    { intros Hne. destruct ht as [|ht]; [done|].
      pose proof (wf_leaves_min _ _ _ _ Hwf) as Hall. rewrite HA in Hall.
      apply Forall_app in Hall as [_ Hall]. apply Forall_cons in Hall as [Hk _].
      simpl in Hk.
      assert (it_node it ≠ m_root m).
      { destruct (wf_node _ _ _ _ Hwf) as (b&ks&cs&->).
        destruct (LocF_node_open _ _ _ _ _ _ _ HL) as (Hb&_). simpl in Hroot.
        intros E. rewrite E, <- Hroot, Hb in Ha. discriminate. }
      assert (length kvs ≠ minNodes) by (intros E; apply Hcond; done). lia. }
    destruct (wf_aset_top ht None None (it_node it) kvs kvs' t Hwf) as (Hwf'&Hs1&Hs2);
      try done; try lia.
    { intros lo hi Hinc. unfold kvs'. rewrite list_fmap_delete. by apply inc_delete. }
    set (t' := aset (it_node it) kvs' t) in *.
    change (CLeaf (leaf_rec zeroV (hd_or B.*1 None) (last_or None A.*1) kvs'))
      with (leaf_cell (hd_or B.*1 None) (last_or None A.*1) kvs').
    set (m' := set_n (put m (it_node it) _) _).
    assert (Hal : aleaves t' = A ++ (it_node it, kvs') :: B).
    { unfold t'. rewrite aleaves_aset, HA. by apply lset_middle. }
    assert (Hcont : contents t' = delete p (contents t)).
    { unfold contents. rewrite Hal, HA. fold (total (A ++ (it_node it, kvs') :: B)).
      fold (total (A ++ (it_node it, kvs) :: B)).
      rewrite !total_app, !total_cons, Hpdef. by rewrite delete_app_middle. }
    assert (HR' : Rep m' ht t').
    { split_and!; try done.
      - unfold t'. by rewrite raddr_aset.
      - apply LocF_set_n. unfold t'. eapply LocF_aset; try done. lia.
      - lia.
      - intros Hne. rewrite Hs2 by done. auto.
      - unfold t'. by rewrite leaves_aset.
      - simpl. rewrite Hcont, Hn.
        rewrite length_delete; [|apply lookup_lt_is_Some_2].
        + assert (0 < length (contents t)); [|lia].
          apply lookup_lt_Some in Hkv'. unfold total in Hkv'. fold (contents t) in Hkv'. lia.
        + apply lookup_lt_Some in Hkv'. unfold total in Hkv'. by fold (contents t) in Hkv'.
      - simpl. by rewrite length_insert. }
    assert (Hres : ∀ it', pos_or_end (aleaves t') it' p →
      ∃ it'0 m'0 ht' t'0, Some (it', m') = Some (it'0, m'0) ∧ Rep m'0 ht' t'0 ∧
        contents t'0 = delete p (contents t) ∧ pos_or_end (aleaves t'0) it'0 p).
    { intros it' Hit. by exists it', m', ht, t'. }
    cbn [lf_next lf_n leaf_rec].
    destruct B as [|[b kvb] B]; cbn [hd_or fmap list_fmap fst].
    + apply Hres. rewrite Hal. destruct (decide (it_idx it = length kvs')) as [E|E].
      * right. split.
        -- rewrite total_app, total_cons, !length_app, Hpdef. unfold total. simpl. lia.
        -- exists A, kvs'. done.
      * left. exists A, kvs', []. simpl. split_and!; [done|lia|done].
    + destruct (decide (length kvs' = it_idx it)) as [E|E]; apply Hres; rewrite Hal; left.
      * exists (A ++ [(it_node it, kvs')]), kvb, B. simpl. split_and!.
        -- by rewrite <- (assoc_L (++)).
        -- destruct HC' as (_&_&[Hne|Hne]&_).
           ++ rewrite length_app in Hne. simpl in Hne. lia.
           ++ apply Forall_app in Hne as [_ Hne]. apply Forall_cons in Hne as [_ Hne].
              apply Forall_cons in Hne as [Hne _]. done.
        -- fold (total (A ++ [(it_node it, kvs')])). rewrite total_app, length_app.
           rewrite total_cons, length_app, Hpdef. unfold total. simpl. lia.
      * exists A, kvs', ((b, kvb) :: B). simpl. split_and!; [done|lia|done].
Qed.

(** ** Clear *)

Lemma Clear_Rep m ht t :
  Rep m ht t → ∃ ht' t', Rep (Clear zeroV m) ht' t' ∧ contents t' = [].
Proof.
  intros HR. pose proof HR as (Hroot&HL&Hwf&Hsz&Hht&Hfront&Hn&Hfuel).
  unfold Clear. destruct (decide (m_n m = 0%Z)) as [E|E].
  - exists ht, t. split; [done|]. rewrite E in Hn. apply nil_length_inv. lia.
  - simpl. exists 0, (ALeaf (length (m_heap m)) []). split; [|done].
    set (r := length (m_heap m)).
    assert (Hr : (m_heap m ++ [CLeaf (mkLeaf None None (zeros zeroV) (zeros 0%Z) 0)]) !! r
                 = Some (leaf_cell None None [])).
    { unfold r. rewrite lookup_app_r by done. rewrite Nat.sub_diag. simpl.
      unfold leaf_cell, leaf_rec. simpl. by rewrite !pad_nil. }
    split_and!; simpl; try done; try lia.
    + split_and!; simpl.
      * constructor; [|constructor]. econstructor; [apply Hr|]. simpl. lia.
      * apply NoDup_singleton.
      * apply NoDup_singleton.
      * split; [|done]. eexists. split; [apply Hr|]. done.
      * done.
    + rewrite length_app. simpl. lia.
Qed.
End LeafUpdate.

(** * Iterators over a map, and runs of operations *)

Section Iterators.
Context {V : Type} (zeroV : V).
Local Abbreviation cell := (@cell V).
Local Abbreviation Map := (@Map V).
Local Abbreviation atree := (atree V).
Local Abbreviation Rep := (Rep zeroV).
Local Abbreviation Inv := (Inv zeroV).
Local Abbreviation Chain := (Chain zeroV).
Implicit Types (m : Map) (kvs : list (Z * V)) (it : @Iterator).
Implicit Types (als : list (addr * list (Z * V))).

Lemma last_or_None (xs : list addr) : last_or None xs = None ↔ xs = [].
Proof.
  unfold last_or. destruct (last xs) eqn:E.
  - split; [done|]. intros ->. done.
  - apply last_None in E. done.
Qed.

(** the leaves before another leaf hold pairs *)
Lemma Chain_before m A a kvs B :
  Chain m (A ++ (a, kvs) :: B) → A ≠ [] → Forall (λ p, 0 < length p.2) A.
Proof.
  intros (_&_&Hne&_) HA. destruct Hne as [Hne|Hne].
  - rewrite length_app in Hne. simpl in Hne. destruct A; [done|simpl in Hne; lia].
  - by apply Forall_app in Hne as [Hne _].
Qed.

(** [Begin()] of an iterator at a pair *)
Lemma it_Begin_pos m als it p :
  Chain m als → at_pos als it p → it_Begin m it = Some (bool_decide (p = 0)).
Proof.
  intros HC (A&kvs&B&->&Hi&->). destruct (Chain_leaf _ _ _ _ _ _ HC) as [Ha Hlen].
  unfold it_Begin, get_leaf. rewrite Ha. mstep. f_equal. apply bool_decide_ext.
  rewrite last_or_None. split.
  - intros [-> HA]. apply fmap_nil_inv in HA. subst A. done.
  - intros H0. split; [lia|]. destruct A as [|[b kvb] A]; [done|].
    pose proof (Chain_before _ _ _ _ _ HC ltac:(done)) as Hne.
    apply Forall_cons in Hne as [Hne _]. simpl in *. rewrite length_app in H0. lia.
Qed.

(** [Prev()] moves to the pair before *)
Lemma it_Prev_pos m als it p :
  Chain m als → pos_or_end als it (S p) →
  ∃ it', it_Prev m it = Some it' ∧ at_pos als it' p.
Proof.
  intros HC [(A&kvs&B&->&Hi&Hp)|[Hp (A&kvs&->&Hi)]].
  - destruct it as [a [|i]]; simpl in *.
    + assert (HA : A ≠ []) by (intros ->; simpl in Hp; lia).
      destruct (snoc_inv A) as (A'&[b kvb]&->).
      { destruct A; [done|simpl; lia]. }
      pose proof (Chain_before _ _ _ _ _ HC HA) as Hne.
      apply Forall_app in Hne as [_ Hne]. apply Forall_cons in Hne as [Hne _].
      simpl in Hne.
      destruct (Chain_leaf _ _ _ _ _ _ HC) as [Ha _].
      rewrite <- (assoc_L (++)) in HC. simpl in HC.
      destruct (Chain_leaf _ _ _ _ _ _ HC) as [Hb _].
      unfold it_Prev, get_leaf. simpl. rewrite Ha. mstep.
      rewrite fmap_app. simpl. unfold last_or at 1. rewrite last_snoc. mstep.
      rewrite Hb. mstep. destruct (length kvb) as [|n] eqn:En; [lia|]. simpl.
      eexists. split; [done|]. exists A', kvb, ((a, kvs) :: B). simpl.
      split_and!; [by rewrite <- (assoc_L (++))|lia|].
      rewrite fmap_app, concat_app, length_app in Hp. simpl in Hp.
      rewrite app_nil_r in Hp. lia.
    + unfold it_Prev. simpl. eexists. split; [done|].
      exists A, kvs, B. simpl. split_and!; [done|lia|lia].
  - rewrite total_app, length_app in Hp. unfold total at 2 in Hp. simpl in Hp.
    rewrite app_nil_r in Hp.
    destruct it as [a [|i]]; simpl in *.
    + exfalso. assert (HA : A ≠ []).
      { intros ->. unfold total in Hp. simpl in Hp. lia. }
      destruct HC as (_&_&[Hne|Hne]&_).
      * rewrite length_app in Hne. simpl in Hne. destruct A; [done|simpl in Hne; lia].
      * apply Forall_app in Hne as [_ Hne]. apply Forall_cons in Hne as [Hne _].
        simpl in Hne. lia.
    + unfold it_Prev. simpl. eexists. split; [done|].
      exists A, kvs, []. simpl. split_and!; [done|lia|]. unfold total in Hp. lia.
Qed.

(** [End()] is the iterator past the last pair *)
Lemma End_at_end m als it : Chain m als → at_end als it → End m = Some it.
Proof.
  intros HC (A&kvs&->&Hi). destruct (Chain_leaf _ _ _ _ _ _ HC) as [Ha _].
  destruct HC as (_&_&_&_&Hback&_).
  rewrite fmap_app in Hback. simpl in Hback. rewrite last_snoc in Hback.
  inversion Hback as [Hb].
  unfold End, get_leaf. rewrite <- Hb, Ha. mstep. destruct it as [a i]. simpl in *.
  by rewrite Hi.
Qed.

(** an iterator past the last pair is not at a pair *)
Lemma pos_or_end_lt als it p :
  pos_or_end als it p → p < length (total als) → at_pos als it p.
Proof. intros [H|[-> _]] Hlt; [done|lia]. Qed.

Lemma at_pos_lt als it p : at_pos als it p → p < length (total als).
Proof.
  intros (A&kvs&B&->&Hi&->). rewrite total_app, total_cons, !length_app.
  unfold total. lia.
Qed.

(** [p] calls of [Next()] from [Begin()] lead to the pair number [p] *)
Lemma iter_at_pos m als p :
  Chain m als → p ≤ length (total als) →
  ∃ it, iter_at m p = Some it ∧ pos_or_end als it p.
Proof.
  intros HC. induction p as [|p IH]; intros Hp; simpl.
  - eexists. split; [done|]. by eapply Begin_pos.
  - destruct IH as (it&->&Hit); [lia|]. mstep.
    apply pos_or_end_lt in Hit; [|lia]. by eapply it_Next_pos.
Qed.

Lemma Inv_Chain m kvs : Inv m kvs → ∃ als, Chain m als ∧ total als = kvs.
Proof. intros (ht&t&HR&<-). exists (aleaves t). split; [by eapply Rep_Chain|done]. Qed.

(** ** Runs *)

Lemma run_op_Rep o m ht t :
  Rep m ht t → ∃ m' ht' t', run_op zeroV o m = Some m' ∧ Rep m' ht' t'.
Proof.
  intros HR. destruct o as [k v|k|k|]; simpl.
  - destruct (Insert_Rep zeroV k v m ht t HR) as (it&old&rep&m'&ht'&t'&->&HR'&_).
    simpl. eauto.
  - destruct (Remove_Rep zeroV k m ht t HR) as (old&ok&m'&ht'&t'&->&HR'&_).
    simpl. eauto.
  - destruct (LowerBound_Rep zeroV k m ht t HR) as (it&p&->&[Hp|[_ He]]&_); simpl.
    + destruct (RemoveIter_Rep zeroV m ht t it p HR Hp) as (it'&m'&ht'&t'&->&HR'&_).
      simpl. eauto.
    + rewrite (RemoveIter_end zeroV m it); [simpl; eauto|].
      eapply it_End_end; [by eapply Rep_Chain|done].
  - destruct (Clear_Rep zeroV m ht t HR) as (ht'&t'&HR'&_). eauto.
Qed.

Lemma run_ops_Rep os :
  ∀ m ht t, Rep m ht t → ∃ m' ht' t', run_ops zeroV os m = Some m' ∧ Rep m' ht' t'.
Proof.
  induction os as [|o os IH]; intros m ht t HR; simpl; [eauto|].
  destruct (run_op_Rep o m ht t HR) as (m1&ht1&t1&->&HR1). simpl. eauto.
Qed.

(** every run from the empty map ends in a map that is well formed *)
Lemma run_ops_New os :
  ∃ m ht t, run_ops zeroV os (New zeroV) = Some m ∧ Rep m ht t.
Proof. eapply run_ops_Rep. apply Rep_New. Qed.

Lemma run_Rep os m :
  run_ops zeroV os (New zeroV) = Some m → ∃ ht t, Rep m ht t.
Proof.
  intros H. destruct (run_ops_New os) as (m'&ht&t&H'&HR). rewrite H in H'.
  inversion H'; subst. eauto.
Qed.

Lemma run_Inv os m :
  run_ops zeroV os (New zeroV) = Some m → ∃ kvs, Inv m kvs.
Proof. intros H. destruct (run_Rep os m H) as (ht&t&HR). exists (contents t), ht, t. done. Qed.

Lemma run_ops_app os1 os2 m :
  run_ops zeroV (os1 ++ os2) m = (m' ← run_ops zeroV os1 m; run_ops zeroV os2 m').
Proof.
  revert m. induction os1 as [|o os1 IH]; intros m; simpl; [done|].
  destruct (run_op zeroV o m); simpl; [apply IH|done].
Qed.
End Iterators.

(** * The nodes of a well-formed map *)

Section Nodes.
Context {V : Type} (zeroV : V).
Local Abbreviation cell := (@cell V).
Local Abbreviation Map := (@Map V).
Local Abbreviation atree := (atree V).
Local Abbreviation repr := (repr zeroV).
Local Abbreviation LocF := (LocF zeroV).
Local Abbreviation Rep := (Rep zeroV).
Local Abbreviation node_rec := (@node_rec V).
Local Abbreviation leaf_rec := (leaf_rec zeroV).
Implicit Types (h : list cell) (t ct : atree) (ts cs : list atree) (m : Map).
Implicit Types (kvs : list (Z * V)) (ks : list Z).

(** the subtree [t] of height [ht] with the bounds [lo] and [hi] sits
    at the node [x] *)
Definition located (m : Map) (x : addr) (ht : nat) (lo hi : option Z) (t : atree)
  : Prop :=
  raddr t = x ∧ (∃ L1 L2, LocF m [t] L1 L2) ∧ wf ht lo hi t ∧
  (x ≠ m_root m → minNodes ≤ asize t).

Lemma get_inode_repr m t nd :
  repr (m_heap m) t → get_inode m (raddr t) = Some nd →
  ∃ a ks cs, t = ANode a ks cs ∧ nd = node_rec ks cs.
Proof.
  intros Hr. unfold get_inode. apply repr_lookup in Hr. destruct t as [a kvs|a ks cs].
  - destruct Hr as (nx&pv&Hr). simpl. rewrite Hr. done.
  - simpl. rewrite Hr. simpl. intros [= <-]. eauto.
Qed.

Lemma get_leaf_repr m t l :
  repr (m_heap m) t → get_leaf m (raddr t) = Some l →
  ∃ a kvs nx pv, t = ALeaf a kvs ∧ l = leaf_rec nx pv kvs.
Proof.
  intros Hr. unfold get_leaf. apply repr_lookup in Hr. destruct t as [a kvs|a ks cs].
  - destruct Hr as (nx&pv&Hr). simpl. rewrite Hr. simpl. intros [= <-]. eauto 6.
  - simpl. rewrite Hr. done.
Qed.

Lemma node_rec_child ks cs i c :
  i < length cs → in_nodes (node_rec ks cs) !! i = Some (Some c) →
  ∃ ct, cs !! i = Some ct ∧ raddr ct = c.
Proof.
  intros Hi. simpl. rewrite lookup_pad_lt by (by rewrite length_fmap).
  rewrite list_lookup_fmap. destruct (cs !! i) as [ct|]; simpl; [|done].
  intros [= <-]. eauto.
Qed.

Lemma node_rec_key ks cs i : i < length ks → in_keys (node_rec ks cs) !! i = ks !! i.
Proof. intros Hi. simpl. by rewrite lookup_pad_lt. Qed.

(** the children of a located node are located *)
Lemma located_child m a ks cs ht lo hi i c :
  located m a ht lo hi (ANode a ks cs) → i < length ks →
  in_nodes (node_rec ks cs) !! i = Some (Some c) →
  ∃ ht' ks1 k ks2 cs1 ct cs2,
    ht = S ht' ∧ ks = ks1 ++ k :: ks2 ∧ cs = cs1 ++ ct :: cs2 ∧
    length ks1 = i ∧ length cs1 = i ∧
    located m c ht' (lastb lo ks1) (Some k) ct.
Proof.
  intros (_&(L1&L2&HL)&Hwf&_) Hi Hc.
  destruct ht as [|ht']; [done|].
  pose proof (wf_asize_children _ _ _ _ _ _ Hwf) as Hlen.
  destruct (node_rec_child ks cs i c) as (ct&Hct&Hrc); [lia|done|].
  destruct (lookup_lt_is_Some_2 ks i Hi) as [k Hk].
  destruct (split_at_index _ _ _ Hk) as (ks1&ks2&->&Hl1).
  destruct (split_at_index _ _ _ Hct) as (cs1&cs2&->&Hl2).
  exists ht', ks1, k, ks2, cs1, ct, cs2. split_and!; try done.
  apply wf_node_at in Hwf as (_&_&[Hwc Hsz]&_); [|lia].
  destruct (LocF_node_open _ _ _ _ _ _ _ HL) as (_&_&_&_&HLcs).
  pose proof (LocF_focus _ m cs1 [ct] cs2 L1 L2 HLcs) as HLf.
  split_and!; [done|eauto|done|]. intros _. lia.
Qed.

(** every node of the tree is located *)
Lemma reach_located m ht0 t0 x :
  Rep m ht0 t0 → reach m x → ∃ ht lo hi t, located m x ht lo hi t.
Proof.
  intros HR. induction 1 as [|x nd i c Hx IH Hnd Hi Hc].
  - destruct HR as (Hroot&HL&Hwf&_). exists ht0, None, None, t0.
    split_and!; [done|eauto|done|done].
  - destruct IH as (ht&lo&hi&t&Hloc).
    pose proof Hloc as (Hrt&(L1&L2&HL)&Hwf&_).
    pose proof (LocF_repr_in _ _ _ _ _ t HL ltac:(apply list_elem_of_here)) as Hr.
    rewrite <- Hrt in Hnd. destruct (get_inode_repr _ _ _ Hr Hnd) as (a&ks&cs&->&->).
    simpl in Hrt. subst a. simpl in Hi.
    destruct (located_child _ _ _ _ _ _ _ _ _ Hloc Hi Hc)
      as (ht'&ks1&k&ks2&cs1&ct&cs2&_&_&_&_&_&Hloc').
    eauto.
Qed.

Lemma located_repr m x ht lo hi t : located m x ht lo hi t → repr (m_heap m) t.
Proof.
  intros (_&(L1&L2&HL)&_). eapply LocF_repr_in; [done|]. apply list_elem_of_here.
Qed.

(** the keys stored below a node are keys of its subtree *)
Lemma stored_contents m x k :
  stored m x k → ∀ t, repr (m_heap m) t → raddr t = x → k ∈ (contents t).*1.
Proof.
  induction 1 as [x l i k Hl Hi Hk|x nd i c k Hnd Hi Hc Hst IH]; intros t Hr Hrt.
  - rewrite <- Hrt in Hl. destruct (get_leaf_repr _ _ _ Hr Hl) as (a&kvs&nx&pv&->&->).
    simpl in Hi, Hk. rewrite lookup_pad_lt in Hk by (by rewrite length_fmap).
    unfold contents. simpl. rewrite app_nil_r. by eapply list_elem_of_lookup_2.
  - rewrite <- Hrt in Hnd. destruct (get_inode_repr _ _ _ Hr Hnd) as (a&ks&cs&->&->).
    simpl in Hi. apply repr_node_inv in Hr as (_&_&Hlen&Hcs).
    destruct (node_rec_child ks cs i c) as (ct&Hct&Hrc); [lia|done|].
    destruct (split_at_index _ _ _ Hct) as (cs1&cs2&->&Hl2).
    rewrite contents_node_at, !fmap_app, !elem_of_app. right. left.
    apply IH; [|done]. rewrite Forall_forall in Hcs. apply Hcs.
    apply elem_of_app. right. apply list_elem_of_here.
Qed.

(** the keys stored at a leaf *)
Lemma stored_leaf_inv m x l k :
  get_leaf m x = Some l → stored m x k → k ∈ take (lf_n l) (lf_keys l).
Proof.
  intros Hl Hst. inversion Hst as [? l' i ? Hl' Hi Hk|? nd ? ? ? Hnd]; subst.
  - rewrite Hl in Hl'. inversion Hl'; subst l'.
    eapply list_elem_of_lookup_2. by rewrite lookup_take_lt.
  - unfold get_leaf in Hl. unfold get_inode in Hnd.
    destruct (m_heap m !! x) as [[?|?]|]; done.
Qed.

(** ** The routing keys *)

Lemma located_routing m x ht lo hi t nd :
  located m x ht lo hi t → get_inode m x = Some nd →
  StronglySorted Z.lt (take (in_n nd) (in_keys nd)) ∧
  (∀ i, i < in_n nd → ∃ c r, in_nodes nd !! i = Some (Some c) ∧ in_keys nd !! i = Some r) ∧
  ∀ i c k, i < in_n nd → in_nodes nd !! i = Some (Some c) → stored m c k →
    (∃ r, in_keys nd !! i = Some r ∧ (k ≤ r)%Z) ∧
    (∀ j r, j < i → in_keys nd !! j = Some r → (r < k)%Z).
Proof.
  intros Hloc Hnd. pose proof (located_repr _ _ _ _ _ _ Hloc) as Hr.
  pose proof Hloc as (Hrt&_&Hwf&_). rewrite <- Hrt in Hnd.
  destruct (get_inode_repr _ _ _ Hr Hnd) as (a&ks&cs&->&->).
  simpl in Hrt. subst a. split; [|split].
  - simpl. rewrite take_pad_le by done. rewrite firstn_all.
    eapply inc_StronglySorted. by eapply wf_inc in Hwf.
  - intros i Hi. simpl in Hi. apply repr_node_inv in Hr as (_&_&Hlen&_).
    destruct (lookup_lt_is_Some_2 ks i Hi) as [r Hkr].
    destruct (lookup_lt_is_Some_2 cs i ltac:(lia)) as [ct Hct].
    exists (raddr ct), r. split.
    + simpl. rewrite lookup_pad_lt by (rewrite length_fmap; lia).
      by rewrite list_lookup_fmap, Hct.
    + by rewrite node_rec_key.
  - intros i c k Hi Hc Hst. simpl in Hi.
    destruct (located_child _ _ _ _ _ _ _ _ _ Hloc Hi Hc)
      as (ht'&ks1&k0&ks2&cs1&ct&cs2&->&->&->&Hl1&Hl2&Hloc').
    pose proof (located_repr _ _ _ _ _ _ Hloc') as Hr'.
    pose proof Hloc' as (Hrt'&_&Hwf'&_).
    pose proof (stored_contents _ _ _ Hst ct Hr' Hrt') as Hin.
    pose proof (wf_contents_inc _ _ _ _ Hwf') as Hinc.
    apply inc_Forall in Hinc. rewrite Forall_forall in Hinc.
    destruct (Hinc _ Hin) as [Hlo Hhi]. simpl in Hhi.
    apply wf_inc in Hwf. simpl in Hwf. split.
    + exists k0. split; [|done]. rewrite node_rec_key by (rewrite length_app; simpl; lia).
      subst i. by apply list_lookup_middle.
    + intros j r Hj Hjr. rewrite node_rec_key in Hjr by (rewrite length_app; simpl; lia).
      rewrite lookup_app_l in Hjr by lia.
      apply inc_app in Hwf as [Hinc1 _].
      destruct (last ks1) as [y|] eqn:E.
      * rewrite (lastb_last _ _ _ E) in Hlo. simpl in Hlo.
        assert (r ≤ y)%Z; [|lia].
        eapply inc_elem_lt_last; [done| |done].
        by eapply list_elem_of_lookup_2.
      * apply last_None in E. subst ks1. simpl in Hl1. lia.
Qed.

(** ** Zero on vacate *)

Lemma located_zero_tail m x ht lo hi t :
  located m x ht lo hi t → ∃ c, m_heap m !! x = Some c ∧ zero_tail zeroV c.
Proof.
  intros Hloc. pose proof (located_repr _ _ _ _ _ _ Hloc) as Hr.
  destruct Hloc as (Hrt&_). subst x. inversion Hr as [a kvs nx pv Ha Hlen|a ks cs Ha Hlen Hcs _]; subst.
  - eexists. split; [done|]. intros i [Hi1 Hi2]. simpl in *.
    rewrite !lookup_pad_ge; (done || by rewrite length_fmap).
  - eexists. split; [done|]. intros i [Hi1 Hi2]. simpl in *.
    rewrite !lookup_pad_ge; try done. rewrite length_fmap. lia.
Qed.

(** ** Split and shift-left at a node of the tree *)

Lemma located_Size m x ht lo hi t n :
  located m x ht lo hi t → Size m x = Some n → asize t = n.
Proof.
  intros Hloc Hn. pose proof (located_repr _ _ _ _ _ _ Hloc) as Hr.
  destruct Hloc as (Hrt&_). rewrite <- Hrt, (Size_repr zeroV m t Hr) in Hn. by inversion Hn.
Qed.

Lemma located_Split m x ht lo hi t n :
  located m x ht lo hi t → Size m x = Some n →
  ∃ b m', Split zeroV x m = Some (b, m') ∧
          Size m' x = Some (n - n / 2) ∧ Size m' b = Some (n / 2).
Proof.
  intros Hloc Hn. pose proof (located_Size _ _ _ _ _ _ _ Hloc Hn) as Hsz.
  destruct Hloc as (Hrt&(L1&L2&HL)&_).
  destruct (Split_ok zeroV m t L1 L2 HL (length (m_heap m)) eq_refl)
    as (m'&Hrun&HL'&_).
  exists (length (m_heap m)), m'. rewrite <- Hrt. split; [done|].
  destruct (asplit_raddr t (length (m_heap m))) as [Ha Hb].
  destruct (asplit_sizes t (length (m_heap m))) as [Hs1 Hs2].
  rewrite Hsz in Hs1, Hs2.
  pose proof (Size_repr zeroV m' (asplit t (length (m_heap m))).1) as H1.
  pose proof (Size_repr zeroV m' (asplit t (length (m_heap m))).2) as H2.
  rewrite Ha, Hs1 in H1. rewrite Hb, Hs2 in H2.
  split; [apply H1|apply H2]; eapply LocF_repr_in; try done.
  - apply list_elem_of_here.
  - apply list_elem_of_further, list_elem_of_here.
Qed.

Lemma located_shiftLeft m x ht lo hi t nd i l r Lsz Rsz :
  located m x ht lo hi t → get_inode m x = Some nd → i + 1 < in_n nd →
  in_nodes nd !! i = Some (Some l) → in_nodes nd !! (i + 1) = Some (Some r) →
  Size m l = Some Lsz → Size m r = Some Rsz → Lsz ≤ Rsz + 1 →
  ∃ m', shiftLeft zeroV x (i + 1) m = Some m' ∧
        Size m' l = Some ((Lsz + Rsz + 1) / 2) ∧
        Size m' r = Some (Lsz + Rsz - (Lsz + Rsz + 1) / 2).
Proof.
  intros Hloc Hnd Hi Hl Hr HL HR Hle.
  pose proof (located_repr _ _ _ _ _ _ Hloc) as Hrep.
  pose proof Hloc as (Hrt&(L1&L2&HLoc)&Hwf&_). rewrite <- Hrt in Hnd.
  destruct (get_inode_repr _ _ _ Hrep Hnd) as (a&ks&cs&->&->).
  simpl in Hrt. subst a. simpl in Hi.
  pose proof (located_child m x ks cs ht lo hi i l Hloc ltac:(lia) Hl) as Hcl.
  pose proof (located_child m x ks cs ht lo hi (i + 1) r Hloc ltac:(lia) Hr) as Hcr.
  destruct Hcl as (ht'&ks1&k1&ks2'&cs1&lt&cs2'&->&->&->&Hl1&Hl2&Hlocl).
  destruct Hcr as (ht''&ks1'&k2&ks2&cs1''&rt&cs2&Hht&Hks&Hcs&Hl1'&Hl2'&Hlocr).
  inversion Hht; subst ht''. clear Hht.
  assert (Hks2 : ks2' = k2 :: ks2 ∧ ks1' = ks1 ++ [k1]).
  { assert (E : ks1 ++ k1 :: ks2' = (ks1 ++ [k1]) ++ ks2') by (by rewrite <- (assoc_L (++))).
    rewrite E in Hks. apply app_inj_1 in Hks as [-> ->]; [done|].
    rewrite length_app. simpl. lia. }
  assert (Hcs2 : cs2' = rt :: cs2 ∧ cs1'' = cs1 ++ [lt]).
  { assert (E : cs1 ++ lt :: cs2' = (cs1 ++ [lt]) ++ cs2') by (by rewrite <- (assoc_L (++))).
    rewrite E in Hcs. apply app_inj_1 in Hcs as [-> ->]; [done|].
    rewrite length_app. simpl. lia. }
  destruct Hks2 as [-> ->]. destruct Hcs2 as [-> ->]. clear Hks Hcs.
  pose proof (located_Size _ _ _ _ _ _ _ Hlocl HL) as HszL.
  pose proof (located_Size _ _ _ _ _ _ _ Hlocr HR) as HszR.
  pose proof Hlocl as (Hrl&_&Hwl&_). pose proof Hlocr as (Hrr&_&Hwr&_).
  assert (Hkind : is_leaf lt = is_leaf rt).
  { by rewrite (wf_is_leaf _ _ _ _ Hwl), (wf_is_leaf _ _ _ _ Hwr). }
  apply wf_node_at in Hwf as (_&_&[_ HbL]&Hrest); [|lia].
  simpl in Hrest. destruct Hrest as [[_ HbR] _].
  rewrite maxNodes_eq, minNodes_eq in HbL, HbR.
  set (j := (Lsz + Rsz + 1) / 2).
  assert (Hj : Lsz ≤ j ∧ j ≤ Lsz + Rsz ∧ j ≤ 32 ∧ 0 < j).
  { unfold j. halve (Lsz + Rsz + 1). lia. }
  destruct (shiftLeft_ok zeroV m x ks1 k1 k2 ks2 cs1 lt rt cs2 L1 L2 i j HLoc)
    as (m'&lk&Hrun&_&HL'&_); try done.
  { by rewrite HszL, HszR. }
  { lia. }
  { rewrite maxNodes_eq. lia. }
  { lia. }
  exists m'. split; [done|].
  destruct (ashift_raddr lt rt j) as [Ha Hb].
  destruct (ashift_asize lt rt j Hkind) as [Hs1 Hs2]; [lia|].
  pose proof (Size_repr zeroV m' (ashift lt rt j).1) as H1.
  pose proof (Size_repr zeroV m' (ashift lt rt j).2) as H2.
  rewrite Ha, Hs1, Hrl in H1. rewrite Hb, Hs2, Hrr, HszL, HszR in H2.
  split; [apply H1|apply H2]; eapply LocF_child_repr; try done.
  - apply elem_of_app. right. apply list_elem_of_here.
  - apply elem_of_app. right. apply list_elem_of_further, list_elem_of_here.
Qed.
End Nodes.

(** * The contracts of the public operations *)

Section Contracts.
Context {V : Type} (zeroV : V).
Local Abbreviation cell := (@cell V).
Local Abbreviation Map := (@Map V).
Local Abbreviation atree := (atree V).
Local Abbreviation Rep := (Rep zeroV).
Local Abbreviation Inv := (Inv zeroV).
Local Abbreviation Chain := (Chain zeroV).
Local Abbreviation New := (New zeroV).
Local Abbreviation run_ops := (run_ops zeroV).
Implicit Types (m : Map) (kvs : list (Z * V)) (it : @Iterator) (l : list (Z * V)).
Implicit Types (os : list (op V)).

Lemma last_value_Some l k : (∃ v, last_value l k = Some v) ↔ k ∈ l.*1.
Proof.
  induction l as [|[k' v'] l IH]; simpl.
  - split; [by intros [? ?]|by intros ?%elem_of_nil].
  - rewrite elem_of_cons, <- IH. destruct (last_value l k) as [v|].
    + split; eauto.
    + destruct (decide (k' = k)) as [->|Hne].
      * split; eauto.
      * split; [by intros [? ?]|]. intros [?|[? ?]]; done.
Qed.

(** the pairs after a row of insertions *)
Lemma inserts_Inv l :
  ∀ m kvs, Inv m kvs →
    ∃ m' kvs', run_ops (inserts l) m = Some m' ∧ Inv m' kvs' ∧
      ∀ k v, (k, v) ∈ kvs' ↔
             last_value l k = Some v ∨ (last_value l k = None ∧ (k, v) ∈ kvs).
Proof.
  induction l as [|[k0 v0] l IH]; intros m kvs HI.
  - exists m, kvs. split; [done|]. split; [done|]. intros k v. simpl.
    split; [by right|]. intros [?|[_ ?]]; done.
  - destruct (Insert_Inv zeroV k0 v0 m kvs HI) as (it&old&rep&m1&kvs1&Hrun&HI1&Hmem&_).
    destruct (IH m1 kvs1 HI1) as (m'&kvs'&Hr&HI'&Hmem').
    exists m', kvs'. split.
    { unfold inserts. rewrite fmap_cons. cbn [run_ops run_op fst snd].
      rewrite Hrun. simpl. done. }
    split; [done|]. intros k v. rewrite Hmem', Hmem. simpl.
    destruct (last_value l k) as [w|]; [intuition congruence|].
    destruct (decide (k0 = k)); intuition congruence.
Qed.

(** [Find] and [LowerBound] pass the map on as they got it *)
Lemma find_loop_frame fuel :
  ∀ node key m r m', find_loop zeroV fuel node key m = Some (r, m') → m' = m.
Proof.
  induction fuel as [|fuel IH]; intros node key m r m'; simpl; [done|].
  destruct (m_heap m !! node) as [[tnode|inode]|]; [| |done].
  - destruct (leaf_Keys tnode) as [ks|]; simpl; [|done].
    destruct (linearSearchOrdered ks key) as [i [|]].
    + destruct (lf_values tnode !! i); simpl; [|done]. by intros [= _ <-].
    + by intros [= _ <-].
  - destruct (inode_KeysForFindAndRemove inode) as [ks|]; simpl; [|done].
    destruct (linearSearchOrdered ks key) as [i ?].
    destruct (mjoin (in_nodes inode !! i)) as [c|]; simpl; [|done]. apply IH.
Qed.

Lemma lowerBound_loop_frame fuel :
  ∀ node key m it m', lowerBound_loop fuel node key m = Some (it, m') → m' = m.
Proof.
  induction fuel as [|fuel IH]; intros node key m r m'; simpl; [done|].
  destruct (m_heap m !! node) as [[tnode|inode]|]; [| |done].
  - destruct (leaf_Keys tnode) as [ks|]; simpl; [|done].
    destruct (linearSearchOrdered ks key) as [i ?].
    destruct (lf_next tnode); [destruct (decide _)|]; by intros [= _ <-].
  - destruct (inode_KeysForFindAndRemove inode) as [ks|]; simpl; [|done].
    destruct (linearSearchOrdered ks key) as [i ?].
    destruct (mjoin (in_nodes inode !! i)) as [c|]; simpl; [|done]. apply IH.
Qed.

Lemma Rep_Inv m ht t : Rep m ht t → Inv m (contents t).
Proof. intros HR. by exists ht, t. Qed.

(** the place of the lower bound in an ordered list *)
Lemma lb_pos_some key kvs p x :
  lb_pos key kvs p → x ∈ kvs.*1 → (key ≤ x)%Z → p < length kvs.
Proof.
  intros (Hp&Hbelow&_) Hx Hle. destruct (decide (p < length kvs)) as [|Hge]; [done|].
  rewrite take_ge in Hbelow by lia. apply list_elem_of_fmap in Hx as ([k v]&->&Hin).
  rewrite Forall_forall in Hbelow. apply Hbelow in Hin. simpl in *. lia.
Qed.

Lemma lb_pos_none key kvs p :
  lb_pos key kvs p → (∀ x, x ∈ kvs.*1 → (x < key)%Z) → p = length kvs.
Proof.
  intros (Hp&_&Habove) Hall. destruct (decide (p = length kvs)) as [|Hne]; [done|].
  destruct (lookup_lt_is_Some_2 kvs p) as [[k v] Hkv]; [lia|].
  rewrite Forall_forall in Habove.
  assert (Hin : (k, v) ∈ drop p kvs).
  { eapply list_elem_of_lookup_2. rewrite lookup_drop. by rewrite Nat.add_0_r. }
  apply Habove in Hin. simpl in Hin.
  assert (k < key)%Z; [|lia]. apply Hall. apply list_elem_of_fmap. exists (k, v).
  split; [done|]. by eapply list_elem_of_lookup_2.
Qed.

Lemma lb_pos_before key kvs p j kv :
  lb_pos key kvs p → j < p → kvs !! j = Some kv → (kv.1 < key)%Z.
Proof.
  intros (_&Hbelow&_) Hj Hkv. rewrite Forall_forall in Hbelow. apply Hbelow.
  eapply list_elem_of_lookup_2. by rewrite lookup_take_lt.
Qed.

Lemma lb_pos_at key kvs p kv :
  lb_pos key kvs p → kvs !! p = Some kv → (key ≤ kv.1)%Z.
Proof.
  intros (_&_&Habove) Hkv. rewrite Forall_forall in Habove. apply Habove.
  eapply list_elem_of_lookup_2. rewrite lookup_drop. by rewrite Nat.add_0_r.
Qed.

(** the keys of an ordered list grow with the index *)
Lemma sorted_lookup_le (ks : list Z) i j x y :
  StronglySorted Z.lt ks → ks !! i = Some x → ks !! j = Some y → i ≤ j → (x ≤ y)%Z.
Proof.
  intros Hs. revert i j. induction Hs as [|k ks Hs IH Hall]; intros i j Hi Hj Hij; [done|].
  destruct i as [|i], j as [|j]; simpl in *; try lia.
  - inversion Hi; inversion Hj; subst. lia.
  - inversion Hi; subst. rewrite Forall_forall in Hall.
    apply list_elem_of_lookup_2 in Hj. apply Hall in Hj. lia.
  - eapply IH; eauto. lia.
Qed.

(** ** The claims *)

(** C1 (round trip, confirmed): [Insert] called for each pair of a list
    [l] in turn on the empty map succeeds; iterating the map from
    [Begin()] to the end then yields pairs whose keys are strictly
    ascending, are exactly the keys of [l], and each come with the value
    of the last pair of [l] with that key. *)
Theorem C1_round_trip l :
  ∃ m kvs,
    run_ops (inserts l) New = Some m ∧
    Seq m (Begin m) = Some kvs ∧ Keys m = Some kvs.*1 ∧
    StronglySorted Z.lt kvs.*1 ∧
    (∀ k, k ∈ kvs.*1 ↔ k ∈ l.*1) ∧
    (∀ k v, (k, v) ∈ kvs ↔ last_value l k = Some v).
Proof.
  destruct (inserts_Inv l New [] (Inv_New zeroV)) as (m&kvs&Hrun&HI&Hmem).
  assert (Hmem' : ∀ k v, (k, v) ∈ kvs ↔ last_value l k = Some v).
  { intros k v. rewrite Hmem. split; [|by left].
    intros [H|[_ H]]; [done|]. by apply elem_of_nil in H. }
  exists m, kvs. split_and!; try done.
  - by apply Inv_Seq in HI.
  - unfold Keys. by rewrite (Inv_Seq _ _ _ HI).
  - by eapply Inv_sorted.
  - intros k. rewrite <- (last_value_Some l k). split.
    + intros ([k' v]&->&Hin)%list_elem_of_fmap. exists v. by apply Hmem'.
    + intros [v Hv]. apply list_elem_of_fmap. exists (k, v). split; [done|].
      by apply Hmem'.
Qed.

(** C3 (the contract of Insert, confirmed): on a map built by the public
    operations, [Insert(k, v)] returns an iterator whose [Key()] is [k]
    and whose [Value()] is [v]; when [k] was stored it returns the value
    stored with it and [true], and [Len()] is as before; when [k] was
    not stored it returns the zero value and [false], and [Len()] is one
    more. *)
Theorem C3_insert_contract os m k v :
  run_ops os New = Some m →
  ∃ kvs it old rep m',
    Seq m (Begin m) = Some kvs ∧
    Insert zeroV k v m = Some ((it, old, rep), m') ∧
    it_Key m' it = Some k ∧ it_Value m' it = Some v ∧
    (if rep : bool
     then (k, old) ∈ kvs ∧ Len m' = Len m
     else (k ∉ kvs.*1) ∧ old = zeroV ∧ Len m' = (Len m + 1)%Z).
Proof.
  intros Hrun. destruct (run_Inv zeroV os m Hrun) as (kvs&HI).
  destruct (Insert_Inv zeroV k v m kvs HI)
    as (it&old&rep&m'&kvs'&Hins&HI'&_&Hrep&Hold&Hzero&Hk&Hv&Hlen).
  exists kvs, it, old, rep, m'. split_and!; try done; [by apply Inv_Seq in HI|].
  rewrite (Inv_Len _ _ _ HI), (Inv_Len _ _ _ HI'), Hlen. destruct rep.
  - split; [by apply Hold|done].
  - split_and!; [|by apply Hzero|lia]. intros Hin. by apply Hrep in Hin.
Qed.

(** C4 (the contract of Remove, confirmed): on a map built by the public
    operations, [Remove(k)] returns the value stored with [k] and [true]
    when [k] is stored, and then exactly that pair is gone and [Len()]
    is one less; it returns the zero value and [false] when [k] is not
    stored, and then the pairs yielded from [Begin()] and [Len()] are as
    before. *)
Theorem C4_remove_contract os m k :
  run_ops os New = Some m →
  ∃ kvs old ok m' kvs',
    Seq m (Begin m) = Some kvs ∧
    Remove zeroV k m = Some ((old, ok), m') ∧
    Seq m' (Begin m') = Some kvs' ∧
    (if ok : bool
     then (k, old) ∈ kvs ∧ Len m' = (Len m - 1)%Z ∧
          ∃ l1 l2, kvs = l1 ++ (k, old) :: l2 ∧ kvs' = l1 ++ l2
     else (k ∉ kvs.*1) ∧ old = zeroV ∧ kvs' = kvs ∧ Len m' = Len m).
Proof.
  intros Hrun. destruct (run_Rep zeroV os m Hrun) as (ht&t&HR).
  destruct (Remove_Rep zeroV k m ht t HR) as (old&ok&m'&ht'&t'&Hrem&HR'&Hpost).
  pose proof (Rep_Inv _ _ _ HR) as HI. pose proof (Rep_Inv _ _ _ HR') as HI'.
  exists (contents t), old, ok, m', (contents t').
  split_and!; try done; [by apply Inv_Seq in HI|by apply Inv_Seq in HI'|].
  rewrite (Inv_Len _ _ _ HI), (Inv_Len _ _ _ HI'). destruct ok.
  - destruct Hpost as (l1&l2&Hc&Hc'). split_and!; [| |eauto].
    + rewrite Hc. apply elem_of_app. right. apply list_elem_of_here.
    + rewrite Hc, Hc', !length_app. simpl. lia.
  - destruct Hpost as (Hc&Hnot&Hz). split_and!; try done. by rewrite Hc.
Qed.

(** C5 (the contract of RemoveIter, confirmed): on a map built by the
    public operations, [RemoveIter(it)] returns [it] and the map as it
    was when [it.End()] is true; for the iterator at the pair number [p]
    (reached from [Begin()] by [p] calls of [Next()]) it removes exactly
    that pair, [Len()] is one less, and the iterator returned is at the
    pair that followed the removed one, or is [End()] of the map when
    there was none. *)
Theorem C5_removeiter_contract os m :
  run_ops os New = Some m →
  ∃ kvs,
    Seq m (Begin m) = Some kvs ∧
    (∀ it, it_End m it = Some true → RemoveIter zeroV it m = Some (it, m)) ∧
    (∀ p it, p < length kvs → iter_at m p = Some it →
       ∃ kv it' m',
         it_End m it = Some false ∧
         kvs !! p = Some kv ∧ it_Key m it = Some kv.1 ∧ it_Value m it = Some kv.2 ∧
         RemoveIter zeroV it m = Some (it', m') ∧
         Seq m' (Begin m') = Some (delete p kvs) ∧
         Len m' = (Len m - 1)%Z ∧
         match kvs !! S p with
         | Some kv' => it_Key m' it' = Some kv'.1 ∧ it_Value m' it' = Some kv'.2
         | None => End m' = Some it'
         end).
Proof.
  intros Hrun. destruct (run_Rep zeroV os m Hrun) as (ht&t&HR).
  pose proof (Rep_Inv _ _ _ HR) as HI. pose proof (Rep_Chain _ _ _ _ HR) as HC.
  exists (contents t). split; [by apply Inv_Seq in HI|].
  split; [intros it; apply RemoveIter_end|].
  intros p it Hp Hit.
  destruct (iter_at_pos zeroV m (aleaves t) p HC) as (it0&Hit0&Hpos); [unfold total; fold (contents t); lia|].
  rewrite Hit in Hit0. inversion Hit0; subst it0. clear Hit0.
  apply pos_or_end_lt in Hpos; [|done].
  destruct (lookup_lt_is_Some_2 (contents t) p Hp) as [[k v] Hkv].
  destruct (it_Key_Value zeroV m _ it p k v HC Hpos Hkv) as [Hk Hv].
  destruct (RemoveIter_Rep zeroV m ht t it p HR Hpos) as (it'&m'&ht'&t'&Hrem&HR'&Hc'&Hpos').
  pose proof (Rep_Inv _ _ _ HR') as HI'. pose proof (Rep_Chain _ _ _ _ HR') as HC'.
  exists (k, v), it', m'. split_and!; try done.
  - by eapply it_End_pos.
  - rewrite <- Hc'. by apply Inv_Seq in HI'.
  - rewrite (Inv_Len _ _ _ HI), (Inv_Len _ _ _ HI'), Hc', length_delete by eauto. lia.
  - assert (Hdel : delete p (contents t) !! p = contents t !! S p).
    { by rewrite list_lookup_delete_ge by lia. }
    destruct (contents t !! S p) as [[k' v']|] eqn:E.
    + assert (Hlt : p < length (total (aleaves t'))).
      { unfold total. fold (contents t'). rewrite Hc'. by eapply lookup_lt_Some. }
      apply pos_or_end_lt in Hpos'; [|done].
      eapply it_Key_Value; [done|done|]. unfold total. fold (contents t').
      by rewrite Hc', Hdel.
    + destruct Hpos' as [Hpos'|[_ Hend]]; [|by eapply End_at_end].
      apply at_pos_lt in Hpos'. unfold total in Hpos'. fold (contents t') in Hpos'.
      rewrite Hc' in Hpos'. apply lookup_lt_is_Some_2 in Hpos' as [? Hsome].
      rewrite Hdel in Hsome. done.
Qed.

(** C6 (LowerBound, confirmed): on a map built by the public operations,
    [LowerBound(k)] returns, when some stored key is not below [k], an
    iterator whose [Key()] is the smallest stored key that is not below
    [k], and when that iterator is not [Begin()], [Prev()] of it is at a
    key below [k]; when every stored key is below [k] it returns
    [End()]. *)
Theorem C6_lower_bound os m k :
  run_ops os New = Some m →
  ∃ kvs it,
    Seq m (Begin m) = Some kvs ∧ LowerBound k m = Some (it, m) ∧
    ((∃ x, x ∈ kvs.*1 ∧ (k ≤ x)%Z) →
     ∃ x b, it_Key m it = Some x ∧ x ∈ kvs.*1 ∧ (k ≤ x)%Z ∧
            (∀ y, y ∈ kvs.*1 → (k ≤ y)%Z → (x ≤ y)%Z) ∧
            it_Begin m it = Some b ∧
            (b = false →
             ∃ it' y, it_Prev m it = Some it' ∧ it_Key m it' = Some y ∧ (y < k)%Z)) ∧
    ((∀ x, x ∈ kvs.*1 → (x < k)%Z) → End m = Some it).
Proof.
  intros Hrun. destruct (run_Rep zeroV os m Hrun) as (ht&t&HR).
  pose proof (Rep_Inv _ _ _ HR) as HI. pose proof (Rep_Chain _ _ _ _ HR) as HC.
  destruct (LowerBound_Rep zeroV k m ht t HR) as (it&p&Hlb&Hpos&Hp).
  exists (contents t), it. split; [by apply Inv_Seq in HI|]. split; [done|]. split.
  - intros (x&Hx&Hle). pose proof (lb_pos_some _ _ _ _ Hp Hx Hle) as Hlt.
    apply pos_or_end_lt in Hpos; [|done].
    destruct (lookup_lt_is_Some_2 (contents t) p Hlt) as [[x0 v0] Hkv].
    destruct (it_Key_Value zeroV m _ it p x0 v0 HC Hpos Hkv) as [Hk Hv].
    exists x0, (bool_decide (p = 0)). split_and!; try done.
    + apply list_elem_of_fmap. exists (x0, v0). split; [done|].
      by eapply list_elem_of_lookup_2.
    + apply (lb_pos_at _ _ _ _ Hp Hkv).
    + intros y Hy Hky. apply list_elem_of_lookup_1 in Hy as [j Hj].
      destruct (decide (j < p)) as [Hjp|Hjp].
      * rewrite list_lookup_fmap in Hj.
        destruct (contents t !! j) as [kv|] eqn:E; [|done]. simpl in Hj.
        inversion Hj; subst y. pose proof (lb_pos_before _ _ _ _ _ Hp Hjp E). lia.
      * eapply (sorted_lookup_le (contents t).*1 p j); [by eapply Inv_sorted| |done|lia].
        by rewrite list_lookup_fmap, Hkv.
    + by eapply it_Begin_pos.
    + intros Hb. apply bool_decide_eq_false in Hb.
      destruct p as [|p']; [done|].
      destruct (it_Prev_pos zeroV m _ it p' HC) as (it'&Hprev&Hpos'); [by left|].
      destruct (lookup_lt_is_Some_2 (contents t) p') as [[y w] Hyw]; [lia|].
      destruct (it_Key_Value zeroV m _ it' p' y w HC Hpos' Hyw) as [Hk' _].
      exists it', y. split_and!; try done.
      apply (lb_pos_before _ _ _ _ _ Hp (Nat.lt_succ_diag_r p') Hyw).
  - intros Hall. pose proof (lb_pos_none _ _ _ Hp Hall) as ->.
    destruct Hpos as [Hpos|[_ Hend]]; [|by eapply End_at_end].
    apply at_pos_lt in Hpos. unfold total in Hpos. fold (contents t) in Hpos. lia.
Qed.

(** C10 (Find and LowerBound change nothing, confirmed): on a map built
    by the public operations, [Find(k)] and [LowerBound(k)] return, and
    the map after the call is the map before it: the same root, front
    and back pointers, count, and cells. *)
Theorem C10_read_only os m k :
  run_ops os New = Some m →
  (∃ v ok, Find zeroV k m = Some ((v, ok), m)) ∧
  (∃ it, LowerBound k m = Some (it, m)).
Proof.
  intros Hrun. destruct (run_Rep zeroV os m Hrun) as (ht&t&HR). split.
  - destruct (Find_Rep zeroV k m ht t HR) as (v&ok&H&_). eauto.
  - destruct (LowerBound_Rep zeroV k m ht t HR) as (it&p&H&_). eauto.
Qed.

(** C2 (routing keys, as amended): after every run of the public
    operations, the routing keys [0..n) of every interior node of the
    tree are strictly increasing, every slot [i < n] holds a child and
    a routing key, and every key stored below [child[i]] is at most
    [routing[i]] and above the routing keys before it. *)
Theorem C2_routing_bounds os m x nd :
  run_ops os New = Some m → reach m x → get_inode m x = Some nd →
  StronglySorted Z.lt (take (in_n nd) (in_keys nd)) ∧
  (∀ i, i < in_n nd →
        ∃ c r, in_nodes nd !! i = Some (Some c) ∧ in_keys nd !! i = Some r) ∧
  ∀ i c k, i < in_n nd → in_nodes nd !! i = Some (Some c) → stored m c k →
    (∃ r, in_keys nd !! i = Some r ∧ (k ≤ r)%Z) ∧
    (∀ j r, j < i → in_keys nd !! j = Some r → (r < k)%Z).
Proof.
  intros Hrun Hx Hnd. destruct (run_Rep zeroV os m Hrun) as (ht&t&HR).
  destruct (reach_located zeroV m ht t x HR Hx) as (ht'&lo&hi&t'&Hloc).
  by eapply located_routing.
Qed.

(** C9 (zero on vacate, confirmed): after every run of the public
    operations, every node of the tree holds zero values in the slots
    [n, 2D) of its key array and of its value array (a leaf) or child
    array (an interior node). *)
Theorem C9_zero_on_vacate os m x :
  run_ops os New = Some m → reach m x →
  ∃ c, m_heap m !! x = Some c ∧ zero_tail zeroV c.
Proof.
  intros Hrun Hx. destruct (run_Rep zeroV os m Hrun) as (ht&t&HR).
  destruct (reach_located zeroV m ht t x HR Hx) as (ht'&lo&hi&t'&Hloc).
  by eapply located_zero_tail.
Qed.

(** C7 (split, as amended): splitting a full node (size [2D]) of the
    tree of a map built by the public operations succeeds and leaves
    two nodes of size [D] each: the two halves are at the minimum, not
    between [D+1] and [2D-1]. *)
Theorem C7_split_halves os m x :
  run_ops os New = Some m → reach m x → Size m x = Some maxNodes →
  ∃ b m', Split zeroV x m = Some (b, m') ∧
          Size m' x = Some minNodes ∧ Size m' b = Some minNodes ∧
          is_normal minNodes = false.
Proof.
  intros Hrun Hx Hsz. destruct (run_Rep zeroV os m Hrun) as (ht&t&HR).
  destruct (reach_located zeroV m ht t x HR Hx) as (ht'&lo&hi&t'&Hloc).
  destruct (located_Split zeroV m x ht' lo hi t' maxNodes Hloc Hsz) as (b&m'&H&H1&H2).
  exists b, m'. split_and!; done.
Qed.

(** C8 (shift-left, as amended): at an interior node of the tree of a
    map built by the public operations, shift-left on the siblings
    [child[i]] of size [Lsz] and [child[i+1]] of size [Rsz], with
    [Lsz <= Rsz + 1], succeeds and leaves the left sibling with
    [(Lsz+Rsz+1)/2] entries, the quotient rounded down, and the right
    sibling with the rest: the sizes differ by at most one and the left
    sibling holds the larger half. *)
Theorem C8_shift_left_sizes os m x nd i (l r : addr) Lsz Rsz :
  run_ops os New = Some m → reach m x → get_inode m x = Some nd →
  i + 1 < in_n nd →
  in_nodes nd !! i = Some (Some l) → in_nodes nd !! (i + 1) = Some (Some r) →
  Size m l = Some Lsz → Size m r = Some Rsz → Lsz ≤ Rsz + 1 →
  ∃ m' Lsz' Rsz',
    shiftLeft zeroV x (i + 1) m = Some m' ∧
    Size m' l = Some Lsz' ∧ Size m' r = Some Rsz' ∧
    Lsz' = (Lsz + Rsz + 1) / 2 ∧ Lsz' + Rsz' = Lsz + Rsz ∧
    Rsz' ≤ Lsz' ≤ Rsz' + 1.
Proof.
  intros Hrun Hx Hnd Hi Hl Hr HL HR Hle.
  destruct (run_Rep zeroV os m Hrun) as (ht&t&HRep).
  destruct (reach_located zeroV m ht t x HRep Hx) as (ht'&lo&hi&t'&Hloc).
  destruct (located_shiftLeft zeroV m x ht' lo hi t' nd i l r Lsz Rsz Hloc Hnd Hi Hl Hr HL HR Hle)
    as (m'&Hrun'&H1&H2).
  exists m', ((Lsz + Rsz + 1) / 2), (Lsz + Rsz - (Lsz + Rsz + 1) / 2).
  split_and!; try done; halve (Lsz + Rsz + 1); lia.
Qed.
End Contracts.

(** * The contracts on sample maps *)

(** The pairs [(0, 0), (1, 10), ..., (n-1, 10 (n-1))]. *)
Definition sample_pairs (n : nat) : list (Z * Z) :=
(λ i, (Z.of_nat i, Z.of_nat (10 * i))) <$> seq 0 n.

(** The map after a run, the empty map when the run fails. *)
Definition map_after (os : list (op Z)) : @Map Z :=
default (New 0%Z) (run_ops 0%Z os (New 0%Z)).

(** The interior node at the root, an empty node when the root is a leaf. *)
Definition root_node (m : @Map Z) : internalNode :=
default (mkInternal [] [] 0) (get_inode m (m_root m)).

(** 40 ascending insertions: a root with two leaves of 16 and 24 pairs. *)
Definition ops40 : list (op Z) := inserts (sample_pairs 40).
(** 32 ascending insertions: the root is a full leaf. *)
Definition ops32 : list (op Z) := inserts (sample_pairs 32).
(** 34 ascending insertions: a root with two leaves of 16 and 18 pairs. *)
Definition ops34 : list (op Z) := inserts (sample_pairs 34).
(** 33 ascending insertions, then the greatest key is removed. *)
Definition ops33r : list (op Z) := inserts (sample_pairs 33) ++ [ORemove 32%Z].

Lemma C3_insert_contract_witness :
run_ops 0%Z ops40 (New 0%Z) = Some (map_after ops40) ∧
∃ kvs it old rep m',
  Seq (map_after ops40) (Begin (map_after ops40)) = Some kvs ∧
  Insert 0%Z 7%Z 5%Z (map_after ops40) = Some ((it, old, rep), m') ∧
  it_Key m' it = Some 7%Z ∧ it_Value m' it = Some 5%Z ∧
  (if rep : bool
   then (7%Z, old) ∈ kvs ∧ Len m' = Len (map_after ops40)
   else (7%Z ∉ kvs.*1) ∧ old = 0%Z ∧ Len m' = (Len (map_after ops40) + 1)%Z).
Proof.
assert (H : run_ops 0%Z ops40 (New 0%Z) = Some (map_after ops40))
  by (vm_compute; reflexivity).
split; [exact H|].
exact (C3_insert_contract 0%Z ops40 (map_after ops40) 7%Z 5%Z H).
Defined.

Lemma C4_remove_contract_witness :
run_ops 0%Z ops40 (New 0%Z) = Some (map_after ops40) ∧
∃ kvs old ok m' kvs',
  Seq (map_after ops40) (Begin (map_after ops40)) = Some kvs ∧
  Remove 0%Z 3%Z (map_after ops40) = Some ((old, ok), m') ∧
  Seq m' (Begin m') = Some kvs' ∧
  (if ok : bool
   then (3%Z, old) ∈ kvs ∧ Len m' = (Len (map_after ops40) - 1)%Z ∧
        ∃ l1 l2, kvs = l1 ++ (3%Z, old) :: l2 ∧ kvs' = l1 ++ l2
   else (3%Z ∉ kvs.*1) ∧ old = 0%Z ∧ kvs' = kvs ∧ Len m' = Len (map_after ops40)).
Proof.
assert (H : run_ops 0%Z ops40 (New 0%Z) = Some (map_after ops40))
  by (vm_compute; reflexivity).
split; [exact H|].
exact (C4_remove_contract 0%Z ops40 (map_after ops40) 3%Z H).
Defined.

Lemma C5_removeiter_contract_witness :
run_ops 0%Z ops40 (New 0%Z) = Some (map_after ops40) ∧
∃ kvs,
  Seq (map_after ops40) (Begin (map_after ops40)) = Some kvs ∧
  (∀ it, it_End (map_after ops40) it = Some true →
         RemoveIter 0%Z it (map_after ops40) = Some (it, map_after ops40)) ∧
  (∀ p it, p < length kvs → iter_at (map_after ops40) p = Some it →
     ∃ kv it' m',
       it_End (map_after ops40) it = Some false ∧
       kvs !! p = Some kv ∧ it_Key (map_after ops40) it = Some kv.1 ∧
       it_Value (map_after ops40) it = Some kv.2 ∧
       RemoveIter 0%Z it (map_after ops40) = Some (it', m') ∧
       Seq m' (Begin m') = Some (delete p kvs) ∧
       Len m' = (Len (map_after ops40) - 1)%Z ∧
       match kvs !! S p with
       | Some kv' => it_Key m' it' = Some kv'.1 ∧ it_Value m' it' = Some kv'.2
       | None => End m' = Some it'
       end).
Proof.
assert (H : run_ops 0%Z ops40 (New 0%Z) = Some (map_after ops40))
  by (vm_compute; reflexivity).
split; [exact H|].
exact (C5_removeiter_contract 0%Z ops40 (map_after ops40) H).
Defined.

Lemma C6_lower_bound_witness :
run_ops 0%Z ops40 (New 0%Z) = Some (map_after ops40) ∧
∃ kvs it,
  Seq (map_after ops40) (Begin (map_after ops40)) = Some kvs ∧
  LowerBound 16%Z (map_after ops40) = Some (it, map_after ops40) ∧
  ((∃ x, x ∈ kvs.*1 ∧ (16 ≤ x)%Z) →
   ∃ x b, it_Key (map_after ops40) it = Some x ∧ x ∈ kvs.*1 ∧ (16 ≤ x)%Z ∧
          (∀ y, y ∈ kvs.*1 → (16 ≤ y)%Z → (x ≤ y)%Z) ∧
          it_Begin (map_after ops40) it = Some b ∧
          (b = false →
           ∃ it' y, it_Prev (map_after ops40) it = Some it' ∧
                    it_Key (map_after ops40) it' = Some y ∧ (y < 16)%Z)) ∧
  ((∀ x, x ∈ kvs.*1 → (x < 16)%Z) → End (map_after ops40) = Some it).
Proof.
assert (H : run_ops 0%Z ops40 (New 0%Z) = Some (map_after ops40))
  by (vm_compute; reflexivity).
split; [exact H|].
exact (C6_lower_bound 0%Z ops40 (map_after ops40) 16%Z H).
Defined.

Lemma C10_read_only_witness :
run_ops 0%Z ops40 (New 0%Z) = Some (map_after ops40) ∧
(∃ v ok, Find 0%Z 21%Z (map_after ops40) = Some ((v, ok), map_after ops40)) ∧
(∃ it, LowerBound 21%Z (map_after ops40) = Some (it, map_after ops40)).
Proof.
assert (H : run_ops 0%Z ops40 (New 0%Z) = Some (map_after ops40))
  by (vm_compute; reflexivity).
split; [exact H|].
exact (C10_read_only 0%Z ops40 (map_after ops40) 21%Z H).
Defined.

(** C2 as stated fails: after the insertions of [0..32] and the removal of
  [32], the routing key 1 of the root is still [32], which is no key
  stored below child 1 (whose greatest key is [31]). *)
Lemma C2_counterexample :
∃ m nd c,
  run_ops 0%Z ops33r (New 0%Z) = Some m ∧
  get_inode m (m_root m) = Some nd ∧ 1 < in_n nd ∧
  in_nodes nd !! 1 = Some (Some c) ∧ in_keys nd !! 1 = Some 32%Z ∧
  ¬ stored m c 32%Z.
Proof.
exists (map_after ops33r), (root_node (map_after ops33r)), 1.
split; [vm_compute; reflexivity|]. split; [vm_compute; reflexivity|].
split; [vm_compute; lia|]. split; [vm_compute; reflexivity|].
split; [vm_compute; reflexivity|].
intros Hst.
assert (Hl : ∃ l, get_leaf (map_after ops33r) 1 = Some l ∧
                  take (lf_n l) (lf_keys l) = (Z.of_nat <$> seq 16 16)).
{ eexists. split; vm_compute; reflexivity. }
destruct Hl as (l&Hl&Hks).
apply (stored_leaf_inv (map_after ops33r) 1 l 32%Z Hl) in Hst.
rewrite Hks in Hst. apply list_elem_of_fmap in Hst as (i&Hi&Hin).
apply elem_of_seq in Hin. lia.
Qed.

Lemma C2_routing_bounds_witness :
run_ops 0%Z ops33r (New 0%Z) = Some (map_after ops33r) ∧
reach (map_after ops33r) (m_root (map_after ops33r)) ∧
get_inode (map_after ops33r) (m_root (map_after ops33r))
  = Some (root_node (map_after ops33r)) ∧
(StronglySorted Z.lt
   (take (in_n (root_node (map_after ops33r))) (in_keys (root_node (map_after ops33r)))) ∧
 (∀ i, i < in_n (root_node (map_after ops33r)) →
       ∃ c r, in_nodes (root_node (map_after ops33r)) !! i = Some (Some c) ∧
              in_keys (root_node (map_after ops33r)) !! i = Some r) ∧
 ∀ i c k, i < in_n (root_node (map_after ops33r)) →
   in_nodes (root_node (map_after ops33r)) !! i = Some (Some c) →
   stored (map_after ops33r) c k →
   (∃ r, in_keys (root_node (map_after ops33r)) !! i = Some r ∧ (k ≤ r)%Z) ∧
   (∀ j r, j < i → in_keys (root_node (map_after ops33r)) !! j = Some r → (r < k)%Z)).
Proof.
assert (H : run_ops 0%Z ops33r (New 0%Z) = Some (map_after ops33r))
  by (vm_compute; reflexivity).
assert (Hn : get_inode (map_after ops33r) (m_root (map_after ops33r))
             = Some (root_node (map_after ops33r))) by (vm_compute; reflexivity).
split; [exact H|]. split; [apply reach_root|]. split; [exact Hn|].
exact (C2_routing_bounds 0%Z ops33r (map_after ops33r) (m_root (map_after ops33r))
         (root_node (map_after ops33r)) H (reach_root _) Hn).
Defined.

Lemma C9_zero_on_vacate_witness :
run_ops 0%Z ops33r (New 0%Z) = Some (map_after ops33r) ∧
reach (map_after ops33r) (m_root (map_after ops33r)) ∧
∃ c, m_heap (map_after ops33r) !! m_root (map_after ops33r) = Some c ∧
     zero_tail 0%Z c.
Proof.
assert (H : run_ops 0%Z ops33r (New 0%Z) = Some (map_after ops33r))
  by (vm_compute; reflexivity).
split; [exact H|]. split; [apply reach_root|].
exact (C9_zero_on_vacate 0%Z ops33r (map_after ops33r) (m_root (map_after ops33r))
         H (reach_root _)).
Defined.

(** C7 as stated fails: the full root leaf after 32 insertions splits into
  two leaves of 16 pairs each, and 16 is not a NORMAL size. *)
Lemma C7_counterexample :
∃ m b m',
  run_ops 0%Z ops32 (New 0%Z) = Some m ∧
  Size m (m_root m) = Some (2 * keyDegr) ∧
  Split 0%Z (m_root m) m = Some (b, m') ∧
  Size m' (m_root m) = Some 16 ∧ Size m' b = Some 16 ∧
  is_normal 16 = false.
Proof.
exists (map_after ops32), 1,
  (default (New 0%Z) (snd <$> Split 0%Z (m_root (map_after ops32)) (map_after ops32))).
split_and!; vm_compute; reflexivity.
Qed.

Lemma C7_split_halves_witness :
run_ops 0%Z ops32 (New 0%Z) = Some (map_after ops32) ∧
reach (map_after ops32) (m_root (map_after ops32)) ∧
Size (map_after ops32) (m_root (map_after ops32)) = Some maxNodes ∧
∃ b m', Split 0%Z (m_root (map_after ops32)) (map_after ops32) = Some (b, m') ∧
        Size m' (m_root (map_after ops32)) = Some minNodes ∧
        Size m' b = Some minNodes ∧
        is_normal minNodes = false.
Proof.
assert (H : run_ops 0%Z ops32 (New 0%Z) = Some (map_after ops32))
  by (vm_compute; reflexivity).
assert (Hs : Size (map_after ops32) (m_root (map_after ops32)) = Some maxNodes)
  by (vm_compute; reflexivity).
split; [exact H|]. split; [apply reach_root|]. split; [exact Hs|].
exact (C7_split_halves 0%Z ops32 (map_after ops32) (m_root (map_after ops32))
         H (reach_root _) Hs).
Defined.

(** The size the specification gives the left sibling after shift-left:
  the ceiling of [(Lsz + Rsz + 1) / 2]. *)
Definition spec_shift_left_size (Lsz Rsz : nat) : nat := (Lsz + Rsz + 1 + 1) / 2.

(** C8 as stated fails: with leaves of 16 and 18 pairs below the root,
  shift-left leaves 17 pairs in each, where the ceiling of
  [(16 + 18 + 1) / 2] is 18. *)
Lemma C8_counterexample :
∃ m nd l r m',
  run_ops 0%Z ops34 (New 0%Z) = Some m ∧
  get_inode m (m_root m) = Some nd ∧
  in_nodes nd !! 0 = Some (Some l) ∧ in_nodes nd !! 1 = Some (Some r) ∧
  Size m l = Some 16 ∧ Size m r = Some 18 ∧
  shiftLeft 0%Z (m_root m) 1 m = Some m' ∧
  Size m' l = Some 17 ∧ Size m' r = Some 17 ∧
  spec_shift_left_size 16 18 = 18.
Proof.
exists (map_after ops34), (root_node (map_after ops34)), 0, 1,
  (default (New 0%Z) (shiftLeft 0%Z (m_root (map_after ops34)) 1 (map_after ops34))).
split_and!; vm_compute; reflexivity.
Qed.

Lemma C8_shift_left_sizes_witness :
run_ops 0%Z ops34 (New 0%Z) = Some (map_after ops34) ∧
reach (map_after ops34) (m_root (map_after ops34)) ∧
get_inode (map_after ops34) (m_root (map_after ops34))
  = Some (root_node (map_after ops34)) ∧
0 + 1 < in_n (root_node (map_after ops34)) ∧
in_nodes (root_node (map_after ops34)) !! 0 = Some (Some 0) ∧
in_nodes (root_node (map_after ops34)) !! (0 + 1) = Some (Some 1) ∧
Size (map_after ops34) 0 = Some 16 ∧ Size (map_after ops34) 1 = Some 18 ∧
16 ≤ 18 + 1 ∧
∃ m' Lsz' Rsz',
  shiftLeft 0%Z (m_root (map_after ops34)) (0 + 1) (map_after ops34) = Some m' ∧
  Size m' 0 = Some Lsz' ∧ Size m' 1 = Some Rsz' ∧
  Lsz' = (16 + 18 + 1) / 2 ∧ Lsz' + Rsz' = 16 + 18 ∧
  Rsz' ≤ Lsz' ≤ Rsz' + 1.
Proof.
assert (H : run_ops 0%Z ops34 (New 0%Z) = Some (map_after ops34))
  by (vm_compute; reflexivity).
assert (Hn : get_inode (map_after ops34) (m_root (map_after ops34))
             = Some (root_node (map_after ops34))) by (vm_compute; reflexivity).
assert (Hi : 0 + 1 < in_n (root_node (map_after ops34))) by (vm_compute; lia).
assert (Hl : in_nodes (root_node (map_after ops34)) !! 0 = Some (Some 0))
  by (vm_compute; reflexivity).
assert (Hr : in_nodes (root_node (map_after ops34)) !! (0 + 1) = Some (Some 1))
  by (vm_compute; reflexivity).
assert (HL : Size (map_after ops34) 0 = Some 16) by (vm_compute; reflexivity).
assert (HR : Size (map_after ops34) 1 = Some 18) by (vm_compute; reflexivity).
assert (Hle : 16 ≤ 18 + 1) by lia.
split; [exact H|]. split; [apply reach_root|]. split; [exact Hn|].
split; [exact Hi|]. split; [exact Hl|]. split; [exact Hr|].
split; [exact HL|]. split; [exact HR|]. split; [exact Hle|].
exact (C8_shift_left_sizes 0%Z ops34 (map_after ops34) (m_root (map_after ops34))
         (root_node (map_after ops34)) 0 0 1 16 18 H (reach_root _) Hn Hi Hl Hr HL HR Hle).
Defined.

(** * The map as an ordered list of pairs *)

Section OrderedPairs.
Context {V : Type}.
Implicit Types (l xs ys : list (Z * V)) (k : Z) (v : V).

Lemma sorted_cons_lt (k : Z) (ks : list Z) x :
  StronglySorted Z.lt (k :: ks) → x ∈ ks → (k < x)%Z.
Proof. intros H Hx. inversion H as [|? ? _ Hall]; subst. rewrite Forall_forall in Hall. auto. Qed.

Lemma sorted_tail (k : Z) (ks : list Z) :
  StronglySorted Z.lt (k :: ks) → StronglySorted Z.lt ks.
Proof. by inversion 1. Qed.

(** a key of an ordered list stands there once *)
Lemma sorted_middle_notin xs k v ys :
  StronglySorted Z.lt (xs ++ (k, v) :: ys).*1 → (k ∉ xs.*1) ∧ (k ∉ ys.*1).
Proof.
  induction xs as [|[k1 v1] xs IH]; simpl; intros Hs.
  - split; [by intros ?%elem_of_nil|]. intros Hin.
    pose proof (sorted_cons_lt _ _ _ Hs Hin). lia.
  - destruct (IH (sorted_tail _ _ Hs)) as [H1 H2]. split; [|done].
    intros [->|Hin]%elem_of_cons; [|done].
    assert (k1 < k1)%Z; [|lia]. eapply sorted_cons_lt; [done|].
    rewrite fmap_app, elem_of_app. right. simpl. apply list_elem_of_here.
Qed.

Lemma kv_insert_middle xs k v ys :
  StronglySorted Z.lt (xs ++ (k, v) :: ys).*1 →
  kv_insert k v (xs ++ ys) = xs ++ (k, v) :: ys ∧
  ∀ old, kv_insert k v (xs ++ (k, old) :: ys) = xs ++ (k, v) :: ys.
Proof.
  induction xs as [|[k1 v1] xs IH]; simpl; intros Hs.
  - split.
    + destruct ys as [|[k2 v2] ys]; [done|]. simpl.
      assert (k < k2)%Z by (eapply sorted_cons_lt; [done|]; simpl; apply list_elem_of_here).
      by destruct (decide (k < k2)%Z).
    + intros old. destruct (decide (k < k)%Z); [lia|]. by destruct (decide (k = k)).
  - assert (k1 < k)%Z.
    { eapply sorted_cons_lt; [done|]. rewrite fmap_app, elem_of_app. right.
      simpl. apply list_elem_of_here. }
    destruct (IH (sorted_tail _ _ Hs)) as [H1 H2].
    destruct (decide (k < k1)%Z); [lia|]. destruct (decide (k = k1)); [lia|].
    split; [by rewrite H1|]. intros old. by rewrite H2.
Qed.

Lemma kv_remove_absent k l : k ∉ l.*1 → kv_remove k l = l.
Proof.
  unfold kv_remove. induction l as [|[k1 v1] l IH]; simpl; intros Hk; [done|].
  rewrite not_elem_of_cons in Hk. destruct Hk as [Hne Hk].
  rewrite filter_cons. simpl.
  destruct (decide (k1 ≠ k)) as [|Hn]; [|by destruct Hn; intros ->].
  by rewrite IH.
Qed.

Lemma kv_remove_middle xs k v ys :
  StronglySorted Z.lt (xs ++ (k, v) :: ys).*1 →
  kv_remove k (xs ++ (k, v) :: ys) = xs ++ ys.
Proof.
  intros Hs. destruct (sorted_middle_notin _ _ _ _ Hs) as [H1 H2].
  unfold kv_remove. rewrite filter_app, filter_cons. simpl.
  destruct (decide (k ≠ k)); [done|].
  fold (kv_remove k xs). fold (kv_remove k ys).
  by rewrite !kv_remove_absent.
Qed.

Lemma kv_remove_from_lb k l p :
  lb_pos k l p →
  kv_remove_from k l = (if decide (p < length l) then delete p l else l).
Proof.
  revert p. induction l as [|[k1 v1] l IH]; intros p (Hp&Hb&Ha); simpl.
  - by destruct (decide (p < 0)).
  - destruct p as [|p]; simpl in *.
    + apply Forall_cons in Ha as [Ha _]. simpl in Ha.
      destruct (decide (k ≤ k1)%Z); [|lia]. destruct (decide (0 < S (length l))); [done|lia].
    + apply Forall_cons in Hb as [Hb1 Hb]. simpl in Hb1.
      destruct (decide (k ≤ k1)%Z); [lia|].
      rewrite (IH p); [|split_and!; [lia|done|done]].
      destruct (decide (p < length l)), (decide (S p < S (length l))); try lia; done.
Qed.
End OrderedPairs.

Section Refinement.
Context {V : Type} (zeroV : V).
Local Abbreviation cell := (@cell V).
Local Abbreviation Map := (@Map V).
Local Abbreviation atree := (atree V).
Local Abbreviation Rep := (Rep zeroV).
Local Abbreviation Inv := (Inv zeroV).
Local Abbreviation Chain := (Chain zeroV).
Local Abbreviation New := (New zeroV).
Local Abbreviation run_ops := (run_ops zeroV).
Local Abbreviation run_op := (run_op zeroV).
Implicit Types (m : Map) (kvs : list (Z * V)) (it : @Iterator).
Implicit Types (os : list (op V)).

(** one operation on a well-formed map, and its pairs *)
Lemma run_op_model o m ht t :
  Rep m ht t →
  ∃ m' ht' t', run_op o m = Some m' ∧ Rep m' ht' t' ∧
               contents t' = model_op o (contents t).
Proof.
  intros HR. destruct o as [k v|k|k|]; simpl.
  - destruct (Insert_Rep zeroV k v m ht t HR) as (it&old&rep&m'&ht'&t'&->&HR'&Hpost).
    simpl. exists m', ht', t'. split; [done|]. split; [done|].
    pose proof (Rep_sorted _ _ _ _ HR') as Hs.
    destruct Hpost as (l1&l2&Hc'&Hc&_). rewrite Hc' in Hs |- *.
    destruct (kv_insert_middle _ _ _ _ Hs) as [H1 H2].
    destruct rep; [by rewrite Hc, H2|]. destruct Hc as [-> _]. by rewrite H1.
  - destruct (Remove_Rep zeroV k m ht t HR) as (old&ok&m'&ht'&t'&->&HR'&Hpost).
    simpl. exists m', ht', t'. split; [done|]. split; [done|].
    pose proof (Rep_sorted _ _ _ _ HR) as Hs. destruct ok.
    + destruct Hpost as (l1&l2&Hc&Hc'). rewrite Hc in Hs |- *.
      by rewrite (kv_remove_middle _ _ _ _ Hs).
    + destruct Hpost as (Hc&Hnot&_). by rewrite kv_remove_absent.
  - destruct (LowerBound_Rep zeroV k m ht t HR) as (it&p&->&Hpos&Hlb). simpl.
    rewrite (kv_remove_from_lb _ _ _ Hlb). destruct Hpos as [Hp|[-> He]].
    + destruct (RemoveIter_Rep zeroV m ht t it p HR Hp) as (it'&m'&ht'&t'&->&HR'&Hc'&_).
      simpl. exists m', ht', t'. split; [done|]. split; [done|].
      apply at_pos_lt in Hp. unfold total in Hp. fold (contents t) in Hp.
      by destruct (decide (p < length (contents t))).
    + rewrite (RemoveIter_end zeroV m it).
      2:{ eapply it_End_end; [by eapply Rep_Chain|done]. }
      simpl. exists m, ht, t. split; [done|]. split; [done|].
      unfold total. fold (contents t).
      destruct (decide (length (contents t) < length (contents t))); [lia|done].
  - destruct (Clear_Rep zeroV m ht t HR) as (ht'&t'&HR'&Hc).
    exists (Clear zeroV m), ht', t'. done.
Qed.

Lemma run_ops_model os :
  ∀ m ht t, Rep m ht t →
    ∃ m' ht' t', run_ops os m = Some m' ∧ Rep m' ht' t' ∧
                 contents t' = foldl (λ l o, model_op o l) (contents t) os.
Proof.
  induction os as [|o os IH]; intros m ht t HR; simpl; [by exists m, ht, t|].
  destruct (run_op_model o m ht t HR) as (m1&ht1&t1&->&HR1&Hc1). simpl.
  rewrite <- Hc1. exact (IH m1 ht1 t1 HR1).
Qed.

(** the values of a key *)
Lemma Inv_functional m kvs k v1 v2 :
  Inv m kvs → (k, v1) ∈ kvs → (k, v2) ∈ kvs → v1 = v2.
Proof.
  intros HI H1 H2. pose proof (Inv_sorted _ _ _ HI) as Hs.
  apply list_elem_of_split in H1 as (xs&ys&->).
  destruct (sorted_middle_notin _ _ _ _ Hs) as [Hx Hy].
  apply elem_of_app in H2 as [H2|H2].
  - exfalso. apply Hx. apply list_elem_of_fmap. by exists (k, v2).
  - apply elem_of_cons in H2 as [H2|H2]; [by inversion H2|].
    exfalso. apply Hy. apply list_elem_of_fmap. by exists (k, v2).
Qed.

Lemma Find_Inv k m kvs :
  Inv m kvs →
  ∃ v ok, Find zeroV k m = Some ((v, ok), m) ∧
          (if ok : bool then (k, v) ∈ kvs else v = zeroV ∧ (k ∉ kvs.*1)).
Proof. intros (ht&t&HR&<-). exact (Find_Rep zeroV k m ht t HR). Qed.

(** [Find] sees only the pairs of the key *)
Lemma Find_agree k m kvs m' kvs' :
  Inv m kvs → Inv m' kvs' → (∀ v, (k, v) ∈ kvs ↔ (k, v) ∈ kvs') →
  ∃ r, Find zeroV k m = Some (r, m) ∧ Find zeroV k m' = Some (r, m').
Proof.
  intros HI HI' Hsame.
  destruct (Find_Inv k m kvs HI) as (v&ok&Hf&Hres).
  destruct (Find_Inv k m' kvs' HI') as (v'&ok'&Hf'&Hres').
  exists (v, ok). split; [done|]. rewrite Hf'. do 2 f_equal.
  destruct ok, ok'.
  - f_equal. apply Hsame in Hres. by eapply Inv_functional.
  - exfalso. destruct Hres' as [_ Hn]. apply Hn. apply Hsame in Hres.
    apply list_elem_of_fmap. by exists (k, v).
  - exfalso. destruct Hres as [_ Hn]. apply Hn. apply Hsame in Hres'.
    apply list_elem_of_fmap. by exists (k, v').
  - destruct Hres as [-> _], Hres' as [-> _]. done.
Qed.
End Refinement.

(** * Iterators: the ends of a map, moving both ways, SetValue *)

Section IteratorMoves.
Context {V : Type} (zeroV : V).
Local Abbreviation cell := (@cell V).
Local Abbreviation Map := (@Map V).
Local Abbreviation atree := (atree V).
Local Abbreviation repr := (repr zeroV).
Local Abbreviation LocF := (LocF zeroV).
Local Abbreviation leaf_cell := (leaf_cell zeroV).
Local Abbreviation Rep := (Rep zeroV).
Local Abbreviation Inv := (Inv zeroV).
Local Abbreviation Chain := (Chain zeroV).
Implicit Types (m : Map) (kvs : list (Z * V)) (it : @Iterator).
Implicit Types (als : list (addr * list (Z * V))).

(** the iterator at a pair is determined by the number of the pair *)
Lemma at_pos_inj als it it' p : at_pos als it p → at_pos als it' p → it = it'.
Proof.
  assert (Hstep : ∀ (A' C : list (addr * list (Z * V))) (x' : addr * list (Z * V))
                    (i i' : nat),
             i' < length x'.2 →
             length (concat (A' ++ x' :: C).*2) + i = length (concat A'.*2) + i' → False).
  { intros A' C x' i i' Hi'.
    rewrite fmap_app, concat_app, length_app, fmap_cons. simpl.
    rewrite length_app. lia. }
  intros (A&kvs&B&HA&Hi&Hp) (A'&kvs'&B'&HA'&Hi'&Hp').
  rewrite HA in HA'. apply app_eq_inv in HA' as [(C&HC1&HC2)|(C&HC1&HC2)].
  - destruct C as [|c C].
    + rewrite app_nil_r in HC1. subst A'. simpl in HC2. inversion HC2; subst.
      destruct it, it'. simpl in *. f_equal; [done|lia].
    + inversion HC2; subst. exfalso.
      apply (Hstep A' C (it_node it', kvs') (it_idx it) (it_idx it')); [done|]. lia.
  - destruct C as [|c C].
    + rewrite app_nil_r in HC1. subst A'. simpl in HC2. inversion HC2; subst.
      destruct it, it'. simpl in *. f_equal; [done|lia].
    + inversion HC2; subst. exfalso.
      apply (Hstep A C (it_node it, kvs) (it_idx it') (it_idx it)); [done|]. lia.
Qed.

Lemma at_end_inj als it it' : at_end als it → at_end als it' → it = it'.
Proof.
  intros (A&kvs&HA&Hi) (A'&kvs'&HA'&Hi'). rewrite HA in HA'.
  apply app_inj_tail in HA' as [_ HA']. inversion HA'; subst.
  destruct it, it'. simpl in *. f_equal; [done|lia].
Qed.

Lemma pos_or_end_inj als it it' p :
  pos_or_end als it p → pos_or_end als it' p → it = it'.
Proof.
  intros [H|[Hp H]] [H'|[Hp' H']].
  - by eapply at_pos_inj.
  - apply at_pos_lt in H. lia.
  - apply at_pos_lt in H'. lia.
  - by eapply at_end_inj.
Qed.

(** the first leaf has no leaf before it *)
Lemma it_Begin_Begin m als : Chain m als → it_Begin m (Begin m) = Some true.
Proof.
  intros HC. pose proof HC as (_&_&_&Hfront&_).
  destruct als as [|[a kvs] B]; [done|]. simpl in Hfront. inversion Hfront as [Ha].
  destruct (Chain_leaf zeroV m [] a kvs B HC) as [Hc _].
  unfold it_Begin, Begin, get_leaf. simpl. rewrite <- Ha, Hc. simpl. done.
Qed.

Lemma Chain_End m als : Chain m als → ∃ e, End m = Some e ∧ at_end als e.
Proof.
  intros HC. pose proof HC as (_&_&_&Hfront&_).
  destruct (snoc_inv als) as (A&[b kvs]&->).
  { destruct als; [done|simpl; lia]. }
  exists (mkIt b (length kvs)).
  assert (He : at_end (A ++ [(b, kvs)]) (mkIt b (length kvs))) by (by exists A, kvs).
  split; [|done]. by eapply End_at_end.
Qed.

Lemma it_End_Begin m als :
  Chain m als → it_End m (Begin m) = Some (bool_decide (Len m = 0%Z)).
Proof.
  intros HC. pose proof HC as (_&_&_&_&_&Hn).
  destruct (Begin_pos _ _ _ HC) as [Hp|[Hp He]].
  - rewrite (it_End_pos _ _ _ _ _ HC Hp). f_equal. symmetry. apply bool_decide_eq_false.
    apply at_pos_lt in Hp. unfold Len. rewrite Hn. unfold total in Hp. lia.
  - rewrite (it_End_end _ _ _ _ HC He). f_equal. symmetry. apply bool_decide_eq_true.
    unfold Len. rewrite Hn. unfold total in Hp. lia.
Qed.

(** ** SetValue *)

Lemma SetValue_Rep m ht t it p v :
  Rep m ht t → at_pos (aleaves t) it p →
  ∃ m' t' k v0,
    it_SetValue m it v = Some m' ∧ Rep m' ht t' ∧
    contents t !! p = Some (k, v0) ∧
    contents t' = <[p := (k, v)]> (contents t) ∧
    at_pos (aleaves t') it p.
Proof.
  intros HR Hp. pose proof (Rep_Chain _ _ _ _ HR) as HC.
  destruct (at_pos_lookup _ _ _ Hp) as (A&kvs&B&[k v0]&HA&Hkv&Hkv'&Hpdef).
  pose proof HC as HC'. rewrite HA in HC'.
  destruct (Chain_leaf _ _ _ _ _ _ HC') as [Ha Hlen].
  pose proof (lookup_lt_Some _ _ _ Hkv) as Hidx.
  unfold it_SetValue, get_leaf. rewrite Ha. mstep.
  destruct (leaf_set_value zeroV (hd_or B.*1 None) (last_or None A.*1) kvs
              (it_idx it) k v0 v Hkv Hlen) as [Hset Hkeys].
  simpl in Hset, Hkeys. rewrite Hset. mstep.
  set (kvs' := <[it_idx it := (k, v)]> kvs).
  assert (Hlen' : length kvs' = length kvs) by apply length_insert.
  replace (CLeaf _) with (leaf_cell (hd_or B.*1 None) (last_or None A.*1) kvs').
  2:{ unfold leaf_cell, leaf_rec. fold kvs' in Hkeys. by rewrite Hkeys, Hlen'. }
  destruct HR as (Hroot&HL&Hwf&Hsz&Hht&Hfront&Hn&Hfuel).
  assert (Hnd : NoDup (aleaves t).*1).
  { destruct HL as (_&_&Hnd&_). by rewrite fleaves_single, app_nil_r in Hnd. }
  rewrite HA in Hnd.
  assert (Hdata : ∀ kvs0, (it_node it, kvs0) ∈ aleaves t → kvs0 = kvs).
  { rewrite HA. by apply NoDup_data. }
  assert (Hks : kvs'.*1 = kvs.*1).
  { unfold kvs'. rewrite list_fmap_insert. simpl. apply list_insert_id.
    by rewrite list_lookup_fmap, Hkv. }
  assert (Hmin' : ht ≠ 0 → minNodes ≤ length kvs').
  { intros Hne. destruct ht as [|ht]; [done|].
    pose proof (wf_leaves_min _ _ _ _ Hwf) as Hall. rewrite HA in Hall.
    apply Forall_app in Hall as [_ Hall]. apply Forall_cons in Hall as [Hk _].
    simpl in Hk. lia. }
  destruct (wf_aset_top ht None None (it_node it) kvs kvs' t Hwf) as (Hwf'&Hs1&Hs2);
    try done; try lia.
  { intros lo hi Hinc. by rewrite Hks. }
  set (t' := aset (it_node it) kvs' t) in *.
  set (m' := put m (it_node it) _).
  assert (Hal : aleaves t' = A ++ (it_node it, kvs') :: B).
  { unfold t'. rewrite aleaves_aset, HA. by apply lset_middle. }
  assert (Hcont : contents t' = <[p := (k, v)]> (contents t)).
  { unfold contents. rewrite Hal, HA. fold (total (A ++ (it_node it, kvs') :: B)).
    fold (total (A ++ (it_node it, kvs) :: B)).
    rewrite !total_app, !total_cons, Hpdef.
    rewrite insert_app_r_alt by lia. replace (_ + _ - _) with (it_idx it) by lia.
    by rewrite insert_app_l by done. }
  exists m', t', k, v0. split; [done|]. split_and!.
  - split_and!; try done.
    + unfold t'. by rewrite raddr_aset.
    + unfold t'. eapply LocF_aset; try done. lia.
    + lia.
    + intros Hne. rewrite Hs2 by done. auto.
    + unfold t'. by rewrite leaves_aset.
    + simpl. rewrite Hcont, Hn. by rewrite length_insert.
    + simpl. by rewrite length_insert.
  - done.
  - done.
  - rewrite Hal. exists A, kvs', B. split_and!; [done|lia|].
    rewrite Hpdef. done.
Qed.
End IteratorMoves.

(** * The shape of the tree, and the steps that rebalance it *)

Section Shape.
Context {V : Type} (zeroV : V).
Local Abbreviation cell := (@cell V).
Local Abbreviation Map := (@Map V).
Local Abbreviation atree := (atree V).
Local Abbreviation repr := (repr zeroV).
Local Abbreviation LocF := (LocF zeroV).
Local Abbreviation Rep := (Rep zeroV).
Local Abbreviation located := (located zeroV).
Local Abbreviation node_rec := (@node_rec V).
Implicit Types (h : list cell) (t ct : atree) (ts cs : list atree) (m : Map).
Implicit Types (kvs : list (Z * V)) (ks : list Z).

(** a node at depth [d] carries a subtree of the height that is left *)
Lemma reach_at_located m ht0 t0 d x :
  Rep m ht0 t0 → reach_at m d x →
  d ≤ ht0 ∧ ∃ lo hi t, located m x (ht0 - d) lo hi t.
Proof.
  intros HR. induction 1 as [|d x nd i c Hx IH Hnd Hi Hc].
  - split; [lia|]. destruct HR as (Hroot&HL&Hwf&_). exists None, None, t0.
    rewrite Nat.sub_0_r. split_and!; [done|eauto|done|done].
  - destruct IH as (Hd&lo&hi&t&Hloc).
    pose proof (located_repr _ _ _ _ _ _ _ Hloc) as Hr.
    pose proof Hloc as (Hrt&_). rewrite <- Hrt in Hnd.
    destruct (get_inode_repr _ _ _ _ Hr Hnd) as (a&ks&cs&->&->).
    simpl in Hrt. subst a. simpl in Hi.
    destruct (located_child _ _ _ _ _ _ _ _ _ _ Hloc Hi Hc)
      as (ht'&ks1&k&ks2&cs1&ct&cs2&Hht&_&_&_&_&Hloc').
    split; [lia|]. replace (ht0 - S d) with ht' by lia. eauto.
Qed.

Lemma located_leaf_height m x ht lo hi t l :
  located m x ht lo hi t → get_leaf m x = Some l → ht = 0.
Proof.
  intros Hloc Hl. pose proof (located_repr _ _ _ _ _ _ _ Hloc) as Hr.
  pose proof Hloc as (Hrt&_&Hwf&_). rewrite <- Hrt in Hl.
  destruct (get_leaf_repr _ _ _ _ Hr Hl) as (a&kvs&nx&pv&->&_).
  by destruct ht.
Qed.

Lemma located_node_height m x ht lo hi t nd :
  located m x ht lo hi t → get_inode m x = Some nd → ht ≠ 0.
Proof.
  intros Hloc Hl. pose proof (located_repr _ _ _ _ _ _ _ Hloc) as Hr.
  pose proof Hloc as (Hrt&_&Hwf&_). rewrite <- Hrt in Hl.
  destruct (get_inode_repr _ _ _ _ Hr Hl) as (a&ks&cs&->&_).
  by destruct ht.
Qed.

(** the sizes of the nodes *)
Lemma located_size_bounds m ht0 t0 x ht lo hi t :
  Rep m ht0 t0 → located m x ht lo hi t →
  Size m x = Some (asize t) ∧ asize t ≤ maxNodes ∧
  (x ≠ m_root m → minNodes ≤ asize t) ∧
  (x = m_root m → ∀ nd, get_inode m x = Some nd → 2 ≤ asize t).
Proof.
  intros HR Hloc. pose proof (located_repr _ _ _ _ _ _ _ Hloc) as Hr.
  pose proof Hloc as (Hrt&_&Hwf&Hmin). split_and!; try done.
  - rewrite <- Hrt. by apply (Size_repr zeroV).
  - by eapply (repr_size_le zeroV).
  - intros Hx nd Hnd.
    destruct HR as (Hroot&HL&Hwf0&_&Hht&_).
    pose proof (LocF_repr_in _ _ _ _ _ t0 HL ltac:(apply list_elem_of_here)) as Hr0.
    assert (Hsz : Size m x = Some (asize t)) by (rewrite <- Hrt; by apply (Size_repr zeroV)).
    rewrite Hx, <- Hroot, (Size_repr zeroV m t0 Hr0) in Hsz. inversion Hsz as [Hsz'].
    assert (Hne : ht0 ≠ 0).
    { rewrite Hx, <- Hroot in Hnd.
      destruct (get_inode_repr _ _ _ _ Hr0 Hnd) as (a&ks&cs&->&_). by destruct ht0. }
    specialize (Hht Hne). lia.
Qed.

(** two neighbours below a located node *)
Lemma located_siblings m x ht lo hi t nd i (l r : addr) :
  located m x ht lo hi t → get_inode m x = Some nd → i + 1 < in_n nd →
  in_nodes nd !! i = Some (Some l) → in_nodes nd !! (i + 1) = Some (Some r) →
  ∃ ht' ks1 k1 k2 ks2 cs1 lt rt cs2 L1 L2,
    ht = S ht' ∧ nd = node_rec (ks1 ++ k1 :: k2 :: ks2) (cs1 ++ lt :: rt :: cs2) ∧
    LocF m [ANode x (ks1 ++ k1 :: k2 :: ks2) (cs1 ++ lt :: rt :: cs2)] L1 L2 ∧
    length ks1 = i ∧ length cs1 = i ∧
    raddr lt = l ∧ raddr rt = r ∧ is_leaf lt = is_leaf rt ∧
    repr (m_heap m) lt ∧ repr (m_heap m) rt ∧
    minNodes ≤ asize lt ≤ maxNodes ∧ minNodes ≤ asize rt ≤ maxNodes.
Proof.
  intros Hloc Hnd Hi Hl Hr.
  pose proof (located_repr _ _ _ _ _ _ _ Hloc) as Hrep.
  pose proof Hloc as (Hrt&(L1&L2&HLoc)&Hwf&_). rewrite <- Hrt in Hnd.
  destruct (get_inode_repr _ _ _ _ Hrep Hnd) as (a&ks&cs&->&->).
  simpl in Hrt. subst a. simpl in Hi.
  pose proof (located_child zeroV m x ks cs ht lo hi i l Hloc ltac:(lia) Hl) as Hcl.
  pose proof (located_child zeroV m x ks cs ht lo hi (i + 1) r Hloc ltac:(lia) Hr) as Hcr.
  destruct Hcl as (ht'&ks1&k1&ks2'&cs1&lt&cs2'&->&->&->&Hl1&Hl2&Hlocl).
  destruct Hcr as (ht''&ks1'&k2&ks2&cs1''&rt&cs2&Hht&Hks&Hcs&Hl1'&Hl2'&Hlocr).
  inversion Hht; subst ht''. clear Hht.
  assert (Hks2 : ks2' = k2 :: ks2 ∧ ks1' = ks1 ++ [k1]).
  { assert (E : ks1 ++ k1 :: ks2' = (ks1 ++ [k1]) ++ ks2') by (by rewrite <- (assoc_L (++))).
    rewrite E in Hks. apply app_inj_1 in Hks as [-> ->]; [done|].
    rewrite length_app. simpl. lia. }
  assert (Hcs2 : cs2' = rt :: cs2 ∧ cs1'' = cs1 ++ [lt]).
  { assert (E : cs1 ++ lt :: cs2' = (cs1 ++ [lt]) ++ cs2') by (by rewrite <- (assoc_L (++))).
    rewrite E in Hcs. apply app_inj_1 in Hcs as [-> ->]; [done|].
    rewrite length_app. simpl. lia. }
  destruct Hks2 as [-> ->]. destruct Hcs2 as [-> ->]. clear Hks Hcs.
  pose proof Hlocl as (Hrl&_&Hwl&_). pose proof Hlocr as (Hrr&_&Hwr&_).
  apply wf_node_at in Hwf as (_&_&[_ HbL]&Hrest); [|lia].
  simpl in Hrest. destruct Hrest as [[_ HbR] _].
  exists ht', ks1, k1, k2, ks2, cs1, lt, rt, cs2, L1, L2.
  split_and!; try done; try lia.
  - by rewrite (wf_is_leaf _ _ _ _ Hwl), (wf_is_leaf _ _ _ _ Hwr).
  - by eapply located_repr.
  - by eapply located_repr.
Qed.

Lemma located_shiftRight m x ht lo hi t nd i (l r : addr) Lsz Rsz :
  located m x ht lo hi t → get_inode m x = Some nd → i + 1 < in_n nd →
  in_nodes nd !! i = Some (Some l) → in_nodes nd !! (i + 1) = Some (Some r) →
  Size m l = Some Lsz → Size m r = Some Rsz → Rsz ≤ Lsz + 1 →
  ∃ m', shiftRight zeroV x i m = Some m' ∧
        Size m' r = Some ((Lsz + Rsz + 1) / 2) ∧
        Size m' l = Some (Lsz + Rsz - (Lsz + Rsz + 1) / 2).
Proof.
  intros Hloc Hnd Hi Hl Hr HL HR Hle.
  destruct (located_siblings _ _ _ _ _ _ _ _ _ _ Hloc Hnd Hi Hl Hr)
    as (ht'&ks1&k1&k2&ks2&cs1&lt&rt&cs2&L1&L2&->&->&HLoc&Hl1&Hl2&Hrl&Hrr&Hkind&Hrepl&Hrepr&HbL&HbR).
  assert (HszL : asize lt = Lsz).
  { rewrite <- Hrl, (Size_repr zeroV m lt Hrepl) in HL. by inversion HL. }
  assert (HszR : asize rt = Rsz).
  { rewrite <- Hrr, (Size_repr zeroV m rt Hrepr) in HR. by inversion HR. }
  rewrite maxNodes_eq, minNodes_eq in HbL, HbR.
  set (j := Lsz + Rsz - (Lsz + Rsz + 1) / 2).
  assert (Hj : Rsz ≤ (Lsz + Rsz + 1) / 2 ∧ (Lsz + Rsz + 1) / 2 ≤ 32 ∧ 0 < j
               ∧ j ≤ Lsz + Rsz).
  { unfold j. halve (Lsz + Rsz + 1). lia. }
  destruct (shiftRight_ok zeroV m x ks1 k1 k2 ks2 cs1 lt rt cs2 L1 L2 i j HLoc)
    as (m'&lk&Hrun&_&HL'&_); try done.
  { rewrite HszL, HszR. lia. }
  { rewrite HszL, HszR, maxNodes_eq. lia. }
  { by rewrite HszL, HszR. }
  { lia. }
  exists m'. split; [done|].
  destruct (ashift_raddr lt rt j) as [Ha Hb].
  destruct (ashift_asize lt rt j Hkind) as [Hs1 Hs2]; [lia|].
  pose proof (Size_repr zeroV m' (ashift lt rt j).1) as H1.
  pose proof (Size_repr zeroV m' (ashift lt rt j).2) as H2.
  rewrite Ha, Hs1, Hrl in H1. rewrite Hb, Hs2, Hrr, HszL, HszR in H2.
  replace (Lsz + Rsz - j) with ((Lsz + Rsz + 1) / 2) in H2
    by (unfold j; halve (Lsz + Rsz + 1); lia).
  split; [apply H2|apply H1]; eapply LocF_child_repr; try done.
  - apply elem_of_app. right. apply list_elem_of_further, list_elem_of_here.
  - apply elem_of_app. right. apply list_elem_of_here.
Qed.

(** ** The pairs below a node *)

Lemma holds_contents m x k (v : V) :
  holds m x k v → ∀ t, repr (m_heap m) t → raddr t = x → (k, v) ∈ contents t.
Proof.
  induction 1 as [x l i k v Hl Hi Hk Hv|x nd i c k v Hnd Hi Hc Hst IH]; intros t Hr Hrt.
  - rewrite <- Hrt in Hl. destruct (get_leaf_repr _ _ _ _ Hr Hl) as (a&kvs&nx&pv&->&->).
    simpl in Hi. rewrite leaf_keys_lookup in Hk by done.
    rewrite leaf_values_lookup in Hv by done.
    rewrite list_lookup_fmap in Hk. rewrite list_lookup_fmap in Hv.
    destruct (kvs !! i) as [[k' v']|] eqn:Hkv; simpl in Hk, Hv; [|done].
    inversion Hk; inversion Hv; subst k' v'.
    unfold contents. simpl. rewrite app_nil_r. by eapply list_elem_of_lookup_2.
  - rewrite <- Hrt in Hnd. destruct (get_inode_repr _ _ _ _ Hr Hnd) as (a&ks&cs&->&->).
    simpl in Hi. apply repr_node_inv in Hr as (_&_&Hlen&Hcs).
    destruct (node_rec_child ks cs i c) as (ct&Hct&Hrc); [lia|done|].
    destruct (split_at_index _ _ _ Hct) as (cs1&cs2&->&Hl2).
    rewrite contents_node_at, !elem_of_app. right. left.
    apply IH; [|done]. rewrite Forall_forall in Hcs. apply Hcs.
    apply elem_of_app. right. apply list_elem_of_here.
Qed.

Lemma fcontents_elem cs k (v : V) :
  (k, v) ∈ fcontents cs → ∃ i ct, cs !! i = Some ct ∧ (k, v) ∈ contents ct.
Proof.
  induction cs as [|c cs IH].
  - rewrite fcontents_nil. by intros ?%elem_of_nil.
  - rewrite fcontents_cons, elem_of_app. intros [H|H].
    + by exists 0, c.
    + destruct (IH H) as (i&ct&Hi&Hct). by exists (S i), ct.
Qed.

Lemma contents_holds m t k (v : V) :
  repr (m_heap m) t → (k, v) ∈ contents t → holds m (raddr t) k v.
Proof.
  induction t as [a kvs|a ks cs IH] using atree_ind'; intros Hr Hin.
  - apply repr_leaf_inv in Hr as [(nx&pv&Ha) Hlen].
    unfold contents in Hin. simpl in Hin. rewrite app_nil_r in Hin.
    apply list_elem_of_lookup_1 in Hin as [i Hi].
    pose proof (lookup_lt_Some _ _ _ Hi) as Hlt.
    apply (holds_leaf m a (leaf_rec zeroV nx pv kvs) i k v).
    + unfold get_leaf. simpl. by rewrite Ha.
    + done.
    + rewrite leaf_keys_lookup by done. by rewrite list_lookup_fmap, Hi.
    + rewrite leaf_values_lookup by done. by rewrite list_lookup_fmap, Hi.
  - apply repr_node_inv in Hr as (Ha&_&Hlen&Hcs).
    rewrite contents_node in Hin.
    destruct (fcontents_elem _ _ _ Hin) as (i&ct&Hi&Hct).
    pose proof (lookup_lt_Some _ _ _ Hi) as Hlt.
    apply (holds_node m a (node_rec ks cs) i (raddr ct) k v).
    + unfold get_inode. simpl. by rewrite Ha.
    + simpl. lia.
    + simpl. rewrite lookup_pad_lt by (by rewrite length_fmap).
      by rewrite list_lookup_fmap, Hi.
    + rewrite Forall_lookup in IH, Hcs. eapply IH; eauto.
Qed.

(** the merged node holds the pairs of both nodes *)
Lemma merge_holds m m' lt rt :
  repr (m_heap m) lt → repr (m_heap m) rt → repr (m_heap m') (amerge lt rt) →
  is_leaf lt = is_leaf rt →
  ∀ k (v : V), holds m' (raddr lt) k v ↔ holds m (raddr lt) k v ∨ holds m (raddr rt) k v.
Proof.
  intros Hl Hr Hm Hkind k v. split.
  - intros H.
    pose proof (holds_contents _ _ _ _ H (amerge lt rt) Hm (amerge_raddr lt rt)) as Hin.
    rewrite amerge_contents, elem_of_app in Hin by done.
    destruct Hin as [Hin|Hin]; [left|right]; by apply contents_holds.
  - intros H. rewrite <- (amerge_raddr lt rt). apply contents_holds; [done|].
    rewrite amerge_contents, elem_of_app by done.
    destruct H as [H|H]; [left|right]; by eapply holds_contents.
Qed.

Lemma located_mergeNode m x ht lo hi t nd i (l r : addr) Lsz Rsz :
  located m x ht lo hi t → get_inode m x = Some nd → i + 1 < in_n nd →
  in_nodes nd !! i = Some (Some l) → in_nodes nd !! (i + 1) = Some (Some r) →
  Size m l = Some Lsz → Size m r = Some Rsz → Lsz + Rsz ≤ maxNodes →
  ∃ m', mergeNode x i m = Some (l, m') ∧
        Size m' l = Some (Lsz + Rsz) ∧ Len m' = Len m ∧
        (if decide (m_root m = x ∧ in_n nd = 2)
         then m_root m' = l
         else m_root m' = m_root m ∧ Size m' x = Some (in_n nd - 1)) ∧
        (∀ k v, holds m' l k v ↔ holds m l k v ∨ holds m r k v).
Proof.
  intros Hloc Hnd Hi Hl Hr HL HR Hle.
  destruct (located_siblings _ _ _ _ _ _ _ _ _ _ Hloc Hnd Hi Hl Hr)
    as (ht'&ks1&k1&k2&ks2&cs1&lt&rt&cs2&L1&L2&->&->&HLoc&Hl1&Hl2&Hrl&Hrr&Hkind&Hrepl&Hrepr&HbL&HbR).
  assert (HszL : asize lt = Lsz).
  { rewrite <- Hrl, (Size_repr zeroV m lt Hrepl) in HL. by inversion HL. }
  assert (HszR : asize rt = Rsz).
  { rewrite <- Hrr, (Size_repr zeroV m rt Hrepr) in HR. by inversion HR. }
  rewrite minNodes_eq in HbL, HbR.
  assert (Hsize : asize (amerge lt rt) = Lsz + Rsz).
  { rewrite amerge_asize by done. lia. }
  cbn [in_n node_rec]. destruct (decide (m_root m = x ∧ _)) as [[Hroot Hn]|Hnot].
  - (* the root with two children: the merged node becomes the root *)
    assert (ks1 = [] ∧ ks2 = []) as [-> ->].
    { rewrite length_app in Hn. simpl in Hn.
      destruct ks1, ks2; simpl in Hn; try lia. done. }
    destruct cs1; [|simpl in *; lia].
    assert (cs2 = []) as ->.
    { destruct (LocF_node_open _ _ _ _ _ _ _ HLoc) as (_&_&Hlen&_).
      simpl in Hlen. destruct cs2; [done|simpl in Hlen; lia]. }
    simpl in *. subst i.
    destruct (mergeNode_root_ok zeroV m x k1 k2 lt rt L1 L2 HLoc Hroot Hkind)
      as (m'&Hrun&HL'&_&Hroot'&Hn'); [lia|].
    assert (Hm : repr (m_heap m') (amerge lt rt)).
    { eapply LocF_repr_in; [done|]. apply list_elem_of_here. }
    exists m'. rewrite <- Hrl, <- Hrr. split_and!; try done.
    + pose proof (Size_repr zeroV m' (amerge lt rt)) as H1.
      rewrite amerge_raddr, Hsize in H1. by apply H1.
    + by apply merge_holds.
  - destruct (mergeNode_ok zeroV m x ks1 k1 k2 ks2 cs1 lt rt cs2 L1 L2 i HLoc)
      as (m'&lk&Hrun&_&HL'&_&Hroot'&Hn'); try done; try lia.
    assert (Hm : repr (m_heap m') (amerge lt rt)).
    { eapply LocF_child_repr; [done|]. apply elem_of_app. right. apply list_elem_of_here. }
    exists m'. rewrite <- Hrl, <- Hrr. split_and!; try done.
    + pose proof (Size_repr zeroV m' (amerge lt rt)) as H1.
      rewrite amerge_raddr, Hsize in H1. by apply H1.
    + pose proof (Size_repr zeroV m' (ANode x (ks1 ++ lk :: ks2) (cs1 ++ amerge lt rt :: cs2)))
        as H1.
      simpl in H1. rewrite H1.
      * f_equal. rewrite !length_app. simpl. lia.
      * eapply LocF_repr_in; [done|]. apply list_elem_of_here.
    + by apply merge_holds.
Qed.
End Shape.

(** * Further properties of the code *)

(** X1 (linearSearchOrdered): for every slice and target, the index
  returned is at most the length, every key before it is below the
  target, the key at it, when there is one, is not below the target, and
  the flag returned is true exactly when the key at the index is the
  target. *)
Theorem X1_linear_search (keys : list Z) (target : Z) :
(linearSearchOrdered keys target).1 ≤ length keys ∧
(∀ j x, j < (linearSearchOrdered keys target).1 → keys !! j = Some x → (x < target)%Z) ∧
(∀ x, keys !! (linearSearchOrdered keys target).1 = Some x → (target ≤ x)%Z) ∧
((linearSearchOrdered keys target).2 = true ↔
 keys !! (linearSearchOrdered keys target).1 = Some target).
Proof.
split_and!.
- apply linearSearchOrdered_length.
- intros j x. apply linearSearchOrdered_before.
- intros x Hx. by apply linearSearchOrdered_at in Hx as [? _].
- split; [apply linearSearchOrdered_found|].
  intros Hx. by apply linearSearchOrdered_at in Hx as [_ ->].
Qed.

Section OrderedPairs2.
Context {V : Type}.
Implicit Types (l : list (Z * V)) (k : Z) (v : V).

Lemma kv_remove_insert k v l : kv_remove k (kv_insert k v l) = kv_remove k l.
Proof.
  unfold kv_remove. induction l as [|[k1 v1] l IH]; simpl.
  - rewrite filter_cons. simpl. by destruct (decide (k ≠ k)).
  - destruct (decide (k < k1)%Z).
    + rewrite (filter_cons _ (k, v)). simpl. by destruct (decide (k ≠ k)).
    + destruct (decide (k = k1)) as [->|Hne].
      * rewrite !filter_cons. simpl. by destruct (decide (k1 ≠ k1)).
      * rewrite !filter_cons. simpl. destruct (decide (k1 ≠ k)); [|congruence].
        by rewrite IH.
Qed.

Lemma elem_of_kv_insert_here k v l : (k, v) ∈ kv_insert k v l.
Proof.
  induction l as [|[k1 v1] l IH]; simpl; [apply list_elem_of_here|].
  destruct (decide (k < k1)%Z); [apply list_elem_of_here|].
  destruct (decide (k = k1)); [apply list_elem_of_here|].
  by apply list_elem_of_further.
Qed.

Lemma filter_all (P : Z * V → Prop) `{!∀ x, Decision (P x)} l :
  Forall P l → filter P l = l.
Proof.
  induction 1 as [|x l Hx Hall IH]; [done|].
  rewrite filter_cons. destruct (decide (P x)); [|done]. by rewrite IH.
Qed.

Lemma filter_none (P : Z * V → Prop) `{!∀ x, Decision (P x)} l :
  Forall (λ x, ¬ P x) l → filter P l = [].
Proof.
  induction 1 as [|x l Hx Hall IH]; [done|].
  rewrite filter_cons. by destruct (decide (P x)).
Qed.

(** the place of the lower bound is the number of the keys below *)
Lemma lb_pos_count k l p :
  lb_pos k l p → p = length (filter (λ kv, (kv.1 < k)%Z) l).
Proof.
  intros (Hp&Hb&Ha). rewrite <- (take_drop p l).
  rewrite filter_app, (filter_all _ _ Hb), filter_none.
  - rewrite app_nil_r, length_take. lia.
  - eapply Forall_impl; [done|]. simpl. intros. lia.
Qed.

Lemma elem_of_kv_remove k l k' x :
  (k', x) ∈ kv_remove k l ↔ (k', x) ∈ l ∧ k' ≠ k.
Proof. unfold kv_remove. rewrite list_elem_of_filter. simpl. tauto. Qed.
End OrderedPairs2.

Section Extras.
Context {V : Type} (zeroV : V).
Local Abbreviation cell := (@cell V).
Local Abbreviation Map := (@Map V).
Local Abbreviation atree := (atree V).
Local Abbreviation Rep := (Rep zeroV).
Local Abbreviation Inv := (Inv zeroV).
Local Abbreviation Chain := (Chain zeroV).
Local Abbreviation New := (New zeroV).
Local Abbreviation run_ops := (run_ops zeroV).
Implicit Types (m : Map) (kvs : list (Z * V)) (it : @Iterator).
Implicit Types (os : list (op V)).

Lemma Insert_model k v m ht t :
  Rep m ht t →
  ∃ r m' ht' t', Insert zeroV k v m = Some (r, m') ∧ Rep m' ht' t' ∧
                 contents t' = kv_insert k v (contents t).
Proof.
  intros HR.
  destruct (Insert_Rep zeroV k v m ht t HR) as (it&old&rep&m'&ht'&t'&Hrun&HR'&Hpost).
  exists (it, old, rep), m', ht', t'. split; [done|]. split; [done|].
  pose proof (Rep_sorted _ _ _ _ HR') as Hs.
  destruct Hpost as (l1&l2&Hc'&Hc&_). rewrite Hc' in Hs |- *.
  destruct (kv_insert_middle _ _ _ _ Hs) as [H1 H2].
  destruct rep; [by rewrite Hc, H2|]. destruct Hc as [-> _]. by rewrite H1.
Qed.

Lemma Remove_model k m ht t :
  Rep m ht t →
  ∃ old ok m' ht' t', Remove zeroV k m = Some ((old, ok), m') ∧ Rep m' ht' t' ∧
    contents t' = kv_remove k (contents t) ∧
    (if ok : bool then (k, old) ∈ contents t else old = zeroV ∧ (k ∉ (contents t).*1)).
Proof.
  intros HR.
  destruct (Remove_Rep zeroV k m ht t HR) as (old&ok&m'&ht'&t'&Hrun&HR'&Hpost).
  exists old, ok, m', ht', t'. split; [done|]. split; [done|].
  pose proof (Rep_sorted _ _ _ _ HR) as Hs. destruct ok.
  - destruct Hpost as (l1&l2&Hc&Hc'). rewrite Hc in Hs |- *.
    rewrite (kv_remove_middle _ _ _ _ Hs). split; [done|].
    apply elem_of_app. right. apply list_elem_of_here.
  - destruct Hpost as (Hc&Hnot&Hz). rewrite kv_remove_absent by done. done.
Qed.

Lemma Find_present k v m kvs :
  Inv m kvs → (k, v) ∈ kvs → Find zeroV k m = Some ((v, true), m).
Proof.
  intros HI Hin. destruct (Find_Inv zeroV k m kvs HI) as (v'&ok&Hf&Hres).
  rewrite Hf. destruct ok.
  - by rewrite (Inv_functional zeroV m kvs k v' v HI Hres Hin).
  - destruct Hres as [_ Hn]. exfalso. apply Hn. apply list_elem_of_fmap. by exists (k, v).
Qed.

Lemma Find_absent k m kvs :
  Inv m kvs → k ∉ kvs.*1 → Find zeroV k m = Some ((zeroV, false), m).
Proof.
  intros HI Hn. destruct (Find_Inv zeroV k m kvs HI) as (v'&ok&Hf&Hres).
  rewrite Hf. destruct ok.
  - exfalso. apply Hn. apply list_elem_of_fmap. by exists (k, v').
  - by destruct Hres as [-> _].
Qed.

(** X2 (Find): on a map built by the public operations, [Find(k)]
    returns the value stored with [k] and [true] when [k] is stored,
    and the zero value and [false] when it is not. *)
Theorem X2_find_contract os m k :
  run_ops os New = Some m →
  ∃ kvs v ok,
    Seq m (Begin m) = Some kvs ∧ Find zeroV k m = Some ((v, ok), m) ∧
    (if ok : bool then (k, v) ∈ kvs else v = zeroV ∧ (k ∉ kvs.*1)).
Proof.
  intros Hrun. destruct (run_Inv zeroV os m Hrun) as (kvs&HI).
  destruct (Find_Inv zeroV k m kvs HI) as (v&ok&Hf&Hres).
  exists kvs, v, ok. split; [by apply Inv_Seq in HI|]. done.
Qed.

(** X3 (Insert, then Find): after [Insert(k, v)] on a map built by the
    public operations, [Find(k)] returns [v] and [true], and [Find] of
    every other key returns what it returned before. *)
Theorem X3_insert_then_find os m k v :
  run_ops os New = Some m →
  ∃ r m',
    Insert zeroV k v m = Some (r, m') ∧
    Find zeroV k m' = Some ((v, true), m') ∧
    ∀ k', k' ≠ k →
      ∃ res, Find zeroV k' m = Some (res, m) ∧ Find zeroV k' m' = Some (res, m').
Proof.
  intros Hrun. destruct (run_Inv zeroV os m Hrun) as (kvs&HI).
  destruct (Insert_Inv zeroV k v m kvs HI)
    as (it&old&rep&m'&kvs'&Hins&HI'&Hmem&_).
  exists (it, old, rep), m'. split; [done|]. split.
  - eapply Find_present; [done|]. apply Hmem. by left.
  - intros k' Hne. eapply Find_agree; [done|done|].
    intros x. rewrite Hmem. split; [by right|]. intros [[? _]|[_ ?]]; done.
Qed.

(** X4 (Remove, then Find): after [Remove(k)] on a map built by the
    public operations, [Find(k)] returns the zero value and [false],
    and [Find] of every other key returns what it returned before. *)
Theorem X4_remove_then_find os m k :
  run_ops os New = Some m →
  ∃ r m',
    Remove zeroV k m = Some (r, m') ∧
    Find zeroV k m' = Some ((zeroV, false), m') ∧
    ∀ k', k' ≠ k →
      ∃ res, Find zeroV k' m = Some (res, m) ∧ Find zeroV k' m' = Some (res, m').
Proof.
  intros Hrun. destruct (run_Rep zeroV os m Hrun) as (ht&t&HR).
  destruct (Remove_model k m ht t HR) as (old&ok&m'&ht'&t'&Hrem&HR'&Hc&_).
  pose proof (Rep_Inv _ _ _ _ HR) as HI. pose proof (Rep_Inv _ _ _ _ HR') as HI'.
  exists (old, ok), m'. split; [done|]. split.
  - eapply Find_absent; [done|]. rewrite Hc.
    intros ([k0 x]&Hk&Hin)%list_elem_of_fmap. simpl in Hk. subst k0.
    apply elem_of_kv_remove in Hin as [_ Hne]. done.
  - intros k' Hne. eapply Find_agree; [done|done|].
    intros x. rewrite Hc, elem_of_kv_remove. tauto.
Qed.

(** X5 (Insert, then Remove): on a map built by the public operations,
    [Insert(k, v)] followed by [Remove(k)] returns [v] and [true] from
    [Remove] and leaves the pairs of before without the key [k]; when
    [k] was not stored, the pairs and [Len()] are as before. *)
Theorem X5_insert_then_remove os m k v :
  run_ops os New = Some m →
  ∃ kvs r m1 m2,
    Seq m (Begin m) = Some kvs ∧
    Insert zeroV k v m = Some (r, m1) ∧
    Remove zeroV k m1 = Some ((v, true), m2) ∧
    Seq m2 (Begin m2) = Some (filter (λ kv, kv.1 ≠ k) kvs) ∧
    (k ∉ kvs.*1 → Seq m2 (Begin m2) = Some kvs ∧ Len m2 = Len m).
Proof.
  intros Hrun. destruct (run_Rep zeroV os m Hrun) as (ht&t&HR).
  destruct (Insert_model k v m ht t HR) as (r&m1&ht1&t1&Hins&HR1&Hc1).
  destruct (Remove_model k m1 ht1 t1 HR1) as (old&ok&m2&ht2&t2&Hrem&HR2&Hc2&Hres).
  pose proof (Rep_Inv _ _ _ _ HR) as HI. pose proof (Rep_Inv _ _ _ _ HR1) as HI1.
  pose proof (Rep_Inv _ _ _ _ HR2) as HI2.
  assert (Hin : (k, v) ∈ contents t1).
  { rewrite Hc1. apply elem_of_kv_insert_here. }
  assert (ok = true ∧ old = v) as [-> ->].
  { destruct ok.
    - split; [done|]. by eapply (Inv_functional zeroV m1).
    - destruct Hres as [_ Hn]. exfalso. apply Hn. apply list_elem_of_fmap.
      by exists (k, v). }
  rewrite Hc1, kv_remove_insert in Hc2.
  exists (contents t), r, m1, m2. split_and!; try done.
  - by apply Inv_Seq in HI.
  - apply Inv_Seq in HI2. by rewrite Hc2 in HI2.
  - intros Hn. rewrite kv_remove_absent in Hc2 by done. split.
    + apply Inv_Seq in HI2. by rewrite Hc2 in HI2.
    + by rewrite (Inv_Len _ _ _ HI), (Inv_Len _ _ _ HI2), Hc2.
Qed.

(** X6 (runs keep order and count): every run of the public operations
    from the empty map succeeds, no index leaves its array and no nil
    pointer is followed; afterwards iteration yields pairs with strictly
    ascending keys, [Len()] is their number, and [Keys()] and [Values()]
    yield their keys and values. *)
Theorem X6_runs_keep_order os :
  ∃ m kvs,
    run_ops os New = Some m ∧ Seq m (Begin m) = Some kvs ∧
    StronglySorted Z.lt kvs.*1 ∧ Len m = Z.of_nat (length kvs) ∧
    Keys m = Some kvs.*1 ∧ Values m = Some kvs.*2.
Proof.
  destruct (run_ops_New zeroV os) as (m&ht&t&Hrun&HR).
  pose proof (Rep_Inv _ _ _ _ HR) as HI.
  exists m, (contents t). split_and!; try done.
  - by apply Inv_Seq in HI.
  - by eapply Inv_sorted.
  - by eapply Inv_Len.
  - unfold Keys. by rewrite (Inv_Seq _ _ _ HI).
  - unfold Values. by rewrite (Inv_Seq _ _ _ HI).
Qed.

(** X7 (the map is an ordered list of pairs): after every run of
    [Insert], [Remove], [RemoveIter(LowerBound(k))] and [Clear] from the
    empty map, iteration yields the list obtained by the same run on an
    ordered list of pairs (insert in order or replace, drop the key,
    drop the first pair not below the key, empty the list), and [Len()]
    is its length. *)
Theorem X7_runs_refine_model os :
  ∃ m, run_ops os New = Some m ∧
       Seq m (Begin m) = Some (model_run os) ∧
       Len m = Z.of_nat (length (model_run os)).
Proof.
  destruct (run_ops_model zeroV os New 0 (ALeaf 0 []) (Rep_New zeroV))
    as (m&ht&t&Hrun&HR&Hc).
  pose proof (Rep_Inv _ _ _ _ HR) as HI.
  exists m. split; [done|]. unfold model_run. change (contents (ALeaf 0 [])) with (@nil (Z * V)) in Hc.
  rewrite <- Hc. split; [by apply Inv_Seq in HI|by eapply Inv_Len].
Qed.

(** X8 (Clear): after [Clear()] on a map built by the public operations
    [Len()] is 0, iteration yields nothing, [Begin()] is at the end,
    and [Find] finds no key; on a map whose [Len()] is 0, [Clear()]
    leaves the map as it is. *)
Theorem X8_clear os m :
  run_ops os New = Some m →
  Len (Clear zeroV m) = 0%Z ∧
  Seq (Clear zeroV m) (Begin (Clear zeroV m)) = Some [] ∧
  it_End (Clear zeroV m) (Begin (Clear zeroV m)) = Some true ∧
  (∀ k, Find zeroV k (Clear zeroV m) = Some ((zeroV, false), Clear zeroV m)) ∧
  (Len m = 0%Z → Clear zeroV m = m).
Proof.
  intros Hrun. destruct (run_Rep zeroV os m Hrun) as (ht&t&HR).
  destruct (Clear_Rep zeroV m ht t HR) as (ht'&t'&HR'&Hc).
  pose proof (Rep_Inv _ _ _ _ HR') as HI'. rewrite Hc in HI'.
  assert (HLen : Len (Clear zeroV m) = 0%Z) by (by rewrite (Inv_Len _ _ _ HI')).
  split_and!.
  - done.
  - by apply Inv_Seq in HI'.
  - rewrite (it_End_Begin zeroV _ _ (Rep_Chain _ _ _ _ HR')). f_equal.
    by apply bool_decide_eq_true.
  - intros k. eapply Find_absent; [done|]. by intros ?%elem_of_nil.
  - unfold Len, Clear. intros ->. done.
Qed.

(** X9 (the ends of a map): on a map built by the public operations,
    [Begin()] of the iterator [Begin()] is true, [End()] of the
    iterator [End()] is true, [End()] is reached from [Begin()] by as
    many calls of [Next()] as the map has pairs, and the iterator
    [Begin()] is at the end exactly when [Len()] is 0. *)
Theorem X9_begin_end os m :
  run_ops os New = Some m →
  ∃ kvs e,
    Seq m (Begin m) = Some kvs ∧
    it_Begin m (Begin m) = Some true ∧
    End m = Some e ∧ it_End m e = Some true ∧
    iter_at m (length kvs) = Some e ∧
    it_End m (Begin m) = Some (bool_decide (Len m = 0%Z)).
Proof.
  intros Hrun. destruct (run_Rep zeroV os m Hrun) as (ht&t&HR).
  pose proof (Rep_Inv _ _ _ _ HR) as HI. pose proof (Rep_Chain _ _ _ _ HR) as HC.
  destruct (Chain_End zeroV m _ HC) as (e&He&Hend).
  exists (contents t), e. split_and!; try done.
  - by apply Inv_Seq in HI.
  - by eapply it_Begin_Begin.
  - by eapply it_End_end.
  - destruct (iter_at_pos zeroV m (aleaves t) (length (contents t)) HC) as (it&Hit&Hpos).
    { unfold total. by fold (contents t). }
    rewrite Hit. f_equal. eapply pos_or_end_inj; [done|]. right. done.
  - by eapply it_End_Begin.
Qed.

(** X10 (Next and Prev): on a map built by the public operations, for
    the iterator at the pair number [p], [Next()] is the iterator at
    the pair number [p + 1] (or [End()] after the last pair), it is not
    [Begin()], and [Prev()] of it is the iterator one started from. *)
Theorem X10_next_prev os m p it :
  run_ops os New = Some m → iter_at m p = Some it → (Z.of_nat p < Len m)%Z →
  ∃ it',
    it_Next m it = Some it' ∧ iter_at m (S p) = Some it' ∧
    it_Begin m it = Some (bool_decide (p = 0)) ∧
    it_Prev m it' = Some it ∧
    (Z.of_nat (S p) = Len m → End m = Some it').
Proof.
  intros Hrun Hit Hp. destruct (run_Rep zeroV os m Hrun) as (ht&t&HR).
  pose proof (Rep_Inv _ _ _ _ HR) as HI. pose proof (Rep_Chain _ _ _ _ HR) as HC.
  rewrite (Inv_Len _ _ _ HI) in Hp.
  assert (Hp' : p < length (total (aleaves t))) by (unfold total; fold (contents t); lia).
  destruct (iter_at_pos zeroV m (aleaves t) p HC) as (it0&Hit0&Hpos); [lia|].
  rewrite Hit in Hit0. inversion Hit0; subst it0. clear Hit0.
  apply pos_or_end_lt in Hpos; [|done].
  destruct (it_Next_pos _ _ _ _ _ HC Hpos) as (it'&Hnext&Hpos').
  destruct (it_Prev_pos zeroV m _ it' p HC Hpos') as (it''&Hprev&Hpos'').
  exists it'. split_and!; try done.
  - simpl. rewrite Hit. simpl. done.
  - by eapply it_Begin_pos.
  - rewrite Hprev. f_equal. by eapply at_pos_inj.
  - intros Hlast. rewrite (Inv_Len _ _ _ HI) in Hlast.
    destruct Hpos' as [Hpos'|[_ Hend]]; [|by eapply End_at_end].
    apply at_pos_lt in Hpos'. unfold total in Hpos'. fold (contents t) in Hpos'. lia.
Qed.

(** X11 (SetValue): on a map built by the public operations,
    [SetValue(v)] of the iterator at the pair number [p] replaces the
    value of that pair and nothing else: the keys, the other values and
    [Len()] are as before, [Value()] of the iterator and [Find] of its
    key return [v], and every further run of the public operations
    succeeds. *)
Theorem X11_set_value os m p it v :
  run_ops os New = Some m → iter_at m p = Some it → (Z.of_nat p < Len m)%Z →
  ∃ kvs k v0 m',
    Seq m (Begin m) = Some kvs ∧ kvs !! p = Some (k, v0) ∧
    it_SetValue m it v = Some m' ∧
    Seq m' (Begin m') = Some (<[p := (k, v)]> kvs) ∧ Len m' = Len m ∧
    it_Key m' it = Some k ∧ it_Value m' it = Some v ∧
    Find zeroV k m' = Some ((v, true), m') ∧
    (∀ os', ∃ m'', run_ops os' m' = Some m'').
Proof.
  intros Hrun Hit Hp. destruct (run_Rep zeroV os m Hrun) as (ht&t&HR).
  pose proof (Rep_Inv _ _ _ _ HR) as HI. pose proof (Rep_Chain _ _ _ _ HR) as HC.
  rewrite (Inv_Len _ _ _ HI) in Hp.
  assert (Hp' : p < length (total (aleaves t))) by (unfold total; fold (contents t); lia).
  destruct (iter_at_pos zeroV m (aleaves t) p HC) as (it0&Hit0&Hpos); [lia|].
  rewrite Hit in Hit0. inversion Hit0; subst it0. clear Hit0.
  apply pos_or_end_lt in Hpos; [|done].
  destruct (SetValue_Rep zeroV m ht t it p v HR Hpos) as (m'&t'&k&v0&Hset&HR'&Hkv&Hc'&Hpos').
  pose proof (Rep_Inv _ _ _ _ HR') as HI'. pose proof (Rep_Chain _ _ _ _ HR') as HC'.
  assert (Hlook : contents t' !! p = Some (k, v)).
  { rewrite Hc'. apply list_lookup_insert_eq. by eapply lookup_lt_Some. }
  destruct (it_Key_Value zeroV m' _ it p k v HC' Hpos' Hlook) as [Hk Hv].
  exists (contents t), k, v0, m'. split_and!; try done.
  - by apply Inv_Seq in HI.
  - rewrite <- Hc'. by apply Inv_Seq in HI'.
  - by rewrite (Inv_Len _ _ _ HI), (Inv_Len _ _ _ HI'), Hc', length_insert.
  - eapply Find_present; [done|]. by eapply list_elem_of_lookup_2.
  - intros os'. destruct (run_ops_Rep zeroV os' m' ht t' HR') as (m''&_&_&Hrun'&_).
    eauto.
Qed.

(** X12 (the sizes of the nodes): after every run of the public
    operations, every node of the tree holds at most [2D] entries, every
    node but the root holds at least [D], and a root that is an interior
    node holds at least 2. *)
Theorem X12_node_sizes os m x :
  run_ops os New = Some m → reach m x →
  ∃ n, Size m x = Some n ∧ n ≤ maxNodes ∧
       (x ≠ m_root m → minNodes ≤ n) ∧
       (x = m_root m → ∀ nd, get_inode m x = Some nd → 2 ≤ n).
Proof.
  intros Hrun Hx. destruct (run_Rep zeroV os m Hrun) as (ht&t&HR).
  destruct (reach_located zeroV m ht t x HR Hx) as (ht'&lo&hi&t'&Hloc).
  exists (asize t'). by eapply located_size_bounds.
Qed.

(** X13 (the leaves are at one depth): after every run of the public
    operations, any two leaves of the tree are at the same depth below
    the root. *)
Theorem X13_leaves_same_depth os m d1 d2 x1 x2 l1 l2 :
  run_ops os New = Some m →
  reach_at m d1 x1 → reach_at m d2 x2 →
  get_leaf m x1 = Some l1 → get_leaf m x2 = Some l2 →
  d1 = d2.
Proof.
  intros Hrun H1 H2 Hl1 Hl2. destruct (run_Rep zeroV os m Hrun) as (ht&t&HR).
  destruct (reach_at_located zeroV m ht t d1 x1 HR H1) as (Hd1&lo1&hi1&t1&Hloc1).
  destruct (reach_at_located zeroV m ht t d2 x2 HR H2) as (Hd2&lo2&hi2&t2&Hloc2).
  pose proof (located_leaf_height zeroV _ _ _ _ _ _ _ Hloc1 Hl1).
  pose proof (located_leaf_height zeroV _ _ _ _ _ _ _ Hloc2 Hl2). lia.
Qed.

(** X14 (shiftRight): at an interior node of the tree of a map built by
    the public operations, [shiftRight] on the siblings [child[i]] of
    size [Lsz] and [child[i+1]] of size [Rsz], with [Rsz <= Lsz + 1],
    succeeds and leaves the right sibling with [(Lsz+Rsz+1)/2] entries,
    the quotient rounded down, and the left sibling with the rest. *)
Theorem X14_shift_right_sizes os m x nd i (l r : addr) Lsz Rsz :
  run_ops os New = Some m → reach m x → get_inode m x = Some nd →
  i + 1 < in_n nd →
  in_nodes nd !! i = Some (Some l) → in_nodes nd !! (i + 1) = Some (Some r) →
  Size m l = Some Lsz → Size m r = Some Rsz → Rsz ≤ Lsz + 1 →
  ∃ m' Lsz' Rsz',
    shiftRight zeroV x i m = Some m' ∧
    Size m' l = Some Lsz' ∧ Size m' r = Some Rsz' ∧
    Rsz' = (Lsz + Rsz + 1) / 2 ∧ Lsz' + Rsz' = Lsz + Rsz ∧
    Lsz' ≤ Rsz' ≤ Lsz' + 1.
Proof.
  intros Hrun Hx Hnd Hi Hl Hr HL HR Hle.
  destruct (run_Rep zeroV os m Hrun) as (ht&t&HRep).
  destruct (reach_located zeroV m ht t x HRep Hx) as (ht'&lo&hi&t'&Hloc).
  destruct (located_shiftRight zeroV m x ht' lo hi t' nd i l r Lsz Rsz Hloc Hnd Hi Hl Hr HL HR Hle)
    as (m'&Hrun'&H1&H2).
  exists m', (Lsz + Rsz - (Lsz + Rsz + 1) / 2), ((Lsz + Rsz + 1) / 2).
  split_and!; try done; halve (Lsz + Rsz + 1); lia.
Qed.

(** X15 (mergeNode): at an interior node of the tree of a map built by
    the public operations, [mergeNode] on the siblings [child[i]] and
    [child[i+1]] whose sizes add up to at most [2D] succeeds, returns
    the left sibling, which then has the entries of both: its size is
    the sum of the two sizes, and the pairs stored below it are exactly
    the pairs that were stored below the one or the other sibling;
    [Len()] is kept; when the node is the root and has two children, the
    left sibling becomes the root, otherwise the root stays and the node
    holds one entry less. *)
Theorem X15_merge_node os m x nd i (l r : addr) Lsz Rsz :
  run_ops os New = Some m → reach m x → get_inode m x = Some nd →
  i + 1 < in_n nd →
  in_nodes nd !! i = Some (Some l) → in_nodes nd !! (i + 1) = Some (Some r) →
  Size m l = Some Lsz → Size m r = Some Rsz → Lsz + Rsz ≤ maxNodes →
  ∃ m', mergeNode x i m = Some (l, m') ∧
        Size m' l = Some (Lsz + Rsz) ∧ Len m' = Len m ∧
        (if decide (m_root m = x ∧ in_n nd = 2)
         then m_root m' = l
         else m_root m' = m_root m ∧ Size m' x = Some (in_n nd - 1)) ∧
        (∀ k v, holds m' l k v ↔ holds m l k v ∨ holds m r k v).
Proof.
  intros Hrun Hx Hnd Hi Hl Hr HL HR Hle.
  destruct (run_Rep zeroV os m Hrun) as (ht&t&HRep).
  destruct (reach_located zeroV m ht t x HRep Hx) as (ht'&lo&hi&t'&Hloc).
  by eapply located_mergeNode.
Qed.

(** X16 (splitRoot): on a map built by the public operations whose root
    is full, [splitRoot] succeeds; the new root is an interior node with
    two entries, the pairs that iteration yields and [Len()] are as
    before, and every further run of the public operations succeeds. *)
Theorem X16_split_root os m :
  run_ops os New = Some m → Size m (m_root m) = Some maxNodes →
  ∃ kvs m' nd,
    Seq m (Begin m) = Some kvs ∧ splitRoot zeroV m = Some m' ∧
    get_inode m' (m_root m') = Some nd ∧ in_n nd = 2 ∧
    Seq m' (Begin m') = Some kvs ∧ Len m' = Len m ∧
    (∀ os', ∃ m'', run_ops os' m' = Some m'').
Proof.
  intros Hrun Hsz. destruct (run_Rep zeroV os m Hrun) as (ht&t&HR).
  pose proof (Rep_Inv _ _ _ _ HR) as HI.
  assert (Hfull : asize t = maxNodes).
  { destruct HR as (Hroot&HL&_).
    pose proof (LocF_repr_in _ _ _ _ _ t HL ltac:(apply list_elem_of_here)) as Hr.
    rewrite <- Hroot, (Size_repr zeroV m t Hr) in Hsz. by inversion Hsz. }
  destruct (splitRoot_ok zeroV m ht t HR Hfull) as (m'&t'&Hsplit&HR'&Hc&Hs).
  pose proof (Rep_Inv _ _ _ _ HR') as HI'.
  pose proof HR' as (Hroot'&HL'&Hwf'&_).
  destruct (wf_node _ _ _ _ Hwf') as (a&ks&cs&->).
  destruct (LocF_node_open _ _ _ _ _ _ _ HL') as (Ha&_).
  simpl in Hroot', Hs.
  exists (contents t), m', (node_rec ks cs). split_and!; try done.
  - by apply Inv_Seq in HI.
  - unfold get_inode. by rewrite <- Hroot', Ha.
  - rewrite <- Hc. by apply Inv_Seq in HI'.
  - by rewrite (Inv_Len _ _ _ HI), (Inv_Len _ _ _ HI'), Hc.
  - intros os'. destruct (run_ops_Rep zeroV os' m' _ _ HR') as (m''&_&_&Hrun'&_).
    eauto.
Qed.


(** X18 (the place of LowerBound): on a map built by the public
    operations, [LowerBound(k)] is the iterator reached from [Begin()]
    by as many calls of [Next()] as there are stored keys below [k]. *)
Theorem X18_lower_bound_place os m k :
  run_ops os New = Some m →
  ∃ kvs it,
    Seq m (Begin m) = Some kvs ∧ LowerBound k m = Some (it, m) ∧
    iter_at m (length (filter (λ kv, (kv.1 < k)%Z) kvs)) = Some it.
Proof.
  intros Hrun. destruct (run_Rep zeroV os m Hrun) as (ht&t&HR).
  pose proof (Rep_Inv _ _ _ _ HR) as HI. pose proof (Rep_Chain _ _ _ _ HR) as HC.
  destruct (LowerBound_Rep zeroV k m ht t HR) as (it&p&Hlb&Hpos&Hp).
  exists (contents t), it. split; [by apply Inv_Seq in HI|]. split; [done|].
  rewrite <- (lb_pos_count _ _ _ Hp).
  destruct (iter_at_pos zeroV m (aleaves t) p HC) as (it0&Hit0&Hpos0).
  { unfold total. fold (contents t). by destruct Hp. }
  rewrite Hit0. f_equal. by eapply pos_or_end_inj.
Qed.
End Extras.

(** * Lookups, iterators and rebalancing on sample maps *)

(** 34 descending insertions: a root with two leaves of 18 and 16 pairs. *)
Definition ops34d : list (op Z) := inserts (reverse (sample_pairs 34)).

(** The leaf at an address, an empty leaf when there is none. *)
Definition leaf_at (m : @Map Z) (x : addr) : leafNode :=
default (mkLeaf None None [] [] 0) (get_leaf m x).

Local Abbreviation m40 := (map_after ops40).
Local Abbreviation m32 := (map_after ops32).
Local Abbreviation m33r := (map_after ops33r).
Local Abbreviation m34d := (map_after ops34d).

Lemma X2_find_contract_witness :
run_ops 0%Z ops40 (New 0%Z) = Some m40 ∧
∃ kvs v ok,
  Seq m40 (Begin m40) = Some kvs ∧ Find 0%Z 17%Z m40 = Some ((v, ok), m40) ∧
  (if ok : bool then (17%Z, v) ∈ kvs else v = 0%Z ∧ (17%Z ∉ kvs.*1)).
Proof.
assert (H : run_ops 0%Z ops40 (New 0%Z) = Some m40) by (vm_compute; reflexivity).
split; [exact H|].
exact (X2_find_contract 0%Z ops40 m40 17%Z H).
Defined.

Lemma X3_insert_then_find_witness :
run_ops 0%Z ops40 (New 0%Z) = Some m40 ∧
∃ r m',
  Insert 0%Z 100%Z 5%Z m40 = Some (r, m') ∧
  Find 0%Z 100%Z m' = Some ((5%Z, true), m') ∧
  ∀ k', k' ≠ 100%Z →
    ∃ res, Find 0%Z k' m40 = Some (res, m40) ∧ Find 0%Z k' m' = Some (res, m').
Proof.
assert (H : run_ops 0%Z ops40 (New 0%Z) = Some m40) by (vm_compute; reflexivity).
split; [exact H|].
exact (X3_insert_then_find 0%Z ops40 m40 100%Z 5%Z H).
Defined.

Lemma X4_remove_then_find_witness :
run_ops 0%Z ops40 (New 0%Z) = Some m40 ∧
∃ r m',
  Remove 0%Z 17%Z m40 = Some (r, m') ∧
  Find 0%Z 17%Z m' = Some ((0%Z, false), m') ∧
  ∀ k', k' ≠ 17%Z →
    ∃ res, Find 0%Z k' m40 = Some (res, m40) ∧ Find 0%Z k' m' = Some (res, m').
Proof.
assert (H : run_ops 0%Z ops40 (New 0%Z) = Some m40) by (vm_compute; reflexivity).
split; [exact H|].
exact (X4_remove_then_find 0%Z ops40 m40 17%Z H).
Defined.

Lemma X5_insert_then_remove_witness :
run_ops 0%Z ops40 (New 0%Z) = Some m40 ∧
∃ kvs r m1 m2,
  Seq m40 (Begin m40) = Some kvs ∧
  Insert 0%Z 100%Z 5%Z m40 = Some (r, m1) ∧
  Remove 0%Z 100%Z m1 = Some ((5%Z, true), m2) ∧
  Seq m2 (Begin m2) = Some (filter (λ kv, kv.1 ≠ 100%Z) kvs) ∧
  (100%Z ∉ kvs.*1 → Seq m2 (Begin m2) = Some kvs ∧ Len m2 = Len m40).
Proof.
assert (H : run_ops 0%Z ops40 (New 0%Z) = Some m40) by (vm_compute; reflexivity).
split; [exact H|].
exact (X5_insert_then_remove 0%Z ops40 m40 100%Z 5%Z H).
Defined.

Lemma X8_clear_witness :
run_ops 0%Z ops40 (New 0%Z) = Some m40 ∧
Len (Clear 0%Z m40) = 0%Z ∧
Seq (Clear 0%Z m40) (Begin (Clear 0%Z m40)) = Some [] ∧
it_End (Clear 0%Z m40) (Begin (Clear 0%Z m40)) = Some true ∧
(∀ k, Find 0%Z k (Clear 0%Z m40) = Some ((0%Z, false), Clear 0%Z m40)) ∧
(Len m40 = 0%Z → Clear 0%Z m40 = m40).
Proof.
assert (H : run_ops 0%Z ops40 (New 0%Z) = Some m40) by (vm_compute; reflexivity).
split; [exact H|].
exact (X8_clear 0%Z ops40 m40 H).
Defined.

Lemma X9_begin_end_witness :
run_ops 0%Z ops40 (New 0%Z) = Some m40 ∧
∃ kvs e,
  Seq m40 (Begin m40) = Some kvs ∧
  it_Begin m40 (Begin m40) = Some true ∧
  End m40 = Some e ∧ it_End m40 e = Some true ∧
  iter_at m40 (length kvs) = Some e ∧
  it_End m40 (Begin m40) = Some (bool_decide (Len m40 = 0%Z)).
Proof.
assert (H : run_ops 0%Z ops40 (New 0%Z) = Some m40) by (vm_compute; reflexivity).
split; [exact H|].
exact (X9_begin_end 0%Z ops40 m40 H).
Defined.

(** the step from the last pair of the first leaf to the first pair of the
  second leaf, and back *)
Lemma X10_next_prev_witness :
run_ops 0%Z ops40 (New 0%Z) = Some m40 ∧
iter_at m40 15 = Some (mkIt 0 15) ∧
(Z.of_nat 15 < Len m40)%Z ∧
∃ it',
  it_Next m40 (mkIt 0 15) = Some it' ∧ iter_at m40 (S 15) = Some it' ∧
  it_Begin m40 (mkIt 0 15) = Some (bool_decide (15 = 0)) ∧
  it_Prev m40 it' = Some (mkIt 0 15) ∧
  (Z.of_nat (S 15) = Len m40 → End m40 = Some it').
Proof.
assert (H : run_ops 0%Z ops40 (New 0%Z) = Some m40) by (vm_compute; reflexivity).
assert (Hit : iter_at m40 15 = Some (mkIt 0 15)) by (vm_compute; reflexivity).
assert (Hp : (Z.of_nat 15 < Len m40)%Z) by (vm_compute; reflexivity).
split; [exact H|]. split; [exact Hit|]. split; [exact Hp|].
exact (X10_next_prev 0%Z ops40 m40 15 (mkIt 0 15) H Hit Hp).
Defined.

Lemma X11_set_value_witness :
run_ops 0%Z ops40 (New 0%Z) = Some m40 ∧
iter_at m40 15 = Some (mkIt 0 15) ∧
(Z.of_nat 15 < Len m40)%Z ∧
∃ kvs k v0 m',
  Seq m40 (Begin m40) = Some kvs ∧ kvs !! 15 = Some (k, v0) ∧
  it_SetValue m40 (mkIt 0 15) 7%Z = Some m' ∧
  Seq m' (Begin m') = Some (<[15 := (k, 7%Z)]> kvs) ∧ Len m' = Len m40 ∧
  it_Key m' (mkIt 0 15) = Some k ∧ it_Value m' (mkIt 0 15) = Some 7%Z ∧
  Find 0%Z k m' = Some ((7%Z, true), m') ∧
  (∀ os', ∃ m'', run_ops 0%Z os' m' = Some m'').
Proof.
assert (H : run_ops 0%Z ops40 (New 0%Z) = Some m40) by (vm_compute; reflexivity).
assert (Hit : iter_at m40 15 = Some (mkIt 0 15)) by (vm_compute; reflexivity).
assert (Hp : (Z.of_nat 15 < Len m40)%Z) by (vm_compute; reflexivity).
split; [exact H|]. split; [exact Hit|]. split; [exact Hp|].
exact (X11_set_value 0%Z ops40 m40 15 (mkIt 0 15) 7%Z H Hit Hp).
Defined.

(** the second leaf below the root *)
Lemma X12_node_sizes_witness :
run_ops 0%Z ops40 (New 0%Z) = Some m40 ∧
reach m40 1 ∧
∃ n, Size m40 1 = Some n ∧ n ≤ maxNodes ∧
     (1 ≠ m_root m40 → minNodes ≤ n) ∧
     (1 = m_root m40 → ∀ nd, get_inode m40 1 = Some nd → 2 ≤ n).
Proof.
assert (H : run_ops 0%Z ops40 (New 0%Z) = Some m40) by (vm_compute; reflexivity).
assert (Hn : get_inode m40 (m_root m40) = Some (root_node m40))
  by (vm_compute; reflexivity).
assert (Hi : 1 < in_n (root_node m40)) by (vm_compute; lia).
assert (Hc : in_nodes (root_node m40) !! 1 = Some (Some 1)) by (vm_compute; reflexivity).
assert (Hr : reach m40 1)
  by exact (reach_child m40 (m_root m40) (root_node m40) 1 1 (reach_root m40) Hn Hi Hc).
split; [exact H|]. split; [exact Hr|].
exact (X12_node_sizes 0%Z ops40 m40 1 H Hr).
Defined.

Lemma X13_leaves_same_depth_witness :
run_ops 0%Z ops40 (New 0%Z) = Some m40 ∧
reach_at m40 1 0 ∧ reach_at m40 1 1 ∧
get_leaf m40 0 = Some (leaf_at m40 0) ∧ get_leaf m40 1 = Some (leaf_at m40 1) ∧
1 = 1.
Proof.
assert (H : run_ops 0%Z ops40 (New 0%Z) = Some m40) by (vm_compute; reflexivity).
assert (Hn : get_inode m40 (m_root m40) = Some (root_node m40))
  by (vm_compute; reflexivity).
assert (Hi0 : 0 < in_n (root_node m40)) by (vm_compute; lia).
assert (Hi1 : 1 < in_n (root_node m40)) by (vm_compute; lia).
assert (Hc0 : in_nodes (root_node m40) !! 0 = Some (Some 0)) by (vm_compute; reflexivity).
assert (Hc1 : in_nodes (root_node m40) !! 1 = Some (Some 1)) by (vm_compute; reflexivity).
assert (Hr0 : reach_at m40 1 0)
  by exact (reach_at_child m40 0 (m_root m40) (root_node m40) 0 0
              (reach_at_root m40) Hn Hi0 Hc0).
assert (Hr1 : reach_at m40 1 1)
  by exact (reach_at_child m40 0 (m_root m40) (root_node m40) 1 1
              (reach_at_root m40) Hn Hi1 Hc1).
assert (Hl0 : get_leaf m40 0 = Some (leaf_at m40 0)) by (vm_compute; reflexivity).
assert (Hl1 : get_leaf m40 1 = Some (leaf_at m40 1)) by (vm_compute; reflexivity).
split; [exact H|]. split; [exact Hr0|]. split; [exact Hr1|].
split; [exact Hl0|]. split; [exact Hl1|].
exact (X13_leaves_same_depth 0%Z ops40 m40 1 1 0 1 (leaf_at m40 0) (leaf_at m40 1)
         H Hr0 Hr1 Hl0 Hl1).
Defined.

(** leaves of 18 and 16 pairs: one pair moves to the right *)
Lemma X14_shift_right_sizes_witness :
run_ops 0%Z ops34d (New 0%Z) = Some m34d ∧
reach m34d (m_root m34d) ∧
get_inode m34d (m_root m34d) = Some (root_node m34d) ∧
0 + 1 < in_n (root_node m34d) ∧
in_nodes (root_node m34d) !! 0 = Some (Some 0) ∧
in_nodes (root_node m34d) !! (0 + 1) = Some (Some 1) ∧
Size m34d 0 = Some 18 ∧ Size m34d 1 = Some 16 ∧
16 ≤ 18 + 1 ∧
∃ m' Lsz' Rsz',
  shiftRight 0%Z (m_root m34d) 0 m34d = Some m' ∧
  Size m' 0 = Some Lsz' ∧ Size m' 1 = Some Rsz' ∧
  Rsz' = (18 + 16 + 1) / 2 ∧ Lsz' + Rsz' = 18 + 16 ∧
  Lsz' ≤ Rsz' ≤ Lsz' + 1.
Proof.
assert (H : run_ops 0%Z ops34d (New 0%Z) = Some m34d) by (vm_compute; reflexivity).
assert (Hn : get_inode m34d (m_root m34d) = Some (root_node m34d))
  by (vm_compute; reflexivity).
assert (Hi : 0 + 1 < in_n (root_node m34d)) by (vm_compute; lia).
assert (Hl : in_nodes (root_node m34d) !! 0 = Some (Some 0)) by (vm_compute; reflexivity).
assert (Hr : in_nodes (root_node m34d) !! (0 + 1) = Some (Some 1))
  by (vm_compute; reflexivity).
assert (HL : Size m34d 0 = Some 18) by (vm_compute; reflexivity).
assert (HR : Size m34d 1 = Some 16) by (vm_compute; reflexivity).
assert (Hle : 16 ≤ 18 + 1) by lia.
split; [exact H|]. split; [apply reach_root|]. split; [exact Hn|].
split; [exact Hi|]. split; [exact Hl|]. split; [exact Hr|].
split; [exact HL|]. split; [exact HR|]. split; [exact Hle|].
exact (X14_shift_right_sizes 0%Z ops34d m34d (m_root m34d) (root_node m34d)
         0 0 1 18 16 H (reach_root _) Hn Hi Hl Hr HL HR Hle).
Defined.

(** two leaves of 16 pairs below the root: the merged leaf becomes the root *)
Lemma X15_merge_node_witness :
run_ops 0%Z ops33r (New 0%Z) = Some m33r ∧
reach m33r (m_root m33r) ∧
get_inode m33r (m_root m33r) = Some (root_node m33r) ∧
0 + 1 < in_n (root_node m33r) ∧
in_nodes (root_node m33r) !! 0 = Some (Some 0) ∧
in_nodes (root_node m33r) !! (0 + 1) = Some (Some 1) ∧
Size m33r 0 = Some 16 ∧ Size m33r 1 = Some 16 ∧
16 + 16 ≤ maxNodes ∧
∃ m', mergeNode (m_root m33r) 0 m33r = Some (0, m') ∧
      Size m' 0 = Some (16 + 16) ∧ Len m' = Len m33r ∧
      (if decide (m_root m33r = m_root m33r ∧ in_n (root_node m33r) = 2)
       then m_root m' = 0
       else m_root m' = m_root m33r ∧
            Size m' (m_root m33r) = Some (in_n (root_node m33r) - 1)) ∧
      (∀ k v, holds m' 0 k v ↔ holds m33r 0 k v ∨ holds m33r 1 k v).
Proof.
assert (H : run_ops 0%Z ops33r (New 0%Z) = Some m33r) by (vm_compute; reflexivity).
assert (Hn : get_inode m33r (m_root m33r) = Some (root_node m33r))
  by (vm_compute; reflexivity).
assert (Hi : 0 + 1 < in_n (root_node m33r)) by (vm_compute; lia).
assert (Hl : in_nodes (root_node m33r) !! 0 = Some (Some 0)) by (vm_compute; reflexivity).
assert (Hr : in_nodes (root_node m33r) !! (0 + 1) = Some (Some 1))
  by (vm_compute; reflexivity).
assert (HL : Size m33r 0 = Some 16) by (vm_compute; reflexivity).
assert (HR : Size m33r 1 = Some 16) by (vm_compute; reflexivity).
assert (Hle : 16 + 16 ≤ maxNodes) by (vm_compute; lia).
split; [exact H|]. split; [apply reach_root|]. split; [exact Hn|].
split; [exact Hi|]. split; [exact Hl|]. split; [exact Hr|].
split; [exact HL|]. split; [exact HR|]. split; [exact Hle|].
exact (X15_merge_node 0%Z ops33r m33r (m_root m33r) (root_node m33r)
         0 0 1 16 16 H (reach_root _) Hn Hi Hl Hr HL HR Hle).
Defined.

(** the root is a full leaf *)
Lemma X16_split_root_witness :
run_ops 0%Z ops32 (New 0%Z) = Some m32 ∧
Size m32 (m_root m32) = Some maxNodes ∧
∃ kvs m' nd,
  Seq m32 (Begin m32) = Some kvs ∧ splitRoot 0%Z m32 = Some m' ∧
  get_inode m' (m_root m') = Some nd ∧ in_n nd = 2 ∧
  Seq m' (Begin m') = Some kvs ∧ Len m' = Len m32 ∧
  (∀ os', ∃ m'', run_ops 0%Z os' m' = Some m'').
Proof.
assert (H : run_ops 0%Z ops32 (New 0%Z) = Some m32) by (vm_compute; reflexivity).
assert (Hs : Size m32 (m_root m32) = Some maxNodes) by (vm_compute; reflexivity).
split; [exact H|]. split; [exact Hs|].
exact (X16_split_root 0%Z ops32 m32 H Hs).
Defined.


Lemma X18_lower_bound_place_witness :
run_ops 0%Z ops40 (New 0%Z) = Some m40 ∧
∃ kvs it,
  Seq m40 (Begin m40) = Some kvs ∧ LowerBound 16%Z m40 = Some (it, m40) ∧
  iter_at m40 (length (filter (λ kv, (kv.1 < 16)%Z) kvs)) = Some it.
Proof.
assert (H : run_ops 0%Z ops40 (New 0%Z) = Some m40) by (vm_compute; reflexivity).
split; [exact H|].
exact (X18_lower_bound_place 0%Z ops40 m40 16%Z H).
Defined.
